(** * A shallow embedding of the playground's neural-network engine (nn.ts)
      and of the URL-hash configuration reader (state.ts).

    JavaScript numbers are IEEE-754 binary64 values, so they are modelled by
    Rocq's primitive [float]; objects live in a store and are named by
    references, so that a [Link] reached through [dest.inputLinks] and through
    [source.outputs] is one and the same object. *)

From Stdlib Require Import Floats.PrimFloat Floats.FloatClass Floats.FloatAxioms
  Floats.SpecFloat Floats.FloatOps.
From Stdlib Require Import Strings.Ascii.
From stdpp Require Import base option list strings gmap pretty.

Set Warnings "-inexact-float,-register-all".

(** ** Numbers *)

Abbreviation number := float (only parsing).

(** A number field that was declared but never assigned holds [undefined],
    which every arithmetic operator reads as NaN. *)
Definition undefined_number : number := nan.

(** [Math.max] on two arguments: NaN if either is NaN, and +0 above -0. *)
Definition Math_max (a b : number) : number :=
  if is_nan a || is_nan b then nan
  else if (a <? b)%float then b
  else if (b <? a)%float then a
  else match classify a with NZero => b | _ => a end.

(** ** Function tables *)

Module ErrorFunction.
Record t := mk {
  error : number → number → number;
  der : number → number → number
}.
End ErrorFunction.

Module ActivationFunction.
Record t := mk {
  output : number → number;
  der : number → number
}.
End ActivationFunction.

Module RegularizationFunction.
Record t := mk {
  output : number → number;
  der : number → number
}.

Definition L1_table : t := {|
  output := λ w, abs w;
  der := λ w, if (w <? 0)%float then (-1)%float
              else if (0 <? w)%float then 1%float else 0%float
|}.

Definition L2_table : t := {|
  output := λ w, (0.5 * w * w)%float;
  der := λ w, w
|}.

(** The objects that implement the interface.  [updateWeights] compares a
    link's table with [RegularizationFunction.L1] by reference ([===]), so
    the two built-in objects are kept apart from any table a caller
    supplies, even one with the same two functions. *)
Inductive obj :=
  | L1
  | L2
  | custom (f : t).

Definition table (r : obj) : t :=
  match r with
  | L1 => L1_table
  | L2 => L2_table
  | custom f => f
  end.

(** [r === RegularizationFunction.L1] *)
Definition is_L1 (r : obj) : bool :=
  match r with L1 => true | _ => false end.
End RegularizationFunction.

Module Errors.
Section WithMath.
Variable Math_pow : number → number → number.

Definition SQUARE : ErrorFunction.t := {|
  ErrorFunction.error := λ output target,
  (0.5 * Math_pow (output - target) 2)%float;
  ErrorFunction.der := λ output target, (output - target)%float
|}.
End WithMath.
End Errors.

Module Activations.
Section WithMath.
(** [Math.exp], and the engine's own [Math.tanh] when it has one. *)
Variable Math_exp : number → number.
Variable native_tanh : option (number → number).

(** [Math.tanh = Math.tanh || function(x) {...}] *)
Definition Math_tanh : number → number :=
  match native_tanh with
  | Some f => f
  | None => λ x,
    if (x =? infinity)%float then 1%float
    else if (x =? neg_infinity)%float then (-1)%float
    else let e2x := Math_exp (2 * x)%float in
         ((e2x - 1) / (e2x + 1))%float
  end.

Definition TANH : ActivationFunction.t := {|
  ActivationFunction.output := λ x, Math_tanh x;
  ActivationFunction.der := λ x,
  let output := Math_tanh x in (1 - output * output)%float
|}.

Definition SIGMOID : ActivationFunction.t := {|
  ActivationFunction.output := λ x, (1 / (1 + Math_exp (- x)))%float;
  ActivationFunction.der := λ x,
  let output := (1 / (1 + Math_exp (- x)))%float in
  (output * (1 - output))%float
|}.
End WithMath.

Definition RELU : ActivationFunction.t := {|
  ActivationFunction.output := λ x, Math_max 0 x;
  ActivationFunction.der := λ x, if (x <=? 0)%float then 0%float else 1%float
|}.

Definition LINEAR : ActivationFunction.t := {|
  ActivationFunction.output := λ x, x;
  ActivationFunction.der := λ x, 1%float
|}.
End Activations.

(** ** The object graph *)

(** References are positions in the store. *)
Abbreviation NodeRef := nat (only parsing).
Abbreviation LinkRef := nat (only parsing).

Module Node.
Record t := mk {
  id : option string;          (* [None] is [undefined] *)
  inputLinks : list LinkRef;
  bias : number;
  outputs : list LinkRef;
  totalInput : number;
  output : number;
  outputDer : number;
  inputDer : number;
  accInputDer : number;
  numAccumulatedDers : number;
  activation : ActivationFunction.t
}.

(** [new Node(id, activation, initZero)] *)
Definition new (id : option string) (activation : ActivationFunction.t)
    (initZero : bool) : t :=
  {| id := id; inputLinks := []; bias := if initZero then 0%float else 0.1%float;
     outputs := []; totalInput := undefined_number; output := undefined_number;
     outputDer := 0; inputDer := 0; accInputDer := 0; numAccumulatedDers := 0;
     activation := activation |}.

Definition set_inputLinks v (n : t) : t :=
  mk (id n) v (bias n) (outputs n) (totalInput n) (output n) (outputDer n)
     (inputDer n) (accInputDer n) (numAccumulatedDers n) (activation n).
Definition set_bias v (n : t) : t :=
  mk (id n) (inputLinks n) v (outputs n) (totalInput n) (output n) (outputDer n)
     (inputDer n) (accInputDer n) (numAccumulatedDers n) (activation n).
Definition set_outputs v (n : t) : t :=
  mk (id n) (inputLinks n) (bias n) v (totalInput n) (output n) (outputDer n)
     (inputDer n) (accInputDer n) (numAccumulatedDers n) (activation n).
Definition set_totalInput v (n : t) : t :=
  mk (id n) (inputLinks n) (bias n) (outputs n) v (output n) (outputDer n)
     (inputDer n) (accInputDer n) (numAccumulatedDers n) (activation n).
Definition set_output v (n : t) : t :=
  mk (id n) (inputLinks n) (bias n) (outputs n) (totalInput n) v (outputDer n)
     (inputDer n) (accInputDer n) (numAccumulatedDers n) (activation n).
Definition set_outputDer v (n : t) : t :=
  mk (id n) (inputLinks n) (bias n) (outputs n) (totalInput n) (output n) v
     (inputDer n) (accInputDer n) (numAccumulatedDers n) (activation n).
Definition set_inputDer v (n : t) : t :=
  mk (id n) (inputLinks n) (bias n) (outputs n) (totalInput n) (output n)
     (outputDer n) v (accInputDer n) (numAccumulatedDers n) (activation n).
Definition set_accInputDer v (n : t) : t :=
  mk (id n) (inputLinks n) (bias n) (outputs n) (totalInput n) (output n)
     (outputDer n) (inputDer n) v (numAccumulatedDers n) (activation n).
Definition set_numAccumulatedDers v (n : t) : t :=
  mk (id n) (inputLinks n) (bias n) (outputs n) (totalInput n) (output n)
     (outputDer n) (inputDer n) (accInputDer n) v (activation n).
End Node.

Module Link.
Record t := mk {
  id : string;
  source : NodeRef;
  dest : NodeRef;
  weight : number;
  isDead : bool;
  errorDer : number;
  accErrorDer : number;
  numAccumulatedDers : number;
  regularization : option RegularizationFunction.obj   (* [None] is [null] *)
}.

Definition set_weight v (l : t) : t :=
  mk (id l) (source l) (dest l) v (isDead l) (errorDer l) (accErrorDer l)
     (numAccumulatedDers l) (regularization l).
Definition set_isDead v (l : t) : t :=
  mk (id l) (source l) (dest l) (weight l) v (errorDer l) (accErrorDer l)
     (numAccumulatedDers l) (regularization l).
Definition set_errorDer v (l : t) : t :=
  mk (id l) (source l) (dest l) (weight l) (isDead l) v (accErrorDer l)
     (numAccumulatedDers l) (regularization l).
Definition set_accErrorDer v (l : t) : t :=
  mk (id l) (source l) (dest l) (weight l) (isDead l) (errorDer l) v
     (numAccumulatedDers l) (regularization l).
Definition set_numAccumulatedDers v (l : t) : t :=
  mk (id l) (source l) (dest l) (weight l) (isDead l) (errorDer l)
     (accErrorDer l) v (regularization l).
End Link.

(** The store: every [Node] and every [Link] ever constructed, a reference
    being the position of the object in its list. *)
Record Heap := mkHeap {
  nodes : list Node.t;
  links : list Link.t
}.

Definition emptyHeap : Heap := mkHeap [] [].

(** A network is the array of its layers, each an array of node references. *)
Abbreviation Network := (list (list nat)) (only parsing).

(** ** Computations on the store

    An exception leaves the store as it was when it was thrown. *)

Inductive exn :=
  | Error (message : string)   (* [throw new Error(message)] *)
  | TypeError                  (* a property of [undefined] was read or set *)
  | DanglingRef.               (* a reference outside the store *)

Inductive Outcome (A : Type) :=
  | Ok (a : A) (h : Heap)
  | Throw (e : exn) (h : Heap).
Arguments Ok {A} a h.
Arguments Throw {A} e h.

Definition M (A : Type) := Heap → Outcome A.

Definition ret {A} (a : A) : M A := λ h, Ok a h.
Definition throw {A} (e : exn) : M A := λ h, Throw e h.
Definition bind {A B} (m : M A) (k : A → M B) : M B :=
  λ h, match m h with
       | Ok a h' => k a h'
       | Throw e h' => Throw e h'
       end.

#[global] Instance M_ret : MRet M := @ret.
#[global] Instance M_bind : MBind M := λ A B k m, bind m k.

Definition heap_of {A} (o : Outcome A) : Heap :=
  match o with Ok _ h => h | Throw _ h => h end.

Definition alterNode (r : NodeRef) (f : Node.t → Node.t) (h : Heap) : Heap :=
  mkHeap (alter f r (nodes h)) (links h).
Definition alterLink (r : LinkRef) (f : Link.t → Link.t) (h : Heap) : Heap :=
  mkHeap (nodes h) (alter f r (links h)).

Definition getNode (r : NodeRef) : M Node.t :=
  λ h, match nodes h !! r with
       | Some n => Ok n h
       | None => Throw DanglingRef h
       end.
Definition getLink (r : LinkRef) : M Link.t :=
  λ h, match links h !! r with
       | Some l => Ok l h
       | None => Throw DanglingRef h
       end.

(** One assignment statement on a field of the object [r]; the new value may
    depend on the object's current fields, as in [node.accInputDer += ...]. *)
Definition modifyNode (r : NodeRef) (f : Node.t → Node.t) : M unit :=
  λ h, match nodes h !! r with
       | Some _ => Ok tt (alterNode r f h)
       | None => Throw DanglingRef h
       end.
Definition modifyLink (r : LinkRef) (f : Link.t → Link.t) : M unit :=
  λ h, match links h !! r with
       | Some _ => Ok tt (alterLink r f h)
       | None => Throw DanglingRef h
       end.

(** [for (let i = 0; i < xs.length; i++) { let x = xs[i]; body }], for an
    array that the body does not resize. *)
Fixpoint forEach {A} (xs : list A) (body : A → M unit) : M unit :=
  match xs with
  | [] => ret tt
  | x :: xs' => body x ;; forEach xs' body
  end.

(** ** nn.ts *)

(** [Node.updateOutput], a method: [this] is a reference. *)
Definition updateOutput (this : NodeRef) : M number :=
  modifyNode this (λ n, Node.set_totalInput (Node.bias n) n);;
  n ← getNode this;
  forEach (Node.inputLinks n) (λ link,
    l ← getLink link;
    s ← getNode (Link.source l);
    modifyNode this (λ n,
      Node.set_totalInput (Node.totalInput n + Link.weight l * Node.output s)%float n));;
  modifyNode this (λ n,
    Node.set_output (ActivationFunction.output (Node.activation n) (Node.totalInput n)) n);;
  n ← getNode this;
  ret (Node.output n).

Definition inputs_mismatch_message : string :=
  "The number of inputs must match the number of nodes in" +:+ " the input layer".

(** [network[network.length - 1][0]] *)
Definition outputNodeOf (network : Network) : option NodeRef :=
  last network ≫= head.

Definition forwardProp (network : Network) (inputs : list number) : M number :=
  match network !! 0%nat with
  | None => throw TypeError
  | Some inputLayer =>
    if negb (length inputs =? length inputLayer)%nat
    then throw (Error inputs_mismatch_message)
    else
      (* the two lengths agree, so [inputs[i]] is the i-th input *)
      forEach (zip inputLayer inputs) (λ '(node, x),
        modifyNode node (Node.set_output x));;
      forEach (drop 1 network) (λ currentLayer,
        forEach currentLayer (λ node, _ ← updateOutput node; mret tt));;
      match outputNodeOf network with
      | None => throw TypeError
      | Some outputNode => n ← getNode outputNode; mret (Node.output n)
      end
  end.

(** The body of [backProp]'s loop over the layers, for the layer [layerIdx],
    followed by the iterations for the layers below it. *)
Fixpoint backProp_layers (network : Network) (layerIdx : nat) : M unit :=
  match layerIdx with
  | O => ret tt                                   (* [layerIdx >= 1] fails *)
  | S below =>
    match network !! layerIdx with
    | None => throw TypeError
    | Some currentLayer =>
      forEach currentLayer (λ node,
        modifyNode node (λ n,
          Node.set_inputDer
            (Node.outputDer n *
             ActivationFunction.der (Node.activation n) (Node.totalInput n))%float n);;
        modifyNode node (λ n,
          Node.set_accInputDer (Node.accInputDer n + Node.inputDer n)%float n);;
        modifyNode node (λ n,
          Node.set_numAccumulatedDers (Node.numAccumulatedDers n + 1)%float n));;
      forEach currentLayer (λ node,
        n ← getNode node;
        forEach (Node.inputLinks n) (λ link,
          l ← getLink link;
          if Link.isDead l then ret tt
          else
            n ← getNode node;
            s ← getNode (Link.source l);
            modifyLink link (Link.set_errorDer (Node.inputDer n * Node.output s)%float);;
            modifyLink link (λ l,
              Link.set_accErrorDer (Link.accErrorDer l + Link.errorDer l)%float l);;
            modifyLink link (λ l,
              Link.set_numAccumulatedDers (Link.numAccumulatedDers l + 1)%float l)));;
      if (layerIdx =? 1)%nat then backProp_layers network below
      else
        match network !! (layerIdx - 1)%nat with
        | None => throw TypeError
        | Some prevLayer =>
          forEach prevLayer (λ node,
            modifyNode node (Node.set_outputDer 0);;
            n ← getNode node;
            forEach (Node.outputs n) (λ output,
              o ← getLink output;
              d ← getNode (Link.dest o);
              modifyNode node (λ n,
                Node.set_outputDer
                  (Node.outputDer n + Link.weight o * Node.inputDer d)%float n)));;
          backProp_layers network below
        end
    end
  end.

Definition backProp (network : Network) (target : number)
    (errorFunc : ErrorFunction.t) : M unit :=
  match outputNodeOf network with
  | None => throw TypeError
  | Some outputNode =>
    modifyNode outputNode (λ n,
      Node.set_outputDer (ErrorFunction.der errorFunc (Node.output n) target) n);;
    backProp_layers network (length network - 1)
  end.

Definition updateWeights (network : Network) (learningRate : number)
    (regularizationRate : number) : M unit :=
  forEach (drop 1 network) (λ currentLayer,
    forEach currentLayer (λ node,
      n ← getNode node;
      (if (0 <? Node.numAccumulatedDers n)%float then
         modifyNode node (λ n,
           Node.set_bias
             (Node.bias n - learningRate * Node.accInputDer n / Node.numAccumulatedDers n)%float n);;
         modifyNode node (Node.set_accInputDer 0);;
         modifyNode node (Node.set_numAccumulatedDers 0)
       else ret tt);;
      forEach (Node.inputLinks n) (λ link,
        l ← getLink link;
        if Link.isDead l then ret tt
        else
          let regulDer :=
            match Link.regularization l with
            | Some r => RegularizationFunction.der (RegularizationFunction.table r) (Link.weight l)
            | None => 0%float
            end in
          if (0 <? Link.numAccumulatedDers l)%float then
            modifyLink link (λ l,
              Link.set_weight
                (Link.weight l - (learningRate / Link.numAccumulatedDers l) * Link.accErrorDer l)%float l);;
            l ← getLink link;
            let newLinkWeight :=
              (Link.weight l - (learningRate * regularizationRate) * regulDer)%float in
            (if from_option RegularizationFunction.is_L1 false (Link.regularization l)
                && (Link.weight l * newLinkWeight <? 0)%float
             then
               modifyLink link (Link.set_weight 0);;
               modifyLink link (Link.set_isDead true)
             else
               modifyLink link (Link.set_weight newLinkWeight));;
            modifyLink link (Link.set_accErrorDer 0);;
            modifyLink link (Link.set_numAccumulatedDers 0)
          else ret tt))).

(** A loop that also threads local variables ([id], the array being filled). *)
Fixpoint forEachAcc {A S} (xs : list A) (s : S) (body : S → A → M S) : M S :=
  match xs with
  | [] => ret s
  | x :: xs' => s' ← body s x; forEachAcc xs' s' body
  end.

(** [String(v)] for an id that may be [undefined]. *)
Definition id_to_string (v : option string) : string :=
  default "undefined" v.

(** Storing a freshly constructed object: it goes to the end of the store,
    and its reference is the position it gets.  A link's initial fields may
    depend on how many links were constructed before it. *)
Definition allocNode (n : Node.t) : M NodeRef :=
  λ h, Ok (length (nodes h)) (mkHeap (nodes h ++ [n]) (links h)).
Definition allocLink (l : nat → Link.t) : M LinkRef :=
  λ h, Ok (length (links h)) (mkHeap (nodes h) (links h ++ [l (length (links h))])).

Section Constructors.
(** [Math.random]: the value the k-th [Link] constructor run draws. *)
Variable Math_random : nat → number.

(** [new Node(id, activation, initZero)]: a fresh object at the store's end. *)
Definition newNode (id : option string) (activation : ActivationFunction.t)
    (initZero : bool) : M NodeRef :=
  allocNode (Node.new id activation initZero).

(** [new Link(source, dest, regularization, initZero)]: the field
    initialiser draws the random weight even when [initZero] then
    overwrites it. *)
Definition newLink (source dest : NodeRef)
    (regularization : option RegularizationFunction.obj) (initZero : bool)
    : M LinkRef :=
  s ← getNode source;
  d ← getNode dest;
  allocLink (λ k,
    let weight := (Math_random k - 0.5)%float in
    {| Link.id := id_to_string (Node.id s) +:+ "-" +:+ id_to_string (Node.id d);
       Link.source := source; Link.dest := dest;
       Link.weight := if initZero then 0%float else weight;
       Link.isDead := false; Link.errorDer := 0;
       Link.accErrorDer := 0; Link.numAccumulatedDers := 0;
       Link.regularization := regularization |}).

(** The statements of [buildNetwork] that create one node of the layer
    [layerIdx] and wire it to the previous layer; [network] holds the
    layers below, [id] and [currentLayer] are the locals of that name. *)
Definition buildNode (numLayers layerIdx : nat) (network : Network)
    (activation outputActivation : ActivationFunction.t)
    (regularization : option RegularizationFunction.obj)
    (inputIds : list string) (initZero : bool)
    (locals : nat * list NodeRef) (i : nat) : M (nat * list NodeRef) :=
  let '(id, currentLayer) := locals in
  let isOutputLayer := (layerIdx =? numLayers - 1)%nat in
  let isInputLayer := (layerIdx =? 0)%nat in
  let nodeId := if isInputLayer then inputIds !! i else Some (pretty id) in
  let id := if isInputLayer then id else S id in
  node ← newNode nodeId (if isOutputLayer then outputActivation else activation) initZero;
  (if (1 <=? layerIdx)%nat then
     match network !! (layerIdx - 1)%nat with
     | None => throw TypeError
     | Some prevLayer =>
       forEach prevLayer (λ prevNode,
         link ← newLink prevNode node regularization initZero;
         modifyNode prevNode (λ n, Node.set_outputs (Node.outputs n ++ [link]) n);;
         modifyNode node (λ n, Node.set_inputLinks (Node.inputLinks n ++ [link]) n))
     end
   else ret tt);;
  ret (id, currentLayer ++ [node]).

Definition buildLayer (numLayers : nat)
    (activation outputActivation : ActivationFunction.t)
    (regularization : option RegularizationFunction.obj)
    (inputIds : list string) (initZero : bool)
    (locals : nat * Network) (numNodes : nat) : M (nat * Network) :=
  let '(id, network) := locals in
  let layerIdx := length network in
  '(id, currentLayer) ←
    forEachAcc (seq 0 numNodes) (id, [])
      (buildNode numLayers layerIdx network activation outputActivation
         regularization inputIds initZero);
  ret (id, network ++ [currentLayer]).

Definition buildNetwork (networkShape : list nat)
    (activation outputActivation : ActivationFunction.t)
    (regularization : option RegularizationFunction.obj)
    (inputIds : list string) (initZero : bool) : M Network :=
  let numLayers := length networkShape in
  '(_, network) ←
    forEachAcc networkShape (1%nat, [])
      (buildLayer numLayers activation outputActivation regularization
         inputIds initZero);
  ret network.
End Constructors.


(** ** Well-formed stores

    A JavaScript reference always names a live object.  In the model this is
    a property of the store: every reference held by a node, a link or a
    network lies inside it.  The reference fields are never reassigned after
    construction, so the property depends on the store's skeleton only. *)

Definition node_refs (n : Node.t) : list LinkRef * list LinkRef :=
  (Node.inputLinks n, Node.outputs n).
Definition link_refs (l : Link.t) : NodeRef * NodeRef :=
  (Link.source l, Link.dest l).

Definition skeleton (h : Heap)
    : list (list LinkRef * list LinkRef) * list (NodeRef * NodeRef) :=
  (node_refs <$> nodes h, link_refs <$> links h).

Definition wf_skeleton
    (s : list (list LinkRef * list LinkRef) * list (NodeRef * NodeRef)) : Prop :=
  Forall (λ p, Forall (λ l, l < length s.2) p.1 ∧ Forall (λ l, l < length s.2) p.2) s.1
  ∧ Forall (λ p, p.1 < length s.1 ∧ p.2 < length s.1) s.2.

Definition wf_heap (h : Heap) : Prop := wf_skeleton (skeleton h).

Definition wf_network (network : Network) (h : Heap) : Prop :=
  Forall (Forall (λ r, r < length (nodes h))) network.

(** ** The operations as the specification words them

    Field reads through a reference; a reference outside the store reads
    [undefined], which does not happen in a well-formed store. *)

Definition outputOf (h : Heap) (r : NodeRef) : number :=
  from_option Node.output undefined_number (nodes h !! r).
Definition inputDerOf (h : Heap) (r : NodeRef) : number :=
  from_option Node.inputDer undefined_number (nodes h !! r).
Definition inputLinksOf (h : Heap) (r : NodeRef) : list LinkRef :=
  from_option Node.inputLinks [] (nodes h !! r).

(** [link.weight * link.source.output] *)
Definition linkTerm (h : Heap) (link : LinkRef) : number :=
  match links h !! link with
  | Some l => (Link.weight l * outputOf h (Link.source l))%float
  | None => undefined_number
  end.

(** [bias + Σ link.weight * link.source.output] over all the incoming links,
    dead or not, added one after the other in the order of [inputLinks]. *)
Definition weightedInput (h : Heap) (n : Node.t) : number :=
  foldl (λ acc link, (acc + linkTerm h link)%float) (Node.bias n) (Node.inputLinks n).

Definition activate (h : Heap) (n : Node.t) : Node.t :=
  let totalInput := weightedInput h n in
  Node.set_output (ActivationFunction.output (Node.activation n) totalInput)
    (Node.set_totalInput totalInput n).

Definition forward_node (h : Heap) (r : NodeRef) : Heap :=
  alterNode r (activate h) h.

Definition forward_layer (h : Heap) (layer : list NodeRef) : Heap :=
  foldl forward_node h layer.

Definition set_inputs (h : Heap) (inputLayer : list NodeRef)
    (inputs : list number) : Heap :=
  foldl (λ h '(r, x), alterNode r (Node.set_output x) h) h (zip inputLayer inputs).

(** The store after [forward(network, inputs)], for inputs of the right length. *)
Definition forward_spec (network : Network) (inputs : list number)
    (h : Heap) : Heap :=
  foldl forward_layer (set_inputs h (default [] (network !! 0%nat)) inputs)
    (drop 1 network).

(** *** Backward propagation *)

(** Step 1, for one node of the current layer. *)
Definition backward_node (n : Node.t) : Node.t :=
  let inputDer :=
    (Node.outputDer n *
     ActivationFunction.der (Node.activation n) (Node.totalInput n))%float in
  Node.set_numAccumulatedDers (Node.numAccumulatedDers n + 1)%float
    (Node.set_accInputDer (Node.accInputDer n + inputDer)%float
       (Node.set_inputDer inputDer n)).

(** Step 2, for one incoming link: a dead link is skipped entirely. *)
Definition backward_link (errorDer : number) (l : Link.t) : Link.t :=
  if Link.isDead l then l
  else
    Link.set_numAccumulatedDers (Link.numAccumulatedDers l + 1)%float
      (Link.set_accErrorDer (Link.accErrorDer l + errorDer)%float
         (Link.set_errorDer errorDer l)).

(** Step 2, for the incoming links of one node [r] of the current layer:
    [errorDer = inputDer * source.output]. *)
Definition backward_links (h : Heap) (r : NodeRef) : Heap :=
  foldl (λ h' link,
           alterLink link (λ l,
             backward_link (inputDerOf h r * outputOf h (Link.source l))%float l) h')
        h (inputLinksOf h r).

(** Step 3, for one node of the previous layer:
    [Σ outgoingLink.weight * outgoingLink.dest.inputDer], from 0, in the
    order of [outputs]. *)
Definition outputDerTerm (h : Heap) (output : LinkRef) : number :=
  match links h !! output with
  | Some o => (Link.weight o * inputDerOf h (Link.dest o))%float
  | None => undefined_number
  end.

Definition outputDerSum (h : Heap) (n : Node.t) : number :=
  foldl (λ acc output, (acc + outputDerTerm h output)%float) 0%float (Node.outputs n).

Definition backward_outputDer (h : Heap) (r : NodeRef) : Heap :=
  alterNode r (λ n, Node.set_outputDer (outputDerSum h n) n) h.

(** The three steps for the layer [layerIdx]; step 3 is left out when the
    current layer is layer 1. *)
Definition backward_layer (network : Network) (layerIdx : nat) (h : Heap) : Heap :=
  let currentLayer := default [] (network !! layerIdx) in
  let h1 := foldl (λ h' r, alterNode r backward_node h') h currentLayer in
  let h2 := foldl backward_links h1 currentLayer in
  if (layerIdx =? 1)%nat then h2
  else foldl backward_outputDer h2 (default [] (network !! (layerIdx - 1)%nat)).

(** The layers [layerIdx], [layerIdx - 1], ..., 1, in that order. *)
Fixpoint backward_layers (network : Network) (layerIdx : nat) (h : Heap) : Heap :=
  match layerIdx with
  | O => h
  | S below => backward_layers network below (backward_layer network layerIdx h)
  end.

(** The store after [backward(network, target, errorFn)]. *)
Definition backward_spec (network : Network) (target : number)
    (errorFn : ErrorFunction.t) (h : Heap) : Heap :=
  match outputNodeOf network with
  | Some outputNode =>
    backward_layers network (length network - 1)
      (alterNode outputNode (λ n,
         Node.set_outputDer (ErrorFunction.der errorFn (Node.output n) target) n) h)
  | None => h
  end.

(** *** Weight update *)

(** The bias of one node. *)
Definition update_bias (learningRate : number) (n : Node.t) : Node.t :=
  if (0 <? Node.numAccumulatedDers n)%float then
    Node.set_numAccumulatedDers 0
      (Node.set_accInputDer 0
         (Node.set_bias
            (Node.bias n - learningRate * Node.accInputDer n / Node.numAccumulatedDers n)%float
            n))
  else n.

(** One incoming link, as [updateWeights] treats it: the derivative of the
    regularization is taken at the weight the link has when it is visited,
    then the gradient step is applied, then the decay step. *)
Definition update_link (learningRate regularizationRate : number) (l : Link.t)
    : Link.t :=
  if Link.isDead l then l
  else if (0 <? Link.numAccumulatedDers l)%float then
    let regulDer :=
      match Link.regularization l with
      | Some r => RegularizationFunction.der (RegularizationFunction.table r) (Link.weight l)
      | None => 0%float
      end in
    let weight :=
      (Link.weight l - (learningRate / Link.numAccumulatedDers l) * Link.accErrorDer l)%float in
    let newLinkWeight := (weight - (learningRate * regularizationRate) * regulDer)%float in
    Link.set_numAccumulatedDers 0
      (Link.set_accErrorDer 0
         (if from_option RegularizationFunction.is_L1 false (Link.regularization l)
             && (weight * newLinkWeight <? 0)%float
          then Link.set_isDead true (Link.set_weight 0 l)
          else Link.set_weight newLinkWeight l))
  else l.

Definition update_node (learningRate regularizationRate : number) (h : Heap)
    (r : NodeRef) : Heap :=
  foldl (λ h' link, alterLink link (update_link learningRate regularizationRate) h')
        (alterNode r (update_bias learningRate) h) (inputLinksOf h r).

(** The store after [update(network, learningRate, regularizationRate)]. *)
Definition update_spec (network : Network) (learningRate regularizationRate : number)
    (h : Heap) : Heap :=
  foldl (foldl (update_node learningRate regularizationRate)) h (drop 1 network).

(** The links [update] and [backward] visit: the incoming links of the nodes
    of every layer but the first, in the order of the visits. *)
Definition incomingLinks (h : Heap) (network : Network) : list LinkRef :=
  concat (inputLinksOf h <$> concat (drop 1 network)).

(** The treatment of one link with the derivative of the regularization
    taken after the gradient step, at the weight that step produced. *)
Definition update_link_regDer_after (learningRate regularizationRate : number)
    (l : Link.t) : Link.t :=
  if Link.isDead l then l
  else if (0 <? Link.numAccumulatedDers l)%float then
    let weight :=
      (Link.weight l - (learningRate / Link.numAccumulatedDers l) * Link.accErrorDer l)%float in
    let regDer :=
      match Link.regularization l with
      | Some r => RegularizationFunction.der (RegularizationFunction.table r) weight
      | None => 0%float
      end in
    let newWeight := (weight - learningRate * regularizationRate * regDer)%float in
    Link.set_numAccumulatedDers 0
      (Link.set_accErrorDer 0
         (if from_option RegularizationFunction.is_L1 false (Link.regularization l)
             && (weight * newWeight <? 0)%float
          then Link.set_isDead true (Link.set_weight 0 l)
          else Link.set_weight newWeight l))
  else l.

(** ** Concrete networks, for the examples *)

Module Example.
(** The values [Math.random] returns, in order; 0.5 from the seventh on. *)
Definition random (k : nat) : number :=
  default 0.5%float ([0.75; 0.25; 0.625; 0.125; 0.875; 0.375]%float !! k).

Definition squareError : ErrorFunction.t :=
  Errors.SQUARE (λ x _, (x * x)%float).

(** Shape [2,2,1], ReLU hidden nodes, a linear output node, L1. *)
Definition network : Network := [[0; 1]; [2; 3]; [4]]%nat.

Definition built : Outcome (list (list nat)) :=
  buildNetwork random [2; 2; 1]%nat Activations.RELU Activations.LINEAR
    (Some RegularizationFunction.L1) ["x"; "y"] false emptyHeap.

Definition fresh : Heap := Eval vm_compute in heap_of built.

(** One example, [(1, 1) ↦ 0]: forward, then backward. *)
Definition propagated : Heap := Eval vm_compute in
  heap_of (forwardProp network [1; 1]%float fresh).
Definition accumulated : Heap := Eval vm_compute in
  heap_of (backProp network 0 squareError propagated).

(** An update whose decay step prunes the links 0, 2 and 5. *)
Definition pruned : Heap := Eval vm_compute in
  heap_of (updateWeights network 0.5 0.5 accumulated).

(** Shape [1,1], linear nodes, L2, after one example [1 ↦ 0]. *)
Definition network_L2 : Network := [[0]; [1]]%nat.
Definition accumulated_L2 : Heap := Eval vm_compute in
  heap_of (backProp network_L2 0 squareError
    (heap_of (forwardProp network_L2 [1]%float
      (heap_of (buildNetwork random [1; 1]%nat Activations.LINEAR Activations.LINEAR
                  (Some RegularizationFunction.L2) ["x"] false emptyHeap))))).
End Example.

#[global] Instance wf_heap_dec h : Decision (wf_heap h).
Proof. unfold wf_heap, wf_skeleton. apply _. Defined.

#[global] Instance wf_network_dec network h : Decision (wf_network network h).
Proof. unfold wf_network. apply _. Defined.

(** ** Sequences of calls *)

(** One call of the engine's three entry points by its user. *)
Inductive Call :=
  | Forward (network : list (list nat)) (inputs : list number)
  | Backward (network : list (list nat)) (target : number) (errorFunc : ErrorFunction.t)
  | Update (network : list (list nat)) (learningRate regularizationRate : number).

Definition network_of (c : Call) : Network :=
  match c with
  | Forward network _ => network
  | Backward network _ _ => network
  | Update network _ _ => network
  end.

(** The store a call leaves, whether it returns or throws. *)
Definition call (c : Call) (h : Heap) : Heap :=
  match c with
  | Forward network inputs => heap_of (forwardProp network inputs h)
  | Backward network target errorFunc => heap_of (backProp network target errorFunc h)
  | Update network learningRate regularizationRate =>
      heap_of (updateWeights network learningRate regularizationRate h)
  end.

Definition calls (cs : list Call) (h : Heap) : Heap :=
  foldl (λ h c, call c h) h cs.

(** A computation preserves [R] when the store it leaves, on return or on
    throw, is [R]-related to the store it started in. *)
Definition preserves (R : relation Heap) {A} (m : M A) : Prop :=
  ∀ h, R h (heap_of (m h)).

(** The links are as they were, and so is every reference field. *)
Definition same_links (h h' : Heap) : Prop :=
  links h' = links h ∧ skeleton h' = skeleton h.

(** Every link of the first store is still there in the second, [P]-related
    to what it was. *)
Definition links_rel (P : relation Link.t) (h h' : Heap) : Prop :=
  ∀ link l, links h !! link = Some l → ∃ l', links h' !! link = Some l' ∧ P l l'.

(** What forward and backward propagation may do to a link: a dead link is
    left exactly as it is, and no link changes its [isDead]. *)
Definition link_frozen_if_dead (l l' : Link.t) : Prop :=
  (Link.isDead l = true → l' = l) ∧ Link.isDead l' = Link.isDead l.

(** ** Accumulation *)

(** Two states of a node that differ in [outputDer] at most. *)
Definition same_but_outputDer (n n' : Node.t) : Prop :=
  Node.set_outputDer 0 n = Node.set_outputDer 0 n'.

(** One accumulation on a node: the [inputDer] it now holds was added to
    [accInputDer], and the count went up by one. *)
Definition node_accumulated (n n' : Node.t) : Prop :=
  Node.accInputDer n' = (Node.accInputDer n + Node.inputDer n')%float
  ∧ Node.numAccumulatedDers n' = (Node.numAccumulatedDers n + 1)%float
  ∧ Node.bias n' = Node.bias n.

(** One accumulation on a live link, nothing at all on a dead one. *)
Definition link_accumulated (l l' : Link.t) : Prop :=
  if Link.isDead l then l' = l
  else
    Link.accErrorDer l' = (Link.accErrorDer l + Link.errorDer l')%float
    ∧ Link.numAccumulatedDers l' = (Link.numAccumulatedDers l + 1)%float
    ∧ Link.weight l' = Link.weight l
    ∧ Link.isDead l' = false.

(** The node at [r], when there is one, is [P]-related to what it was. *)
Definition node_rel (r : NodeRef) (P : relation Node.t) (h h' : Heap) : Prop :=
  ∀ n, nodes h !! r = Some n → ∃ n', nodes h' !! r = Some n' ∧ P n n'.

(** The same for the link at [link]. *)
Definition link_rel (link : LinkRef) (P : relation Link.t) (h h' : Heap) : Prop :=
  ∀ l, links h !! link = Some l → ∃ l', links h' !! link = Some l' ∧ P l l'.

(** A state of a node with the same bias and accumulators. *)
Definition same_accumulators (n n' : Node.t) : Prop :=
  Node.accInputDer n' = Node.accInputDer n
  ∧ Node.numAccumulatedDers n' = Node.numAccumulatedDers n
  ∧ Node.bias n' = Node.bias n.

Definition errorDerOf (h : Heap) (link : LinkRef) : number :=
  from_option Link.errorDer undefined_number (links h !! link).

(** One example of a mini-batch, as the training loop runs it: forward on
    the example's inputs, then backward on its target. *)
Definition example_step (network : Network) (errorFunc : ErrorFunction.t)
    (example : list number * number) : M unit :=
  _ ← forwardProp network example.1; backProp network example.2 errorFunc.

(** The stores after the first, the second, ... example of a batch. *)
Fixpoint batch_states (network : Network) (errorFunc : ErrorFunction.t)
    (examples : list (list number * number)) (h : Heap) : list Heap :=
  match examples with
  | [] => []
  | example :: rest =>
    let h' := heap_of (example_step network errorFunc example h) in
    h' :: batch_states network errorFunc rest h'
  end.

(** A stand-in for [Math.exp] in closed examples: the start of its series.
    Like [Math.exp] it maps both zeros to exactly 1. *)
Definition exp_series (x : number) : number :=
  (1 + x + x * x / 2)%float.

(** ** The wiring of a store

    What [buildNetwork] determines about connectivity: for every node its
    list of incoming links, and for every link its two ends. *)

Definition wiring (h : Heap) : list (list LinkRef) * list (NodeRef * NodeRef) :=
  (Node.inputLinks <$> nodes h, link_refs <$> links h).

(** One more node, wired to the nodes [ps] of the previous layer: the node
    gets the position after the last node, its incoming links the positions
    after the last link, one per node of [ps] and in that order. *)
Definition wire_node (ps : list NodeRef)
    (w : list (list LinkRef) * list (NodeRef * NodeRef))
    : list (list LinkRef) * list (NodeRef * NodeRef) :=
  (w.1 ++ [seq (length w.2) (length ps)],
   w.2 ++ ((λ p, (p, length w.1)) <$> ps)).

(** One more layer of [numNodes] nodes, wired to the last layer so far. *)
Definition wire_layer
    (s : list (list NodeRef) * (list (list LinkRef) * list (NodeRef * NodeRef)))
    (numNodes : nat)
    : list (list NodeRef) * (list (list LinkRef) * list (NodeRef * NodeRef)) :=
  (s.1 ++ [seq (length s.2.1) numNodes],
   Nat.iter numNodes (wire_node (default [] (last s.1))) s.2).

(** The layer below layer [i]; the first layer has none. *)
Definition prev_layer (network : Network) (i : nat) : list NodeRef :=
  match i with
  | O => []
  | S j => default [] (network !! j)
  end.

(** What holds of the layers [net] built so far and of their wiring: the
    nodes are numbered layer after layer; the incoming links of every node
    run, in order, from the nodes of the layer below to that node; and the
    links are numbered node after node. *)
Definition dense (net : Network)
    (w : list (list LinkRef) * list (NodeRef * NodeRef)) : Prop :=
  concat net = seq 0 (length w.1)
  ∧ (∀ i cur r, net !! i = Some cur → r ∈ cur →
       ∃ ls, w.1 !! r = Some ls
             ∧ Forall2 (λ link p, w.2 !! link = Some (p, r)) ls (prev_layer net i))
  ∧ concat w.1 = seq 0 (length w.2).

(** The links of the store whose destination is a node of [layer]. *)
Definition linksInto (h : Heap) (layer : list NodeRef) : list Link.t :=
  filter (λ l, Link.dest l ∈ layer) (links h).

(** The positions of those links. *)
Definition linkRefsInto (h : Heap) (layer : list NodeRef) : list LinkRef :=
  filter (λ link, from_option (λ l, bool_decide (Link.dest l ∈ layer)) false (links h !! link))
    (seq 0 (length (links h))).

(** * state.ts *)

(** ** Strings

    A string is its sequence of code units; the model has those below 256.
    [trim] removes the white space among them (tab, line feed, vertical tab,
    form feed, carriage return, space, no-break space) at both ends. *)

Definition is_whitespace (c : Ascii.ascii) : bool :=
  bool_decide (Ascii.N_of_ascii c ∈ [9; 10; 11; 12; 13; 32; 160]%N).

Fixpoint trimStart (s : string) : string :=
  match s with
  | EmptyString => EmptyString
  | String c s' => if is_whitespace c then trimStart s' else s
  end.

Definition trim (s : string) : string :=
  String.rev (trimStart (String.rev (trimStart s))).

(** [s.split(sep)] for a separator of one character. *)
Fixpoint split (sep : Ascii.ascii) (s : string) : list string :=
  match s with
  | EmptyString => [EmptyString]
  | String c s' =>
    if Ascii.eqb c sep then EmptyString :: split sep s'
    else match split sep s' with
         | [] => [String c EmptyString]
         | part :: parts => String c part :: parts
         end
  end.

(** [s.slice(1)] *)
Definition slice1 (s : string) : string :=
  match s with
  | EmptyString => EmptyString
  | String _ s' => s'
  end.

(** [s.substr(-n)]: the last [n] characters, the whole of a shorter string,
    and the whole string for [n = 0]. *)
Definition substr_from_end (n : nat) (s : string) : string :=
  if (n =? 0)%nat then s
  else String.substring (String.length s - n) n s.

Definition HIDE_STATE_SUFFIX : string := "_hide".

Definition endsWith (s suffix : string) : bool :=
  bool_decide (substr_from_end (String.length suffix) s = suffix).

(** The number that counts the elements of an array. *)
Definition number_of_nat (n : nat) : number :=
  Nat.iter n (λ c, (c + 1)%float) 0%float.

(** ** Values and the state object *)

(** The values a property of the state can hold.  Functions and the objects
    of the function tables are told apart by where they are defined. *)
Inductive Value :=
  | VNull
  | VBool (b : bool)
  | VNumber (x : number)
  | VString (s : string)
  | VArray (vs : list Value)
  | VObject (definedAt : string).

Inductive Type_ :=
  | STRING
  | NUMBER
  | ARRAY_NUMBER
  | ARRAY_STRING
  | BOOLEAN
  | OBJECT.

Definition activations : list (string * Value) :=
  [("relu", VObject "nn.Activations.RELU");
   ("tanh", VObject "nn.Activations.TANH");
   ("sigmoid", VObject "nn.Activations.SIGMOID");
   ("linear", VObject "nn.Activations.LINEAR")].

Definition regularizations : list (string * Value) :=
  [("none", VNull);
   ("L1", VObject "nn.RegularizationFunction.L1");
   ("L2", VObject "nn.RegularizationFunction.L2")].

Definition datasets : list (string * Value) :=
  [("circle", VObject "dataset.classifyCircleData");
   ("xor", VObject "dataset.classifyXORData");
   ("gauss", VObject "dataset.classifyTwoGaussData");
   ("spiral", VObject "dataset.classifySpiralData")].

Definition regDatasets : list (string * Value) :=
  [("reg-plane", VObject "dataset.regressPlane");
   ("reg-gauss", VObject "dataset.regressGaussian")].

(** [enum Problem { CLASSIFICATION, REGRESSION }] *)
Definition problems : list (string * Value) :=
  [("classification", VNumber 0); ("regression", VNumber 1)].

(** What every object of these tables inherits from [Object.prototype]: its
    methods, and the accessor [__proto__], which reads as [Object.prototype]
    itself. *)
Definition Object_prototype : list (string * Value) :=
  [("constructor", VObject "Object");
   ("hasOwnProperty", VObject "Object.prototype.hasOwnProperty");
   ("isPrototypeOf", VObject "Object.prototype.isPrototypeOf");
   ("propertyIsEnumerable", VObject "Object.prototype.propertyIsEnumerable");
   ("toLocaleString", VObject "Object.prototype.toLocaleString");
   ("toString", VObject "Object.prototype.toString");
   ("valueOf", VObject "Object.prototype.valueOf");
   ("__defineGetter__", VObject "Object.prototype.__defineGetter__");
   ("__defineSetter__", VObject "Object.prototype.__defineSetter__");
   ("__lookupGetter__", VObject "Object.prototype.__lookupGetter__");
   ("__lookupSetter__", VObject "Object.prototype.__lookupSetter__");
   ("__proto__", VObject "Object.prototype")].

(** [key in obj] and [obj[key]] for an object literal: a property of its
    own, or else one of [Object.prototype]; [None] when [key in obj] is
    false. *)
Definition Object_get (obj : list (string * Value)) (key : string) : option Value :=
  match list_to_map (M:=gmap string Value) obj !! key with
  | Some v => Some v
  | None => list_to_map (M:=gmap string Value) Object_prototype !! key
  end.

Module Property.
Record t := mk {
  name : string;
  type : Type_;
  keyMap : option (list (string * Value))
}.
End Property.

Module State.
Definition PROPS : list Property.t :=
  [Property.mk "activation" OBJECT (Some activations);
   Property.mk "regularization" OBJECT (Some regularizations);
   Property.mk "batchSize" NUMBER None;
   Property.mk "dataset" OBJECT (Some datasets);
   Property.mk "regDataset" OBJECT (Some regDatasets);
   Property.mk "learningRate" NUMBER None;
   Property.mk "regularizationRate" NUMBER None;
   Property.mk "noise" NUMBER None;
   Property.mk "networkShape" ARRAY_NUMBER None;
   Property.mk "seed" STRING None;
   Property.mk "showTestData" BOOLEAN None;
   Property.mk "discretize" BOOLEAN None;
   Property.mk "percTrainData" NUMBER None;
   Property.mk "x" BOOLEAN None;
   Property.mk "y" BOOLEAN None;
   Property.mk "xTimesY" BOOLEAN None;
   Property.mk "xSquared" BOOLEAN None;
   Property.mk "ySquared" BOOLEAN None;
   Property.mk "cosX" BOOLEAN None;
   Property.mk "sinX" BOOLEAN None;
   Property.mk "cosY" BOOLEAN None;
   Property.mk "sinY" BOOLEAN None;
   Property.mk "collectStats" BOOLEAN None;
   Property.mk "tutorial" STRING None;
   Property.mk "problem" OBJECT (Some problems);
   Property.mk "initZero" BOOLEAN None;
   Property.mk "hideText" BOOLEAN None].

(** [new State()]: the properties the class gives a default; [seed] has
    none, so a new state does not have it. *)
Definition new : gmap string Value :=
  list_to_map
    [("learningRate", VNumber 0.03);
     ("regularizationRate", VNumber 0);
     ("showTestData", VBool false);
     ("noise", VNumber 0);
     ("batchSize", VNumber 10);
     ("discretize", VBool false);
     ("tutorial", VNull);
     ("percTrainData", VNumber 50);
     ("activation", VObject "nn.Activations.TANH");
     ("regularization", VNull);
     ("problem", VNumber 0);
     ("initZero", VBool false);
     ("hideText", VBool false);
     ("collectStats", VBool false);
     ("numHiddenLayers", VNumber 1);
     ("hiddenLayerControls", VArray []);
     ("networkShape", VArray [VNumber 4; VNumber 2]);
     ("x", VBool true);
     ("y", VBool true);
     ("xTimesY", VBool false);
     ("xSquared", VBool false);
     ("ySquared", VBool false);
     ("cosX", VBool false);
     ("sinX", VBool false);
     ("cosY", VBool false);
     ("sinY", VBool false);
     ("dataset", VObject "dataset.classifyCircleData");
     ("regDataset", VObject "dataset.regressPlane")].

(** The loop of [deserializeState] over the parts of the hash: the
    properties the object [map] gets of its own, from names to values; the
    value is [undefined] ([None]) for a part without ["="].  The assignment
    [map["__proto__"] = value] adds no property: it runs the setter that
    [map] inherits from [Object.prototype], which ignores a value that is no
    object.  What [map] inherits does not show in what follows: the names
    that are looked up are those of [PROPS], none of which
    [Object.prototype] has, and [getHideProps] enumerates, besides the own
    properties, inherited ones that are enumerable, of which there are
    none. *)
Definition parseHash (hash : string) : gmap string (option string) :=
  foldl (λ map keyvalue,
           let parts := split "="%char keyvalue in
           let name := default "" (parts !! 0%nat) in
           if bool_decide (name = "__proto__") then map
           else <[name := parts !! 1%nat]> map)
        ∅ (split "&"%char (slice1 hash)).

(** [name in map && map[name] != null && map[name].trim() !== ""] *)
Definition hasKey (map : gmap string (option string)) (name : string) : bool :=
  match map !! name with
  | Some (Some value) => negb (bool_decide (trim value = ""))
  | _ => false
  end.

(** [value.trim() === "" ? [] : value.split(",")] *)
Definition parseArray (value : string) : list string :=
  if bool_decide (trim value = "") then [] else split ","%char value.

Section deserialize.
(** [+s] and [Number(s)] on a string; the five decimals of a fresh
    [Math.random()]. *)
Variable ToNumber : string → number.
Variable fresh_seed : string.

(** The body of [State.PROPS.forEach], for one property. *)
Definition deserializeProp (map : gmap string (option string))
  (state : gmap string Value) (p : Property.t) : exn + gmap string Value :=
  let name := Property.name p in
  match Property.type p with
  | OBJECT =>
  match Property.keyMap p with
  | None => inl (Error ("A key-value map must be provided for state " +:+
                        "variables of type Object"))
  | Some keyMap =>
    match map !! name with
    | Some (Some value) =>
      if hasKey map name then
        match Object_get keyMap value with        (* [map[name] in keyMap] *)
        | Some v => inr (<[name := v]> state)
        | None => inr state
        end
      else inr state
    | _ => inr state
    end
  end
  | NUMBER =>
  match map !! name with
  | Some (Some value) =>
    if hasKey map name then inr (<[name := VNumber (ToNumber value)]> state)
    else inr state
  | _ => inr state
  end
  | STRING =>
  match map !! name with
  | Some (Some value) =>
    if hasKey map name then inr (<[name := VString value]> state) else inr state
  | _ => inr state
  end
  | BOOLEAN =>
  match map !! name with
  | Some (Some value) =>
    if hasKey map name
    then inr (<[name := VBool (if bool_decide (value = "false") then false else true)]> state)
    else inr state
  | _ => inr state
  end
  | ARRAY_NUMBER =>
  match map !! name with
  | Some (Some value) =>
    inr (<[name := VArray (VNumber ∘ ToNumber <$> parseArray value)]> state)
  | Some None => inl TypeError            (* [undefined.trim()] *)
  | None => inr state
  end
  | ARRAY_STRING =>
  match map !! name with
  | Some (Some value) => inr (<[name := VArray (VString <$> parseArray value)]> state)
  | Some None => inl TypeError
  | None => inr state
  end
  end.

(** [getHideProps(map)], up to the order of the result. *)
Definition getHideProps (map : gmap string (option string)) : list string :=
  filter (λ prop, endsWith prop HIDE_STATE_SUFFIX) (map_to_list map).*1.

(** [State.PROPS.forEach(...)]: an exception ends the loop. *)
Definition forEachProp (map : gmap string (option string))
  (state : gmap string Value) (props : list Property.t) : exn + gmap string Value :=
  foldl (λ acc p, match acc with
                | inl e => inl e
                | inr state => deserializeProp map state p
                end)
      (inr state) props.

Definition deserializeState (hash : string) : exn + gmap string Value :=
  let map := parseHash hash in
  match forEachProp map new PROPS with
  | inl e => inl e
  | inr state =>
  let state :=
    foldl (λ state prop,
             <[prop := VBool (if bool_decide (map !! prop = Some (Some "true"))
                              then true else false)]> state)
          state (getHideProps map) in
  match state !! "networkShape" with
  | Some (VArray networkShape) =>
    let state := <["numHiddenLayers" := VNumber (number_of_nat (length networkShape))]> state in
    let state :=
      match state !! "seed" with
      | None | Some VNull => <["seed" := VString fresh_seed]> state
      | Some _ => state
      end in
    inr state
  | _ => inl TypeError
  end
  end.
End deserialize.
End State.

(** What the [BOOLEAN] case leaves in a property that held [old]. *)
Definition boolean_result (map : gmap string (option string)) (name : string)
    (old : option Value) : option Value :=
  match map !! name with
  | Some (Some value) =>
    if bool_decide (trim value = "") then old
    else Some (VBool (if bool_decide (value = "false") then false else true))
  | _ => old
  end.

(** The properties whose case cannot throw, given the map. *)
Definition prop_ok (map : gmap string (option string)) (p : Property.t) : Prop :=
  match Property.type p with
  | OBJECT => Property.keyMap p ≠ None
  | ARRAY_NUMBER | ARRAY_STRING => map !! Property.name p ≠ Some None
  | _ => True
  end.

(** The property named [networkShape] is an array, if there is one. *)
Definition shape_typed (p : Property.t) : Prop :=
  Property.name p = "networkShape" →
  Property.type p = ARRAY_NUMBER ∨ Property.type p = ARRAY_STRING.

Definition is_array (v : option Value) : Prop :=
  match v with Some (VArray _) => True | _ => False end.

(** ** Layered stores *)

Definition outputsOf (h : Heap) (r : NodeRef) : list LinkRef :=
  from_option Node.outputs [] (nodes h !! r).

(** Every incoming link of a node of layer [i] comes from a node of an
    earlier layer. *)
Definition sources_earlier (network : Network) (h : Heap) : Prop :=
  ∀ i cur r link l,
    network !! i = Some cur → r ∈ cur →
    link ∈ inputLinksOf h r → links h !! link = Some l →
    Link.source l ∈ concat (take i network).

(** Every outgoing link of a node of layer [i] leads to a node of a later
    layer. *)
Definition dests_later (network : Network) (h : Heap) : Prop :=
  ∀ i cur r link l,
    network !! i = Some cur → r ∈ cur →
    link ∈ outputsOf h r → links h !! link = Some l →
    Link.dest l ∈ concat (drop (S i) network).

(** What backward propagation never writes: a node but for its derivatives
    and their accumulators, a link but for its derivative and accumulators. *)
Definition node_frame (n : Node.t) : Node.t :=
  Node.set_outputDer 0 (Node.set_inputDer 0
    (Node.set_accInputDer 0 (Node.set_numAccumulatedDers 0 n))).
Definition link_frame (l : Link.t) : Link.t :=
  Link.set_errorDer 0 (Link.set_accErrorDer 0 (Link.set_numAccumulatedDers 0 l)).
Definition frame (h : Heap) : list Node.t * list Link.t :=
  (node_frame <$> nodes h, link_frame <$> links h).

(** The iterations of [backProp]'s loop for the layers [i + k] down to
    [i + 1]. *)
Definition backward_above (network : Network) (i k : nat) (h : Heap) : Heap :=
  foldl (λ h j, backward_layer network j h) h (reverse (seq (S i) k)).

(** Every outgoing link a node holds is a link of the store whose source is
    that node. *)
Definition outputs_sourced (h : Heap) : Prop :=
  ∀ p o, o ∈ outputsOf h p → ∃ l, links h !! o = Some l ∧ Link.source l = p.

(** The relation of a store in which [I] holds, if it held before. *)
Definition keeps (I : Heap → Prop) (h h' : Heap) : Prop := I h → I h'.

(** * Further definitions

    What the theorems beyond the ones on single calls speak of. *)

(** ** Nothing left to apply

    [updateWeights] acts on a node whose count of accumulated derivatives is
    positive, and on a live link whose count is.  A store is settled for a
    network when there is no such node in the layers after the first and no
    such link among their incoming links. *)
Definition node_settled (n : Node.t) : Prop :=
  (0 <? Node.numAccumulatedDers n)%float = false.

Definition link_settled (l : Link.t) : Prop :=
  Link.isDead l = true ∨ (0 <? Link.numAccumulatedDers l)%float = false.

Definition settled (network : Network) (h : Heap) : Prop :=
  (∀ r n, r ∈ concat (drop 1 network) → nodes h !! r = Some n → node_settled n)
  ∧ (∀ link l, link ∈ incomingLinks h network → links h !! link = Some l →
       link_settled l).

(** ** A training session

    The three entry points as one computation per call; the value
    [forwardProp] returns is dropped. *)
Definition run (c : Call) : M unit :=
  match c with
  | Forward network inputs => _ ← forwardProp network inputs; mret tt
  | Backward network target errorFunc => backProp network target errorFunc
  | Update network learningRate regularizationRate =>
      updateWeights network learningRate regularizationRate
  end.

(** A call on [network] that gives [forwardProp] as many inputs as the
    input layer has nodes. *)
Definition fits (network : Network) (c : Call) : Prop :=
  network_of c = network
  ∧ match c with
    | Forward _ inputs => length inputs = length (default [] (network !! 0%nat))
    | _ => True
    end.

(** ** Objects as their constructors leave them *)

Definition fresh_node (initZero : bool) (n : Node.t) : Prop :=
  Node.bias n = (if initZero then 0 else 0.1)%float
  ∧ Node.outputDer n = 0%float ∧ Node.inputDer n = 0%float
  ∧ Node.accInputDer n = 0%float ∧ Node.numAccumulatedDers n = 0%float.

Definition fresh_link (Math_random : nat → number)
    (regularization : option RegularizationFunction.obj) (initZero : bool)
    (k : nat) (l : Link.t) : Prop :=
  Link.weight l = (if initZero then 0 else Math_random k - 0.5)%float
  ∧ Link.isDead l = false
  ∧ Link.errorDer l = 0%float ∧ Link.accErrorDer l = 0%float
  ∧ Link.numAccumulatedDers l = 0%float
  ∧ Link.regularization l = regularization.

Definition fresh_store (Math_random : nat → number)
    (regularization : option RegularizationFunction.obj) (initZero : bool)
    (h : Heap) : Prop :=
  (∀ r n, nodes h !! r = Some n → fresh_node initZero n)
  ∧ (∀ k l, links h !! k = Some l → fresh_link Math_random regularization initZero k l).

(** The links of a dense network of the given shape: one for every pair of
    nodes of consecutive layers. *)
Fixpoint num_links (shape : list nat) : nat :=
  match shape with
  | [] => 0
  | a :: rest => match rest with
                 | [] => 0
                 | b :: _ => a * b + num_links rest
                 end
  end.

(** ** What forward propagation reads

    The parameters of a store: of every node the bias, the incoming links and
    the activation function, of every link the weight and the source. *)
Definition parameters (h : Heap)
    : list (number * list LinkRef * ActivationFunction.t) * list (number * NodeRef) :=
  ((λ n, (Node.bias n, Node.inputLinks n, Node.activation n)) <$> nodes h,
   (λ l, (Link.weight l, Link.source l)) <$> links h).

Definition totalInputOf (h : Heap) (r : NodeRef) : number :=
  from_option Node.totalInput undefined_number (nodes h !! r).

(** ** The rest of nn.ts *)

(** [forEachNode(network, ignoreInputs, accessor)]; what the accessor
    returns is dropped, what it throws ends the loops. *)
Definition forEachNode (network : Network) (ignoreInputs : bool)
    (accessor : NodeRef → M unit) : M unit :=
  forEach (drop (if ignoreInputs then 1 else 0) network) (λ currentLayer,
    forEach currentLayer accessor).

(** [getOutputNode(network)]: [network[network.length - 1][0]], which is
    [undefined] ([None]) when the last layer is empty. *)
Definition getOutputNode (network : Network) : M (option NodeRef) :=
  match last network with
  | None => throw TypeError
  | Some lastLayer => ret (head lastLayer)
  end.

(** ** The rest of state.ts *)

(** [s.indexOf(c) >= 0] for a character, and [s.indexOf(pat) >= 0]. *)
Fixpoint occurs (c : Ascii.ascii) (s : string) : bool :=
  match s with
  | EmptyString => false
  | String c' s' => Ascii.eqb c' c || occurs c s'
  end.

Fixpoint includes (pat s : string) : bool :=
  String.prefix pat s
  || match s with
     | EmptyString => false
     | String _ s' => includes pat s'
     end.

(** [parts.join(sep)] on an array of strings. *)
Fixpoint join (sep : string) (parts : list string) : string :=
  match parts with
  | [] => ""
  | part :: rest =>
    match rest with
    | [] => part
    | _ :: _ => part +:+ sep +:+ join sep rest
    end
  end.

(** [s.replace(pat, "")] for a string [pat]: the first occurrence goes. *)
Fixpoint remove_first (pat s : string) : string :=
  if String.prefix pat s then String.substring (String.length pat) (String.length s) s
  else match s with
       | EmptyString => EmptyString
       | String c s' => String c (remove_first pat s')
       end.

(** [a === b].  Arrays, like all objects, are compared by identity, which
    the arrays of the model do not have: an array is taken to be no entry of
    a table (the tables of state.ts hold none). *)
Definition strict_equals (a b : Value) : bool :=
  match a, b with
  | VNull, VNull => true
  | VBool x, VBool y => Bool.eqb x y
  | VNumber x, VNumber y => (x =? y)%float
  | VString x, VString y => bool_decide (x = y)
  | VObject x, VObject y => bool_decide (x = y)
  | _, _ => false
  end.

(** [getKeyFromValue(obj, value)]; [obj] lists its properties in the order
    [for ... in] visits them, and [None] is [undefined]. *)
Fixpoint getKeyFromValue (obj : list (string * Value)) (value : Value) : option string :=
  match obj with
  | [] => None
  | (key, v) :: rest =>
    if strict_equals v value then Some key else getKeyFromValue rest value
  end.

(** The names of [getHideProps(obj)], up to their order. *)
Definition hideProps {A} (obj : gmap string A) : list string :=
  filter (λ prop, endsWith prop HIDE_STATE_SUFFIX) (map_to_list obj).*1.

Section serialization.
(** [String(x)] of a number, and of a function or object of the tables. *)
Variable NumberToString : number → string.
Variable ObjectToString : string → string.

(** [String(value)], which is also what a template literal puts; an array
    joins its elements with [","], [null] among them as the empty string. *)
Fixpoint ToString (value : Value) : string :=
  match value with
  | VNull => "null"
  | VBool true => "true"
  | VBool false => "false"
  | VNumber x => NumberToString x
  | VString s => s
  | VArray vs =>
    join ","
      ((fix elements (vs : list Value) : list string :=
          match vs with
          | [] => []
          | v :: vs' =>
            match v with VNull => "" | _ => ToString v end :: elements vs'
          end) vs)
  | VObject definedAt => ObjectToString definedAt
  end.

(** [`${x}`] for a property that may be missing. *)
Definition ToString_opt (value : option Value) : string :=
  from_option ToString "undefined" value.

(** The body of [State.PROPS.forEach] in [serialize], for one property:
    the text [value] holds when the property is pushed, [None] when the
    callback returns early, and the part [`${name}=${value}`] it pushes. *)
Definition serializeValue (this : gmap string Value) (p : Property.t)
    : exn + option string :=
  match this !! Property.name p with
  | None | Some VNull => inr None
  | Some value =>
    match Property.type p with
    | OBJECT =>
      inr (Some (from_option id "undefined"
                   (from_option (λ keyMap, getKeyFromValue keyMap value) None
                      (Property.keyMap p))))
    | ARRAY_NUMBER | ARRAY_STRING =>
      match value with
      | VArray _ => inr (Some (ToString value))
      | _ => inl TypeError                     (* [value.join] is no function *)
      end
    | _ => inr (Some (ToString value))
    end
  end.

Definition serializeProp (this : gmap string Value) (p : Property.t)
    : exn + option string :=
  match serializeValue this p with
  | inl e => inl e
  | inr None => inr None
  | inr (Some value) => inr (Some (Property.name p +:+ "=" +:+ value))
  end.

(** The loop over the properties: [props] after it, unless a case threw. *)
Fixpoint serializeProps (this : gmap string Value) (ps : list Property.t)
    (props : list string) : exn + list string :=
  match ps with
  | [] => inr props
  | p :: ps' =>
    match serializeProp this p with
    | inl e => inl e
    | inr None => serializeProps this ps' props
    | inr (Some part) => serializeProps this ps' (props ++ [part])
    end
  end.

(** [serialize()]: the array [props] before it is joined, and the string
    the hash is set to.  [hidden] is [getHideProps(this)], in the order the
    engine enumerates the properties. *)
Definition serializeParts (this : gmap string Value) (hidden : list string)
    : exn + list string :=
  match serializeProps this State.PROPS [] with
  | inl e => inl e
  | inr props =>
    inr (foldl (λ props prop, props ++ [prop +:+ "=" +:+ ToString_opt (this !! prop)])
           props hidden)
  end.

Definition serialize (this : gmap string Value) (hidden : list string)
    : exn + string :=
  match serializeParts this hidden with
  | inl e => inl e
  | inr props => inr (join "&" props)
  end.

(** [getHiddenProps()], for the properties in the order [props] in which
    [for ... in] visits them. *)
Definition getHiddenProps (this : gmap string Value) (props : list string)
    : list string :=
  remove_first HIDE_STATE_SUFFIX <$>
    filter (λ prop, endsWith prop HIDE_STATE_SUFFIX = true
                    ∧ ToString_opt (this !! prop) = "true") props.
End serialization.

(** [setHideProperty(name, hidden)] *)
Definition setHideProperty (name : string) (hidden : bool)
    (this : gmap string Value) : gmap string Value :=
  <[name +:+ HIDE_STATE_SUFFIX := VBool hidden]> this.

(** A part of the hash that gives [name] the value [value]: the name, then
    for [Some v] an ["="] and [v], then possibly another ["="] and more. *)
Definition keyvalue (name : string) (value : option string) (part : string) : Prop :=
  occurs "=" name = false
  ∧ match value with
    | None => part = name
    | Some v =>
      occurs "=" v = false
      ∧ (part = name +:+ "=" +:+ v ∨ ∃ rest, part = name +:+ "=" +:+ v +:+ "=" +:+ rest)
    end.

(** ** Reading back what [serialize] wrote *)

(** The name and the value [deserializeState] takes from a part. *)
Definition part_name (part : string) : string :=
  default "" (split "=" part !! 0%nat).

Definition part_value (part : string) : option string :=
  split "=" part !! 1%nat.

(** What the callback of [serialize] pushes for a property. *)
Definition pushed (NumberToString : number → string) (ObjectToString : string → string)
    (this : gmap string Value) (p : Property.t) : list string :=
  match serializeProp NumberToString ObjectToString this p with
  | inr (Some part) => [part]
  | _ => []
  end.

(** What the case of a property assigns for the value of the map, which
    for the cases that ask [hasKey] is not blank; [None] when it assigns
    nothing. *)
Definition read_value (ToNumber : string → number) (p : Property.t) (value : string)
    : option Value :=
  match Property.type p with
  | NUMBER => Some (VNumber (ToNumber value))
  | STRING => Some (VString value)
  | BOOLEAN => Some (VBool (if bool_decide (value = "false") then false else true))
  | OBJECT => Property.keyMap p ≫= λ keyMap, Object_get keyMap value
  | ARRAY_NUMBER => Some (VArray (VNumber ∘ ToNumber <$> State.parseArray value))
  | ARRAY_STRING => Some (VArray (VString <$> State.parseArray value))
  end.

(** A text that comes back as a value: not blank, and without ["="]. *)
Definition text_ok (t : string) : Prop :=
  trim t ≠ "" ∧ occurs "=" t = false.

(** The values of a property that [deserializeState] reads back from what
    [serialize] wrote for them: a boolean; a number whose text converts back
    to it; a string; a value of the property's table; an array of such
    numbers whose texts have no [","]. *)
Definition reads_back (NumberToString : number → string) (ToNumber : string → number)
    (p : Property.t) (v : Value) : Prop :=
  match Property.type p with
  | BOOLEAN => ∃ b, v = VBool b
  | NUMBER =>
    ∃ x, v = VNumber x ∧ text_ok (NumberToString x) ∧ ToNumber (NumberToString x) = x
  | STRING => ∃ s, v = VString s ∧ text_ok s
  | OBJECT => ∃ keyMap key, Property.keyMap p = Some keyMap ∧ (key, v) ∈ keyMap
  | ARRAY_NUMBER =>
    ∃ xs, v = VArray (VNumber <$> xs)
      ∧ Forall (λ x, occurs "," (NumberToString x) = false
                     ∧ occurs "=" (NumberToString x) = false
                     ∧ ToNumber (NumberToString x) = x) xs
      ∧ (xs = [] ∨ trim (join "," (NumberToString <$> xs)) ≠ "")
  | ARRAY_STRING => False
  end.

(** A state to write and read back, with texts for its numbers. *)
Module RoundTrip.
Definition this : gmap string Value :=
  list_to_map
    [("x", VBool false);
     ("noise", VNumber 0.5);
     ("activation", VObject "nn.Activations.RELU");
     ("regularization", VNull);
     ("networkShape", VArray [VNumber 3; VNumber 2]);
     ("noise_hide", VBool true)].

Definition NumberToString (x : number) : string :=
  if (x =? 0.5)%float then "0.5" else if (x =? 3)%float then "3" else "2".

Definition ToNumber (s : string) : number :=
  if bool_decide (s = "0.5") then 0.5%float
  else if bool_decide (s = "3") then 3%float else 2%float.

Definition ObjectToString (definedAt : string) : string := "[object Object]".

Definition props : list string :=
  ["activation=relu"; "noise=0.5"; "networkShape=3,2"; "x=false"; "noise_hide=true"].
End RoundTrip.

(** * heatmap.ts: [reduceMatrix]

    An array is the list of its slots, [None] for a slot that was never
    assigned (it reads [undefined]). *)

(** [new Array(length)] *)
Definition new_Array {A} (length : nat) : list (option A) := replicate length None.

(** [array[index] = value], which lengthens the array when [index] is
    beyond its end. *)
Definition array_set {A} (index : nat) (value : A) (array : list (option A))
    : list (option A) :=
  if (index <? length array)%nat then <[index := Some value]> array
  else array ++ replicate (index - length array) None ++ [Some value].

(** [for (let i = start; i < stop; i += step) body], for at most [fuel]
    tests of the condition: [None] when they do not suffice, here or in the
    body. *)
Fixpoint for_loop {S} (fuel i stop step : nat) (body : nat → S → option (exn + S))
    (s : S) : option (exn + S) :=
  match fuel with
  | O => None
  | S fuel' =>
    if (i <? stop)%nat then
      match body i s with
      | None => None
      | Some (inl e) => Some (inl e)
      | Some (inr s') => for_loop fuel' (i + step) stop step body s'
      end
    else Some (inr s)
  end.

Definition not_square_message : string :=
  "La matriz proporcionada debe ser una matriz cuadrada".

Definition not_divisible_message : string :=
  "El ancho/alto de la matriz debe ser divisible por " +:+
  "el factor de reducci" +:+ String (Ascii.ascii_of_nat 243) "n".

(** [reduceMatrix(matrix, factor)] for a [factor] that is a natural number;
    every loop gets [fuel] tests. *)
Definition reduceMatrix (fuel : nat) (matrix : list (list number)) (factor : nat)
    : option (exn + list (option (list (option number)))) :=
  match matrix !! 0%nat with
  | None => Some (inl TypeError)                      (* [matrix[0].length] *)
  | Some row0 =>
    if negb (length matrix =? length row0)%nat
    then Some (inl (Error not_square_message))
    else if (factor =? 0)%nat || negb (length matrix mod factor =? 0)%nat
    then Some (inl (Error not_divisible_message))     (* [n % 0] is [NaN] *)
    else
      let result := new_Array (length matrix / factor) in
      for_loop fuel 0 (length matrix) factor (λ i result,
        let result := array_set (i / factor) (new_Array (length matrix / factor)) result in
        for_loop fuel 0 (length matrix) factor (λ j result,
          let avg := 0%float in
          match
            for_loop fuel 0 factor 1 (λ k avg,
              for_loop fuel 0 factor 1 (λ l avg,
                match matrix !! (i + k)%nat with
                | None => Some (inl TypeError)
                | Some row =>
                  Some (inr (avg + default undefined_number (row !! (j + l)%nat))%float)
                end) avg) avg
          with
          | None => None
          | Some (inl e) => Some (inl e)
          | Some (inr avg) =>
            let avg := (avg / (number_of_nat factor * number_of_nat factor))%float in
            match result !! (i / factor)%nat with
            | Some (Some row) =>
              Some (inr (array_set (i / factor) (array_set (j / factor) avg row) result))
            | _ => Some (inl TypeError)
            end
          end) result) result
  end.

(** The average [reduceMatrix] is to put at row [a], column [b]: the sum of
    the block's entries, row after row, over the square of the factor. *)
Definition block_sum (matrix : list (list number)) (factor a b : nat) : number :=
  foldl (λ avg k,
           foldl (λ avg l,
                    (avg + default undefined_number
                             (default [] (matrix !! (a * factor + k)%nat)
                                !! (b * factor + l)%nat))%float)
                 avg (seq 0 factor))
        0%float (seq 0 factor).

Definition block_average (matrix : list (list number)) (factor a b : nat) : number :=
  (block_sum matrix factor a b / (number_of_nat factor * number_of_nat factor))%float.

(** The matrix [reduceMatrix] is to return. *)
Definition reduced (matrix : list (list number)) (factor : nat) : list (list number) :=
  (λ a, (λ b, block_average matrix factor a b) <$> seq 0 (length matrix / factor))
    <$> seq 0 (length matrix / factor).

(** The result while it is filled: the row [a] when its first [b] slots are
    assigned, and the array when its first [a] rows are complete. *)
Definition row_upto (matrix : list (list number)) (factor a b : nat)
    : list (option number) :=
  ((λ b', Some (block_average matrix factor a b')) <$> seq 0 b)
  ++ replicate (length matrix / factor - b) None.

Definition rows_upto (matrix : list (list number)) (factor a : nat)
    : list (option (list (option number))) :=
  ((λ a', Some (row_upto matrix factor a' (length matrix / factor))) <$> seq 0 a)
  ++ replicate (length matrix / factor - a) None.

Definition rows_during (matrix : list (list number)) (factor a b : nat)
    : list (option (list (option number))) :=
  ((λ a', Some (row_upto matrix factor a' (length matrix / factor))) <$> seq 0 a)
  ++ Some (row_upto matrix factor a b)
     :: replicate (length matrix / factor - a - 1) None.

(** A call that is not [updateWeights]. *)
Definition no_update (c : Call) : Prop :=
  match c with
  | Update _ _ _ => False
  | _ => True
  end.

(** ** What a node is constructed with *)

(** The id and the activation function of every node, which nothing in
    nn.ts assigns after the constructor. *)
Definition labels (h : Heap) : list (option string * ActivationFunction.t) :=
  (λ n, (Node.id n, Node.activation n)) <$> nodes h.

Definition same_labels : relation Heap := λ h h', labels h' = labels h.

(** The id and activation [buildNetwork] is to give the node it constructs
    as the [r]-th: an input node gets the id [inputIds[r]], a later node the
    count of the nodes after the input layer up to it; the nodes of the last
    layer get [outputActivation]. *)
Definition label_of (networkShape : list nat)
    (activation outputActivation : ActivationFunction.t) (inputIds : list string)
    (r : nat) : option string * ActivationFunction.t :=
  let inputs := default 0 (head networkShape) in
  let below_last := sum_list (take (length networkShape - 1) networkShape) in
  (if (r <? inputs)%nat then inputIds !! r else Some (pretty (r - inputs + 1)),
   if (below_last <=? r)%nat then outputActivation else activation).

(** ** What [updateWeights] never writes

    A node but for its bias and the accumulator and count of its input
    derivative; a link but for its weight, its [isDead] flag and the
    accumulator and count of its error derivative. *)
Definition update_node_frame (n : Node.t) : Node.t :=
  Node.set_bias 0 (Node.set_accInputDer 0 (Node.set_numAccumulatedDers 0 n)).

Definition update_link_frame (l : Link.t) : Link.t :=
  Link.set_weight 0
    (Link.set_isDead false (Link.set_accErrorDer 0 (Link.set_numAccumulatedDers 0 l))).

Definition update_frame (h : Heap) : list Node.t * list Link.t :=
  (update_node_frame <$> nodes h, update_link_frame <$> links h).

(** Every link carries the ids of its two ends, as its constructor wrote
    them: [source.id + "-" + dest.id]. *)
Definition link_ids (h : Heap) : Prop :=
  ∀ k l, links h !! k = Some l →
    ∃ s d, nodes h !! Link.source l = Some s ∧ nodes h !! Link.dest l = Some d
           ∧ Link.id l = id_to_string (Node.id s) +:+ "-" +:+ id_to_string (Node.id d).

(** * Theorems *)

(** ** Running computations *)

Lemma bind_run {A B} (m : M A) (k : A → M B) h :
  (m ≫= k) h = match m h with
               | Ok a h' => k a h'
               | Throw e h' => Throw e h'
               end.
Proof. reflexivity. Qed.

Lemma bind_Ok {A B} (m : M A) (k : A → M B) h a h' :
  m h = Ok a h' → (m ≫= k) h = k a h'.
Proof. intros E. by rewrite bind_run, E. Qed.

Lemma getNode_Some h r n : nodes h !! r = Some n → getNode r h = Ok n h.
Proof. unfold getNode. by intros ->. Qed.

Lemma getLink_Some h r l : links h !! r = Some l → getLink r h = Ok l h.
Proof. unfold getLink. by intros ->. Qed.

Lemma modifyNode_Some h r n f :
  nodes h !! r = Some n → modifyNode r f h = Ok tt (alterNode r f h).
Proof. unfold modifyNode. by intros ->. Qed.

Lemma modifyLink_Some h r l f :
  links h !! r = Some l → modifyLink r f h = Ok tt (alterLink r f h).
Proof. unfold modifyLink. by intros ->. Qed.

(** A loop whose body always succeeds, with a pure step, under an invariant. *)
Lemma forEach_fold {A} (xs : list A) (body : A → M unit)
    (step : Heap → A → Heap) (I : Heap → Prop) h :
  I h →
  (∀ h x, x ∈ xs → I h → body x h = Ok tt (step h x) ∧ I (step h x)) →
  forEach xs body h = Ok tt (foldl step h xs) ∧ I (foldl step h xs).
Proof.
  revert h. induction xs as [|x xs IH]; intros h Hh Hbody; simpl.
  - done.
  - destruct (Hbody h x) as [E Hh']; [left | done |].
    rewrite (bind_Ok _ _ _ _ _ E).
    apply IH; [done |]. intros h' y Hy. apply Hbody. by right.
Qed.

(** ** Reading and altering the store *)

Lemma lookup_alterNode_eq r f h : nodes (alterNode r f h) !! r = f <$> nodes h !! r.
Proof. apply list_lookup_alter_eq. Qed.

Lemma lookup_alterNode_ne r r' f h :
  r ≠ r' → nodes (alterNode r f h) !! r' = nodes h !! r'.
Proof. apply list_lookup_alter_ne. Qed.

Lemma lookup_alterLink_eq r f h : links (alterLink r f h) !! r = f <$> links h !! r.
Proof. apply list_lookup_alter_eq. Qed.

Lemma lookup_alterLink_ne r r' f h :
  r ≠ r' → links (alterLink r f h) !! r' = links h !! r'.
Proof. apply list_lookup_alter_ne. Qed.

Lemma alterNode_alterNode r f g h :
  alterNode r g (alterNode r f h) = alterNode r (g ∘ f) h.
Proof. unfold alterNode; simpl. by rewrite list_alter_alter_eq. Qed.

Lemma alterLink_alterLink r f g h :
  alterLink r g (alterLink r f h) = alterLink r (g ∘ f) h.
Proof. unfold alterLink; simpl. by rewrite list_alter_alter_eq. Qed.

Lemma alterNode_ext r f g h :
  (∀ n, nodes h !! r = Some n → f n = g n) → alterNode r f h = alterNode r g h.
Proof. intros E. unfold alterNode. f_equal. by apply list_alter_ext. Qed.

Lemma alterLink_ext r f g h :
  (∀ l, links h !! r = Some l → f l = g l) → alterLink r f h = alterLink r g h.
Proof. intros E. unfold alterLink. f_equal. by apply list_alter_ext. Qed.

(** A field read through a reference is blind to writes of other fields. *)
Lemma node_field_alterNode {A} (field : Node.t → A) (d : A) r f h r' :
  (∀ n, field (f n) = field n) →
  from_option field d (nodes (alterNode r f h) !! r') = from_option field d (nodes h !! r').
Proof.
  intros Hf. destruct (decide (r = r')) as [<-|Hne].
  - rewrite lookup_alterNode_eq. destruct (nodes h !! r) as [n|]; simpl; [apply Hf | done].
  - by rewrite lookup_alterNode_ne.
Qed.

Lemma outputOf_alterNode r f h r' :
  (∀ n, Node.output (f n) = Node.output n) →
  outputOf (alterNode r f h) r' = outputOf h r'.
Proof. apply node_field_alterNode. Qed.

Lemma linkTerm_alterNode r f h link :
  (∀ n, Node.output (f n) = Node.output n) →
  linkTerm (alterNode r f h) link = linkTerm h link.
Proof.
  intros Hf. unfold linkTerm; simpl.
  destruct (links h !! link); [|done]. by rewrite outputOf_alterNode.
Qed.

(** ** The skeleton is what well-formedness sees *)

Lemma skeleton_alterNode r f h :
  (∀ n, node_refs (f n) = node_refs n) → skeleton (alterNode r f h) = skeleton h.
Proof.
  intros Hf. unfold skeleton; simpl. f_equal.
  rewrite (list_fmap_alter node_refs f id).
  - by apply list_alter_id.
  - by apply Forall_forall.
Qed.

Lemma skeleton_alterLink r f h :
  (∀ l, link_refs (f l) = link_refs l) → skeleton (alterLink r f h) = skeleton h.
Proof.
  intros Hf. unfold skeleton; simpl. f_equal.
  rewrite (list_fmap_alter link_refs f id).
  - by apply list_alter_id.
  - by apply Forall_forall.
Qed.

Lemma skeleton_lengths h h' :
  skeleton h' = skeleton h →
  length (nodes h') = length (nodes h) ∧ length (links h') = length (links h).
Proof.
  unfold skeleton. intros [= E1 E2]. split.
  - by rewrite <- (length_fmap node_refs (nodes h')), E1, length_fmap.
  - by rewrite <- (length_fmap link_refs (links h')), E2, length_fmap.
Qed.

Lemma wf_network_skeleton network h h' :
  skeleton h' = skeleton h → wf_network network h → wf_network network h'.
Proof.
  intros E. destruct (skeleton_lengths _ _ E) as [En _].
  unfold wf_network. by rewrite En.
Qed.

Lemma wf_heap_skeleton h h' : skeleton h' = skeleton h → wf_heap h → wf_heap h'.
Proof. unfold wf_heap. by intros ->. Qed.

(** What well-formedness gives at a reference. *)
Lemma wf_network_lookup network h layer r :
  wf_network network h → layer ∈ network → r ∈ layer → is_Some (nodes h !! r).
Proof.
  intros Hn Hl Hr. apply lookup_lt_is_Some.
  unfold wf_network in Hn. rewrite Forall_forall in Hn.
  specialize (Hn _ Hl). rewrite Forall_forall in Hn. by apply Hn.
Qed.

Lemma wf_heap_node h r n :
  wf_heap h → nodes h !! r = Some n →
  Forall (λ l, is_Some (links h !! l)) (Node.inputLinks n)
  ∧ Forall (λ l, is_Some (links h !! l)) (Node.outputs n).
Proof.
  intros [Hn _] Hr. rewrite Forall_lookup in Hn.
  specialize (Hn r (node_refs n)). simpl in Hn.
  rewrite list_lookup_fmap, Hr in Hn. specialize (Hn eq_refl) as [Hi Ho].
  simpl in Hi, Ho. rewrite length_fmap in Hi, Ho.
  split; eapply Forall_impl; eauto; intros l Hl; by apply lookup_lt_is_Some.
Qed.

Lemma wf_heap_link h r l :
  wf_heap h → links h !! r = Some l →
  is_Some (nodes h !! Link.source l) ∧ is_Some (nodes h !! Link.dest l).
Proof.
  intros [_ Hl] Hr. rewrite Forall_lookup in Hl.
  specialize (Hl r (link_refs l)). simpl in Hl.
  rewrite list_lookup_fmap, Hr in Hl. specialize (Hl eq_refl) as [Hs Hd].
  simpl in Hs, Hd. rewrite length_fmap in Hs, Hd.
  split; by apply lookup_lt_is_Some.
Qed.

(** ** Forward propagation *)

Lemma activate_refs h n : node_refs (activate h n) = node_refs n.
Proof. reflexivity. Qed.

Lemma skeleton_forward_node h r : skeleton (forward_node h r) = skeleton h.
Proof. apply skeleton_alterNode. intros n. apply activate_refs. Qed.

(** The running sum kept in [this.totalInput] is the sum over the store the
    method started in: the loop writes no [output] and no [weight]. *)
Lemma weightedInput_loop h this ls acc :
  foldl (λ h' link,
           alterNode this (λ n,
             Node.set_totalInput (Node.totalInput n + linkTerm h' link)%float n) h')
        (alterNode this (Node.set_totalInput acc) h) ls
  = alterNode this
      (Node.set_totalInput (foldl (λ a link, (a + linkTerm h link)%float) acc ls)) h.
Proof.
  revert acc. induction ls as [|link ls IH]; intros acc; simpl; [done|].
  rewrite alterNode_alterNode, <- IH. f_equal.
  apply alterNode_ext. intros n _. simpl.
  by rewrite linkTerm_alterNode.
Qed.

Lemma updateOutput_spec h this n :
  wf_heap h → nodes h !! this = Some n →
  updateOutput this h = Ok (Node.output (activate h n)) (forward_node h this).
Proof.
  intros Hwf Hn. unfold updateOutput.
  rewrite (bind_Ok _ _ _ _ _ (modifyNode_Some _ _ _ _ Hn)).
  assert (alterNode this (λ n0, Node.set_totalInput (Node.bias n0) n0) h
          = alterNode this (Node.set_totalInput (Node.bias n)) h) as ->.
  { apply alterNode_ext. intros n' Hn'. congruence. }
  set (h1 := alterNode this (Node.set_totalInput (Node.bias n)) h).
  assert (nodes h1 !! this = Some (Node.set_totalInput (Node.bias n) n)) as Hn1.
  { unfold h1. by rewrite lookup_alterNode_eq, Hn. }
  rewrite (bind_Ok _ _ _ _ _ (getNode_Some _ _ _ Hn1)). simpl.
  destruct (wf_heap_node _ _ _ Hwf Hn) as [Hin _].
  destruct (forEach_fold (Node.inputLinks n)
    (λ link, l ← getLink link; s ← getNode (Link.source l);
       modifyNode this (λ n0,
         Node.set_totalInput (Node.totalInput n0 + Link.weight l * Node.output s)%float n0))
    (λ h' link, alterNode this (λ n0,
         Node.set_totalInput (Node.totalInput n0 + linkTerm h' link)%float n0) h')
    (λ h', links h' = links h ∧ length (nodes h') = length (nodes h)) h1)
    as [E [_ _]].
  { by unfold h1, alterNode; simpl; rewrite length_alter. }
  { intros h' link Hlink [El En].
    rewrite Forall_forall in Hin. destruct (Hin _ Hlink) as [l Hl].
    destruct (wf_heap_link _ _ _ Hwf Hl) as [Hs _].
    apply lookup_lt_is_Some in Hs. rewrite <- En in Hs.
    apply lookup_lt_is_Some in Hs as [s Hs].
    assert (is_Some (nodes h' !! this)) as [n' Hn'].
    { apply lookup_lt_is_Some. rewrite En. apply lookup_lt_is_Some. eauto. }
    split.
    - rewrite <- El in Hl.
      rewrite (bind_Ok _ _ _ _ _ (getLink_Some _ _ _ Hl)).
      rewrite (bind_Ok _ _ _ _ _ (getNode_Some _ _ _ Hs)).
      rewrite (modifyNode_Some _ _ _ _ Hn'). do 2 f_equal.
      unfold linkTerm, outputOf. by rewrite Hl, Hs.
    - unfold alterNode; simpl. by rewrite length_alter. }
  rewrite (bind_Ok _ _ _ _ _ E). unfold h1. rewrite weightedInput_loop.
  set (T := foldl _ _ _).
  assert (nodes (alterNode this (Node.set_totalInput T) h) !! this
          = Some (Node.set_totalInput T n)) as Hn2.
  { by rewrite lookup_alterNode_eq, Hn. }
  rewrite (bind_Ok _ _ _ _ _ (modifyNode_Some _ _ _ _ Hn2)).
  rewrite alterNode_alterNode.
  assert (alterNode this
            ((λ n0, Node.set_output
                (ActivationFunction.output (Node.activation n0) (Node.totalInput n0)) n0)
             ∘ Node.set_totalInput T) h = forward_node h this) as ->.
  { apply alterNode_ext. intros n' Hn'. assert (n' = n) as -> by congruence. done. }
  assert (nodes (forward_node h this) !! this = Some (activate h n)) as Hn3.
  { unfold forward_node. by rewrite lookup_alterNode_eq, Hn. }
  by rewrite (bind_Ok _ _ _ _ _ (getNode_Some _ _ _ Hn3)).
Qed.

Lemma forward_layer_run network h layer :
  wf_heap h → wf_network network h → layer ∈ network →
  forEach layer (λ node, _ ← updateOutput node; mret tt) h = Ok tt (forward_layer h layer)
  ∧ skeleton (forward_layer h layer) = skeleton h.
Proof.
  intros Hwf Hnet Hlayer.
  destruct (forEach_fold layer (λ node, _ ← updateOutput node; mret tt) forward_node
              (λ h', skeleton h' = skeleton h) h) as [E Hs]; [done| |done].
  intros h' r Hr Hs.
  assert (wf_heap h') as Hwf' by by eapply wf_heap_skeleton.
  destruct (wf_network_lookup network h' layer r) as [n Hn]; [|done..|].
  { by eapply wf_network_skeleton. }
  split.
  - by rewrite (bind_Ok _ _ _ _ _ (updateOutput_spec _ _ _ Hwf' Hn)).
  - by rewrite skeleton_forward_node.
Qed.

Lemma set_inputs_run network h inputLayer inputs :
  wf_network network h → inputLayer ∈ network →
  forEach (zip inputLayer inputs) (λ '(node, x), modifyNode node (Node.set_output x)) h
    = Ok tt (set_inputs h inputLayer inputs)
  ∧ skeleton (set_inputs h inputLayer inputs) = skeleton h.
Proof.
  intros Hnet Hlayer.
  destruct (forEach_fold (zip inputLayer inputs)
              (λ '(node, x), modifyNode node (Node.set_output x))
              (λ h '(r, x), alterNode r (Node.set_output x) h)
              (λ h', skeleton h' = skeleton h) h) as [E Hs]; [done| |done].
  intros h' [r x] Hrx Hs.
  assert (r ∈ inputLayer) as Hr.
  { apply elem_of_zip_l in Hrx. done. }
  destruct (wf_network_lookup network h' inputLayer r) as [n Hn]; [|done..|].
  { by eapply wf_network_skeleton. }
  split.
  - by rewrite (modifyNode_Some _ _ _ _ Hn).
  - by rewrite skeleton_alterNode.
Qed.

Lemma forward_layers_run network h layers :
  wf_heap h → wf_network network h → layers ⊆ network →
  forEach layers (λ currentLayer,
      forEach currentLayer (λ node, _ ← updateOutput node; mret tt)) h
    = Ok tt (foldl forward_layer h layers)
  ∧ skeleton (foldl forward_layer h layers) = skeleton h.
Proof.
  intros Hwf Hnet Hsub.
  destruct (forEach_fold layers
              (λ currentLayer, forEach currentLayer (λ node, _ ← updateOutput node; mret tt))
              forward_layer (λ h', skeleton h' = skeleton h) h) as [E Hs]; [done| |done].
  intros h' layer Hlayer Hs.
  destruct (forward_layer_run network h' layer) as [E' Hs'].
  - by eapply wf_heap_skeleton.
  - by eapply wf_network_skeleton.
  - by apply Hsub.
  - split; [done | congruence].
Qed.

Lemma forwardProp_spec network inputs inputLayer outputNode h :
  wf_heap h → wf_network network h →
  network !! 0%nat = Some inputLayer →
  length inputs = length inputLayer →
  outputNodeOf network = Some outputNode →
  forwardProp network inputs h
    = Ok (outputOf (forward_spec network inputs h) outputNode)
         (forward_spec network inputs h)
  ∧ skeleton (forward_spec network inputs h) = skeleton h.
Proof.
  intros Hwf Hnet H0 Hlen Hout. unfold forwardProp, forward_spec. rewrite H0; simpl.
  rewrite Hlen, Nat.eqb_refl; simpl.
  destruct (set_inputs_run network h inputLayer inputs) as [E1 S1]; [done| |].
  { by eapply list_elem_of_lookup_2. }
  rewrite (bind_Ok _ _ _ _ _ E1).
  destruct (forward_layers_run network (set_inputs h inputLayer inputs) (drop 1 network))
    as [E2 S2].
  { by eapply wf_heap_skeleton. }
  { by eapply wf_network_skeleton. }
  { intros x Hx. by eapply subseteq_drop. }
  rewrite (bind_Ok _ _ _ _ _ E2). rewrite Hout.
  split; [|congruence].
  assert (is_Some (nodes (foldl forward_layer (set_inputs h inputLayer inputs) (drop 1 network))
                     !! outputNode)) as [n Hn].
  { unfold outputNodeOf in Hout.
    destruct (last network) as [lastLayer|] eqn:Hlast; [|done]. simpl in Hout.
    eapply (wf_network_lookup network _ lastLayer).
    - eapply wf_network_skeleton; [|done]. congruence.
    - by apply last_Some_elem_of.
    - by apply head_Some_elem_of. }
  rewrite (bind_Ok _ _ _ _ _ (getNode_Some _ _ _ Hn)).
  unfold outputOf. by rewrite Hn.
Qed.

(** ** Backward propagation *)

Lemma alterNode_same r f h :
  (∀ n, nodes h !! r = Some n → f n = n) → alterNode r f h = h.
Proof.
  intros E. rewrite (alterNode_ext r f id) by done.
  destruct h as [ns ls]. unfold alterNode; simpl. f_equal. by apply list_alter_id.
Qed.

Lemma alterLink_same r f h :
  (∀ l, links h !! r = Some l → f l = l) → alterLink r f h = h.
Proof.
  intros E. rewrite (alterLink_ext r f id) by done.
  destruct h as [ns ls]. unfold alterLink; simpl. f_equal. by apply list_alter_id.
Qed.

Lemma backward_node_refs n : node_refs (backward_node n) = node_refs n.
Proof. reflexivity. Qed.

Lemma backward_link_refs e l : link_refs (backward_link e l) = link_refs l.
Proof. unfold backward_link. by destruct (Link.isDead l). Qed.

(** Step 1: the three assignments on a node are one update of its record. *)
Lemma backward_step1_run network h layer :
  wf_network network h → layer ∈ network →
  forEach layer (λ node,
      modifyNode node (λ n,
        Node.set_inputDer
          (Node.outputDer n *
           ActivationFunction.der (Node.activation n) (Node.totalInput n))%float n);;
      modifyNode node (λ n,
        Node.set_accInputDer (Node.accInputDer n + Node.inputDer n)%float n);;
      modifyNode node (λ n,
        Node.set_numAccumulatedDers (Node.numAccumulatedDers n + 1)%float n)) h
    = Ok tt (foldl (λ h' r, alterNode r backward_node h') h layer)
  ∧ skeleton (foldl (λ h' r, alterNode r backward_node h') h layer) = skeleton h.
Proof.
  intros Hnet Hlayer.
  destruct (forEach_fold layer
    (λ node,
      modifyNode node (λ n,
        Node.set_inputDer
          (Node.outputDer n *
           ActivationFunction.der (Node.activation n) (Node.totalInput n))%float n);;
      modifyNode node (λ n,
        Node.set_accInputDer (Node.accInputDer n + Node.inputDer n)%float n);;
      modifyNode node (λ n,
        Node.set_numAccumulatedDers (Node.numAccumulatedDers n + 1)%float n))
    (λ h' r, alterNode r backward_node h')
    (λ h', skeleton h' = skeleton h) h) as [E Hs]; [done| |done].
  intros h' r Hr Hs.
  destruct (wf_network_lookup network h' layer r) as [n Hn]; [|done..|].
  { by eapply wf_network_skeleton. }
  split; [|by rewrite skeleton_alterNode].
  rewrite (bind_Ok _ _ _ _ _ (modifyNode_Some _ _ _ _ Hn)).
  erewrite bind_Ok; last first.
  { eapply modifyNode_Some. by rewrite lookup_alterNode_eq, Hn. }
  erewrite modifyNode_Some; last first.
  { by rewrite !lookup_alterNode_eq, Hn. }
  by rewrite !alterNode_alterNode.
Qed.

(** Step 2 for one node: the loop over its incoming links. *)
Lemma backward_links_run h node n :
  wf_heap h → nodes h !! node = Some n →
  (n ← getNode node;
   forEach (Node.inputLinks n) (λ link,
     l ← getLink link;
     if Link.isDead l then ret tt
     else
       n ← getNode node;
       s ← getNode (Link.source l);
       modifyLink link (Link.set_errorDer (Node.inputDer n * Node.output s)%float);;
       modifyLink link (λ l,
         Link.set_accErrorDer (Link.accErrorDer l + Link.errorDer l)%float l);;
       modifyLink link (λ l,
         Link.set_numAccumulatedDers (Link.numAccumulatedDers l + 1)%float l))) h
    = Ok tt (backward_links h node)
  ∧ skeleton (backward_links h node) = skeleton h
  ∧ nodes (backward_links h node) = nodes h.
Proof.
  intros Hwf Hn.
  rewrite (bind_Ok _ _ _ _ _ (getNode_Some _ _ _ Hn)).
  unfold backward_links, inputLinksOf. rewrite Hn; simpl.
  destruct (wf_heap_node _ _ _ Hwf Hn) as [Hin _].
  match goal with |- forEach ?xs ?body h = Ok tt (foldl ?step h ?xs) ∧ _ =>
    destruct (forEach_fold xs body step
      (λ h', skeleton h' = skeleton h ∧ nodes h' = nodes h) h) as [E [Hs Hnodes]]
  end; [done| |done].
  intros h' link Hlink [Hs Hnodes].
  rewrite Forall_forall in Hin. destruct (Hin _ Hlink) as [l0 Hl0].
  assert (is_Some (links h' !! link)) as [l Hl].
  { apply lookup_lt_is_Some. destruct (skeleton_lengths _ _ Hs) as [_ ->].
    apply lookup_lt_is_Some. eauto. }
  assert (wf_heap h') as Hwf' by by eapply wf_heap_skeleton.
  destruct (wf_heap_link _ _ _ Hwf' Hl) as [[s Hsrc] _].
  split; [|split; [|done]].
  - rewrite (bind_Ok _ _ _ _ _ (getLink_Some _ _ _ Hl)).
    destruct (Link.isDead l) eqn:Hdead.
    + unfold ret. f_equal. symmetry. apply alterLink_same.
      intros l' Hl'. assert (l' = l) as -> by congruence.
      unfold backward_link. by rewrite Hdead.
    + assert (nodes h' !! node = Some n) as Hn' by by rewrite Hnodes.
      rewrite (bind_Ok _ _ _ _ _ (getNode_Some _ _ _ Hn')).
      rewrite (bind_Ok _ _ _ _ _ (getNode_Some _ _ _ Hsrc)).
      rewrite (bind_Ok _ _ _ _ _ (modifyLink_Some _ _ _ _ Hl)).
      erewrite bind_Ok; last first.
      { eapply modifyLink_Some. by rewrite lookup_alterLink_eq, Hl. }
      erewrite modifyLink_Some; last first.
      { by rewrite !lookup_alterLink_eq, Hl. }
      rewrite !alterLink_alterLink. f_equal.
      apply alterLink_ext. intros l' Hl'. assert (l' = l) as -> by congruence.
      unfold backward_link, inputDerOf, outputOf. rewrite Hdead, Hn.
      rewrite <- Hnodes, Hsrc. done.
  - rewrite skeleton_alterLink; [done|]. intros l'. apply backward_link_refs.
Qed.

Lemma backward_step2_run network h layer :
  wf_heap h → wf_network network h → layer ∈ network →
  forEach layer (λ node,
      n ← getNode node;
      forEach (Node.inputLinks n) (λ link,
        l ← getLink link;
        if Link.isDead l then ret tt
        else
          n ← getNode node;
          s ← getNode (Link.source l);
          modifyLink link (Link.set_errorDer (Node.inputDer n * Node.output s)%float);;
          modifyLink link (λ l,
            Link.set_accErrorDer (Link.accErrorDer l + Link.errorDer l)%float l);;
          modifyLink link (λ l,
            Link.set_numAccumulatedDers (Link.numAccumulatedDers l + 1)%float l))) h
    = Ok tt (foldl backward_links h layer)
  ∧ skeleton (foldl backward_links h layer) = skeleton h.
Proof.
  intros Hwf Hnet Hlayer.
  match goal with |- forEach ?xs ?body h = Ok tt (foldl ?step h ?xs) ∧ _ =>
    destruct (forEach_fold xs body step (λ h', skeleton h' = skeleton h) h) as [E Hs]
  end; [done| |done].
  intros h' r Hr Hs.
  assert (wf_heap h') as Hwf' by by eapply wf_heap_skeleton.
  destruct (wf_network_lookup network h' layer r) as [n Hn]; [|done..|].
  { by eapply wf_network_skeleton. }
  destruct (backward_links_run h' r n Hwf' Hn) as (E & Hs' & _).
  split; [done | congruence].
Qed.

Lemma inputDerOf_alterNode r f h r' :
  (∀ n, Node.inputDer (f n) = Node.inputDer n) →
  inputDerOf (alterNode r f h) r' = inputDerOf h r'.
Proof. apply node_field_alterNode. Qed.

Lemma outputDerTerm_alterNode r f h output :
  (∀ n, Node.inputDer (f n) = Node.inputDer n) →
  outputDerTerm (alterNode r f h) output = outputDerTerm h output.
Proof.
  intros Hf. unfold outputDerTerm; simpl.
  destruct (links h !! output); [|done]. by rewrite inputDerOf_alterNode.
Qed.

Lemma outputDer_loop h node ls acc :
  foldl (λ h' output,
           alterNode node (λ n,
             Node.set_outputDer (Node.outputDer n + outputDerTerm h' output)%float n) h')
        (alterNode node (Node.set_outputDer acc) h) ls
  = alterNode node
      (Node.set_outputDer (foldl (λ a output, (a + outputDerTerm h output)%float) acc ls)) h.
Proof.
  revert acc. induction ls as [|output ls IH]; intros acc; simpl; [done|].
  rewrite alterNode_alterNode, <- IH. f_equal.
  apply alterNode_ext. intros n _. simpl.
  by rewrite outputDerTerm_alterNode.
Qed.

(** Step 3 for one node of the previous layer. *)
Lemma backward_outputDer_run h node n :
  wf_heap h → nodes h !! node = Some n →
  (modifyNode node (Node.set_outputDer 0);;
   n ← getNode node;
   forEach (Node.outputs n) (λ output,
     o ← getLink output;
     d ← getNode (Link.dest o);
     modifyNode node (λ n,
       Node.set_outputDer (Node.outputDer n + Link.weight o * Node.inputDer d)%float n))) h
    = Ok tt (backward_outputDer h node)
  ∧ skeleton (backward_outputDer h node) = skeleton h.
Proof.
  intros Hwf Hn. split; [|by apply skeleton_alterNode].
  rewrite (bind_Ok _ _ _ _ _ (modifyNode_Some _ _ _ _ Hn)).
  set (h1 := alterNode node (Node.set_outputDer 0) h).
  assert (nodes h1 !! node = Some (Node.set_outputDer 0 n)) as Hn1.
  { unfold h1. by rewrite lookup_alterNode_eq, Hn. }
  rewrite (bind_Ok _ _ _ _ _ (getNode_Some _ _ _ Hn1)). simpl.
  destruct (wf_heap_node _ _ _ Hwf Hn) as [_ Hout].
  match goal with |- forEach ?xs ?body h1 = _ =>
    destruct (forEach_fold xs body
      (λ h' output, alterNode node (λ n0,
         Node.set_outputDer (Node.outputDer n0 + outputDerTerm h' output)%float n0) h')
      (λ h', links h' = links h ∧ length (nodes h') = length (nodes h)) h1)
      as [E [_ _]]
  end.
  { by unfold h1, alterNode; simpl; rewrite length_alter. }
  { intros h' output Houtput [El En].
    rewrite Forall_forall in Hout. destruct (Hout _ Houtput) as [o Ho].
    destruct (wf_heap_link _ _ _ Hwf Ho) as [_ Hd].
    apply lookup_lt_is_Some in Hd. rewrite <- En in Hd.
    apply lookup_lt_is_Some in Hd as [d Hd].
    assert (is_Some (nodes h' !! node)) as [n' Hn'].
    { apply lookup_lt_is_Some. rewrite En. apply lookup_lt_is_Some. eauto. }
    split.
    - rewrite <- El in Ho.
      rewrite (bind_Ok _ _ _ _ _ (getLink_Some _ _ _ Ho)).
      rewrite (bind_Ok _ _ _ _ _ (getNode_Some _ _ _ Hd)).
      rewrite (modifyNode_Some _ _ _ _ Hn'). do 2 f_equal.
      unfold outputDerTerm, inputDerOf. by rewrite Ho, Hd.
    - unfold alterNode; simpl. by rewrite length_alter. }
  rewrite E. unfold h1. rewrite outputDer_loop. f_equal.
  unfold backward_outputDer. apply alterNode_ext.
  intros n' Hn'. by assert (n' = n) as -> by congruence.
Qed.

Lemma backward_step3_run network h layer :
  wf_heap h → wf_network network h → layer ∈ network →
  forEach layer (λ node,
      modifyNode node (Node.set_outputDer 0);;
      n ← getNode node;
      forEach (Node.outputs n) (λ output,
        o ← getLink output;
        d ← getNode (Link.dest o);
        modifyNode node (λ n,
          Node.set_outputDer
            (Node.outputDer n + Link.weight o * Node.inputDer d)%float n))) h
    = Ok tt (foldl backward_outputDer h layer)
  ∧ skeleton (foldl backward_outputDer h layer) = skeleton h.
Proof.
  intros Hwf Hnet Hlayer.
  match goal with |- forEach ?xs ?body h = Ok tt (foldl ?step h ?xs) ∧ _ =>
    destruct (forEach_fold xs body step (λ h', skeleton h' = skeleton h) h) as [E Hs]
  end; [done| |done].
  intros h' r Hr Hs.
  assert (wf_heap h') as Hwf' by by eapply wf_heap_skeleton.
  destruct (wf_network_lookup network h' layer r) as [n Hn]; [|done..|].
  { by eapply wf_network_skeleton. }
  destruct (backward_outputDer_run h' r n Hwf' Hn) as (E & Hs').
  split; [done | congruence].
Qed.

Lemma backProp_layers_spec network layerIdx h :
  wf_heap h → wf_network network h → layerIdx < length network →
  backProp_layers network layerIdx h = Ok tt (backward_layers network layerIdx h)
  ∧ skeleton (backward_layers network layerIdx h) = skeleton h.
Proof.
  revert h. induction layerIdx as [|below IH]; intros h Hwf Hnet Hlt.
  { done. }
  cbn [backProp_layers backward_layers].
  destruct (lookup_lt_is_Some_2 network (S below) Hlt) as [currentLayer Hcur].
  rewrite Hcur.
  assert (currentLayer ∈ network) as Hin by by eapply list_elem_of_lookup_2.
  destruct (backward_step1_run network h currentLayer Hnet Hin) as [E1 S1].
  rewrite (bind_Ok _ _ _ _ _ E1).
  set (h1 := foldl (λ h' r, alterNode r backward_node h') h currentLayer) in *.
  assert (wf_heap h1) as Hwf1 by by eapply wf_heap_skeleton.
  assert (wf_network network h1) as Hnet1 by by eapply wf_network_skeleton.
  destruct (backward_step2_run network h1 currentLayer Hwf1 Hnet1 Hin) as [E2 S2].
  rewrite (bind_Ok _ _ _ _ _ E2).
  set (h2 := foldl backward_links h1 currentLayer) in *.
  assert (wf_heap h2) as Hwf2 by by eapply wf_heap_skeleton.
  assert (wf_network network h2) as Hnet2 by by eapply wf_network_skeleton.
  assert (backward_layer network (S below) h
          = if (S below =? 1)%nat then h2
            else foldl backward_outputDer h2 (default [] (network !! (S below - 1)%nat)))
    as Hlayer.
  { unfold backward_layer. by rewrite Hcur. }
  rewrite Hlayer.
  destruct (S below =? 1)%nat eqn:Hone.
  - destruct (IH h2) as [E S]; [done | done | lia |].
    split; [done | congruence].
  - assert (S below - 1 < length network) as Hlt' by lia.
    destruct (lookup_lt_is_Some_2 network _ Hlt') as [prevLayer Hprev].
    rewrite Hprev. simpl default.
    assert (prevLayer ∈ network) as Hin' by by eapply list_elem_of_lookup_2.
    destruct (backward_step3_run network h2 prevLayer Hwf2 Hnet2 Hin') as [E3 S3].
    rewrite (bind_Ok _ _ _ _ _ E3).
    destruct (IH (foldl backward_outputDer h2 prevLayer)) as [E S].
    + by eapply wf_heap_skeleton.
    + by eapply wf_network_skeleton.
    + lia.
    + split; [done | congruence].
Qed.

Lemma backProp_spec network target errorFunc outputNode h :
  wf_heap h → wf_network network h →
  outputNodeOf network = Some outputNode →
  backProp network target errorFunc h = Ok tt (backward_spec network target errorFunc h)
  ∧ skeleton (backward_spec network target errorFunc h) = skeleton h.
Proof.
  intros Hwf Hnet Hout. unfold backProp, backward_spec. rewrite Hout.
  assert (is_Some (nodes h !! outputNode) ∧ 0 < length network) as [[n Hn] Hlen].
  { unfold outputNodeOf in Hout.
    destruct (last network) as [lastLayer|] eqn:Hlast; [|done]. simpl in Hout.
    split.
    - eapply (wf_network_lookup network _ lastLayer); [done| |].
      + by apply last_Some_elem_of.
      + by apply head_Some_elem_of.
    - destruct network; [done | simpl; lia]. }
  rewrite (bind_Ok _ _ _ _ _ (modifyNode_Some _ _ _ _ Hn)).
  match goal with |- context [backProp_layers network _ ?h1] =>
    destruct (backProp_layers_spec network (length network - 1) h1) as [E S]
  end.
  - eapply wf_heap_skeleton; [|done]. by apply skeleton_alterNode.
  - eapply wf_network_skeleton; [|done]. by apply skeleton_alterNode.
  - lia.
  - split; [done|]. rewrite S. by apply skeleton_alterNode.
Qed.

(** ** Weight update *)

Lemma update_bias_refs lr n : node_refs (update_bias lr n) = node_refs n.
Proof. unfold update_bias. by destruct (0 <? _)%float. Qed.

Lemma update_link_refs lr rr l : link_refs (update_link lr rr l) = link_refs l.
Proof.
  unfold update_link.
  destruct (Link.isDead l); [done|]. destruct (0 <? _)%float; [|done].
  by destruct (_ && _).
Qed.

Lemma update_link_run lr rr h link l :
  links h !! link = Some l →
  (l ← getLink link;
   if Link.isDead l then ret tt
   else
     let regulDer :=
       match Link.regularization l with
       | Some r => RegularizationFunction.der (RegularizationFunction.table r) (Link.weight l)
       | None => 0%float
       end in
     if (0 <? Link.numAccumulatedDers l)%float then
       modifyLink link (λ l,
         Link.set_weight
           (Link.weight l - (lr / Link.numAccumulatedDers l) * Link.accErrorDer l)%float l);;
       l ← getLink link;
       let newLinkWeight := (Link.weight l - (lr * rr) * regulDer)%float in
       (if from_option RegularizationFunction.is_L1 false (Link.regularization l)
           && (Link.weight l * newLinkWeight <? 0)%float
        then
          modifyLink link (Link.set_weight 0);;
          modifyLink link (Link.set_isDead true)
        else
          modifyLink link (Link.set_weight newLinkWeight));;
       modifyLink link (Link.set_accErrorDer 0);;
       modifyLink link (Link.set_numAccumulatedDers 0)
     else ret tt) h
  = Ok tt (alterLink link (update_link lr rr) h).
Proof.
  intros Hl.
  rewrite (bind_Ok _ _ _ _ _ (getLink_Some _ _ _ Hl)).
  destruct (Link.isDead l) eqn:Hdead.
  { unfold ret. f_equal. symmetry. apply alterLink_same.
    intros l' Hl'. assert (l' = l) as -> by congruence.
    unfold update_link. by rewrite Hdead. }
  cbv zeta.
  destruct (0 <? Link.numAccumulatedDers l)%float eqn:Hnum; last first.
  { unfold ret. f_equal. symmetry. apply alterLink_same.
    intros l' Hl'. assert (l' = l) as -> by congruence.
    unfold update_link. by rewrite Hdead, Hnum. }
  rewrite (bind_Ok _ _ _ _ _ (modifyLink_Some _ _ _ _ Hl)).
  erewrite bind_Ok; last first.
  { eapply getLink_Some. by rewrite lookup_alterLink_eq, Hl. }
  cbn [Link.weight Link.regularization Link.set_weight].
  assert (alterLink link (update_link lr rr) h
          = alterLink link (λ l', update_link lr rr l) h) as ->.
  { apply alterLink_ext. intros l' Hl'. congruence. }
  unfold update_link. rewrite Hdead, Hnum. cbv zeta.
  destruct (_ && _).
  - erewrite bind_Ok; last first.
    { erewrite bind_Ok; last first.
      { eapply modifyLink_Some. by rewrite lookup_alterLink_eq, Hl. }
      eapply modifyLink_Some. by rewrite !lookup_alterLink_eq, Hl. }
    erewrite bind_Ok; last first.
    { eapply modifyLink_Some. by rewrite !lookup_alterLink_eq, Hl. }
    erewrite modifyLink_Some; last first.
    { by rewrite !lookup_alterLink_eq, Hl. }
    rewrite !alterLink_alterLink. f_equal.
    apply alterLink_ext. intros l' Hl'. by assert (l' = l) as -> by congruence.
  - erewrite bind_Ok; last first.
    { eapply modifyLink_Some. by rewrite lookup_alterLink_eq, Hl. }
    erewrite bind_Ok; last first.
    { eapply modifyLink_Some. by rewrite !lookup_alterLink_eq, Hl. }
    erewrite modifyLink_Some; last first.
    { by rewrite !lookup_alterLink_eq, Hl. }
    rewrite !alterLink_alterLink. f_equal.
    apply alterLink_ext. intros l' Hl'. by assert (l' = l) as -> by congruence.
Qed.

Lemma update_node_run lr rr h node n :
  wf_heap h → nodes h !! node = Some n →
  (n ← getNode node;
   (if (0 <? Node.numAccumulatedDers n)%float then
      modifyNode node (λ n,
        Node.set_bias
          (Node.bias n - lr * Node.accInputDer n / Node.numAccumulatedDers n)%float n);;
      modifyNode node (Node.set_accInputDer 0);;
      modifyNode node (Node.set_numAccumulatedDers 0)
    else ret tt);;
   forEach (Node.inputLinks n) (λ link,
     l ← getLink link;
     if Link.isDead l then ret tt
     else
       let regulDer :=
         match Link.regularization l with
         | Some r => RegularizationFunction.der (RegularizationFunction.table r) (Link.weight l)
         | None => 0%float
         end in
       if (0 <? Link.numAccumulatedDers l)%float then
         modifyLink link (λ l,
           Link.set_weight
             (Link.weight l - (lr / Link.numAccumulatedDers l) * Link.accErrorDer l)%float l);;
         l ← getLink link;
         let newLinkWeight := (Link.weight l - (lr * rr) * regulDer)%float in
         (if from_option RegularizationFunction.is_L1 false (Link.regularization l)
             && (Link.weight l * newLinkWeight <? 0)%float
          then
            modifyLink link (Link.set_weight 0);;
            modifyLink link (Link.set_isDead true)
          else
            modifyLink link (Link.set_weight newLinkWeight));;
         modifyLink link (Link.set_accErrorDer 0);;
         modifyLink link (Link.set_numAccumulatedDers 0)
       else ret tt)) h
  = Ok tt (update_node lr rr h node)
  ∧ skeleton (update_node lr rr h node) = skeleton h.
Proof.
  intros Hwf Hn.
  rewrite (bind_Ok _ _ _ _ _ (getNode_Some _ _ _ Hn)).
  assert ((if (0 <? Node.numAccumulatedDers n)%float then
      modifyNode node (λ n,
        Node.set_bias
          (Node.bias n - lr * Node.accInputDer n / Node.numAccumulatedDers n)%float n);;
      modifyNode node (Node.set_accInputDer 0);;
      modifyNode node (Node.set_numAccumulatedDers 0)
    else ret tt) h = Ok tt (alterNode node (update_bias lr) h)) as Ebias.
  { destruct (0 <? Node.numAccumulatedDers n)%float eqn:Hnum.
    - rewrite (bind_Ok _ _ _ _ _ (modifyNode_Some _ _ _ _ Hn)).
      erewrite bind_Ok; last first.
      { eapply modifyNode_Some. by rewrite lookup_alterNode_eq, Hn. }
      erewrite modifyNode_Some; last first.
      { by rewrite !lookup_alterNode_eq, Hn. }
      rewrite !alterNode_alterNode. f_equal.
      apply alterNode_ext. intros n' Hn'. assert (n' = n) as -> by congruence.
      unfold update_bias. by rewrite Hnum.
    - unfold ret. f_equal. symmetry. apply alterNode_same.
      intros n' Hn'. assert (n' = n) as -> by congruence.
      unfold update_bias. by rewrite Hnum. }
  rewrite (bind_Ok _ _ _ _ _ Ebias).
  unfold update_node, inputLinksOf. rewrite Hn; simpl.
  set (h1 := alterNode node (update_bias lr) h).
  assert (skeleton h1 = skeleton h) as S1.
  { apply skeleton_alterNode. intros n'. apply update_bias_refs. }
  destruct (wf_heap_node _ _ _ Hwf Hn) as [Hin _].
  match goal with |- forEach ?xs ?body h1 = Ok tt (foldl ?step h1 ?xs) ∧ _ =>
    destruct (forEach_fold xs body step (λ h', skeleton h' = skeleton h) h1) as [E Hs]
  end; [done| |done].
  intros h' link Hlink Hs.
  rewrite Forall_forall in Hin. destruct (Hin _ Hlink) as [l0 Hl0].
  assert (is_Some (links h' !! link)) as [l Hl].
  { apply lookup_lt_is_Some. destruct (skeleton_lengths _ _ Hs) as [_ ->].
    apply lookup_lt_is_Some. eauto. }
  split.
  - by apply (update_link_run lr rr h' link l).
  - rewrite skeleton_alterLink; [done|]. intros l'. apply update_link_refs.
Qed.

Lemma updateWeights_spec network lr rr h :
  wf_heap h → wf_network network h →
  updateWeights network lr rr h = Ok tt (update_spec network lr rr h)
  ∧ skeleton (update_spec network lr rr h) = skeleton h.
Proof.
  intros Hwf Hnet. unfold updateWeights, update_spec.
  match goal with |- forEach ?xs ?body h = Ok tt (foldl ?step h ?xs) ∧ _ =>
    destruct (forEach_fold xs body step (λ h', skeleton h' = skeleton h) h) as [E Hs]
  end; [done| |done].
  intros h' layer Hlayer Hs.
  match goal with |- forEach ?xs ?body h' = Ok tt (foldl ?step h' ?xs) ∧ _ =>
    destruct (forEach_fold xs body step (λ h'', skeleton h'' = skeleton h) h') as [E Hs']
  end; [done| |done].
  intros h'' r Hr Hs''.
  assert (wf_heap h'') as Hwf'' by by eapply wf_heap_skeleton.
  destruct (wf_network_lookup network h'' layer r) as [n Hn]; [| |done|].
  { by eapply wf_network_skeleton. }
  { eapply subseteq_drop. done. }
  destruct (update_node_run lr rr h'' r n Hwf'' Hn) as [E Hs3].
  split; [done | congruence].
Qed.

(** ** A run of in-place updates of an array

    [xs] is the sequence of visits, [k x] the position a visit updates and
    [g x] the update it applies. *)

Section alter_fold.
Context {A X : Type} (k : X → nat) (g : X → A → A).

Lemma foldl_alter_length (xs : list X) (l : list A) :
  length (foldl (λ l x, alter (g x) (k x) l) l xs) = length l.
Proof.
  revert l. induction xs as [|x xs IH]; intros l; simpl; [done|].
  by rewrite IH, length_alter.
Qed.

(** A position that no visit names keeps its element. *)
Lemma foldl_alter_lookup_notin (xs : list X) (l : list A) i :
  i ∉ k <$> xs → foldl (λ l x, alter (g x) (k x) l) l xs !! i = l !! i.
Proof.
  revert l. induction xs as [|x xs IH]; intros l Hi; simpl; [done|].
  rewrite fmap_cons, not_elem_of_cons in Hi. destruct Hi as [Hne Hi].
  rewrite IH by done. by apply list_lookup_alter_ne.
Qed.

(** A position visited exactly once gets that visit's update. *)
Lemma foldl_alter_lookup_once (xs : list X) (l : list A) x :
  NoDup (k <$> xs) → x ∈ xs →
  foldl (λ l x, alter (g x) (k x) l) l xs !! k x = g x <$> l !! k x.
Proof.
  revert l. induction xs as [|y xs IH]; intros l Hnd Hx; [by inversion Hx|].
  rewrite fmap_cons, NoDup_cons in Hnd. destruct Hnd as [Hy Hnd]. simpl.
  apply elem_of_cons in Hx as [->|Hx].
  - rewrite foldl_alter_lookup_notin by done. apply list_lookup_alter_eq.
  - rewrite IH by done. rewrite list_lookup_alter_ne; [done|].
    intros E. apply Hy. rewrite E. by apply list_elem_of_fmap_2.
Qed.

(** A relation between the elements before and after that every single
    update respects, and that is a preorder, holds across the run. *)
Lemma foldl_alter_rel (R : A → A → Prop) `{!PreOrder R} (xs : list X) (l : list A) i a :
  (∀ x a, x ∈ xs → k x = i → R a (g x a)) →
  l !! i = Some a →
  ∃ a', foldl (λ l x, alter (g x) (k x) l) l xs !! i = Some a' ∧ R a a'.
Proof.
  revert l a. induction xs as [|x xs IH]; intros l a Hg Hl; simpl.
  { exists a. split; [done | reflexivity]. }
  destruct (decide (k x = i)) as [E|Hne].
  - destruct (IH (alter (g x) (k x) l) (g x a)) as (a' & Ha' & HR).
    + intros y b Hy. apply Hg. by right.
    + subst i. by rewrite list_lookup_alter_eq, Hl.
    + exists a'. split; [done|]. etrans; [|done]. apply Hg; [left | done].
  - destruct (IH (alter (g x) (k x) l) a) as (a' & Ha' & HR).
    + intros y b Hy. apply Hg. by right.
    + by rewrite list_lookup_alter_ne.
    + by exists a'.
Qed.
End alter_fold.

(** With one and the same idempotent update at every visit, repeated visits
    of a position do not matter. *)
Lemma foldl_alter_lookup_idemp {A} (f : A → A) (rs : list nat) (l : list A) r :
  (∀ a, f (f a) = f a) → r ∈ rs →
  foldl (λ l r, alter f r l) l rs !! r = f <$> l !! r.
Proof.
  intros Hf. revert l. induction rs as [|r' rs IH]; intros l Hr; [by inversion Hr|].
  simpl. destruct (decide (r ∈ rs)) as [Hin|Hnin].
  - rewrite IH by done. destruct (decide (r' = r)) as [->|Hne].
    + rewrite list_lookup_alter_eq. destruct (l !! r); simpl; [by rewrite Hf | done].
    + by rewrite list_lookup_alter_ne.
  - apply elem_of_cons in Hr as [->|Hr]; [|done].
    rewrite (foldl_alter_lookup_notin id (λ _, f)).
    + apply list_lookup_alter_eq.
    + by rewrite list_fmap_id.
Qed.

(** Folding over the layers, then over the nodes of a layer, is folding
    over the nodes of all those layers in order. *)
Lemma foldl_foldl_concat {S X} (step : S → X → S) (s : S) (xss : list (list X)) :
  foldl (foldl step) s xss = foldl step s (concat xss).
Proof.
  revert s. induction xss as [|xs xss IH]; intros s; simpl; [done|].
  by rewrite foldl_app, IH.
Qed.

(** Projections of a store run through node updates or link updates. *)
Lemma nodes_foldl_alterLink {X} (k : X → nat) (g : X → Link.t → Link.t) xs h :
  nodes (foldl (λ h' x, alterLink (k x) (g x) h') h xs) = nodes h.
Proof. revert h. induction xs as [|x xs IH]; intros h; simpl; [done|]. by rewrite IH. Qed.

Lemma links_foldl_alterLink {X} (k : X → nat) (g : X → Link.t → Link.t) xs h :
  links (foldl (λ h' x, alterLink (k x) (g x) h') h xs)
  = foldl (λ l x, alter (g x) (k x) l) (links h) xs.
Proof. revert h. induction xs as [|x xs IH]; intros h; simpl; [done|]. by rewrite IH. Qed.

Lemma links_foldl_alterNode {X} (k : X → nat) (g : Heap → X → Node.t → Node.t) xs h :
  links (foldl (λ h' x, alterNode (k x) (g h' x) h') h xs) = links h.
Proof. revert h. induction xs as [|x xs IH]; intros h; simpl; [done|]. by rewrite IH. Qed.

Lemma nodes_foldl_alterNode {X} (k : X → nat) (g : X → Node.t → Node.t) xs h :
  nodes (foldl (λ h' x, alterNode (k x) (g x) h') h xs)
  = foldl (λ l x, alter (g x) (k x) l) (nodes h) xs.
Proof. revert h. induction xs as [|x xs IH]; intros h; simpl; [done|]. by rewrite IH. Qed.

(** ** The bias step of the weight update *)

Lemma nodes_update_node lr rr h r :
  nodes (update_node lr rr h r) = alter (update_bias lr) r (nodes h).
Proof.
  unfold update_node.
  by rewrite (nodes_foldl_alterLink id (λ _, update_link lr rr)).
Qed.

Lemma nodes_update_spec network lr rr h :
  nodes (update_spec network lr rr h)
  = foldl (λ ns r, alter (update_bias lr) r ns) (nodes h) (concat (drop 1 network)).
Proof.
  unfold update_spec. rewrite foldl_foldl_concat.
  generalize (concat (drop 1 network)) as rs. intros rs. revert h.
  induction rs as [|r rs IH]; intros h; simpl; [done|].
  by rewrite IH, nodes_update_node.
Qed.

Lemma update_bias_idemp lr n : update_bias lr (update_bias lr n) = update_bias lr n.
Proof.
  unfold update_bias at 2 3.
  destruct (0 <? Node.numAccumulatedDers n)%float eqn:Hnum.
  - reflexivity.
  - unfold update_bias. by rewrite Hnum.
Qed.

(** C7. In [updateWeights], a node [r] of any layer but the first: when its
    [numAccumulatedDers] is positive, its bias decreases by
    [learningRate * accInputDer / numAccumulatedDers] and both accumulators
    are reset to 0; otherwise (in particular when the count is 0) the bias and
    the accumulators are left as they were.  The call raises no error. *)
Theorem updateWeights_bias network learningRate regularizationRate h r n :
  wf_heap h → wf_network network h →
  r ∈ concat (drop 1 network) → nodes h !! r = Some n →
  ∃ h' n',
    updateWeights network learningRate regularizationRate h = Ok tt h'
    ∧ nodes h' !! r = Some n'
    ∧ if (0 <? Node.numAccumulatedDers n)%float
      then Node.bias n'
             = (Node.bias n - learningRate * Node.accInputDer n / Node.numAccumulatedDers n)%float
           ∧ Node.accInputDer n' = 0%float
           ∧ Node.numAccumulatedDers n' = 0%float
      else Node.bias n' = Node.bias n
           ∧ Node.accInputDer n' = Node.accInputDer n
           ∧ Node.numAccumulatedDers n' = Node.numAccumulatedDers n.
Proof.
  intros Hwf Hnet Hr Hn.
  destruct (updateWeights_spec network learningRate regularizationRate h Hwf Hnet) as [E _].
  exists (update_spec network learningRate regularizationRate h), (update_bias learningRate n).
  split; [done|]. split.
  - rewrite nodes_update_spec.
    rewrite foldl_alter_lookup_idemp, Hn; [done | apply update_bias_idemp | done].
  - unfold update_bias. by destruct (0 <? Node.numAccumulatedDers n)%float.
Qed.

(** ** The weight step of the weight update *)

Lemma inputLinksOf_skeleton h h' r :
  skeleton h' = skeleton h → inputLinksOf h' r = inputLinksOf h r.
Proof.
  unfold skeleton. intros [= E _]. unfold inputLinksOf.
  apply (f_equal (λ l, l !! r)) in E. rewrite !list_lookup_fmap in E.
  unfold node_refs in E.
  destruct (nodes h' !! r) as [n'|], (nodes h !! r) as [n|]; simpl in *; congruence.
Qed.

Lemma skeleton_update_node lr rr h r : skeleton (update_node lr rr h r) = skeleton h.
Proof.
  unfold update_node. generalize (inputLinksOf h r) as ls. intros ls.
  assert (skeleton (alterNode r (update_bias lr) h) = skeleton h) as <-.
  { apply skeleton_alterNode. intros n. apply update_bias_refs. }
  generalize (alterNode r (update_bias lr) h) as h1. intros h1.
  induction ls as [|link ls IH] in h1 |- *; simpl; [done|].
  rewrite IH. apply skeleton_alterLink. intros l. apply update_link_refs.
Qed.

Lemma links_update_node lr rr h r :
  links (update_node lr rr h r)
  = foldl (λ ls link, alter (update_link lr rr) link ls) (links h) (inputLinksOf h r).
Proof.
  unfold update_node.
  by rewrite (links_foldl_alterLink id (λ _, update_link lr rr)).
Qed.

Lemma links_update_spec network lr rr h :
  links (update_spec network lr rr h)
  = foldl (λ ls link, alter (update_link lr rr) link ls) (links h) (incomingLinks h network).
Proof.
  unfold update_spec, incomingLinks. rewrite foldl_foldl_concat.
  generalize (concat (drop 1 network)) as rs. intros rs.
  assert (∀ h0, skeleton h0 = skeleton h →
    links (foldl (update_node lr rr) h0 rs)
    = foldl (λ ls link, alter (update_link lr rr) link ls) (links h0)
        (concat (inputLinksOf h <$> rs))) as G; [|by apply G].
  induction rs as [|r rs IH]; intros h0 Hs; simpl; [done|].
  rewrite foldl_app, IH.
  - by rewrite links_update_node, (inputLinksOf_skeleton h h0).
  - by rewrite skeleton_update_node.
Qed.

Lemma update_link_idemp lr rr l :
  update_link lr rr (update_link lr rr l) = update_link lr rr l.
Proof.
  unfold update_link at 2 3.
  destruct (Link.isDead l) eqn:Hdead.
  { unfold update_link. by rewrite Hdead. }
  destruct (0 <? Link.numAccumulatedDers l)%float eqn:Hnum; last first.
  { unfold update_link. by rewrite Hdead, Hnum. }
  cbv zeta. destruct (_ && _); unfold update_link; simpl; [done|].
  by rewrite Hdead.
Qed.

(** The effect of [updateWeights] on a link it visits. *)
Lemma updateWeights_visited network lr rr h link l :
  wf_heap h → wf_network network h →
  link ∈ incomingLinks h network → links h !! link = Some l →
  updateWeights network lr rr h = Ok tt (update_spec network lr rr h)
  ∧ links (update_spec network lr rr h) !! link = Some (update_link lr rr l).
Proof.
  intros Hwf Hnet Hlink Hl.
  destruct (updateWeights_spec network lr rr h Hwf Hnet) as [E _].
  split; [done|].
  rewrite links_update_spec.
  rewrite foldl_alter_lookup_idemp, Hl; [done | apply update_link_idemp | done].
Qed.

(** C2, as amended.  For a link that [updateWeights] visits, that is not dead
    and whose [numAccumulatedDers] is positive: the derivative of the
    regularization is taken at the weight the link has before the gradient
    step (0 when the link has no regularization); the gradient step
    [weight - (learningRate / numAccumulatedDers) * accErrorDer] is applied;
    the candidate is that new weight minus
    [learningRate * regularizationRate * regulDer]; and the L1 pruning test
    [weight * newLinkWeight < 0] is made after both, on the weight after the
    gradient step and the candidate. *)
Theorem updateWeights_link network learningRate regularizationRate h link l :
  wf_heap h → wf_network network h →
  link ∈ incomingLinks h network → links h !! link = Some l →
  Link.isDead l = false → (0 <? Link.numAccumulatedDers l)%float = true →
  ∃ h' l',
    updateWeights network learningRate regularizationRate h = Ok tt h'
    ∧ links h' !! link = Some l'
    ∧ Link.accErrorDer l' = 0%float ∧ Link.numAccumulatedDers l' = 0%float
    ∧ let regulDer :=
        match Link.regularization l with
        | Some r => RegularizationFunction.der (RegularizationFunction.table r) (Link.weight l)
        | None => 0%float
        end in
      let weight :=
        (Link.weight l - (learningRate / Link.numAccumulatedDers l) * Link.accErrorDer l)%float in
      let newLinkWeight :=
        (weight - (learningRate * regularizationRate) * regulDer)%float in
      if from_option RegularizationFunction.is_L1 false (Link.regularization l)
         && (weight * newLinkWeight <? 0)%float
      then Link.weight l' = 0%float ∧ Link.isDead l' = true
      else Link.weight l' = newLinkWeight ∧ Link.isDead l' = false.
Proof.
  intros Hwf Hnet Hlink Hl Hdead Hnum.
  destruct (updateWeights_visited network learningRate regularizationRate h link l)
    as [E Hl']; [done..|].
  eexists _, _. split; [exact E|]. split; [exact Hl'|].
  unfold update_link. rewrite Hdead, Hnum. cbv zeta.
  destruct (_ && _); simpl; auto.
Qed.

Lemma updateWeights_link_witness :
  ∃ h' l',
    updateWeights Example.network 0.5 0.5 Example.accumulated = Ok tt h'
    ∧ links h' !! 0%nat = Some l'
    ∧ Link.weight l' = 0%float ∧ Link.isDead l' = true.
Proof.
  destruct (updateWeights_link Example.network 0.5 0.5 Example.accumulated 0
              (default (Link.mk "" 0 0 0 false 0 0 0 None)
                 (links Example.accumulated !! 0%nat)))
    as (h' & l' & E & Hl' & _ & _ & H);
    [compute_done | compute_done | compute_done | reflexivity | reflexivity
    | reflexivity |].
  exists h', l'. split; [exact E|]. split; [exact Hl'|]. exact H.
Defined.

(** C2 as it is stated fails: here [updateWeights] leaves the weight -0.05,
    the candidate built from the derivative at the weight before the gradient
    step, where taking the derivative after that step gives 0.0375. *)
Lemma updateWeights_regDer_counterexample :
  ∃ l,
    links Example.accumulated_L2 !! 0%nat = Some l
    ∧ Link.isDead l = false
    ∧ (0 <? Link.numAccumulatedDers l)%float = true
    ∧ links (heap_of (updateWeights Example.network_L2 0.5 1 Example.accumulated_L2)) !! 0%nat
      ≠ Some (update_link_regDer_after 0.5 1 l).
Proof.
  eexists. split; [reflexivity|]. split; [reflexivity|]. split; [reflexivity|].
  intros E. apply (f_equal (from_option (λ l, (Link.weight l <? 0)%float) false)) in E.
  vm_compute in E. discriminate E.
Qed.

Lemma updateWeights_bias_witness :
  ∃ h' n',
    updateWeights Example.network 0.5 0.5 Example.accumulated = Ok tt h'
    ∧ nodes h' !! 2%nat = Some n'
    ∧ Node.bias n' = 0.07421875%float
    ∧ Node.accInputDer n' = 0%float
    ∧ Node.numAccumulatedDers n' = 0%float.
Proof.
  destruct (updateWeights_bias Example.network 0.5 0.5 Example.accumulated 2
              (default (Node.new None Activations.LINEAR false)
                 (nodes Example.accumulated !! 2%nat)))
    as (h' & n' & E & Hn' & H);
    [compute_done | compute_done | compute_done | reflexivity |].
  exists h', n'. split; [exact E|]. split; [exact Hn'|]. exact H.
Defined.

(** ** Shape validation *)

(** C5. When the length of [inputs] differs from the size of the input
    layer, [forwardProp] throws its error about the number of inputs, and the
    store it leaves is the store it was given: no node and no link has
    changed, the check comes before any assignment. *)
Theorem forwardProp_shape_mismatch network inputLayer inputs h :
  network !! 0%nat = Some inputLayer →
  length inputs ≠ length inputLayer →
  forwardProp network inputs h = Throw (Error inputs_mismatch_message) h.
Proof.
  intros H0 Hlen. unfold forwardProp. rewrite H0.
  apply Nat.eqb_neq in Hlen. by rewrite Hlen.
Qed.

Lemma forwardProp_shape_mismatch_witness :
  forwardProp Example.network [1%float] Example.fresh
  = Throw (Error inputs_mismatch_message) Example.fresh.
Proof.
  apply (forwardProp_shape_mismatch Example.network [0; 1]%nat).
  - reflexivity.
  - simpl. lia.
Defined.

(** ** Relations that every step of a computation preserves *)

Lemma preserves_ret (R : relation Heap) `{!Reflexive R} {A} (a : A) :
  preserves R (ret a).
Proof. intros h. simpl. reflexivity. Qed.

Lemma preserves_throw (R : relation Heap) `{!Reflexive R} {A} e :
  preserves R (throw (A:=A) e).
Proof. intros h. simpl. reflexivity. Qed.

Lemma preserves_bind (R : relation Heap) `{!Transitive R} {A B}
    (m : M A) (k : A → M B) :
  preserves R m → (∀ a, preserves R (k a)) → preserves R (m ≫= k).
Proof.
  intros Hm Hk h. rewrite bind_run. specialize (Hm h).
  destruct (m h) as [a h'|e h']; simpl in *; [|done].
  etrans; [exact Hm | apply Hk].
Qed.

Lemma preserves_forEach (R : relation Heap) `{!PreOrder R} {A}
    (xs : list A) (body : A → M unit) :
  (∀ x, preserves R (body x)) → preserves R (forEach xs body).
Proof.
  intros Hbody. induction xs as [|x xs IH]; simpl.
  - apply preserves_ret, _.
  - apply preserves_bind; [apply _ | apply Hbody | by intros _].
Qed.



Lemma preserves_modifyNode (R : relation Heap) `{!Reflexive R} r f :
  (∀ h, R h (alterNode r f h)) → preserves R (modifyNode r f).
Proof.
  intros Hf h. unfold modifyNode. destruct (nodes h !! r); simpl; [apply Hf | reflexivity].
Qed.

Lemma foldl_preserves {X} (R : relation Heap) `{!PreOrder R}
    (step : Heap → X → Heap) (xs : list X) h :
  (∀ h x, x ∈ xs → R h (step h x)) → R h (foldl step h xs).
Proof.
  revert h. induction xs as [|x xs IH]; intros h Hstep; simpl; [reflexivity|].
  etrans; [apply Hstep; left|]. apply IH. intros h' y Hy. apply Hstep. by right.
Qed.

#[local] Instance same_links_preorder : PreOrder same_links.
Proof.
  split.
  - by intros h.
  - intros h1 h2 h3 [E1 S1] [E2 S2]. split; congruence.
Qed.




(** ** What happens to a link *)

#[local] Instance links_rel_preorder (P : relation Link.t) `{!PreOrder P} :
  PreOrder (links_rel P).
Proof.
  split.
  - intros h link l Hl. exists l. split; [done | reflexivity].
  - intros h1 h2 h3 H12 H23 link l Hl.
    destruct (H12 link l Hl) as (l' & Hl' & HP).
    destruct (H23 link l' Hl') as (l'' & Hl'' & HP').
    exists l''. split; [done | by etrans].
Qed.



#[local] Instance link_frozen_if_dead_preorder : PreOrder link_frozen_if_dead.
Proof.
  split.
  - by intros l.
  - intros l1 l2 l3 [F1 D1] [F2 D2]. split; [|congruence].
    intros Hd. rewrite F2, F1; [done.. | congruence].
Qed.




(** ** Pruning *)












(** ** Visits that happen exactly once

    A run of steps, each of which names the keys it works on.  [T0] is what a
    step does to the store when it does not name the key [i], [T1] what it
    does when it names [i] once. *)

Section once.
Context {X K : Type}.
Context (step : Heap → X → Heap) (keys : X → list K) (i : K).
Context (I : Heap → Prop) (T0 T1 : relation Heap).
Context `{!PreOrder T0}.
Hypothesis T0_T1 : ∀ a b c, T0 a b → T1 b c → T1 a c.
Hypothesis T1_T0 : ∀ a b c, T1 a b → T0 b c → T1 a c.
Hypothesis I_step : ∀ s x, I s → I (step s x).
Hypothesis miss : ∀ s x, I s → i ∉ keys x → T0 s (step s x).
Hypothesis hit : ∀ s x, I s → i ∈ keys x → NoDup (keys x) → T1 s (step s x).

Lemma foldl_I xs s : I s → I (foldl step s xs).
Proof. revert s. induction xs as [|x xs IH]; intros s Hs; simpl; auto. Qed.

Lemma foldl_miss xs s : I s → i ∉ concat (keys <$> xs) → T0 s (foldl step s xs).
Proof.
  revert s. induction xs as [|x xs IH]; intros s Hs Hi; simpl; [reflexivity|].
  rewrite fmap_cons in Hi. simpl in Hi. rewrite elem_of_app in Hi.
  etrans; [apply miss | apply IH]; auto.
Qed.

Lemma foldl_hit xs s :
  I s → NoDup (concat (keys <$> xs)) → i ∈ concat (keys <$> xs) →
  T1 s (foldl step s xs).
Proof.
  revert s. induction xs as [|x xs IH]; intros s Hs Hnd Hi; simpl.
  { by inversion Hi. }
  rewrite fmap_cons in Hnd, Hi. simpl in Hnd, Hi.
  apply NoDup_app in Hnd as (Hx & Hdisj & Hxs).
  apply elem_of_app in Hi as [Hi|Hi].
  - eapply T1_T0; [by apply hit|]. apply foldl_miss; [auto | by apply Hdisj].
  - eapply T0_T1; [apply miss | apply IH]; [done | | auto..].
    intros Hi'. by apply (Hdisj i).
Qed.
End once.

Lemma concat_singletons {A} (l : list A) : concat ((λ x, [x]) <$> l) = l.
Proof. induction l as [|x l IH]; [done|]. rewrite fmap_cons. simpl. by rewrite IH. Qed.

Lemma concat_reverse_Permutation {A} (ls : list (list A)) :
  concat (reverse ls) ≡ₚ concat ls.
Proof.
  induction ls as [|l ls IH]; simpl; [done|].
  rewrite reverse_cons, concat_app. simpl. rewrite app_nil_r, IH.
  apply Permutation_app_comm.
Qed.

(** The loop of [backProp] over the layers, as a run over their indices. *)
Lemma backward_layers_foldl network idx h :
  backward_layers network idx h
  = foldl (λ h j, backward_layer network j h) h (reverse (seq 1 idx)).
Proof.
  revert h. induction idx as [|below IH]; intros h; [done|].
  rewrite seq_S, reverse_app. simpl. by rewrite IH.
Qed.

Lemma layers_by_index (network : list (list nat)) :
  (λ j, default [] (network !! j)) <$> seq 1 (length network - 1) = drop 1 network.
Proof.
  apply list_eq. intros i. rewrite list_lookup_fmap, lookup_drop.
  destruct (decide (i < length network - 1)) as [Hlt|Hge].
  - rewrite lookup_seq_lt by done. simpl.
    destruct (lookup_lt_is_Some_2 network (1 + i)) as [layer Hl]; [lia|].
    simpl in Hl. by rewrite Hl.
  - rewrite lookup_seq_ge by lia. simpl. symmetry. apply lookup_ge_None. lia.
Qed.

(** ** Accumulation in backward propagation: nodes *)

#[local] Instance same_but_outputDer_equiv : Equivalence same_but_outputDer.
Proof.
  unfold same_but_outputDer. split.
  - by intros n.
  - by intros n n' E.
  - intros n1 n2 n3 E1 E2. congruence.
Qed.

Lemma same_but_outputDer_fields n n' :
  same_but_outputDer n n' →
  Node.accInputDer n' = Node.accInputDer n
  ∧ Node.numAccumulatedDers n' = Node.numAccumulatedDers n
  ∧ Node.inputDer n' = Node.inputDer n
  ∧ Node.bias n' = Node.bias n
  ∧ Node.totalInput n' = Node.totalInput n
  ∧ Node.output n' = Node.output n.
Proof.
  unfold same_but_outputDer. intros E.
  repeat split.
  - by apply (f_equal Node.accInputDer) in E.
  - by apply (f_equal Node.numAccumulatedDers) in E.
  - by apply (f_equal Node.inputDer) in E.
  - by apply (f_equal Node.bias) in E.
  - by apply (f_equal Node.totalInput) in E.
  - by apply (f_equal Node.output) in E.
Qed.

#[local] Instance node_rel_preorder r (P : relation Node.t) `{!PreOrder P} :
  PreOrder (node_rel r P).
Proof.
  split.
  - intros h n Hn. exists n. split; [done | reflexivity].
  - intros h1 h2 h3 H12 H23 n Hn.
    destruct (H12 n Hn) as (n' & Hn' & HP).
    destruct (H23 n' Hn') as (n'' & Hn'' & HP').
    exists n''. split; [done | by etrans].
Qed.

Lemma node_rel_compose r (P Q S : relation Node.t) h1 h2 h3 :
  (∀ a b c, P a b → Q b c → S a c) →
  node_rel r P h1 h2 → node_rel r Q h2 h3 → node_rel r S h1 h3.
Proof.
  intros HPQ H12 H23 n Hn.
  destruct (H12 n Hn) as (n' & Hn' & HP).
  destruct (H23 n' Hn') as (n'' & Hn'' & HQ).
  exists n''. split; [done | by eapply HPQ].
Qed.

Lemma node_rel_same_nodes r (P : relation Node.t) `{!Reflexive P} h h' :
  nodes h' !! r = nodes h !! r → node_rel r P h h'.
Proof. intros E n Hn. exists n. split; [congruence | reflexivity]. Qed.

Lemma node_rel_alterNode r (P : relation Node.t) `{!Reflexive P} x f h :
  (∀ n, P n (f n)) → node_rel r P h (alterNode x f h).
Proof.
  intros Hf n Hn. destruct (decide (x = r)) as [->|Hne].
  - exists (f n). rewrite lookup_alterNode_eq, Hn. split; [done | apply Hf].
  - exists n. rewrite lookup_alterNode_ne by done. split; [done | reflexivity].
Qed.

Lemma accumulated_after_same a b c :
  node_accumulated a b → same_but_outputDer b c → node_accumulated a c.
Proof.
  intros (Ha & Hn & Hb) E.
  destruct (same_but_outputDer_fields _ _ E) as (Ea & En & Ei & Eb & _).
  unfold node_accumulated. rewrite Ea, En, Ei, Eb. done.
Qed.

Lemma accumulated_before_same a b c :
  same_but_outputDer a b → node_accumulated b c → node_accumulated a c.
Proof.
  intros E (Ha & Hn & Hb).
  destruct (same_but_outputDer_fields _ _ E) as (Ea & En & Ei & Eb & _).
  unfold node_accumulated. rewrite Ha, Hn, Hb, Ea, En, Eb. done.
Qed.

Lemma backward_node_accumulated n : node_accumulated n (backward_node n).
Proof. done. Qed.

Lemma nodes_backward_links h r : nodes (backward_links h r) = nodes h.
Proof.
  unfold backward_links.
  apply (nodes_foldl_alterLink id
    (λ _ l, backward_link (inputDerOf h r * outputOf h (Link.source l))%float l)).
Qed.

Lemma nodes_backward_step2 h layer : nodes (foldl backward_links h layer) = nodes h.
Proof.
  revert h. induction layer as [|r layer IH]; intros h; simpl; [done|].
  by rewrite IH, nodes_backward_links.
Qed.

Lemma backward_step3_node r h layer :
  node_rel r same_but_outputDer h (foldl backward_outputDer h layer).
Proof.
  apply foldl_preserves; [apply _|]. intros h' x _.
  apply node_rel_alterNode; [apply _|]. by intros n.
Qed.

(** What one iteration of the loop over the layers does to the node [r]. *)
Lemma backward_layer_node_miss network j r h :
  r ∉ default [] (network !! j) →
  node_rel r same_but_outputDer h (backward_layer network j h).
Proof.
  intros Hr. unfold backward_layer.
  set (cur := default [] (network !! j)) in *.
  set (h1 := foldl (λ h' r0, alterNode r0 backward_node h') h cur).
  assert (nodes (foldl backward_links h1 cur) !! r = nodes h !! r) as E.
  { rewrite nodes_backward_step2. unfold h1.
    rewrite (nodes_foldl_alterNode id (λ _, backward_node)).
    apply (foldl_alter_lookup_notin id (λ _, backward_node)).
    by rewrite list_fmap_id. }
  destruct (j =? 1)%nat.
  - by apply node_rel_same_nodes; [apply _|].
  - etrans; [|apply backward_step3_node]. by apply node_rel_same_nodes; [apply _|].
Qed.

Lemma backward_layer_node_hit network j r h :
  r ∈ default [] (network !! j) → NoDup (default [] (network !! j)) →
  node_rel r node_accumulated h (backward_layer network j h).
Proof.
  intros Hr Hnd. unfold backward_layer.
  set (cur := default [] (network !! j)) in *.
  set (h1 := foldl (λ h' r0, alterNode r0 backward_node h') h cur).
  assert (nodes (foldl backward_links h1 cur) !! r = backward_node <$> nodes h !! r) as E.
  { rewrite nodes_backward_step2. unfold h1.
    rewrite (nodes_foldl_alterNode id (λ _, backward_node)).
    apply (foldl_alter_lookup_once id (λ _, backward_node) cur (nodes h) r); [|done].
    by rewrite list_fmap_id. }
  assert (node_rel r node_accumulated h (foldl backward_links h1 cur)) as H2.
  { intros n Hn. exists (backward_node n). rewrite E, Hn.
    split; [done | apply backward_node_accumulated]. }
  destruct (j =? 1)%nat; [done|].
  eapply node_rel_compose; [apply accumulated_after_same | exact H2 |].
  apply backward_step3_node.
Qed.

Lemma concat_layers_reverse (network : list (list nat)) :
  concat ((λ j, default [] (network !! j)) <$> reverse (seq 1 (length network - 1)))
  ≡ₚ concat (drop 1 network).
Proof.
  rewrite fmap_reverse, concat_reverse_Permutation. by rewrite layers_by_index.
Qed.

(** Backward propagation on a node of a layer other than the first: its
    [inputDer] is added into [accInputDer] once, and the count goes up by 1. *)
Lemma backward_spec_node_accumulated network target errorFn outputNode r h :
  outputNodeOf network = Some outputNode →
  NoDup (concat (drop 1 network)) → r ∈ concat (drop 1 network) →
  node_rel r node_accumulated h (backward_spec network target errorFn h).
Proof.
  intros Hout Hnd Hr. unfold backward_spec. rewrite Hout.
  match goal with |- node_rel _ _ _ (backward_layers _ _ ?h0) =>
    apply (node_rel_compose r same_but_outputDer node_accumulated node_accumulated h h0)
  end.
  { apply accumulated_before_same. }
  { apply (node_rel_alterNode r same_but_outputDer). by intros n. }
  rewrite backward_layers_foldl.
  apply (foldl_hit (λ h j, backward_layer network j h)
           (λ j, default [] (network !! j)) r (λ _, True)
           (node_rel r same_but_outputDer) (node_rel r node_accumulated)).
  - intros a b c. apply node_rel_compose, accumulated_before_same.
  - intros a b c. apply node_rel_compose, accumulated_after_same.
  - done.
  - intros s j _. apply backward_layer_node_miss.
  - intros s j _. apply backward_layer_node_hit.
  - done.
  - by rewrite concat_layers_reverse.
  - by rewrite concat_layers_reverse.
Qed.

Lemma backward_spec_node_kept network target errorFn r h :
  r ∉ concat (drop 1 network) →
  node_rel r same_but_outputDer h (backward_spec network target errorFn h).
Proof.
  intros Hr. unfold backward_spec.
  destruct (outputNodeOf network) as [outputNode|]; [|reflexivity].
  match goal with |- node_rel _ _ _ (backward_layers _ _ ?h1) => trans h1 end.
  { apply (node_rel_alterNode r same_but_outputDer). by intros n. }
  rewrite backward_layers_foldl.
  apply (foldl_miss (λ h j, backward_layer network j h)
           (λ j, default [] (network !! j)) r (λ _, True)
           (node_rel r same_but_outputDer)).
  - done.
  - intros s j _. apply backward_layer_node_miss.
  - done.
  - by rewrite concat_layers_reverse.
Qed.

(** A node outside the layers that [backProp] walks, and other than the
    output node, is not written at all. *)
Lemma backward_step3_untouched r h layer :
  r ∉ layer → nodes (foldl backward_outputDer h layer) !! r = nodes h !! r.
Proof.
  revert h. induction layer as [|x layer IH]; intros h Hr; simpl; [done|].
  apply not_elem_of_cons in Hr as [Hne Hr].
  rewrite IH by done. unfold backward_outputDer. by rewrite lookup_alterNode_ne.
Qed.

Lemma backward_layers_untouched network idx r h :
  (∀ j, 1 ≤ j ≤ idx → r ∉ default [] (network !! j)) →
  nodes (backward_layers network idx h) !! r = nodes h !! r.
Proof.
  revert h. induction idx as [|below IH]; intros h Hr; simpl; [done|].
  rewrite IH by (intros j Hj; apply Hr; lia).
  unfold backward_layer.
  set (cur := default [] (network !! S below)).
  assert (r ∉ cur) as Hcur by (apply Hr; lia).
  set (h1 := foldl (λ h' r0, alterNode r0 backward_node h') h cur).
  assert (nodes (foldl backward_links h1 cur) !! r = nodes h !! r) as E.
  { rewrite nodes_backward_step2. unfold h1.
    rewrite (nodes_foldl_alterNode id (λ _, backward_node)).
    apply (foldl_alter_lookup_notin id (λ _, backward_node)).
    by rewrite list_fmap_id. }
  destruct (S below =? 1)%nat eqn:Hone; [done|].
  rewrite backward_step3_untouched; [done|].
  apply Nat.eqb_neq in Hone. apply Hr. lia.
Qed.

Lemma elem_of_concat {A} (x : A) (ls : list (list A)) :
  x ∈ concat ls ↔ ∃ l, l ∈ ls ∧ x ∈ l.
Proof.
  induction ls as [|l ls IH]; simpl.
  - split; [by inversion 1 | by intros (l & Hl & _); inversion Hl].
  - rewrite elem_of_app, IH. split.
    + intros [Hx|(l' & Hl' & Hx)]; [exists l | exists l']; split; auto; by constructor.
    + intros (l' & Hl' & Hx). apply elem_of_cons in Hl' as [->|Hl']; eauto.
Qed.

Lemma not_in_layers (network : list (list nat)) r j :
  r ∉ concat (drop 1 network) → 1 ≤ j → r ∉ default [] (network !! j).
Proof.
  intros Hr Hj Hin. apply Hr.
  destruct (network !! j) as [layer|] eqn:Hl; [|by inversion Hin]. simpl in Hin.
  apply elem_of_concat. exists layer. split; [|done].
  apply list_elem_of_lookup. exists (j - 1). rewrite lookup_drop.
  by replace (1 + (j - 1)) with j by lia.
Qed.

Lemma backward_spec_untouched network target errorFn outputNode r h :
  outputNodeOf network = Some outputNode →
  r ∉ concat (drop 1 network) → r ≠ outputNode →
  nodes (backward_spec network target errorFn h) !! r = nodes h !! r.
Proof.
  intros Hout Hr Hne. unfold backward_spec. rewrite Hout.
  rewrite backward_layers_untouched.
  - by rewrite lookup_alterNode_ne.
  - intros j Hj. apply not_in_layers; [done | lia].
Qed.

(** ** Accumulation in backward propagation: links *)

Lemma skeleton_backward_links h r : skeleton (backward_links h r) = skeleton h.
Proof.
  unfold backward_links. generalize (inputLinksOf h r) as ls. intros ls.
  assert (∀ h0,
    skeleton (foldl (λ h' link,
        alterLink link (λ l,
          backward_link (inputDerOf h r * outputOf h (Link.source l))%float l) h') h0 ls)
    = skeleton h0) as G; [|apply G].
  induction ls as [|link ls IH]; intros h0; simpl; [done|].
  rewrite IH. apply skeleton_alterLink. intros l. apply backward_link_refs.
Qed.

Lemma skeleton_backward_step1 h layer :
  skeleton (foldl (λ h' r, alterNode r backward_node h') h layer) = skeleton h.
Proof.
  revert h. induction layer as [|r layer IH]; intros h; simpl; [done|].
  rewrite IH. by apply skeleton_alterNode.
Qed.

Lemma skeleton_backward_step2 h layer :
  skeleton (foldl backward_links h layer) = skeleton h.
Proof.
  revert h. induction layer as [|r layer IH]; intros h; simpl; [done|].
  by rewrite IH, skeleton_backward_links.
Qed.

Lemma skeleton_backward_step3 h layer :
  skeleton (foldl backward_outputDer h layer) = skeleton h.
Proof.
  revert h. induction layer as [|r layer IH]; intros h; simpl; [done|].
  rewrite IH. by apply skeleton_alterNode.
Qed.

Lemma skeleton_backward_layer network j h :
  skeleton (backward_layer network j h) = skeleton h.
Proof.
  unfold backward_layer. destruct (j =? 1)%nat.
  - by rewrite skeleton_backward_step2, skeleton_backward_step1.
  - by rewrite skeleton_backward_step3, skeleton_backward_step2, skeleton_backward_step1.
Qed.

#[local] Instance link_rel_preorder link (P : relation Link.t) `{!PreOrder P} :
  PreOrder (link_rel link P).
Proof.
  split.
  - intros h l Hl. exists l. split; [done | reflexivity].
  - intros h1 h2 h3 H12 H23 l Hl.
    destruct (H12 l Hl) as (l' & Hl' & HP).
    destruct (H23 l' Hl') as (l'' & Hl'' & HP').
    exists l''. split; [done | by etrans].
Qed.

Lemma link_rel_same_links link (P : relation Link.t) `{!Reflexive P} h h' :
  links h' !! link = links h !! link → link_rel link P h h'.
Proof. intros E l Hl. exists l. split; [congruence | reflexivity]. Qed.

Lemma link_rel_eq_l link (P : relation Link.t) a b c :
  link_rel link eq a b → link_rel link P b c → link_rel link P a c.
Proof.
  intros H12 H23 l Hl. destruct (H12 l Hl) as (l' & Hl' & <-). by apply H23.
Qed.

Lemma link_rel_eq_r link (P : relation Link.t) a b c :
  link_rel link P a b → link_rel link eq b c → link_rel link P a c.
Proof.
  intros H12 H23 l Hl. destruct (H12 l Hl) as (l' & Hl' & HP).
  destruct (H23 l' Hl') as (l'' & Hl'' & <-). by exists l'.
Qed.

Lemma backward_link_accumulated e l : link_accumulated l (backward_link e l).
Proof.
  unfold link_accumulated, backward_link. by destruct (Link.isDead l) eqn:Hd.
Qed.

(** Step 2 for one node, seen from the link [link]. *)
Lemma backward_links_miss link h r :
  link ∉ inputLinksOf h r → link_rel link eq h (backward_links h r).
Proof.
  intros Hl. apply link_rel_same_links; [apply _|]. unfold backward_links.
  rewrite (links_foldl_alterLink id
    (λ _ l, backward_link (inputDerOf h r * outputOf h (Link.source l))%float l)).
  apply (foldl_alter_lookup_notin id). by rewrite list_fmap_id.
Qed.

Lemma backward_links_hit link h r :
  link ∈ inputLinksOf h r → NoDup (inputLinksOf h r) →
  link_rel link link_accumulated h (backward_links h r).
Proof.
  intros Hl Hnd l Hlink. unfold backward_links.
  rewrite (links_foldl_alterLink id
    (λ _ l, backward_link (inputDerOf h r * outputOf h (Link.source l))%float l)).
  pose proof (foldl_alter_lookup_once id
    (λ _ l, backward_link (inputDerOf h r * outputOf h (Link.source l))%float l)
    (inputLinksOf h r) (links h) link) as E.
  rewrite list_fmap_id in E. specialize (E Hnd Hl). unfold id in E |- *.
  rewrite E, Hlink. simpl. eexists. split; [done|]. apply backward_link_accumulated.
Qed.

(** Step 2 for a layer. *)
Lemma backward_step2_miss link h0 h layer :
  skeleton h = skeleton h0 →
  link ∉ concat (inputLinksOf h0 <$> layer) →
  link_rel link eq h (foldl backward_links h layer).
Proof.
  intros Hs Hl.
  apply (foldl_miss backward_links (inputLinksOf h0) link
           (λ s, skeleton s = skeleton h0) (link_rel link eq)); [| |done|done].
  - intros s r Hs'. by rewrite skeleton_backward_links.
  - intros s r Hs' Hr. apply backward_links_miss.
    by rewrite (inputLinksOf_skeleton h0 s).
Qed.

Lemma backward_step2_hit link h0 h layer :
  skeleton h = skeleton h0 →
  NoDup (concat (inputLinksOf h0 <$> layer)) →
  link ∈ concat (inputLinksOf h0 <$> layer) →
  link_rel link link_accumulated h (foldl backward_links h layer).
Proof.
  intros Hs Hnd Hl.
  apply (foldl_hit backward_links (inputLinksOf h0) link
           (λ s, skeleton s = skeleton h0) (link_rel link eq)
           (link_rel link link_accumulated)); [| | | | |done..].
  - intros a b c. apply link_rel_eq_l.
  - intros a b c. apply link_rel_eq_r.
  - intros s r Hs'. by rewrite skeleton_backward_links.
  - intros s r Hs' Hr. apply backward_links_miss.
    by rewrite (inputLinksOf_skeleton h0 s).
  - intros s r Hs' Hr Hnd'. apply backward_links_hit;
      by rewrite (inputLinksOf_skeleton h0 s).
Qed.

Lemma links_backward_step1 h layer :
  links (foldl (λ h' r, alterNode r backward_node h') h layer) = links h.
Proof. apply (links_foldl_alterNode id (λ _ _, backward_node)). Qed.

Lemma links_backward_step3 h layer :
  links (foldl backward_outputDer h layer) = links h.
Proof.
  apply (links_foldl_alterNode id (λ h' _ n, Node.set_outputDer (outputDerSum h' n) n)).
Qed.

(** One iteration of the loop over the layers, seen from the link [link]. *)
Lemma backward_layer_link_miss link network h0 j h :
  skeleton h = skeleton h0 →
  link ∉ concat (inputLinksOf h0 <$> default [] (network !! j)) →
  link_rel link eq h (backward_layer network j h).
Proof.
  intros Hs Hl. unfold backward_layer.
  set (cur := default [] (network !! j)) in *.
  set (h1 := foldl (λ h' r0, alterNode r0 backward_node h') h cur).
  assert (link_rel link eq h (foldl backward_links h1 cur)) as H2.
  { etrans; [|apply (backward_step2_miss link h0); [|done]].
    - apply link_rel_same_links; [apply _|]. unfold h1. by rewrite links_backward_step1.
    - unfold h1. by rewrite skeleton_backward_step1. }
  destruct (j =? 1)%nat; [done|].
  etrans; [exact H2|]. apply link_rel_same_links; [apply _|].
  by rewrite links_backward_step3.
Qed.

Lemma backward_layer_link_hit link network h0 j h :
  skeleton h = skeleton h0 →
  link ∈ concat (inputLinksOf h0 <$> default [] (network !! j)) →
  NoDup (concat (inputLinksOf h0 <$> default [] (network !! j))) →
  link_rel link link_accumulated h (backward_layer network j h).
Proof.
  intros Hs Hl Hnd. unfold backward_layer.
  set (cur := default [] (network !! j)) in *.
  set (h1 := foldl (λ h' r0, alterNode r0 backward_node h') h cur).
  assert (link_rel link link_accumulated h (foldl backward_links h1 cur)) as H2.
  { eapply link_rel_eq_l; [|apply (backward_step2_hit link h0); [|done..]].
    - apply link_rel_same_links; [apply _|]. unfold h1. by rewrite links_backward_step1.
    - unfold h1. by rewrite skeleton_backward_step1. }
  destruct (j =? 1)%nat; [done|].
  eapply link_rel_eq_r; [exact H2|]. apply link_rel_same_links; [apply _|].
  by rewrite links_backward_step3.
Qed.

Lemma concat_fmap_concat {A B} (f : A → list B) (xss : list (list A)) :
  concat (f <$> concat xss) = concat ((λ xs, concat (f <$> xs)) <$> xss).
Proof.
  induction xss as [|xs xss IH]; [done|].
  simpl. rewrite fmap_app, concat_app, IH. done.
Qed.

Lemma incomingLinks_reverse h (network : list (list nat)) :
  concat ((λ j, concat (inputLinksOf h <$> default [] (network !! j)))
            <$> reverse (seq 1 (length network - 1)))
  ≡ₚ incomingLinks h network.
Proof.
  unfold incomingLinks. rewrite concat_fmap_concat, <- layers_by_index.
  rewrite fmap_reverse, concat_reverse_Permutation.
  by rewrite <- list_fmap_compose.
Qed.

(** Backward propagation on a link it visits once: the link's new [errorDer]
    is added into [accErrorDer] and the count goes up by 1, or, for a dead
    link, nothing is done. *)
Lemma backward_spec_link_accumulated network target errorFn outputNode link h :
  outputNodeOf network = Some outputNode →
  NoDup (incomingLinks h network) → link ∈ incomingLinks h network →
  link_rel link link_accumulated h (backward_spec network target errorFn h).
Proof.
  intros Hout Hnd Hl. unfold backward_spec. rewrite Hout.
  match goal with |- link_rel _ _ _ (backward_layers _ _ ?h1) => set (h0 := h1) end.
  assert (skeleton h0 = skeleton h) as Hs by by apply skeleton_alterNode.
  eapply (link_rel_eq_l _ _ h h0).
  { by apply link_rel_same_links; [apply _|]. }
  rewrite backward_layers_foldl.
  apply (foldl_hit (λ h j, backward_layer network j h)
           (λ j, concat (inputLinksOf h <$> default [] (network !! j))) link
           (λ s, skeleton s = skeleton h)
           (link_rel link eq) (link_rel link link_accumulated)).
  - intros a b c. apply link_rel_eq_l.
  - intros a b c. apply link_rel_eq_r.
  - intros s j Hs'. by rewrite skeleton_backward_layer.
  - intros s j Hs'. by apply backward_layer_link_miss.
  - intros s j Hs'. by apply backward_layer_link_hit.
  - done.
  - by rewrite incomingLinks_reverse.
  - by rewrite incomingLinks_reverse.
Qed.

Lemma backward_spec_link_kept network target errorFn link h :
  link ∉ incomingLinks h network →
  link_rel link eq h (backward_spec network target errorFn h).
Proof.
  intros Hl. unfold backward_spec.
  destruct (outputNodeOf network) as [outputNode|]; [|reflexivity].
  match goal with |- link_rel _ _ _ (backward_layers _ _ ?h1) => set (h0 := h1) end.
  assert (skeleton h0 = skeleton h) as Hs by by apply skeleton_alterNode.
  trans h0.
  { by apply (link_rel_same_links link eq h h0). }
  rewrite backward_layers_foldl.
  apply (foldl_miss (λ h j, backward_layer network j h)
           (λ j, concat (inputLinksOf h <$> default [] (network !! j))) link
           (λ s, skeleton s = skeleton h) (link_rel link eq)).
  - intros s j Hs'. by rewrite skeleton_backward_layer.
  - intros s j Hs'. by apply backward_layer_link_miss.
  - done.
  - by rewrite incomingLinks_reverse.
Qed.

(** ** Mini-batches *)

#[local] Instance same_accumulators_preorder : PreOrder same_accumulators.
Proof.
  unfold same_accumulators. split.
  - by intros n.
  - intros n1 n2 n3 (A1 & N1 & B1) (A2 & N2 & B2). repeat split; congruence.
Qed.

(** Forward propagation leaves every bias and every accumulator alone. *)
Lemma forward_spec_accumulators network inputs r h :
  node_rel r same_accumulators h (forward_spec network inputs h).
Proof.
  unfold forward_spec.
  trans (set_inputs h (default [] (network !! 0%nat)) inputs).
  - unfold set_inputs. apply foldl_preserves; [apply _|]. intros h' [x v] _.
    by apply node_rel_alterNode; [apply _|].
  - apply foldl_preserves; [apply _|]. intros h' layer _.
    unfold forward_layer. apply foldl_preserves; [apply _|]. intros h'' x _.
    by apply node_rel_alterNode; [apply _|].
Qed.

Lemma forward_spec_links network inputs h :
  links (forward_spec network inputs h) = links h.
Proof.
  unfold forward_spec, forward_layer, forward_node, set_inputs.
  rewrite foldl_foldl_concat.
  rewrite (links_foldl_alterNode id (λ h' _, activate h')).
  generalize (zip (default [] (network !! 0%nat)) inputs) as xs. intros xs.
  revert h. induction xs as [|[x v] xs IH]; intros h; simpl; [done|]. by rewrite IH.
Qed.

Lemma accumulated_after_forward a b c :
  same_accumulators a b → node_accumulated b c → node_accumulated a c.
Proof.
  intros (Ea & En & Eb) (Ha & Hn & Hb).
  unfold node_accumulated. rewrite Ha, Hn, Hb, Ea, En, Eb. done.
Qed.

Lemma incomingLinks_skeleton h h' network :
  skeleton h' = skeleton h → incomingLinks h' network = incomingLinks h network.
Proof.
  intros Hs. unfold incomingLinks. f_equal. apply list_fmap_ext.
  intros _ r _. by apply inputLinksOf_skeleton.
Qed.

(** One example: both calls return, every node of a layer other than the
    first accumulates once, and so does every link into such a node. *)
Lemma example_step_spec network errorFunc inputLayer outputNode example h :
  wf_heap h → wf_network network h →
  network !! 0%nat = Some inputLayer →
  outputNodeOf network = Some outputNode →
  length example.1 = length inputLayer →
  NoDup (concat (drop 1 network)) → NoDup (incomingLinks h network) →
  ∃ h',
    example_step network errorFunc example h = Ok tt h'
    ∧ skeleton h' = skeleton h
    ∧ (∀ r, r ∈ concat (drop 1 network) → node_rel r node_accumulated h h')
    ∧ (∀ link, link ∈ incomingLinks h network → link_rel link link_accumulated h h')
    ∧ (∀ r, r ∉ concat (drop 1 network) → node_rel r same_accumulators h h')
    ∧ (∀ link, link ∉ incomingLinks h network → link_rel link eq h h').
Proof.
  intros Hwf Hnet H0 Hout Hlen Hnd Hndl.
  destruct (forwardProp_spec network example.1 inputLayer outputNode h) as [E1 S1];
    [done..|].
  set (h1 := forward_spec network example.1 h) in *.
  assert (wf_heap h1) as Hwf1 by by eapply wf_heap_skeleton.
  assert (wf_network network h1) as Hnet1 by by eapply wf_network_skeleton.
  destruct (backProp_spec network example.2 errorFunc outputNode h1) as [E2 S2];
    [done..|].
  exists (backward_spec network example.2 errorFunc h1).
  split; [|split; [congruence|split; [|split; [|split]]]].
  - unfold example_step. by rewrite (bind_Ok _ _ _ _ _ E1).
  - intros r Hr.
    eapply node_rel_compose; [apply accumulated_after_forward | |].
    + apply forward_spec_accumulators.
    + by eapply backward_spec_node_accumulated.
  - intros link Hlink.
    eapply link_rel_eq_l.
    + apply (link_rel_same_links link eq h h1). unfold h1. by rewrite forward_spec_links.
    + eapply backward_spec_link_accumulated; [done | |];
        by rewrite (incomingLinks_skeleton h h1).
  - intros r Hr. trans h1; [apply forward_spec_accumulators|].
    intros n Hn.
    destruct (backward_spec_node_kept network example.2 errorFunc r h1 Hr n Hn)
      as (n' & Hn' & Hbc).
    exists n'. split; [done|].
    destruct (same_but_outputDer_fields _ _ Hbc) as (Ea & En & _ & Eb & _). by repeat split.
  - intros link Hlink.
    eapply link_rel_eq_l.
    + apply (link_rel_same_links link eq h h1). unfold h1. by rewrite forward_spec_links.
    + apply backward_spec_link_kept. by rewrite (incomingLinks_skeleton h h1).
Qed.

(** C6. The accumulation contract.  Over [N] consecutive forward+backward
    calls, all of which return: every node of a layer other than the first
    ends with [accInputDer] equal to what it held at the start plus the [N]
    values of [inputDer] it was given, added in order, and with
    [numAccumulatedDers] raised [N] times by 1; every live link into such a
    node ends likewise with [accErrorDer] plus its [N] values of [errorDer]
    and its count raised [N] times.  Nothing else is done to the
    accumulators, the biases and the weights: neither call resets them.  From
    accumulators at 0, as construction and [updateWeights] leave them, these
    are the sum of the per-example derivatives and the count [N]. *)
Theorem accumulation network errorFunc inputLayer outputNode examples h :
  wf_heap h → wf_network network h →
  network !! 0%nat = Some inputLayer →
  outputNodeOf network = Some outputNode →
  Forall (λ example : list number * number, length example.1 = length inputLayer) examples →
  NoDup (concat (drop 1 network)) → NoDup (incomingLinks h network) →
  ∃ h',
    forEach examples (example_step network errorFunc) h = Ok tt h'
    ∧ (∀ r n, r ∈ concat (drop 1 network) → nodes h !! r = Some n →
       ∃ n', nodes h' !! r = Some n'
         ∧ Node.accInputDer n'
           = foldl (λ acc hk, (acc + inputDerOf hk r)%float) (Node.accInputDer n)
               (batch_states network errorFunc examples h)
         ∧ Node.numAccumulatedDers n'
           = Nat.iter (length examples) (λ c, (c + 1)%float) (Node.numAccumulatedDers n)
         ∧ Node.bias n' = Node.bias n)
    ∧ (∀ link l, link ∈ incomingLinks h network → links h !! link = Some l →
       Link.isDead l = false →
       ∃ l', links h' !! link = Some l'
         ∧ Link.accErrorDer l'
           = foldl (λ acc hk, (acc + errorDerOf hk link)%float) (Link.accErrorDer l)
               (batch_states network errorFunc examples h)
         ∧ Link.numAccumulatedDers l'
           = Nat.iter (length examples) (λ c, (c + 1)%float) (Link.numAccumulatedDers l)
         ∧ Link.weight l' = Link.weight l
         ∧ Link.isDead l' = false)
    ∧ (∀ r n, r ∉ concat (drop 1 network) → nodes h !! r = Some n →
       ∃ n', nodes h' !! r = Some n' ∧ same_accumulators n n')
    ∧ (∀ link l, links h !! link = Some l →
       link ∉ incomingLinks h network ∨ Link.isDead l = true →
       links h' !! link = Some l).
Proof.
  intros Hwf Hnet H0 Hout Hlens Hnd Hndl.
  revert h Hwf Hnet Hndl.
  induction Hlens as [|example examples Hlen Hlens IH]; intros h Hwf Hnet Hndl.
  { exists h. split; [done|]. split; [|split; [|split]].
    - intros r n _ Hn. by exists n.
    - intros link l _ Hl Hlive. by exists l.
    - intros r n _ Hn. by exists n.
    - done. }
  destruct (example_step_spec network errorFunc inputLayer outputNode example h)
    as (h1 & E1 & S1 & Hnodes1 & Hlinks1 & Hothers1 & Hkept1); [done..|].
  assert (incomingLinks h1 network = incomingLinks h network) as Hinc
    by by apply incomingLinks_skeleton.
  destruct (IH h1) as (h' & E & Hnodes & Hlinks & Hothers & Hkept).
  { by eapply wf_heap_skeleton. }
  { by eapply wf_network_skeleton. }
  { by rewrite Hinc. }
  exists h'. split; [|split; [|split; [|split]]].
  - cbn [forEach]. by rewrite (bind_Ok _ _ _ _ _ E1).
  - intros r n Hr Hn.
    destruct (Hnodes1 r Hr n Hn) as (n1 & Hn1 & Ha1 & Hc1 & Hb1).
    destruct (Hnodes r n1 Hr Hn1) as (n' & Hn' & Ha & Hc & Hb).
    exists n'. split; [done|].
    cbn [batch_states length foldl]. rewrite E1. cbn [heap_of].
    rewrite Ha, Hc, Hb, Ha1, Hc1, Hb1. rewrite Nat.iter_succ_r.
    assert (inputDerOf h1 r = Node.inputDer n1) as ->; [|done].
    unfold inputDerOf. by rewrite Hn1.
  - intros link l Hlink Hl Hlive.
    destruct (Hlinks1 link Hlink l Hl) as (l1 & Hl1 & HA).
    unfold link_accumulated in HA. rewrite Hlive in HA.
    destruct HA as (Ha1 & Hc1 & Hw1 & Hd1).
    destruct (Hlinks link l1) as (l' & Hl' & Ha & Hc & Hw & Hd); [by rewrite Hinc|done..|].
    exists l'. split; [done|].
    cbn [batch_states length foldl]. rewrite E1. cbn [heap_of].
    rewrite Ha, Hc, Hw, Ha1, Hc1, Hw1. rewrite Nat.iter_succ_r.
    assert (errorDerOf h1 link = Link.errorDer l1) as ->; [|done].
    unfold errorDerOf. by rewrite Hl1.
  - intros r n Hr Hn.
    destruct (Hothers1 r Hr n Hn) as (n1 & Hn1 & HS1).
    destruct (Hothers r n1 Hr Hn1) as (n' & Hn' & HS).
    exists n'. split; [done | by etrans].
  - intros link l Hl Hcase.
    assert (links h1 !! link = Some l) as Hl1.
    { destruct (decide (link ∈ incomingLinks h network)) as [Hin|Hnin].
      - destruct Hcase as [?|Hdead]; [done|].
        destruct (Hlinks1 link Hin l Hl) as (l1 & Hl1 & HA).
        unfold link_accumulated in HA. rewrite Hdead in HA. congruence.
      - destruct (Hkept1 link Hnin l Hl) as (l1 & Hl1 & <-). done. }
    apply Hkept; [done|]. by rewrite Hinc.
Qed.

(** ** Forward propagation, node by node *)

Lemma weightedInput_ext h h' n n' :
  links h' = links h →
  Node.bias n' = Node.bias n →
  Node.inputLinks n' = Node.inputLinks n →
  (∀ link l, link ∈ Node.inputLinks n → links h !! link = Some l →
             outputOf h' (Link.source l) = outputOf h (Link.source l)) →
  weightedInput h' n' = weightedInput h n.
Proof.
  intros El Eb Ei Ho. unfold weightedInput. rewrite Eb, Ei.
  revert Ho. generalize (Node.bias n) as acc. generalize (Node.inputLinks n) as ls.
  induction ls as [|link ls IH]; intros acc Ho; [reflexivity|].
  cbn [foldl]. rewrite IH.
  - f_equal. f_equal. unfold linkTerm. rewrite El.
    destruct (links h !! link) as [l|] eqn:E; [|reflexivity].
    rewrite (Ho link l); [reflexivity | by left | exact E].
  - intros link' l Hin. apply Ho. by right.
Qed.

Lemma forward_nodes_notin L : ∀ h r,
  r ∉ L → nodes (foldl forward_node h L) !! r = nodes h !! r.
Proof.
  induction L as [|r0 L IH]; intros h r Hr; [reflexivity|].
  apply not_elem_of_cons in Hr as [Hne Hr]. cbn [foldl].
  rewrite IH by exact Hr. apply lookup_alterNode_ne. congruence.
Qed.

Lemma forward_nodes_links L h : links (foldl forward_node h L) = links h.
Proof. apply (links_foldl_alterNode id (λ h' _, activate h')). Qed.

Lemma outputOf_same h h' r : nodes h' !! r = nodes h !! r → outputOf h' r = outputOf h r.
Proof. unfold outputOf. by intros ->. Qed.

(** Within a layer none of whose nodes feeds the node [r]: [r] is activated
    once, on a sum that reads the same at the end of the layer. *)
Lemma forward_layer_node cur : ∀ h r n,
  NoDup cur → r ∈ cur → nodes h !! r = Some n →
  (∀ link l, link ∈ Node.inputLinks n → links h !! link = Some l →
             Link.source l ∉ cur) →
  nodes (forward_layer h cur) !! r = Some (activate h n)
  ∧ weightedInput (forward_layer h cur) n = weightedInput h n.
Proof.
  unfold forward_layer.
  induction cur as [|r0 cur IH]; intros h r n Hnd Hr Hn Hs; [by inversion Hr|].
  apply NoDup_cons in Hnd as [Hr0 Hnd]. cbn [foldl].
  assert (weightedInput (forward_node h r0) n = weightedInput h n) as E0.
  { apply weightedInput_ext; try reflexivity.
    intros link l Hin Hl. apply outputOf_same, lookup_alterNode_ne.
    intros ->. apply (Hs link l Hin Hl). by left. }
  apply elem_of_cons in Hr as [->|Hr].
  - split.
    + rewrite forward_nodes_notin by exact Hr0.
      unfold forward_node. by rewrite lookup_alterNode_eq, Hn.
    + rewrite <- E0. apply weightedInput_ext; try reflexivity.
      * apply forward_nodes_links.
      * intros link l Hin Hl. apply outputOf_same, forward_nodes_notin.
        intros Hin'. apply (Hs link l Hin Hl). by right.
  - assert (r0 ≠ r) as Hne by (intros ->; contradiction).
    destruct (IH (forward_node h r0) r n Hnd Hr) as [H1 H2].
    + unfold forward_node. by rewrite lookup_alterNode_ne.
    + intros link l Hin Hl Hin'. apply (Hs link l Hin Hl). by right.
    + split; [|congruence]. rewrite H1. f_equal.
      unfold activate. by rewrite E0.
Qed.

Lemma set_inputs_notin inputLayer : ∀ inputs h r,
  r ∉ inputLayer → nodes (set_inputs h inputLayer inputs) !! r = nodes h !! r.
Proof.
  unfold set_inputs.
  induction inputLayer as [|r0 inputLayer IH]; intros [|x inputs] h r Hr;
    try reflexivity.
  apply not_elem_of_cons in Hr as [Hne Hr]. cbn [zip zip_with foldl].
  rewrite (IH inputs _ r Hr). apply lookup_alterNode_ne. congruence.
Qed.

Lemma set_inputs_lookup inputLayer : ∀ inputs h k r x n,
  NoDup inputLayer → inputLayer !! k = Some r → inputs !! k = Some x →
  nodes h !! r = Some n →
  nodes (set_inputs h inputLayer inputs) !! r = Some (Node.set_output x n).
Proof.
  induction inputLayer as [|r0 inputLayer IH]; intros [|x0 inputs] h k r x n Hnd Hr Hx Hn;
    try (by destruct k).
  apply NoDup_cons in Hnd as [Hr0 Hnd].
  change (set_inputs h (r0 :: inputLayer) (x0 :: inputs))
    with (set_inputs (alterNode r0 (Node.set_output x0) h) inputLayer inputs).
  destruct k as [|k]; simpl in Hr, Hx.
  - injection Hr as ->. injection Hx as ->.
    rewrite set_inputs_notin by exact Hr0. by rewrite lookup_alterNode_eq, Hn.
  - apply (IH inputs _ k); try done.
    rewrite lookup_alterNode_ne; [done|].
    intros ->. apply Hr0. by apply list_elem_of_lookup_2 in Hr.
Qed.

Lemma set_inputs_links inputLayer : ∀ inputs h,
  links (set_inputs h inputLayer inputs) = links h.
Proof.
  unfold set_inputs.
  induction inputLayer as [|r0 inputLayer IH]; intros [|x inputs] h; try reflexivity.
  cbn [zip zip_with foldl]. by rewrite IH.
Qed.

Lemma activate_ext h h' n :
  weightedInput h' n = weightedInput h n → activate h' n = activate h n.
Proof. unfold activate. by intros ->. Qed.

(** The layers of a network around the layer [i]. *)
Lemma layers_around (network : list (list nat)) i cur :
  network !! i = Some cur →
  concat network = concat (take i network) ++ cur ++ concat (drop (S i) network).
Proof.
  intros Hi. rewrite <- (take_drop_middle network i cur Hi) at 1.
  by rewrite concat_app.
Qed.

Lemma later_layers_around (network : list (list nat)) i cur :
  network !! S i = Some cur →
  drop 1 network = drop 1 (take (S i) network) ++ cur :: drop (S (S i)) network.
Proof.
  intros Hi. rewrite <- (take_drop_middle network (S i) cur Hi) at 1.
  apply drop_app_le. rewrite length_take. apply lookup_lt_Some in Hi. lia.
Qed.

Lemma layer_of_node (network : list (list nat)) r :
  r ∈ concat (drop 1 network) → ∃ i cur, network !! S i = Some cur ∧ r ∈ cur.
Proof.
  intros (cur & Hcur & Hr)%elem_of_concat.
  apply list_elem_of_lookup in Hcur as [i Hi]. rewrite lookup_drop in Hi.
  exists i, cur. by split.
Qed.

Lemma forward_spec_pointwise network inputs inputLayer h :
  wf_network network h →
  network !! 0%nat = Some inputLayer →
  length inputs = length inputLayer →
  NoDup (concat network) →
  sources_earlier network h →
  (∀ k r x, inputLayer !! k = Some r → inputs !! k = Some x →
     ∃ n, nodes h !! r = Some n
       ∧ nodes (forward_spec network inputs h) !! r = Some (Node.set_output x n))
  ∧ (∀ r, r ∈ concat (drop 1 network) →
     ∃ n, nodes h !! r = Some n
       ∧ nodes (forward_spec network inputs h) !! r
         = Some (activate (forward_spec network inputs h) n)).
Proof.
  intros Hwf Hin Hlen Hnd Hsrc. unfold forward_spec. rewrite Hin.
  change (default [] (Some inputLayer)) with inputLayer.
  set (h0 := set_inputs h inputLayer inputs).
  assert (network = inputLayer :: drop 1 network) as Enet.
  { destruct network as [|l0 network]; [discriminate Hin|].
    injection Hin as ->. reflexivity. }
  assert (NoDup inputLayer ∧ (∀ r, r ∈ inputLayer → r ∉ concat (drop 1 network))) as [Hnd0 Hdisj0].
  { rewrite Enet in Hnd. cbn [concat] in Hnd.
    apply NoDup_app in Hnd as (H1 & H2 & _). by split. }
  change (foldl forward_layer h0 (drop 1 network))
    with (foldl (foldl forward_node) h0 (drop 1 network)).
  rewrite foldl_foldl_concat.
  split.
  - intros k r x Hr Hx.
    destruct (wf_network_lookup network h inputLayer r Hwf) as [n Hn].
    { by apply list_elem_of_lookup_2 in Hin. }
    { by apply list_elem_of_lookup_2 in Hr. }
    exists n. split; [exact Hn|].
    rewrite forward_nodes_notin.
    + by apply (set_inputs_lookup inputLayer inputs h k).
    + apply Hdisj0. by apply list_elem_of_lookup_2 in Hr.
  - intros r Hr. destruct (layer_of_node network r Hr) as (i & cur & Hi & Hrc).
    destruct (wf_network_lookup network h cur r Hwf) as [n Hn]; [|done|].
    { by apply list_elem_of_lookup_2 in Hi. }
    exists n. split; [exact Hn|].
    pose proof (layers_around network (S i) cur Hi) as Econc.
    rewrite Econc in Hnd.
    apply NoDup_app in Hnd as (_ & Hdisj1 & Hnd).
    apply NoDup_app in Hnd as (Hndc & Hdisj2 & _).
    assert (∀ s, s ∈ concat (take (S i) network) →
                 (s ∉ cur) ∧ (s ∉ concat (drop (S (S i)) network))) as Hearlier.
    { intros s Hs. specialize (Hdisj1 s Hs). rewrite elem_of_app in Hdisj1. tauto. }
    assert (r ∉ concat (take (S i) network)) as Hr1.
    { intros Hs. destruct (Hearlier r Hs) as [H _]. by apply H. }
    assert (r ∉ inputLayer) as Hr0.
    { intros H0. apply Hr1. apply elem_of_concat. exists inputLayer. split; [|done].
      apply list_elem_of_lookup. exists 0%nat. rewrite lookup_take_lt; [done|lia]. }
    assert (r ∉ concat (drop 1 (take (S i) network))) as HrA.
    { intros (l & Hl & Hrl)%elem_of_concat. apply Hr1, elem_of_concat.
      exists l. split; [|done]. apply list_elem_of_lookup in Hl as [j Hj].
      rewrite lookup_drop in Hj. by apply list_elem_of_lookup_2 in Hj. }
    rewrite (later_layers_around network i cur Hi), concat_app, foldl_app.
    cbn [concat]. rewrite foldl_app.
    set (hA := foldl forward_node h0 (concat (drop 1 (take (S i) network)))).
    assert (nodes hA !! r = Some n) as HnA.
    { unfold hA. rewrite forward_nodes_notin by exact HrA.
      unfold h0. by rewrite set_inputs_notin. }
    assert (links hA = links h) as ElA.
    { unfold hA. rewrite forward_nodes_links. apply set_inputs_links. }
    assert (∀ link l, link ∈ Node.inputLinks n → links h !! link = Some l →
                      Link.source l ∈ concat (take (S i) network)) as Hs.
    { intros link l Hl El. apply (Hsrc (S i) cur r link l); try done.
      unfold inputLinksOf. by rewrite Hn. }
    destruct (forward_layer_node cur hA r n Hndc Hrc HnA) as [H1 H2].
    { intros link l Hl El. rewrite ElA in El. by apply Hearlier, (Hs link l). }
    unfold forward_layer in H1, H2.
    set (hB := foldl forward_node hA cur) in *.
    rewrite forward_nodes_notin by (by apply Hdisj2).
    rewrite H1. f_equal. symmetry. apply activate_ext. rewrite <- H2.
    apply weightedInput_ext; try reflexivity.
    + apply forward_nodes_links.
    + intros link l Hl El. apply outputOf_same, forward_nodes_notin.
      unfold hB in El. rewrite forward_nodes_links, ElA in El.
      by apply Hearlier, (Hs link l).
Qed.

(** ** Backward propagation, node by node and link by link *)

(** *** What is not written *)

Lemma frame_alterNode r f h :
  (∀ n, node_frame (f n) = node_frame n) → frame (alterNode r f h) = frame h.
Proof.
  intros Hf. unfold frame; simpl. f_equal.
  rewrite (list_fmap_alter node_frame f id).
  - by apply list_alter_id.
  - by apply Forall_forall.
Qed.

Lemma frame_alterLink r f h :
  (∀ l, link_frame (f l) = link_frame l) → frame (alterLink r f h) = frame h.
Proof.
  intros Hf. unfold frame; simpl. f_equal.
  rewrite (list_fmap_alter link_frame f id).
  - by apply list_alter_id.
  - by apply Forall_forall.
Qed.

Lemma foldl_frame {X} (step : Heap → X → Heap) xs :
  (∀ h x, frame (step h x) = frame h) → ∀ h, frame (foldl step h xs) = frame h.
Proof.
  intros Hstep. induction xs as [|x xs IH]; intros h; simpl; [done|].
  by rewrite IH.
Qed.

Lemma frame_backward_node n : node_frame (backward_node n) = node_frame n.
Proof. by destruct n. Qed.

Lemma frame_backward_link e l : link_frame (backward_link e l) = link_frame l.
Proof. unfold backward_link. destruct (Link.isDead l); by destruct l. Qed.

Lemma frame_backward_links h r : frame (backward_links h r) = frame h.
Proof.
  apply (foldl_frame (λ h' link, alterLink link (λ l,
           backward_link (inputDerOf h r * outputOf h (Link.source l))%float l) h')).
  intros h' link. apply frame_alterLink. intros l. apply frame_backward_link.
Qed.

Lemma frame_backward_step1 h layer :
  frame (foldl (λ h' r, alterNode r backward_node h') h layer) = frame h.
Proof.
  apply (foldl_frame (λ h' r, alterNode r backward_node h')).
  intros h' r. apply frame_alterNode, frame_backward_node.
Qed.

Lemma frame_backward_step2 h layer : frame (foldl backward_links h layer) = frame h.
Proof. apply foldl_frame. intros h' r. apply frame_backward_links. Qed.

Lemma frame_backward_step3 h layer : frame (foldl backward_outputDer h layer) = frame h.
Proof.
  apply foldl_frame. intros h' r. apply frame_alterNode. by intros [].
Qed.

Lemma frame_backward_layer network j h : frame (backward_layer network j h) = frame h.
Proof.
  unfold backward_layer. destruct (j =? 1)%nat.
  - by rewrite frame_backward_step2, frame_backward_step1.
  - by rewrite frame_backward_step3, frame_backward_step2, frame_backward_step1.
Qed.

Lemma frame_backward_layers network idx h :
  frame (backward_layers network idx h) = frame h.
Proof.
  revert h. induction idx as [|below IH]; intros h; [done|].
  cbn [backward_layers]. by rewrite IH, frame_backward_layer.
Qed.

Lemma frame_backward_spec network target errorFn h :
  frame (backward_spec network target errorFn h) = frame h.
Proof.
  unfold backward_spec. destruct (outputNodeOf network) as [outputNode|]; [|done].
  rewrite frame_backward_layers. apply frame_alterNode. by intros [].
Qed.

(** Reading through the frame. *)
Lemma frame_node h h' r n :
  frame h' = frame h → nodes h !! r = Some n →
  ∃ n', nodes h' !! r = Some n' ∧ node_frame n' = node_frame n.
Proof.
  intros [= E _] Hn. apply (f_equal (λ l, l !! r)) in E.
  rewrite !list_lookup_fmap, Hn in E.
  destruct (nodes h' !! r) as [n'|]; [|discriminate E].
  exists n'. split; [done|]. cbn [fmap option_fmap option_map] in E. congruence.
Qed.

Lemma frame_link h h' link l :
  frame h' = frame h → links h !! link = Some l →
  ∃ l', links h' !! link = Some l' ∧ link_frame l' = link_frame l.
Proof.
  intros [= _ E] Hl. apply (f_equal (λ ls, ls !! link)) in E.
  rewrite !list_lookup_fmap, Hl in E.
  destruct (links h' !! link) as [l'|]; [|discriminate E].
  exists l'. split; [done|]. cbn [fmap option_fmap option_map] in E. congruence.
Qed.

Lemma frame_link_None h h' link :
  frame h' = frame h → links h !! link = None → links h' !! link = None.
Proof.
  intros [= _ E] Hl. apply (f_equal (λ ls, ls !! link)) in E.
  rewrite !list_lookup_fmap, Hl in E.
  by destruct (links h' !! link).
Qed.

Lemma node_frame_fields n n' :
  node_frame n' = node_frame n →
  Node.output n' = Node.output n
  ∧ Node.totalInput n' = Node.totalInput n
  ∧ Node.activation n' = Node.activation n
  ∧ Node.inputLinks n' = Node.inputLinks n
  ∧ Node.outputs n' = Node.outputs n
  ∧ Node.bias n' = Node.bias n.
Proof. destruct n, n'. intros [=]. by subst. Qed.

Lemma link_frame_fields l l' :
  link_frame l' = link_frame l →
  Link.weight l' = Link.weight l
  ∧ Link.source l' = Link.source l
  ∧ Link.dest l' = Link.dest l
  ∧ Link.isDead l' = Link.isDead l
  ∧ Link.regularization l' = Link.regularization l.
Proof. destruct l, l'. intros [=]. by subst. Qed.

Lemma frame_outputOf h h' r : frame h' = frame h → outputOf h' r = outputOf h r.
Proof.
  intros E. unfold outputOf.
  destruct (nodes h !! r) as [n|] eqn:Hn.
  - destruct (frame_node h h' r n E Hn) as (n' & -> & Hf).
    simpl. by apply node_frame_fields in Hf as (? & _).
  - symmetry in E. destruct (nodes h' !! r) as [n'|] eqn:Hn'; [|done].
    destruct (frame_node h' h r n' E Hn') as (n & Hn2 & _). congruence.
Qed.

(** *** The three steps of a layer, exactly *)

Lemma foldl_alterNode_notin (f : Node.t → Node.t) layer : ∀ h r,
  r ∉ layer → nodes (foldl (λ h' r, alterNode r f h') h layer) !! r = nodes h !! r.
Proof.
  induction layer as [|r0 layer IH]; intros h r Hr; [done|].
  apply not_elem_of_cons in Hr as [Hne Hr]. cbn [foldl].
  rewrite IH by done. apply lookup_alterNode_ne. congruence.
Qed.

Lemma foldl_alterNode_once (f : Node.t → Node.t) layer : ∀ h r,
  NoDup layer → r ∈ layer →
  nodes (foldl (λ h' r, alterNode r f h') h layer) !! r = f <$> nodes h !! r.
Proof.
  induction layer as [|r0 layer IH]; intros h r Hnd Hr; [by inversion Hr|].
  apply NoDup_cons in Hnd as [Hr0 Hnd]. cbn [foldl].
  apply elem_of_cons in Hr as [->|Hr].
  - rewrite foldl_alterNode_notin by done. apply lookup_alterNode_eq.
  - rewrite IH by done. rewrite lookup_alterNode_ne; [done|]. by intros ->.
Qed.

Lemma foldl_alterLink_notin (f : Link.t → Link.t) ls : ∀ h link,
  link ∉ ls → links (foldl (λ h' link, alterLink link f h') h ls) !! link = links h !! link.
Proof.
  induction ls as [|link0 ls IH]; intros h link Hl; [done|].
  apply not_elem_of_cons in Hl as [Hne Hl]. cbn [foldl].
  rewrite IH by done. apply lookup_alterLink_ne. congruence.
Qed.

Lemma foldl_alterLink_once (f : Link.t → Link.t) ls : ∀ h link,
  NoDup ls → link ∈ ls →
  links (foldl (λ h' link, alterLink link f h') h ls) !! link = f <$> links h !! link.
Proof.
  induction ls as [|link0 ls IH]; intros h link Hnd Hl; [by inversion Hl|].
  apply NoDup_cons in Hnd as [Hl0 Hnd]. cbn [foldl].
  apply elem_of_cons in Hl as [->|Hl].
  - rewrite foldl_alterLink_notin by done. apply lookup_alterLink_eq.
  - rewrite IH by done. rewrite lookup_alterLink_ne; [done|]. by intros ->.
Qed.

(** Step 2. *)
Lemma backward_links_exact h r link l :
  NoDup (inputLinksOf h r) → link ∈ inputLinksOf h r → links h !! link = Some l →
  links (backward_links h r) !! link
  = Some (backward_link (inputDerOf h r * outputOf h (Link.source l))%float l).
Proof.
  intros Hnd Hin Hl. unfold backward_links.
  rewrite (foldl_alterLink_once (λ l,
    backward_link (inputDerOf h r * outputOf h (Link.source l))%float l)) by done.
  by rewrite Hl.
Qed.

Lemma backward_links_other h r link :
  link ∉ inputLinksOf h r → links (backward_links h r) !! link = links h !! link.
Proof.
  intros Hin. unfold backward_links.
  by rewrite (foldl_alterLink_notin (λ l,
    backward_link (inputDerOf h r * outputOf h (Link.source l))%float l)).
Qed.

Lemma same_nodes_reads h h0 :
  nodes h = nodes h0 →
  inputLinksOf h = inputLinksOf h0 ∧ inputDerOf h = inputDerOf h0 ∧ outputOf h = outputOf h0.
Proof. unfold inputLinksOf, inputDerOf, outputOf. by intros ->. Qed.

Lemma backward_step2_other layer : ∀ h0 h link,
  nodes h = nodes h0 →
  link ∉ concat (inputLinksOf h0 <$> layer) →
  links (foldl backward_links h layer) !! link = links h !! link.
Proof.
  induction layer as [|r0 layer IH]; intros h0 h link En Hl; [done|].
  rewrite fmap_cons in Hl. cbn [concat] in Hl. rewrite not_elem_of_app in Hl.
  destruct Hl as [Hl0 Hl]. cbn [foldl].
  destruct (same_nodes_reads h h0 En) as (Ei & _ & _).
  rewrite (IH h0) by (by rewrite ?nodes_backward_links).
  apply backward_links_other. by rewrite Ei.
Qed.

Lemma backward_step2_exact layer : ∀ h0 h r link l,
  nodes h = nodes h0 →
  NoDup (concat (inputLinksOf h0 <$> layer)) →
  r ∈ layer → link ∈ inputLinksOf h0 r → links h !! link = Some l →
  links (foldl backward_links h layer) !! link
  = Some (backward_link (inputDerOf h0 r * outputOf h0 (Link.source l))%float l).
Proof.
  induction layer as [|r0 layer IH]; intros h0 h r link l En Hnd Hr Hin Hl;
    [by inversion Hr|].
  rewrite fmap_cons in Hnd. cbn [concat] in Hnd.
  apply NoDup_app in Hnd as (Hnd0 & Hdisj & Hnd).
  destruct (same_nodes_reads h h0 En) as (Ei & Ed & Eo).
  cbn [foldl].
  destruct (decide (link ∈ inputLinksOf h0 r0)) as [Hin0|Hin0].
  - assert (r = r0) as ->.
    { apply elem_of_cons in Hr as [->|Hr]; [done|]. exfalso.
      apply (Hdisj link Hin0). apply elem_of_concat.
      exists (inputLinksOf h0 r). split; [|done]. by apply list_elem_of_fmap_2. }
    rewrite (backward_step2_other layer h0) by
      (by rewrite ?nodes_backward_links; try apply Hdisj).
    rewrite <- Ei in Hnd0, Hin0. rewrite <- Ed, <- Eo.
    by apply backward_links_exact.
  - assert (r ∈ layer) as Hr'.
    { apply elem_of_cons in Hr as [->|Hr]; [contradiction|done]. }
    apply (IH h0); try done.
    + by rewrite nodes_backward_links.
    + rewrite backward_links_other; [done|]. by rewrite Ei.
Qed.

(** Step 3. *)
Lemma inputDerOf_backward_outputDer h r x :
  inputDerOf (backward_outputDer h r) x = inputDerOf h x.
Proof.
  unfold inputDerOf, backward_outputDer. destruct (decide (r = x)) as [->|Hne].
  - rewrite lookup_alterNode_eq. by destruct (nodes h !! x).
  - by rewrite lookup_alterNode_ne.
Qed.

Lemma inputDerOf_backward_step3 layer : ∀ h x,
  inputDerOf (foldl backward_outputDer h layer) x = inputDerOf h x.
Proof.
  induction layer as [|r layer IH]; intros h x; [done|].
  cbn [foldl]. by rewrite IH, inputDerOf_backward_outputDer.
Qed.

Lemma outputDerSum_ext h h' n n' :
  frame h' = frame h → node_frame n' = node_frame n →
  (∀ o l, o ∈ Node.outputs n → links h !! o = Some l →
          inputDerOf h' (Link.dest l) = inputDerOf h (Link.dest l)) →
  outputDerSum h' n' = outputDerSum h n.
Proof.
  intros Ef En Hd. unfold outputDerSum.
  apply node_frame_fields in En as (_ & _ & _ & _ & -> & _).
  revert Hd. generalize 0%float as acc. generalize (Node.outputs n) as os.
  induction os as [|o os IH]; intros acc Hd; [done|].
  cbn [foldl]. rewrite IH by (intros o' l Ho'; apply Hd; by right).
  f_equal. f_equal. unfold outputDerTerm.
  destruct (links h !! o) as [l|] eqn:Hl.
  - destruct (frame_link h h' o l Ef Hl) as (l' & -> & Hf).
    apply link_frame_fields in Hf as (-> & _ & -> & _).
    rewrite (Hd o l); [done | by left | done].
  - by rewrite (frame_link_None h h' o Ef Hl).
Qed.

Lemma backward_step3_exact prev : ∀ h r n,
  NoDup prev → r ∈ prev → nodes h !! r = Some n →
  nodes (foldl backward_outputDer h prev) !! r
  = Some (Node.set_outputDer (outputDerSum h n) n).
Proof.
  induction prev as [|r0 prev IH]; intros h r n Hnd Hr Hn; [by inversion Hr|].
  apply NoDup_cons in Hnd as [Hr0 Hnd]. cbn [foldl].
  apply elem_of_cons in Hr as [->|Hr].
  - rewrite backward_step3_untouched by done.
    unfold backward_outputDer. by rewrite lookup_alterNode_eq, Hn.
  - rewrite (IH _ r n); try done.
    + do 2 f_equal. apply outputDerSum_ext; try done.
      * apply frame_alterNode. by intros [].
      * intros o l _ _. apply inputDerOf_backward_outputDer.
    + unfold backward_outputDer. rewrite lookup_alterNode_ne; [done|]. by intros ->.
Qed.

(** *** One layer *)

Lemma frame_inputLinksOf h h' r : frame h' = frame h → inputLinksOf h' r = inputLinksOf h r.
Proof.
  intros E. unfold inputLinksOf.
  destruct (nodes h !! r) as [n|] eqn:Hn.
  - destruct (frame_node h h' r n E Hn) as (n' & -> & Hf).
    simpl. by apply node_frame_fields in Hf as (_ & _ & _ & ? & _).
  - symmetry in E. destruct (nodes h' !! r) as [n'|] eqn:Hn'; [|done].
    destruct (frame_node h' h r n' E Hn') as (n & Hn2 & _). congruence.
Qed.

Lemma frame_incoming h h' (layer : list nat) :
  frame h' = frame h → inputLinksOf h' <$> layer = inputLinksOf h <$> layer.
Proof. intros E. apply list_fmap_ext. intros _ r _. by apply frame_inputLinksOf. Qed.

(** A node of neither the layer nor the one before it is not written. *)
Lemma backward_layer_node_other network j r h :
  r ∉ default [] (network !! j) →
  r ∉ default [] (network !! (j - 1)) →
  nodes (backward_layer network j h) !! r = nodes h !! r.
Proof.
  intros Hj Hp. unfold backward_layer. destruct (j =? 1)%nat.
  - rewrite nodes_backward_step2. by apply foldl_alterNode_notin.
  - rewrite backward_step3_untouched by done.
    rewrite nodes_backward_step2. by apply foldl_alterNode_notin.
Qed.

(** A node of the layer goes through step 1, once. *)
Lemma backward_layer_node_exact network j r h :
  r ∈ default [] (network !! j) → NoDup (default [] (network !! j)) →
  r ∉ default [] (network !! (j - 1)) →
  nodes (backward_layer network j h) !! r = backward_node <$> nodes h !! r.
Proof.
  intros Hj Hnd Hp. unfold backward_layer. destruct (j =? 1)%nat.
  - rewrite nodes_backward_step2. by apply foldl_alterNode_once.
  - rewrite backward_step3_untouched by done.
    rewrite nodes_backward_step2. by apply foldl_alterNode_once.
Qed.

(** A node of the layer before gets its [outputDer] in step 3: the sum, as
    it reads in the store the layer's three steps leave. *)
Lemma backward_layer_prev_exact network j r n h :
  (j =? 1)%nat = false →
  r ∈ default [] (network !! (j - 1)) → NoDup (default [] (network !! (j - 1))) →
  r ∉ default [] (network !! j) →
  nodes h !! r = Some n →
  nodes (backward_layer network j h) !! r
  = Some (Node.set_outputDer (outputDerSum (backward_layer network j h) n) n).
Proof.
  intros Hj Hp Hnd Hr Hn. unfold backward_layer. rewrite Hj.
  set (h2 := foldl backward_links _ _).
  assert (nodes h2 !! r = Some n) as Hn2.
  { unfold h2. rewrite nodes_backward_step2. by rewrite foldl_alterNode_notin. }
  rewrite (backward_step3_exact _ h2 r n Hnd Hp Hn2). do 2 f_equal.
  symmetry. apply outputDerSum_ext; try done.
  - apply frame_backward_step3.
  - intros o l _ _. apply inputDerOf_backward_step3.
Qed.

(** A link into the layer goes through step 2, once. *)
Lemma backward_layer_link_exact network j r n link l h :
  r ∈ default [] (network !! j) → NoDup (default [] (network !! j)) →
  NoDup (concat (inputLinksOf h <$> default [] (network !! j))) →
  link ∈ inputLinksOf h r →
  nodes h !! r = Some n → links h !! link = Some l →
  links (backward_layer network j h) !! link
  = Some (backward_link
            (Node.inputDer (backward_node n) * outputOf h (Link.source l))%float l).
Proof.
  intros Hr Hnd Hndl Hin Hn Hl.
  set (h1 := foldl (λ h' r, alterNode r backward_node h') h (default [] (network !! j))).
  assert (frame h1 = frame h) as Ef by apply frame_backward_step1.
  assert (links (backward_layer network j h) = links (foldl backward_links h1 (default [] (network !! j)))) as ->.
  { unfold backward_layer. fold h1. destruct (j =? 1)%nat; [done|].
    apply links_backward_step3. }
  rewrite (backward_step2_exact _ h1 h1 r link l); try done.
  - do 2 f_equal. f_equal.
    + unfold inputDerOf, h1. rewrite foldl_alterNode_once by done. by rewrite Hn.
    + by apply frame_outputOf.
  - by rewrite (frame_incoming h h1).
  - by rewrite (frame_inputLinksOf h h1).
  - unfold h1. by rewrite links_backward_step1.
Qed.

(** A link into another layer is not written. *)
Lemma backward_layer_link_other network j link h :
  link ∉ concat (inputLinksOf h <$> default [] (network !! j)) →
  links (backward_layer network j h) !! link = links h !! link.
Proof.
  intros Hl.
  set (h1 := foldl (λ h' r, alterNode r backward_node h') h (default [] (network !! j))).
  assert (frame h1 = frame h) as Ef by apply frame_backward_step1.
  assert (links (backward_layer network j h) = links (foldl backward_links h1 (default [] (network !! j)))) as ->.
  { unfold backward_layer. fold h1. destruct (j =? 1)%nat; [done|].
    apply links_backward_step3. }
  rewrite (backward_step2_other _ h1 h1); try done.
  - unfold h1. by rewrite links_backward_step1.
  - by rewrite (frame_incoming h h1).
Qed.

(** *** Layers that share nothing *)

Lemma concat_NoDup_lookup {A} (xss : list (list A)) i xs :
  NoDup (concat xss) → xss !! i = Some xs → NoDup xs.
Proof.
  revert i. induction xss as [|ys xss IH]; intros i Hnd Hi; [done|].
  cbn [concat] in Hnd. apply NoDup_app in Hnd as (H1 & _ & H2).
  destruct i as [|i]; simpl in Hi; [by injection Hi as <-|]. by apply (IH i).
Qed.

Lemma concat_NoDup_disjoint {A} (xss : list (list A)) i j xs ys x :
  NoDup (concat xss) → xss !! i = Some xs → xss !! j = Some ys →
  x ∈ xs → x ∈ ys → i = j.
Proof.
  revert i j. induction xss as [|zs xss IH]; intros i j Hnd Hi Hj Hx Hy; [done|].
  cbn [concat] in Hnd. apply NoDup_app in Hnd as (H1 & Hdisj & H2).
  assert (∀ k ws, xss !! k = Some ws → x ∈ ws → x ∈ concat xss) as Hin.
  { intros k ws Hk Hw. apply elem_of_concat. exists ws. split; [|done].
    by apply list_elem_of_lookup_2 in Hk. }
  destruct i as [|i], j as [|j]; simpl in Hi, Hj.
  - done.
  - injection Hi as <-. exfalso. apply (Hdisj x Hx). by apply (Hin j ys).
  - injection Hj as <-. exfalso. apply (Hdisj x Hy). by apply (Hin i xs).
  - f_equal. by apply IH.
Qed.

Lemma layer_NoDup (network : list (list nat)) j :
  NoDup (concat network) → NoDup (default [] (network !! j)).
Proof.
  intros Hnd. destruct (network !! j) as [cur|] eqn:Hj; [|constructor].
  by apply (concat_NoDup_lookup network j).
Qed.

Lemma layers_disjoint (network : list (list nat)) i j r :
  NoDup (concat network) →
  r ∈ default [] (network !! i) → r ∈ default [] (network !! j) → i = j.
Proof.
  intros Hnd Hi Hj.
  destruct (network !! i) as [xs|] eqn:Ei; [|by inversion Hi].
  destruct (network !! j) as [ys|] eqn:Ej; [|by inversion Hj].
  by apply (concat_NoDup_disjoint network i j xs ys r).
Qed.

Lemma incomingLinks_layers h (network : list (list nat)) :
  incomingLinks h network
  = concat ((λ cur, concat (inputLinksOf h <$> cur)) <$> drop 1 network).
Proof. apply concat_fmap_concat. Qed.

Lemma incoming_lookup h (network : list (list nat)) j :
  ((λ cur, concat (inputLinksOf h <$> cur)) <$> drop 1 network) !! j
  = (λ cur, concat (inputLinksOf h <$> cur)) <$> network !! S j.
Proof. by rewrite list_lookup_fmap, lookup_drop. Qed.

Lemma incoming_NoDup h (network : list (list nat)) j :
  NoDup (incomingLinks h network) → 1 ≤ j →
  NoDup (concat (inputLinksOf h <$> default [] (network !! j))).
Proof.
  intros Hnd Hj. destruct j as [|j]; [lia|].
  destruct (network !! S j) as [cur|] eqn:Ej; [|constructor].
  rewrite incomingLinks_layers in Hnd.
  apply (concat_NoDup_lookup _ j _ Hnd). by rewrite incoming_lookup, Ej.
Qed.

Lemma incoming_disjoint h (network : list (list nat)) i j link :
  NoDup (incomingLinks h network) → 1 ≤ i → 1 ≤ j →
  link ∈ concat (inputLinksOf h <$> default [] (network !! i)) →
  link ∈ concat (inputLinksOf h <$> default [] (network !! j)) →
  i = j.
Proof.
  intros Hnd Hi Hj Hli Hlj.
  destruct i as [|i]; [lia|]. destruct j as [|j]; [lia|]. f_equal.
  destruct (network !! S i) as [xs|] eqn:Ei; [|by inversion Hli].
  destruct (network !! S j) as [ys|] eqn:Ej; [|by inversion Hlj].
  rewrite incomingLinks_layers in Hnd.
  apply (concat_NoDup_disjoint _ i j (concat (inputLinksOf h <$> xs))
           (concat (inputLinksOf h <$> ys)) link Hnd); try done.
  - by rewrite incoming_lookup, Ei.
  - by rewrite incoming_lookup, Ej.
Qed.

(** *** Runs over several layers *)

Lemma backward_layers_above network i k h :
  backward_layers network (i + k) h
  = backward_layers network i (backward_above network i k h).
Proof.
  rewrite !backward_layers_foldl. unfold backward_above.
  by rewrite <- foldl_app, <- reverse_app, <- seq_app.
Qed.

Lemma backward_above_S network i k h :
  backward_above network i (S k) h
  = backward_layer network (S i) (backward_above network (S i) k h).
Proof.
  unfold backward_above. cbn [seq]. by rewrite reverse_cons, foldl_app.
Qed.

Lemma frame_backward_run network js h :
  frame (foldl (λ h j, backward_layer network j h) h js) = frame h.
Proof. apply foldl_frame. intros h' j. apply frame_backward_layer. Qed.

Lemma frame_backward_above network i k h :
  frame (backward_above network i k h) = frame h.
Proof. apply frame_backward_run. Qed.

Lemma backward_run_node_other network js r : ∀ h,
  (∀ j, j ∈ js → (r ∉ default [] (network !! j))
                 ∧ (r ∉ default [] (network !! (j - 1)))) →
  nodes (foldl (λ h j, backward_layer network j h) h js) !! r = nodes h !! r.
Proof.
  induction js as [|j0 js IH]; intros h Hjs; [done|].
  cbn [foldl]. rewrite IH by (intros j Hj; apply Hjs; by right).
  destruct (Hjs j0) as [H1 H2]; [by left|]. by apply backward_layer_node_other.
Qed.

Lemma backward_run_node_kept network js r h :
  (∀ j, j ∈ js → r ∉ default [] (network !! j)) →
  node_rel r same_but_outputDer h (foldl (λ h j, backward_layer network j h) h js).
Proof.
  intros Hjs. apply foldl_preserves; [apply _|].
  intros h' j Hj. by apply backward_layer_node_miss, Hjs.
Qed.

Lemma backward_run_link_other network js link : ∀ h0 h,
  frame h = frame h0 →
  (∀ j, j ∈ js → link ∉ concat (inputLinksOf h0 <$> default [] (network !! j))) →
  links (foldl (λ h j, backward_layer network j h) h js) !! link = links h !! link.
Proof.
  induction js as [|j0 js IH]; intros h0 h Ef Hjs; [done|].
  cbn [foldl]. rewrite (IH h0).
  - apply backward_layer_link_other. rewrite (frame_incoming h0 h _ Ef).
    apply Hjs. by left.
  - by rewrite frame_backward_layer.
  - intros j Hj. apply Hjs. by right.
Qed.

(** *** The whole of [backProp] *)

Lemma same_but_outputDer_eq n n' :
  same_but_outputDer n n' → n' = Node.set_outputDer (Node.outputDer n') n.
Proof. destruct n, n'. unfold same_but_outputDer; simpl. intros [=]. by subst. Qed.

Lemma outputDer_backward_node n : Node.outputDer (backward_node n) = Node.outputDer n.
Proof. done. Qed.

Lemma elem_of_later_layers (network : list (list nat)) m x :
  x ∈ concat (drop m network) → ∃ j, m ≤ j ∧ x ∈ default [] (network !! j).
Proof.
  intros (cur & Hcur & Hx)%elem_of_concat.
  apply list_elem_of_lookup in Hcur as [j Hj]. rewrite lookup_drop in Hj.
  exists (m + j). split; [lia|]. by rewrite Hj.
Qed.

Section backward_pointwise.
Context (network : list (list nat)) (h1 : Heap).
Hypothesis Hnd : NoDup (concat network).

(** A node of layer [i + 1]: the layers above may give it an [outputDer],
    its own layer runs step 1 on it, the layers below leave it alone. *)
Lemma backward_layers_node i k cur r :
  network !! S i = Some cur → r ∈ cur →
  nodes (backward_layers network (S i + k) h1) !! r
  = backward_node <$> nodes (backward_above network (S i) k h1) !! r.
Proof.
  intros Hi Hr. rewrite backward_layers_above. cbn [backward_layers].
  assert (r ∈ default [] (network !! S i)) as Hr' by (by rewrite Hi).
  rewrite backward_layers_untouched.
  - apply backward_layer_node_exact; [done | by apply layer_NoDup |].
    intros Hp. apply (layers_disjoint network (S i) (S i - 1) r Hnd) in Hp; [lia|done].
  - intros j Hj Hin.
    apply (layers_disjoint network (S i) j r Hnd) in Hin; [lia|done].
Qed.

Lemma backward_above_node i k cur r :
  network !! i = Some cur → r ∈ cur →
  node_rel r same_but_outputDer h1 (backward_above network i k h1).
Proof.
  intros Hi Hr. apply backward_run_node_kept.
  intros j Hj%elem_of_reverse%elem_of_seq Hin.
  apply (layers_disjoint network i j r Hnd) in Hin; [lia | by rewrite Hi].
Qed.

(** A link into layer [i + 1]. *)
Lemma backward_layers_link h i k cur r link l :
  frame h1 = frame h →
  NoDup (incomingLinks h network) →
  network !! S i = Some cur → r ∈ cur →
  link ∈ inputLinksOf h r → links h1 !! link = Some l →
  links (backward_layers network (S i + k) h1) !! link
  = Some (backward_link
            (inputDerOf (backward_layers network (S i + k) h1) r
             * outputOf h1 (Link.source l))%float l).
Proof.
  intros Ef Hndl Hi Hr Hin Hl.
  assert (link ∈ concat (inputLinksOf h <$> default [] (network !! S i))) as Hinc.
  { rewrite Hi. apply elem_of_concat. exists (inputLinksOf h r).
    split; [|done]. by apply list_elem_of_fmap_2. }
  unfold inputDerOf. rewrite (backward_layers_node i k cur r Hi Hr).
  rewrite backward_layers_above. cbn [backward_layers].
  set (a := backward_above network (S i) k h1).
  assert (frame a = frame h) as Efa.
  { unfold a. by rewrite frame_backward_above. }
  assert (links a !! link = Some l) as Hla.
  { unfold a, backward_above. rewrite (backward_run_link_other network _ link h); try done.
    intros j Hj%elem_of_reverse%elem_of_seq Hin'.
    apply (incoming_disjoint h network (S i) j link Hndl) in Hin'; [lia | lia | lia | done]. }
  assert (∃ na, nodes a !! r = Some na) as [na Hna].
  { unfold inputLinksOf in Hin.
    destruct (nodes h !! r) as [n|] eqn:Hn; [|by inversion Hin].
    destruct (frame_node h a r n Efa Hn) as (na & Hna & _). by exists na. }
  rewrite backward_layers_foldl.
  rewrite (backward_run_link_other network _ link h).
  - rewrite Hna.
    rewrite (backward_layer_link_exact network (S i) r na link l a); try done.
    + do 2 f_equal. f_equal. apply frame_outputOf. congruence.
    + by rewrite Hi.
    + by apply layer_NoDup.
    + rewrite (frame_incoming h a _ Efa). apply incoming_NoDup; [done|lia].
    + by rewrite (frame_inputLinksOf h a r Efa).
  - by rewrite frame_backward_layer.
  - intros j Hj%elem_of_reverse%elem_of_seq Hin'.
    apply (incoming_disjoint h network (S i) j link Hndl) in Hin'; [lia | lia | lia | done].
Qed.
(** A node of layer [i + 1] with a layer above it: step 3 of that layer
    gives it the sum over its outgoing links, and the sum reads the same in
    the final store. *)
Lemma backward_layers_hidden h i k cur r :
  frame h1 = frame h → dests_later network h →
  network !! S i = Some cur → r ∈ cur → is_Some (nodes h !! r) →
  ∃ n', nodes (backward_layers network (S i + S k) h1) !! r = Some n'
    ∧ Node.outputDer n' = outputDerSum (backward_layers network (S i + S k) h1) n'.
Proof.
  intros Ef Hdests Hi Hr [n Hn].
  assert (r ∈ default [] (network !! S i)) as Hr' by (by rewrite Hi).
  set (a2 := backward_above network (S (S i)) k h1).
  set (a := backward_layer network (S (S i)) a2).
  assert (frame a2 = frame h) as Ef2.
  { unfold a2. by rewrite frame_backward_above. }
  assert (frame a = frame h) as Efa.
  { unfold a. by rewrite frame_backward_layer. }
  assert (backward_layers network (S i + S k) h1 = backward_layers network (S i) a) as Eh'.
  { by rewrite backward_layers_above, backward_above_S. }
  destruct (frame_node h a2 r n Ef2 Hn) as (n2 & Hn2 & Hf2).
  assert (nodes a !! r = Some (Node.set_outputDer (outputDerSum a n2) n2)) as Hna.
  { apply backward_layer_prev_exact; try done.
    - apply layer_NoDup, Hnd.
    - intros Hin. apply (layers_disjoint network (S i) (S (S i)) r Hnd) in Hin; [lia|done]. }
  rewrite (backward_layers_node i (S k) cur r Hi Hr).
  rewrite backward_above_S. fold a2. fold a. rewrite Hna.
  eexists. split; [reflexivity|]. rewrite outputDer_backward_node. cbn [Node.outputDer Node.set_outputDer].
  symmetry. apply outputDerSum_ext.
  - rewrite Eh', frame_backward_layers. done.
  - rewrite frame_backward_node. by destruct n2.
  - intros o l Ho Hl. rewrite Eh'. unfold inputDerOf.
    rewrite backward_layers_untouched; [done|]. intros j Hj Hin.
    symmetry in Efa. destruct (frame_link a h o l Efa Hl) as (l0 & Hl0 & Hfl).
    apply link_frame_fields in Hfl as (_ & _ & Ed & _).
    apply node_frame_fields in Hf2 as (_ & _ & _ & _ & Eo & _).
    assert (Link.dest l0 ∈ concat (drop (S (S i)) network)) as Hlater.
    { apply (Hdests (S i) cur r o l0); try done.
      unfold outputsOf. rewrite Hn. simpl. by rewrite <- Eo. }
    apply elem_of_later_layers in Hlater as (j' & Hj' & Hin').
    rewrite Ed in Hin'.
    apply (layers_disjoint network j j' _ Hnd Hin) in Hin'. lia.
Qed.
End backward_pointwise.

Lemma backward_spec_pointwise network target errorFn outputNode h :
  wf_network network h →
  outputNodeOf network = Some outputNode →
  NoDup (concat network) →
  (∃ n n', nodes h !! outputNode = Some n
     ∧ nodes (backward_spec network target errorFn h) !! outputNode = Some n'
     ∧ Node.outputDer n' = ErrorFunction.der errorFn (Node.output n) target)
  ∧ (∀ r, r ∈ concat (drop 1 network) →
     ∃ n n', nodes h !! r = Some n
       ∧ nodes (backward_spec network target errorFn h) !! r = Some n'
       ∧ n' = backward_node (Node.set_outputDer (Node.outputDer n') n))
  ∧ (dests_later network h →
     ∀ i cur r, network !! S i = Some cur → S (S i) < length network → r ∈ cur →
     ∃ n', nodes (backward_spec network target errorFn h) !! r = Some n'
       ∧ Node.outputDer n' = outputDerSum (backward_spec network target errorFn h) n')
  ∧ (NoDup (incomingLinks h network) →
     ∀ r link l, r ∈ concat (drop 1 network) →
     link ∈ inputLinksOf h r → links h !! link = Some l →
     links (backward_spec network target errorFn h) !! link
     = Some (backward_link
               (inputDerOf (backward_spec network target errorFn h) r
                * outputOf (backward_spec network target errorFn h) (Link.source l))%float
               l)).
Proof.
  intros Hwf Hout Hnd.
  pose proof (frame_backward_spec network target errorFn h) as Efinal.
  unfold backward_spec in *. rewrite Hout in *.
  set (f := λ n : Node.t,
         Node.set_outputDer (ErrorFunction.der errorFn (Node.output n) target) n) in *.
  set (h1 := alterNode outputNode f h) in *.
  assert (frame h1 = frame h) as Ef.
  { apply frame_alterNode. by intros []. }
  assert (∀ i cur, network !! S i = Some cur →
            length network - 1 = S i + (length network - 1 - S i)) as Hidx.
  { intros i cur Hi%lookup_lt_Some. lia. }
  assert (∀ i cur r, network !! S i = Some cur → r ∈ cur → is_Some (nodes h !! r)) as Hex.
  { intros i cur r Hi Hr. apply (wf_network_lookup network h cur r Hwf); [|done].
    by apply list_elem_of_lookup_2 in Hi. }
  assert (∀ r, node_rel r same_but_outputDer h h1) as Hh1.
  { intros r. apply node_rel_alterNode; [apply _|]. by intros []. }
  repeat split.
  - unfold outputNodeOf in Hout.
    destruct (last network) as [lastLayer|] eqn:Hlast; [|done]. simpl in Hout.
    rewrite last_lookup in Hlast.
    assert (outputNode ∈ lastLayer) as Hin.
    { destruct lastLayer; [done|]. injection Hout as ->. by left. }
    destruct (wf_network_lookup network h lastLayer outputNode Hwf) as [n Hn]; [|done|].
    { by apply list_elem_of_lookup_2 in Hlast. }
    exists n. replace (pred (length network)) with (length network - 1) in Hlast by lia.
    destruct (length network - 1) as [|i] eqn:Elen.
    + exists (f n). split; [done|]. split; [|done].
      cbn [backward_layers]. unfold h1. by rewrite lookup_alterNode_eq, Hn.
    + exists (backward_node (f n)). split; [done|]. split; [|done].
      replace (S i) with (S i + 0) at 1 by lia.
      rewrite (backward_layers_node network h1 Hnd i 0 lastLayer outputNode Hlast Hin).
      change (backward_above network (S i) 0 h1) with h1.
      unfold h1. by rewrite lookup_alterNode_eq, Hn.
  - intros r Hr. destruct (layer_of_node network r Hr) as (i & cur & Hi & Hrc).
    destruct (Hex i cur r Hi Hrc) as [n Hn]. exists n.
    rewrite (Hidx i cur Hi).
    rewrite (backward_layers_node network h1 Hnd i _ cur r Hi Hrc).
    destruct (Hh1 r n Hn) as (n1 & Hn1 & S1).
    destruct (backward_above_node network h1 Hnd (S i) (length network - 1 - S i) cur r Hi Hrc n1 Hn1)
      as (na & -> & S2).
    exists (backward_node na). split; [done|]. split; [done|].
    rewrite outputDer_backward_node. f_equal.
    apply same_but_outputDer_eq. by trans n1.
  - intros Hdests i cur r Hi Hlen Hrc.
    replace (length network - 1) with (S i + S (length network - 1 - S (S i))) by lia.
    apply (backward_layers_hidden network h1 Hnd h i _ cur r); try done.
    by apply (Hex i cur).
  - intros Hndl r link l Hr Hin Hl.
    destruct (layer_of_node network r Hr) as (i & cur & Hi & Hrc).
    rewrite (Hidx i cur Hi) in *.
    rewrite (backward_layers_link network h1 Hnd h i _ cur r link l); try done.
    do 2 f_equal. f_equal. symmetry. apply frame_outputOf. congruence.
Qed.

(** Checks that run, for closed examples. *)
Lemma layers_check (network : list (list nat)) (f : nat → nat → bool) :
  forallb (λ i, forallb (f i) (default [] (network !! i))) (seq 0 (length network)) →
  ∀ i cur r, network !! i = Some cur → r ∈ cur → f i r.
Proof.
  rewrite forallb_True, Forall_forall. intros H i cur r Hi Hr.
  specialize (H i). rewrite Hi, forallb_True, Forall_forall in H.
  apply H; [|exact Hr]. apply elem_of_seq. apply lookup_lt_Some in Hi. lia.
Qed.

Lemma sources_earlier_check (network : list (list nat)) h :
  forallb (λ i,
    forallb (λ r,
      forallb (λ link,
        from_option (λ l, bool_decide (Link.source l ∈ concat (take i network)))
                    true (links h !! link))
        (inputLinksOf h r))
      (default [] (network !! i)))
    (seq 0 (length network)) →
  sources_earlier network h.
Proof.
  intros H i cur r link l Hi Hr Hlink Hl.
  pose proof (layers_check network _ H i cur r Hi Hr) as H'. cbv beta in H'.
  rewrite forallb_True, Forall_forall in H'. specialize (H' link Hlink).
  rewrite Hl in H'. by apply bool_decide_unpack in H'.
Qed.

Lemma dests_later_check (network : list (list nat)) h :
  forallb (λ i,
    forallb (λ r,
      forallb (λ link,
        from_option (λ l, bool_decide (Link.dest l ∈ concat (drop (S i) network)))
                    true (links h !! link))
        (outputsOf h r))
      (default [] (network !! i)))
    (seq 0 (length network)) →
  dests_later network h.
Proof.
  intros H i cur r link l Hi Hr Hlink Hl.
  pose proof (layers_check network _ H i cur r Hi Hr) as H'. cbv beta in H'.
  rewrite forallb_True, Forall_forall in H'. specialize (H' link Hlink).
  rewrite Hl in H'. by apply bool_decide_unpack in H'.
Qed.

(** ** The claims about forward and backward propagation *)

(** C3. When the length of [inputs] is the size of the input layer,
    [forwardProp] returns, and the store it leaves is the one obtained by
    setting each input node's [output] to the input of its position, then, for
    each later layer in index order and each of its nodes in order, setting
    [totalInput] to the bias plus the sum over all the incoming links, dead or
    not, of [link.weight * link.source.output], and [output] to
    [activation.output(totalInput)]; the value returned is the [output] of
    the first node of the last layer.  No link is written.  In a network
    whose layers share no node and whose links come from earlier layers, as
    [buildNetwork] makes them, the sums read the same in the store the call
    leaves: there each input node is as it was but for its [output], the
    input of its position, and each node of a later layer is as it was but
    for its [totalInput], the bias plus the sum over its incoming links of
    the weight times the source's [output], and its [output], the activation
    of that. *)
Theorem forwardProp_correct network inputs inputLayer outputNode h :
  wf_heap h → wf_network network h →
  network !! 0%nat = Some inputLayer →
  length inputs = length inputLayer →
  outputNodeOf network = Some outputNode →
  forwardProp network inputs h
  = Ok (outputOf (forward_spec network inputs h) outputNode)
       (forward_spec network inputs h)
  ∧ links (forward_spec network inputs h) = links h
  ∧ (NoDup (concat network) → sources_earlier network h →
     (∀ k r x, inputLayer !! k = Some r → inputs !! k = Some x →
        ∃ n, nodes h !! r = Some n
          ∧ nodes (forward_spec network inputs h) !! r = Some (Node.set_output x n))
     ∧ (∀ r, r ∈ concat (drop 1 network) →
        ∃ n, nodes h !! r = Some n
          ∧ nodes (forward_spec network inputs h) !! r
            = Some (activate (forward_spec network inputs h) n))).
Proof.
  intros Hwf Hnet H0 Hlen Hout. split; [|split].
  - by destruct (forwardProp_spec network inputs inputLayer outputNode h) as [E _].
  - apply forward_spec_links.
  - intros Hnd Hsrc. by apply forward_spec_pointwise.
Qed.

Lemma forwardProp_correct_witness :
  forwardProp Example.network [1; 1]%float Example.fresh
  = Ok 0.1375%float Example.propagated
  ∧ ∃ n, nodes Example.fresh !! 4%nat = Some n
      ∧ nodes Example.propagated !! 4%nat = Some (activate Example.propagated n).
Proof.
  destruct (forwardProp_correct Example.network [1; 1]%float [0; 1]%nat 4 Example.fresh)
    as (E & _ & Hpoint); [compute_done | compute_done | reflexivity..|].
  assert (forward_spec Example.network [1; 1]%float Example.fresh = Example.propagated)
    as Es by (vm_compute; reflexivity).
  rewrite Es in E, Hpoint. split.
  - rewrite E. vm_compute. reflexivity.
  - destruct Hpoint as [_ Hlater];
      [compute_done | apply sources_earlier_check; vm_compute; exact I |].
    apply (Hlater 4%nat). compute_done.
Defined.

(** C1. [backProp] returns, and the store it leaves is the one obtained by
    setting the [outputDer] of the last layer's first node to
    [errorFunc.der(output, target)], then, for the layers from the last down
    to layer 1: (1) for every node of the layer, setting [inputDer] to
    [outputDer * activation.der(totalInput)], adding it into [accInputDer] and
    adding 1 to [numAccumulatedDers]; (2) for every node of the layer and
    every incoming link of it that is not dead, setting [errorDer] to
    [inputDer * source.output], adding it into [accErrorDer] and adding 1 to
    the link's count, a dead link being left untouched; (3) unless the layer
    is layer 1, setting the [outputDer] of every node of the previous layer to
    the sum over its outgoing links of [weight * dest.inputDer].  A node that
    is in no layer but the first, and is not the output node, is not written
    at all: an input node never receives an [outputDer].  Nothing but the
    derivatives, their accumulators and counts is written.  In a network
    whose layers share no node, the store the call leaves reads as follows:
    the output node holds the error derivative in [outputDer]; every node of
    a layer after the first is the node it was, with the [outputDer] it ends
    with, after step 1; when the outgoing links lead to later layers, the
    [outputDer] a node of layers 1 to n-2 ends with is the sum over its
    outgoing links of the weight times the destination's final [inputDer];
    and when no incoming link is held twice, every incoming link is the link
    it was after step 2 with the final [inputDer] of its node times the
    source's [output]. *)
Theorem backProp_correct network target errorFunc outputNode h :
  wf_heap h → wf_network network h →
  outputNodeOf network = Some outputNode →
  backProp network target errorFunc h
  = Ok tt (backward_spec network target errorFunc h)
  ∧ (∀ r, r ∉ concat (drop 1 network) → r ≠ outputNode →
       nodes (backward_spec network target errorFunc h) !! r = nodes h !! r)
  ∧ frame (backward_spec network target errorFunc h) = frame h
  ∧ (NoDup (concat network) →
     (∃ n n', nodes h !! outputNode = Some n
        ∧ nodes (backward_spec network target errorFunc h) !! outputNode = Some n'
        ∧ Node.outputDer n' = ErrorFunction.der errorFunc (Node.output n) target)
     ∧ (∀ r, r ∈ concat (drop 1 network) →
        ∃ n n', nodes h !! r = Some n
          ∧ nodes (backward_spec network target errorFunc h) !! r = Some n'
          ∧ n' = backward_node (Node.set_outputDer (Node.outputDer n') n))
     ∧ (dests_later network h →
        ∀ i cur r, network !! S i = Some cur → S (S i) < length network → r ∈ cur →
        ∃ n', nodes (backward_spec network target errorFunc h) !! r = Some n'
          ∧ Node.outputDer n'
            = outputDerSum (backward_spec network target errorFunc h) n')
     ∧ (NoDup (incomingLinks h network) →
        ∀ r link l, r ∈ concat (drop 1 network) →
        link ∈ inputLinksOf h r → links h !! link = Some l →
        links (backward_spec network target errorFunc h) !! link
        = Some (backward_link
                  (inputDerOf (backward_spec network target errorFunc h) r
                   * outputOf (backward_spec network target errorFunc h) (Link.source l))%float
                  l))).
Proof.
  intros Hwf Hnet Hout. split; [|split; [|split]].
  - by destruct (backProp_spec network target errorFunc outputNode h) as [E _].
  - intros r Hr Hne. by eapply backward_spec_untouched.
  - apply frame_backward_spec.
  - intros Hnd. by apply backward_spec_pointwise.
Qed.

Lemma backProp_correct_witness :
  backProp Example.network 0 Example.squareError Example.propagated
  = Ok tt Example.accumulated
  ∧ nodes Example.accumulated !! 0%nat = nodes Example.propagated !! 0%nat
  ∧ (∃ n', nodes Example.accumulated !! 2%nat = Some n'
       ∧ Node.outputDer n' = outputDerSum Example.accumulated n')
  ∧ ∃ l, links Example.propagated !! 4%nat = Some l
      ∧ links Example.accumulated !! 4%nat
        = Some (backward_link
                  (inputDerOf Example.accumulated 4 * outputOf Example.accumulated 2)%float l).
Proof.
  destruct (backProp_correct Example.network 0 Example.squareError 4 Example.propagated)
    as (E & Hinput & _ & Hpoint); [compute_done | compute_done | reflexivity |].
  assert (backward_spec Example.network 0 Example.squareError Example.propagated
          = Example.accumulated) as Es by (vm_compute; reflexivity).
  rewrite Es in E, Hinput, Hpoint.
  destruct Hpoint as (_ & _ & Hhidden & Hlinks); [compute_done|].
  split; [|split; [|split]].
  - exact E.
  - apply (Hinput 0%nat); compute_done.
  - assert (dests_later Example.network Example.propagated) as Hdests
      by (apply dests_later_check; vm_compute; exact I).
    apply (Hhidden Hdests 0%nat [2; 3]%nat 2%nat);
      [reflexivity | simpl; lia | compute_done].
  - assert (NoDup (incomingLinks Example.propagated Example.network)) as Hincoming
      by compute_done.
    eexists. split; [reflexivity|].
    apply (Hlinks Hincoming 4%nat 4%nat); [compute_done | compute_done | reflexivity].
Defined.



Lemma accumulation_witness :
  ∃ h',
    forEach [([1; 1]%float, 0%float); ([0.5; 0.25]%float, 1%float)]
      (example_step Example.network Example.squareError) Example.fresh = Ok tt h'.
Proof.
  destruct (accumulation Example.network Example.squareError [0; 1]%nat 4
              [([1; 1]%float, 0%float); ([0.5; 0.25]%float, 1%float)] Example.fresh)
    as (h' & E & _);
    [compute_done | compute_done | reflexivity | reflexivity
    | repeat constructor | compute_done | compute_done |].
  by exists h'.
Defined.

(** ** The zero-initialised network *)

(** C9. The network of shape [2,2,1] with sigmoid hidden nodes, a linear
    output node and zero initialisation (every weight and every bias 0)
    returns exactly 0 on the input [1,1].  [Math.exp] enters through the one
    value the computation needs: [Math.exp(-0)] is 1. *)
Theorem zero_init_forward (Math_random : nat → number) (Math_exp : number → number)
    (regularization : option RegularizationFunction.obj) (inputIds : list string) :
  Math_exp (-0)%float = 1%float →
  ∃ network h h',
    buildNetwork Math_random [2; 2; 1]%nat (Activations.SIGMOID Math_exp)
      Activations.LINEAR regularization inputIds true emptyHeap = Ok network h
    ∧ Forall (λ l, Link.weight l = 0%float) (links h)
    ∧ Forall (λ n, Node.bias n = 0%float) (nodes h)
    ∧ forwardProp network [1; 1]%float h = Ok 0%float h'.
Proof.
  intros Hexp. vm_compute in Hexp.
  eexists _, _, _. split; [vm_compute; reflexivity|].
  split; [repeat constructor|]. split; [repeat constructor|].
  vm_compute. rewrite !Hexp. vm_compute. reflexivity.
Qed.

Lemma zero_init_forward_witness :
  ∃ network h h',
    buildNetwork Example.random [2; 2; 1]%nat (Activations.SIGMOID exp_series)
      Activations.LINEAR None ["x"; "y"] true emptyHeap = Ok network h
    ∧ Forall (λ l, Link.weight l = 0%float) (links h)
    ∧ Forall (λ n, Node.bias n = 0%float) (nodes h)
    ∧ forwardProp network [1; 1]%float h = Ok 0%float h'.
Proof.
  apply (zero_init_forward Example.random exp_series None ["x"; "y"]).
  reflexivity.
Defined.

(** ** Construction *)

Lemma forEachAcc_fold {A S} (xs : list A) (body : S → A → M S)
    (step : S * Heap → A → S * Heap) (I : S * Heap → Prop) s h :
  I (s, h) →
  (∀ s h x, x ∈ xs → I (s, h) →
     body s x h = Ok (step (s, h) x).1 (step (s, h) x).2 ∧ I (step (s, h) x)) →
  forEachAcc xs s body h = Ok (foldl step (s, h) xs).1 (foldl step (s, h) xs).2
  ∧ I (foldl step (s, h) xs).
Proof.
  revert s h. induction xs as [|x xs IH]; intros s h Hi Hbody; simpl.
  - done.
  - destruct (Hbody s h x) as [E Hi']; [left | done |].
    rewrite (bind_Ok _ _ _ _ _ E).
    destruct (step (s, h) x) as [s' h'] eqn:Hstep. simpl.
    apply IH; [done|]. intros s0 h0 y Hy. apply Hbody. by right.
Qed.

Lemma wiring_alterNode_outputs r f h :
  (∀ n, Node.inputLinks (f n) = Node.inputLinks n) →
  wiring (alterNode r f h) = wiring h.
Proof.
  intros Hf. unfold wiring; simpl. f_equal.
  rewrite (list_fmap_alter Node.inputLinks f id).
  - by apply list_alter_id.
  - by apply Forall_forall.
Qed.

(** The loop of [buildNetwork] that links one new node to the previous
    layer. *)
Lemma link_to_previous_run Math_random node regularization initZero ps h :
  node < length (nodes h) → Forall (λ p, p < length (nodes h)) ps →
  ∃ h',
    forEach ps (λ prevNode,
      link ← newLink Math_random prevNode node regularization initZero;
      modifyNode prevNode (λ n, Node.set_outputs (Node.outputs n ++ [link]) n);;
      modifyNode node (λ n, Node.set_inputLinks (Node.inputLinks n ++ [link]) n)) h
    = Ok tt h'
    ∧ length (nodes h') = length (nodes h)
    ∧ (wiring h').1
      = alter (λ ls, ls ++ seq (length (links h)) (length ps)) node (wiring h).1
    ∧ (wiring h').2 = (wiring h).2 ++ ((λ p, (p, node)) <$> ps).
Proof.
  intros Hnode Hps. revert h Hnode Hps.
  induction ps as [|p ps IH]; intros h Hnode Hps.
  { exists h. split; [done|]. split; [done|]. split.
    - simpl. symmetry. apply list_alter_id. intros ls. apply app_nil_r.
    - simpl. by rewrite app_nil_r. }
  apply Forall_cons in Hps as [Hp Hps].
  destruct (lookup_lt_is_Some_2 _ _ Hp) as [np Hnp].
  destruct (lookup_lt_is_Some_2 _ _ Hnode) as [nn Hnn].
  set (l := {| Link.id := id_to_string (Node.id np) +:+ "-" +:+ id_to_string (Node.id nn);
               Link.source := p; Link.dest := node;
               Link.weight := if initZero then 0%float
                              else (Math_random (length (links h)) - 0.5)%float;
               Link.isDead := false; Link.errorDer := 0;
               Link.accErrorDer := 0; Link.numAccumulatedDers := 0;
               Link.regularization := regularization |}).
  set (h1 := mkHeap (nodes h) (links h ++ [l])).
  assert (newLink Math_random p node regularization initZero h = Ok (length (links h)) h1)
    as E1.
  { unfold newLink.
    rewrite (bind_Ok _ _ _ _ _ (getNode_Some _ _ _ Hnp)).
    by rewrite (bind_Ok _ _ _ _ _ (getNode_Some _ _ _ Hnn)). }
  set (h2 := alterNode p
    (λ n, Node.set_outputs (Node.outputs n ++ [length (links h)]) n) h1).
  set (h3 := alterNode node
    (λ n, Node.set_inputLinks (Node.inputLinks n ++ [length (links h)]) n) h2).
  assert (length (nodes h3) = length (nodes h)) as Hlen.
  { unfold h3, h2, h1, alterNode; simpl. by rewrite !length_alter. }
  destruct (IH h3) as (h' & E & Hlen' & Hins & Hends).
  { by rewrite Hlen. }
  { by rewrite Hlen. }
  assert (is_Some (nodes h2 !! node)) as [n2 Hn2].
  { apply lookup_lt_is_Some_2. unfold h2, h1, alterNode; simpl.
    by rewrite length_alter. }
  exists h'. split; [|split; [congruence|split]].
  - cbn [forEach]. rewrite bind_run.
    rewrite (bind_Ok _ _ _ _ _ E1).
    rewrite (bind_Ok _ _ _ _ _ (modifyNode_Some h1 p np _ Hnp)).
    rewrite (modifyNode_Some _ _ _ _ Hn2).
    exact E.
  - rewrite Hins. unfold h3, h2, h1, wiring, alterNode; simpl.
    rewrite (list_fmap_alter Node.inputLinks _ (λ ls, ls ++ [length (links h)]));
      [|by apply Forall_forall].
    rewrite (list_fmap_alter Node.inputLinks _ id); [|by apply Forall_forall].
    rewrite (list_alter_id id) by done.
    rewrite list_alter_alter_eq. apply list_alter_ext; [|done].
    intros ls _. simpl. rewrite length_app. simpl.
    rewrite <- app_assoc. simpl. by rewrite Nat.add_1_r.
  - rewrite Hends. unfold h3, h2, h1, wiring, alterNode; simpl.
    by rewrite fmap_app, <- app_assoc.
Qed.

Lemma last_lookup_pred {A} (l : list A) : last l = l !! (length l - 1).
Proof.
  induction l as [|x [|y l] IH]; [done..|].
  change (last (x :: y :: l)) with (last (y :: l)). rewrite IH. simpl.
  by rewrite Nat.sub_0_r.
Qed.

Lemma wf_network_grow (network : list (list nat)) h h' :
  length (nodes h) ≤ length (nodes h') → wf_network network h → wf_network network h'.
Proof.
  intros Hle Hnet. unfold wf_network in *.
  eapply Forall_impl; [done|]. intros layer Hl.
  eapply Forall_impl; [done|]. intros r Hr. simpl in *. lia.
Qed.

(** The statements that create and wire one node. *)
Lemma buildNode_run Math_random numLayers (network : list (list nat))
    activation outputActivation regularization inputIds initZero id cur i h :
  wf_network network h →
  ∃ id' h',
    buildNode Math_random numLayers (length network) network activation
      outputActivation regularization inputIds initZero (id, cur) i h
    = Ok (id', cur ++ [length (nodes h)]) h'
    ∧ length (nodes h') = S (length (nodes h))
    ∧ wiring h' = wire_node (default [] (last network)) (wiring h).
Proof.
  intros Hnet. unfold buildNode.
  set (isOutputLayer := (length network =? numLayers - 1)%nat).
  set (isInputLayer := (length network =? 0)%nat).
  set (new := Node.new (if isInputLayer then inputIds !! i else Some (pretty id))
                (if isOutputLayer then outputActivation else activation) initZero).
  set (h1 := mkHeap (nodes h ++ [new]) (links h)).
  assert (length (nodes h1) = S (length (nodes h))) as Hlen1.
  { unfold h1; simpl. rewrite length_app. simpl. lia. }
  assert ((wiring h1).1 = (wiring h).1 ++ [[]] ∧ (wiring h1).2 = (wiring h).2) as [Hins1 Hends1].
  { unfold wiring, h1; simpl. by rewrite fmap_app. }
  exists (if isInputLayer then id else S id).
  rewrite bind_run.
  change (newNode (if isInputLayer then inputIds !! i else Some (pretty id))
            (if isOutputLayer then outputActivation else activation) initZero h)
    with (Ok (length (nodes h)) h1).
  cbv iota beta.
  destruct (1 <=? length network)%nat eqn:Hidx.
  - apply Nat.leb_le in Hidx.
    rewrite <- last_lookup_pred.
    destruct (last network) as [ps|] eqn:Hlast.
    2: { destruct network; [simpl in Hidx; lia | by apply last_None in Hlast]. }
    destruct (link_to_previous_run Math_random (length (nodes h)) regularization
                initZero ps h1) as (h' & E & Hlen & Hins & Hends).
    { lia. }
    { unfold wf_network in Hnet. rewrite Forall_forall in Hnet.
      eapply Forall_impl; [apply Hnet; by apply last_Some_elem_of|].
      intros r Hr. simpl in *. lia. }
    exists h'. rewrite bind_run, E. cbv iota beta.
    split; [done|]. split; [congruence|].
    unfold wire_node. simpl default.
    rewrite (surjective_pairing (wiring h')), Hins, Hends, Hins1, Hends1.
    assert (length (wiring h).1 = length (nodes h)) as Hl1
      by (unfold wiring; simpl; by rewrite length_fmap).
    assert (length (wiring h).2 = length (links h)) as Hl2
      by (unfold wiring; simpl; by rewrite length_fmap).
    rewrite Hl1, Hl2. f_equal.
    replace (length (nodes h)) with (length (wiring h).1 + 0) by lia.
    by rewrite alter_app_r.
  - apply Nat.leb_gt in Hidx.
    assert (network = []) as -> by (destruct network; [done | simpl in Hidx; lia]).
    exists h1. rewrite bind_run. cbv iota beta.
    split; [done|]. split; [done|].
    unfold wire_node. simpl default. simpl seq. simpl fmap.
    rewrite (surjective_pairing (wiring h1)), Hins1, Hends1.
    by rewrite app_nil_r.
Qed.

(** The loop over the nodes of one layer. *)
Lemma buildNodes_run Math_random numLayers (network : list (list nat))
    activation outputActivation regularization inputIds initZero xs id cur h :
  wf_network network h →
  ∃ id' h',
    forEachAcc xs (id, cur)
      (buildNode Math_random numLayers (length network) network activation
         outputActivation regularization inputIds initZero) h
    = Ok (id', cur ++ seq (length (nodes h)) (length xs)) h'
    ∧ length (nodes h') = length (nodes h) + length xs
    ∧ wiring h' = Nat.iter (length xs) (wire_node (default [] (last network))) (wiring h).
Proof.
  revert id cur h. induction xs as [|i xs IH]; intros id cur h Hnet.
  { exists id, h. simpl. rewrite app_nil_r. split; [done|]. split; [lia | done]. }
  destruct (buildNode_run Math_random numLayers network activation outputActivation
              regularization inputIds initZero id cur i h Hnet)
    as (id1 & h1 & E1 & Hlen1 & Hw1).
  destruct (IH id1 (cur ++ [length (nodes h)]) h1) as (id' & h' & E & Hlen & Hw).
  { eapply wf_network_grow; [|done]. lia. }
  exists id', h'. split; [|split].
  - cbn [forEachAcc]. rewrite (bind_Ok _ _ _ _ _ E1). rewrite E.
    do 2 f_equal. rewrite <- app_assoc. simpl. by rewrite Hlen1.
  - rewrite Hlen, Hlen1. simpl. lia.
  - rewrite Hw, Hw1. simpl length. by rewrite Nat.iter_succ_r.
Qed.

Lemma buildLayer_run Math_random numLayers (network : list (list nat))
    activation outputActivation regularization inputIds initZero id numNodes h :
  wf_network network h →
  ∃ id' h',
    buildLayer Math_random numLayers activation outputActivation regularization
      inputIds initZero (id, network) numNodes h
    = Ok (id', (wire_layer (network, wiring h) numNodes).1) h'
    ∧ wiring h' = (wire_layer (network, wiring h) numNodes).2
    ∧ wf_network (wire_layer (network, wiring h) numNodes).1 h'.
Proof.
  intros Hnet. unfold buildLayer.
  destruct (buildNodes_run Math_random numLayers network activation outputActivation
              regularization inputIds initZero (seq 0 numNodes) id [] h Hnet)
    as (id' & h' & E & Hlen & Hw).
  rewrite length_seq in *.
  exists id', h'. rewrite bind_run, E. cbv iota beta. simpl.
  assert (length (Node.inputLinks <$> nodes h) = length (nodes h)) as ->
    by by rewrite length_fmap.
  split; [done|]. split; [done|].
  unfold wf_network. apply Forall_app. split.
  - eapply wf_network_grow; [|done]. lia.
  - apply Forall_singleton. apply Forall_forall. intros r Hr.
    apply elem_of_seq in Hr. lia.
Qed.

Lemma buildLayers_run Math_random numLayers activation outputActivation
    regularization inputIds initZero shape id (network : list (list nat)) h :
  wf_network network h →
  ∃ id' h',
    forEachAcc shape (id, network)
      (buildLayer Math_random numLayers activation outputActivation regularization
         inputIds initZero) h
    = Ok (id', (foldl wire_layer (network, wiring h) shape).1) h'
    ∧ wiring h' = (foldl wire_layer (network, wiring h) shape).2.
Proof.
  revert id network h. induction shape as [|numNodes shape IH]; intros id network h Hnet.
  { by exists id, h. }
  destruct (buildLayer_run Math_random numLayers network activation outputActivation
              regularization inputIds initZero id numNodes h Hnet)
    as (id1 & h1 & E1 & Hw1 & Hnet1).
  destruct (IH id1 (wire_layer (network, wiring h) numNodes).1 h1 Hnet1)
    as (id' & h' & E & Hw).
  exists id', h'. cbn [forEachAcc foldl]. rewrite (bind_Ok _ _ _ _ _ E1).
  rewrite E, Hw, Hw1. by destruct (wire_layer (network, wiring h) numNodes).
Qed.

(** [buildNetwork] returns, and the wiring of what it built from the empty
    store is the wiring of its shape. *)
Lemma buildNetwork_run Math_random shape activation outputActivation
    regularization inputIds initZero :
  ∃ h,
    buildNetwork Math_random shape activation outputActivation regularization
      inputIds initZero emptyHeap
    = Ok (foldl wire_layer ([], ([], [])) shape).1 h
    ∧ wiring h = (foldl wire_layer ([], ([], [])) shape).2.
Proof.
  destruct (buildLayers_run Math_random (length shape) activation outputActivation
              regularization inputIds initZero shape 1 [] emptyHeap)
    as (id' & h & E & Hw).
  { constructor. }
  exists h. unfold buildNetwork. rewrite bind_run, E. done.
Qed.

(** ** The wiring [buildNetwork] produces is dense *)

Lemma wired_to_new {A B} (l : list B) (f : A → B) (ps : list A) :
  Forall2 (λ link p, (l ++ (f <$> ps)) !! link = Some (f p)) (seq (length l) (length ps)) ps.
Proof.
  apply Forall2_same_length_lookup_2.
  - by rewrite length_seq.
  - intros i link p Hlink Hp. apply lookup_seq in Hlink as [-> Hi].
    rewrite lookup_app_r by lia.
    replace (length l + i - length l) with i by lia.
    by rewrite list_lookup_fmap, Hp.
Qed.

(** The nodes of one layer, wired one after the other to [ps]. *)
Lemma wire_nodes_spec ps m (w : list (list nat) * list (nat * nat)) :
  ∃ ins ends,
    Nat.iter m (wire_node ps) w = (w.1 ++ ins, w.2 ++ ends)
    ∧ length ins = m
    ∧ (∀ q, q < m →
         ∃ ls, ins !! q = Some ls
               ∧ Forall2 (λ link p, (w.2 ++ ends) !! link = Some (p, length w.1 + q)) ls ps)
    ∧ (concat w.1 = seq 0 (length w.2) →
       concat (w.1 ++ ins) = seq 0 (length (w.2 ++ ends))).
Proof.
  induction m as [|m (ins & ends & E & Hlen & Hwired & Hnum)].
  { exists [], []. simpl. rewrite !app_nil_r. destruct w. repeat split; [|done].
    intros q Hq. lia. }
  exists (ins ++ [seq (length (w.2 ++ ends)) (length ps)]),
         (ends ++ ((λ p, (p, length (w.1 ++ ins))) <$> ps)).
  split; [|split; [|split]].
  - simpl. rewrite E. unfold wire_node. simpl. by rewrite !app_assoc.
  - rewrite length_app. simpl. lia.
  - intros q Hq. destruct (decide (q < m)) as [Hlt|Hge].
    + destruct (Hwired q Hlt) as (ls & Hls & HF). exists ls. split.
      * by apply lookup_app_l_Some.
      * eapply Forall2_impl; [done|]. intros link p Hlink. simpl in *.
        rewrite app_assoc. by apply lookup_app_l_Some.
    + assert (q = m) as -> by lia.
      exists (seq (length (w.2 ++ ends)) (length ps)). split.
      * rewrite lookup_app_r by lia. by rewrite Hlen, Nat.sub_diag.
      * rewrite app_assoc.
        replace (length w.1 + m) with (length (w.1 ++ ins))
          by (rewrite length_app; lia).
        apply (wired_to_new (w.2 ++ ends) (λ p, (p, length (w.1 ++ ins))) ps).
  - intros Hw. specialize (Hnum Hw).
    rewrite app_assoc, concat_app, Hnum. simpl. rewrite app_nil_r.
    rewrite <- seq_app. f_equal. rewrite app_assoc, (length_app (w.2 ++ ends)).
    by rewrite length_fmap.
Qed.

Lemma prev_layer_app (net : list (list nat)) cur i :
  i ≤ length net → prev_layer (net ++ [cur]) i = prev_layer net i.
Proof.
  intros Hi. destruct i as [|j]; [done|]. simpl. by rewrite lookup_app_l by lia.
Qed.

Lemma prev_layer_last (net : list (list nat)) :
  prev_layer net (length net) = default [] (last net).
Proof.
  rewrite last_lookup_pred. destruct net as [|l net]; [done|]. simpl.
  by rewrite Nat.sub_0_r.
Qed.

(** One more layer keeps the wiring dense. *)
Lemma wire_layer_dense net w numNodes :
  dense net w →
  dense (wire_layer (net, w) numNodes).1 (wire_layer (net, w) numNodes).2.
Proof.
  intros (Hnodes & Hwired & Hlinks). unfold wire_layer. simpl.
  destruct (wire_nodes_spec (default [] (last net)) numNodes w)
    as (ins & ends & E & Hlen & Hnew & Hnum).
  rewrite E. simpl. split; [|split].
  - rewrite concat_app, Hnodes. simpl. rewrite app_nil_r, length_app, Hlen.
    by rewrite <- seq_app.
  - intros i cur r Hcur Hr.
    destruct (decide (i < length net)) as [Hlt|Hge].
    + rewrite lookup_app_l in Hcur by done.
      destruct (Hwired i cur r Hcur Hr) as (ls & Hls & HF).
      exists ls. cbn [fst snd]. split; [by apply lookup_app_l_Some|].
      rewrite prev_layer_app by lia.
      eapply Forall2_impl; [done|]. intros link p Hlink. simpl in *.
      by apply lookup_app_l_Some.
    + assert (i = length net) as ->.
      { apply lookup_lt_Some in Hcur. rewrite length_app in Hcur. simpl in Hcur. lia. }
      rewrite lookup_app_r in Hcur by lia. rewrite Nat.sub_diag in Hcur.
      simpl in Hcur. injection Hcur as <-.
      apply elem_of_seq in Hr.
      destruct (Hnew (r - length w.1)) as (ls & Hls & HF); [lia|].
      exists ls. cbn [fst snd]. split.
      * rewrite lookup_app_r by lia. done.
      * rewrite prev_layer_app by lia. rewrite prev_layer_last.
        by replace (length w.1 + (r - length w.1)) with r in HF by lia.
  - by apply Hnum.
Qed.

Lemma wire_layers_dense shape net w :
  dense net w →
  dense (foldl wire_layer (net, w) shape).1 (foldl wire_layer (net, w) shape).2.
Proof.
  revert net w. induction shape as [|numNodes shape IH]; intros net w Hd; [done|].
  simpl. pose proof (wire_layer_dense net w numNodes Hd) as Hd'.
  destruct (wire_layer (net, w) numNodes) as [net' w']. by apply IH.
Qed.

Lemma wire_layers_lengths shape (net : list (list nat)) w :
  length <$> (foldl wire_layer (net, w) shape).1 = (length <$> net) ++ shape.
Proof.
  revert net w. induction shape as [|numNodes shape IH]; intros net w; simpl.
  { by rewrite app_nil_r. }
  unfold wire_layer at 2. simpl. rewrite IH, fmap_app. simpl.
  by rewrite length_seq, <- app_assoc.
Qed.

Lemma dense_empty : dense [] ([], []).
Proof.
  split; [done|]. split; [|done]. intros i cur r Hcur. by destruct i.
Qed.

Lemma inputLinksOf_wiring h r : inputLinksOf h r = default [] ((wiring h).1 !! r).
Proof.
  unfold inputLinksOf, wiring; simpl. rewrite list_lookup_fmap.
  by destruct (nodes h !! r).
Qed.

Lemma wiring_ends_lookup h link p r :
  (wiring h).2 !! link = Some (p, r)
  ↔ ∃ l, links h !! link = Some l ∧ Link.source l = p ∧ Link.dest l = r.
Proof.
  unfold wiring, link_refs; simpl. rewrite list_lookup_fmap. split.
  - destruct (links h !! link) as [l|]; simpl; [|done].
    intros [= <- <-]. by exists l.
  - intros (l & -> & <- & <-). done.
Qed.

Lemma length_concat_fmap {A B} (f : A → list B) (xs : list A) k :
  (∀ x, x ∈ xs → length (f x) = k) → length (concat (f <$> xs)) = length xs * k.
Proof.
  induction xs as [|x xs IH]; intros Hk; [done|].
  rewrite fmap_cons. cbn [concat length]. 
  rewrite length_app, IH, Hk; [done | left |]. intros y Hy. apply Hk. by right.
Qed.

Lemma concat_layer_split {A} (layer : list A) (layers : list (list A)) :
  layer ∈ layers → ∃ l1 l2, concat layers = l1 ++ layer ++ l2.
Proof.
  intros (n1 & n2 & ->)%list_elem_of_split.
  exists (concat n1), (concat n2). by rewrite concat_app.
Qed.

Lemma filter_ext_in {A} (P Q : A → Prop) `{!∀ x, Decision (P x), !∀ x, Decision (Q x)}
    (l : list A) :
  (∀ x, x ∈ l → P x ↔ Q x) → filter P l = filter Q l.
Proof.
  induction l as [|a l IH]; intros HPQ; [done|].
  rewrite !filter_cons.
  rewrite IH by (intros x Hx; apply HPQ; by right).
  apply decide_ext, HPQ. by left.
Qed.

(** Counting the links that satisfy [P] is counting their positions. *)
Lemma length_filter_positions {A} (P : A → Prop) `{∀ x, Decision (P x)} (xs : list A) :
  length (filter P xs)
  = length (filter (λ i, from_option (λ x, bool_decide (P x)) false (xs !! i))
              (seq 0 (length xs))).
Proof.
  induction xs as [|x xs IH] using rev_ind; [done|].
  rewrite (length_app xs [x]). cbn [length].
  rewrite seq_app, !filter_app, !length_app. cbn [seq Nat.add].
  f_equal.
  - rewrite IH. f_equal. apply filter_ext_in.
    intros i Hi. apply elem_of_seq in Hi.
    by rewrite lookup_app_l by lia.
  - rewrite !filter_cons, !filter_nil.
    rewrite lookup_app_r by lia. rewrite Nat.sub_diag. simpl.
    destruct (decide (P x)) as [HP|HP].
    + rewrite decide_True; [done|]. by apply bool_decide_pack.
    + rewrite decide_False; [done|]. intros HP'. by apply bool_decide_unpack in HP'.
Qed.

(** From the dense wiring of a store to the links themselves. *)
Section dense_store.
Context (network : list (list nat)) (h : Heap).
Hypothesis Hdense : dense network (wiring h).

Lemma dense_node_in_layer r :
  is_Some (nodes h !! r) → ∃ i cur, network !! i = Some cur ∧ r ∈ cur.
Proof.
  intros Hr%lookup_lt_is_Some. destruct Hdense as (Hnodes & _ & _).
  assert (r ∈ concat network) as Hin.
  { rewrite Hnodes. apply elem_of_seq. unfold wiring; simpl.
    rewrite length_fmap. lia. }
  apply elem_of_concat in Hin as (cur & Hcur & Hr').
  apply list_elem_of_lookup in Hcur as [i Hi]. eauto.
Qed.

Lemma dense_NoDup_nodes : NoDup (concat network).
Proof. destruct Hdense as (-> & _ & _). apply NoDup_seq. Qed.

Lemma dense_wired i prev cur r :
  network !! i = Some prev → network !! S i = Some cur → r ∈ cur →
  Forall2 (λ link p, ∃ l, links h !! link = Some l ∧ Link.source l = p ∧ Link.dest l = r)
    (inputLinksOf h r) prev.
Proof.
  intros Hprev Hcur Hr. destruct Hdense as (_ & Hwired & _).
  destruct (Hwired (S i) cur r Hcur Hr) as (ls & Hls & HF).
  rewrite inputLinksOf_wiring, Hls. simpl in *. rewrite Hprev in HF. simpl in HF.
  eapply Forall2_impl; [done|]. intros link p Hlink. by apply wiring_ends_lookup.
Qed.

Lemma dense_first first r :
  network !! 0%nat = Some first → r ∈ first → inputLinksOf h r = [].
Proof.
  intros Hfirst Hr. destruct Hdense as (_ & Hwired & _).
  destruct (Hwired 0%nat first r Hfirst Hr) as (ls & Hls & HF).
  rewrite inputLinksOf_wiring, Hls. simpl in *. by apply Forall2_nil_inv_r in HF.
Qed.

Lemma dense_inputLinks_all :
  concat (inputLinksOf h <$> concat network) = seq 0 (length (links h)).
Proof.
  destruct Hdense as (Hnodes & _ & Hlinks).
  assert (inputLinksOf h <$> concat network = (wiring h).1) as ->.
  { rewrite Hnodes. apply list_eq. intros r. rewrite list_lookup_fmap.
    destruct (decide (r < length (wiring h).1)) as [Hlt|Hge].
    - rewrite lookup_seq_lt by done. simpl. rewrite inputLinksOf_wiring.
      change (Node.inputLinks <$> nodes h) with (wiring h).1.
      by destruct (lookup_lt_is_Some_2 _ _ Hlt) as [ls ->].
    - rewrite lookup_seq_ge by lia. simpl. symmetry. apply lookup_ge_None.
      change (Node.inputLinks <$> nodes h) with (wiring h).1. lia. }
  rewrite Hlinks. unfold wiring; simpl. by rewrite length_fmap.
Qed.

Lemma dense_link link l :
  links h !! link = Some l →
  ∃ i prev cur,
    network !! i = Some prev ∧ network !! S i = Some cur
    ∧ Link.source l ∈ prev ∧ Link.dest l ∈ cur
    ∧ link ∈ inputLinksOf h (Link.dest l).
Proof.
  intros Hl. pose proof (lookup_lt_Some _ _ _ Hl) as Hlt.
  assert (link ∈ concat (inputLinksOf h <$> concat network)) as Hin.
  { rewrite dense_inputLinks_all. apply elem_of_seq. lia. }
  apply elem_of_concat in Hin as (ls & Hls & Hlink).
  apply list_elem_of_fmap in Hls as (r & -> & Hr).
  apply elem_of_concat in Hr as (cur & Hcur & Hr).
  apply list_elem_of_lookup in Hcur as [i Hi].
  destruct Hdense as (_ & Hwired & _).
  destruct (Hwired i cur r Hi Hr) as (ls & Hls & HF).
  rewrite inputLinksOf_wiring, Hls in Hlink. simpl in Hlink.
  apply list_elem_of_lookup in Hlink as [j Hj].
  destruct (Forall2_lookup_l _ _ _ _ _ HF Hj) as (p & Hp & Hends).
  apply wiring_ends_lookup in Hends as (l' & Hl' & Hsrc & Hdst).
  assert (l' = l) as -> by congruence.
  destruct i as [|i]; [by inversion Hp|]. simpl in Hp.
  destruct (network !! i) as [prev|] eqn:Hprev; [|by inversion Hp].
  simpl in Hp. exists i, prev, cur. split; [done|]. split; [done|].
  rewrite Hsrc, Hdst. split; [by eapply list_elem_of_lookup_2|]. split; [done|].
  rewrite inputLinksOf_wiring, Hls. simpl. by eapply list_elem_of_lookup_2.
Qed.

(** The links into a layer are the incoming links its nodes hold, each
    counted once. *)
Lemma dense_linkRefsInto i prev cur :
  network !! i = Some prev → network !! S i = Some cur →
  linkRefsInto h cur ≡ₚ concat (inputLinksOf h <$> cur).
Proof.
  intros Hprev Hcur. apply NoDup_Permutation.
  - apply NoDup_filter, NoDup_seq.
  - pose proof dense_inputLinks_all as Hall.
    destruct (concat_layer_split cur network) as (l1 & l2 & Hsplit).
    { by eapply list_elem_of_lookup_2. }
    rewrite Hsplit, !fmap_app, !concat_app in Hall.
    assert (NoDup (seq 0 (length (links h)))) as Hnd by apply NoDup_seq.
    rewrite <- Hall in Hnd.
    apply NoDup_app in Hnd as (_ & _ & Hnd). by apply NoDup_app in Hnd as (Hnd & _).
  - intros link. unfold linkRefsInto. rewrite list_elem_of_filter, elem_of_seq. split.
    + intros [Hdest Hlt].
      destruct (links h !! link) as [l|] eqn:Hl; simpl in Hdest; [|done].
      apply bool_decide_unpack in Hdest.
      destruct (dense_link link l Hl) as (_ & _ & _ & _ & _ & _ & _ & Hin).
      apply elem_of_concat. exists (inputLinksOf h (Link.dest l)).
      split; [|done]. by apply list_elem_of_fmap_2.
    + intros (ls & Hls & Hlink)%elem_of_concat.
      apply list_elem_of_fmap in Hls as (r & -> & Hr).
      pose proof (dense_wired i prev cur r Hprev Hcur Hr) as HF.
      apply list_elem_of_lookup in Hlink as [j Hj].
      destruct (Forall2_lookup_l _ _ _ _ _ HF Hj) as (p & Hp & l & Hl & Hsrc & Hdst).
      rewrite Hl. simpl. split.
      * apply bool_decide_pack. by rewrite Hdst.
      * apply lookup_lt_Some in Hl. lia.
Qed.

Lemma dense_count i prev cur :
  network !! i = Some prev → network !! S i = Some cur →
  length (linksInto h cur) = length prev * length cur.
Proof.
  intros Hprev Hcur. unfold linksInto.
  rewrite (length_filter_positions (λ l, Link.dest l ∈ cur) (links h)).
  change (filter _ (seq 0 (length (links h)))) with (linkRefsInto h cur).
  rewrite (dense_linkRefsInto i prev cur Hprev Hcur).
  rewrite (length_concat_fmap _ _ (length prev)); [lia|].
  intros r Hr. by apply (Forall2_length _ _ _ (dense_wired i prev cur r Hprev Hcur Hr)).
Qed.

Lemma dense_none_into_first first :
  network !! 0%nat = Some first → linksInto h first = [].
Proof.
  intros Hfirst. unfold linksInto.
  destruct (filter (λ l, Link.dest l ∈ first) (links h)) as [|l ls] eqn:Hf; [done|].
  assert (l ∈ filter (λ l, Link.dest l ∈ first) (links h)) as Hl by (rewrite Hf; left).
  apply list_elem_of_filter in Hl as [Hdest Hl].
  apply list_elem_of_lookup in Hl as [link Hl].
  destruct (dense_link link l Hl) as (i & prev & cur & _ & Hcur & _ & Hdest' & _).
  exfalso.
  pose proof dense_NoDup_nodes as Hnd.
  assert (take 1 network = [first]) as Htake.
  { destruct network as [|l0 net]; [done|]. simpl in *. rewrite take_0. congruence. }
  rewrite <- (take_drop 1 network), Htake in Hnd. simpl in Hnd.
  apply NoDup_app in Hnd as (_ & Hdisj & _).
  apply (Hdisj _ Hdest). apply elem_of_concat. exists cur. split; [|done].
  apply list_elem_of_lookup. exists i. by rewrite lookup_drop.
Qed.
End dense_store.

(** C8. [buildNetwork] returns.  In the network it builds from the empty
    store, layer [i] has [networkShape[i]] nodes and no node occurs twice; a
    node of the first layer has no incoming link; the [inputLinks] of a node
    of layer [i+1] are, position by position, links from the nodes of layer
    [i] to that node, so there is exactly one from each of them and they are
    ordered by the position of the source; every link of the store runs from
    a layer to the next one, and is held by its destination; no link is held
    twice; and the links into layer [i+1] number
    [size(layer i) * size(layer i+1)], those into the first layer 0. *)
Theorem buildNetwork_dense Math_random networkShape activation outputActivation
    regularization inputIds initZero :
  ∃ network h,
    buildNetwork Math_random networkShape activation outputActivation
      regularization inputIds initZero emptyHeap = Ok network h
    ∧ length <$> network = networkShape
    ∧ NoDup (concat network)
    ∧ (∀ first r, network !! 0%nat = Some first → r ∈ first → inputLinksOf h r = [])
    ∧ (∀ i prev cur r,
         network !! i = Some prev → network !! S i = Some cur → r ∈ cur →
         Forall2 (λ link p, ∃ l, links h !! link = Some l
                                 ∧ Link.source l = p ∧ Link.dest l = r)
           (inputLinksOf h r) prev)
    ∧ (∀ link l, links h !! link = Some l →
         ∃ i prev cur,
           network !! i = Some prev ∧ network !! S i = Some cur
           ∧ Link.source l ∈ prev ∧ Link.dest l ∈ cur
           ∧ link ∈ inputLinksOf h (Link.dest l))
    ∧ NoDup (concat (inputLinksOf h <$> concat network))
    ∧ (∀ i prev cur, network !! i = Some prev → network !! S i = Some cur →
         length (linksInto h cur) = length prev * length cur)
    ∧ (∀ first, network !! 0%nat = Some first → linksInto h first = []).
Proof.
  destruct (buildNetwork_run Math_random networkShape activation outputActivation
              regularization inputIds initZero) as (h & E & Hw).
  pose proof (wire_layers_dense networkShape [] ([], []) dense_empty) as Hd.
  pose proof (wire_layers_lengths networkShape [] ([], [])) as Hlen.
  set (network := (foldl wire_layer ([], ([], [])) networkShape).1) in *.
  rewrite <- Hw in Hd.
  exists network, h. split; [done|]. split; [done|].
  split; [by apply (dense_NoDup_nodes network h)|].
  split; [by apply (dense_first network h)|].
  split; [by apply (dense_wired network h)|].
  split; [by apply (dense_link network h)|].
  split.
  { rewrite (dense_inputLinks_all network h Hd). apply NoDup_seq. }
  split; [by apply (dense_count network h)|].
  by apply (dense_none_into_first network h).
Qed.

(** ** The networks [buildNetwork] makes are well formed and layered *)

#[local] Instance keeps_preorder (I : Heap → Prop) : PreOrder (keeps I).
Proof. unfold keeps. split; [by intros h | intros h1 h2 h3 H12 H23 H1; auto]. Qed.

Lemma preserves_forEachAcc (R : relation Heap) `{!PreOrder R} {A S}
    (xs : list A) (body : S → A → M S) s :
  (∀ s x, preserves R (body s x)) → preserves R (forEachAcc xs s body).
Proof.
  intros Hbody. revert s. induction xs as [|x xs IH]; intros s; cbn [forEachAcc].
  - apply preserves_ret, _.
  - apply preserves_bind; [apply _ | apply Hbody | intros s'; apply IH].
Qed.

Lemma outputs_sourced_empty : outputs_sourced emptyHeap.
Proof. intros p o Ho. unfold outputsOf in Ho. simpl in Ho. by inversion Ho. Qed.

Lemma outputs_sourced_allocNode id activation initZero :
  preserves (keeps outputs_sourced) (allocNode (Node.new id activation initZero)).
Proof.
  intros h Hh p o Ho. unfold allocNode in Ho |- *. simpl in *.
  unfold outputsOf in Ho. simpl in Ho.
  destruct (decide (p < length (nodes h))) as [Hlt|Hge].
  - rewrite lookup_app_l in Ho by done. by apply Hh.
  - rewrite lookup_app_r in Ho by lia.
    destruct (p - length (nodes h)) as [|k]; simpl in Ho; by inversion Ho.
Qed.

Lemma outputs_sourced_link Math_random prevNode node regularization initZero :
  preserves (keeps outputs_sourced)
    (link ← newLink Math_random prevNode node regularization initZero;
     modifyNode prevNode (λ n, Node.set_outputs (Node.outputs n ++ [link]) n);;
     modifyNode node (λ n, Node.set_inputLinks (Node.inputLinks n ++ [link]) n)).
Proof.
  intros h Hh. rewrite bind_run. unfold newLink. rewrite bind_run.
  unfold getNode at 1.
  destruct (nodes h !! prevNode) as [np|] eqn:Hnp; [|done].
  rewrite bind_run. unfold getNode at 1.
  destruct (nodes h !! node) as [nn|] eqn:Hnn; [|done].
  unfold allocLink. rewrite bind_run.
  set (l := Link.mk _ _ _ _ _ _ _ _ _).
  set (h1 := mkHeap (nodes h) (links h ++ [l])).
  rewrite (modifyNode_Some h1 prevNode np _ Hnp).
  set (h2 := alterNode prevNode _ h1).
  assert (is_Some (nodes h2 !! node)) as [n2 Hn2].
  { apply lookup_lt_is_Some_2. unfold h2, h1, alterNode; simpl.
    rewrite length_alter. by apply lookup_lt_Some in Hnn. }
  rewrite (modifyNode_Some _ _ _ _ Hn2). cbn [heap_of].
  intros p o Ho.
  assert (∀ o', o' ∈ outputsOf h p →
            ∃ l', links (alterNode node (λ n, Node.set_inputLinks (Node.inputLinks n ++ [length (links h)]) n) h2) !! o' = Some l' ∧ Link.source l' = p) as Hold.
  { intros o' Ho'. destruct (Hh p o' Ho') as (l' & Hl' & Hs).
    exists l'. split; [|done]. simpl. by apply lookup_app_l_Some. }
  assert (outputsOf (alterNode node (λ n, Node.set_inputLinks (Node.inputLinks n ++ [length (links h)]) n) h2) p
          = outputsOf h p ++ (if decide (p = prevNode) then [length (links h)] else [])) as Eo.
  { unfold outputsOf, h2, h1, alterNode; simpl.
    rewrite !list_lookup_alter.
    destruct (decide (node = p)) as [->|Hne1]; destruct (decide (prevNode = p)) as [->|Hne2];
      destruct (decide _) as [E|E]; try done;
      destruct (nodes h !! p); simpl; by rewrite ?app_nil_r. }
  rewrite Eo in Ho. apply elem_of_app in Ho as [Ho|Ho]; [by apply Hold|].
  destruct (decide (p = prevNode)) as [->|]; [|by inversion Ho].
  apply list_elem_of_singleton in Ho as ->.
  exists l. split; [|done]. simpl. by apply list_lookup_middle.
Qed.

Lemma outputs_sourced_buildNode Math_random numLayers layerIdx network activation
    outputActivation regularization inputIds initZero locals i :
  preserves (keeps outputs_sourced)
    (buildNode Math_random numLayers layerIdx network activation outputActivation
       regularization inputIds initZero locals i).
Proof.
  destruct locals as [id currentLayer]. unfold buildNode.
  apply preserves_bind; [apply _ | apply outputs_sourced_allocNode | intros node].
  apply preserves_bind; [apply _ | | intros _; apply preserves_ret, _].
  destruct (1 <=? layerIdx)%nat; [|apply preserves_ret, _].
  destruct (network !! (layerIdx - 1)%nat) as [prevLayer|]; [|apply preserves_throw, _].
  apply preserves_forEach; [apply _|]. intros prevNode.
  apply outputs_sourced_link.
Qed.

Lemma outputs_sourced_buildNetwork Math_random networkShape activation
    outputActivation regularization inputIds initZero :
  preserves (keeps outputs_sourced)
    (buildNetwork Math_random networkShape activation outputActivation
       regularization inputIds initZero).
Proof.
  unfold buildNetwork.
  apply preserves_bind; [apply _ | | intros [id network]; apply preserves_ret, _].
  apply preserves_forEachAcc; [apply _|]. intros [id network] numNodes.
  unfold buildLayer.
  apply preserves_bind; [apply _ | | intros [id' currentLayer]; apply preserves_ret, _].
  apply preserves_forEachAcc; [apply _|]. intros locals i.
  apply outputs_sourced_buildNode.
Qed.

Section layered_store.
Context (network : list (list nat)) (h : Heap).
Hypothesis Hdense : dense network (wiring h).
Hypothesis Houtputs : outputs_sourced h.

Lemma dense_wf_network : wf_network network h.
Proof.
  destruct Hdense as (Hnodes & _ & _).
  unfold wf_network. apply Forall_forall. intros cur Hcur.
  apply Forall_forall. intros r Hr.
  assert (r ∈ concat network) as Hin by (apply elem_of_concat; eauto).
  rewrite Hnodes in Hin. apply elem_of_seq in Hin.
  unfold wiring in Hin; simpl in Hin. rewrite length_fmap in Hin. lia.
Qed.

Lemma dense_sources_earlier : sources_earlier network h.
Proof.
  intros i cur r link l Hi Hr Hlink Hl.
  destruct i as [|i].
  { rewrite (dense_first network h Hdense cur r Hi Hr) in Hlink. by inversion Hlink. }
  destruct (lookup_lt_is_Some_2 network i) as [prev Hprev].
  { apply lookup_lt_Some in Hi. lia. }
  pose proof (dense_wired network h Hdense i prev cur r Hprev Hi Hr) as HF.
  apply list_elem_of_lookup in Hlink as [k Hk].
  destruct (Forall2_lookup_l _ _ _ k link HF Hk) as (p & Hp & l' & Hl' & Hs & _).
  assert (l' = l) as -> by congruence.
  apply elem_of_concat. exists prev. split.
  - apply list_elem_of_lookup. exists i. by rewrite lookup_take_lt by lia.
  - rewrite Hs. by apply list_elem_of_lookup_2 in Hp.
Qed.

Lemma dense_dests_later : dests_later network h.
Proof.
  intros i cur r link l Hi Hr Hlink Hl.
  destruct (Houtputs r link Hlink) as (l' & Hl' & Hs).
  assert (l' = l) as -> by congruence.
  destruct (dense_link network h Hdense link l Hl)
    as (i' & prev & cur' & Hprev & Hcur' & Hsrc & Hdst & _).
  rewrite Hs in Hsrc.
  assert (i' = i) as ->.
  { by apply (concat_NoDup_disjoint network i' i prev cur r
                (dense_NoDup_nodes network h Hdense)). }
  apply elem_of_concat. exists cur'. split; [|done].
  apply list_elem_of_lookup. exists 0%nat. rewrite lookup_drop.
  by replace (S i + 0) with (S i) by lia.
Qed.

Lemma dense_incomingLinks_NoDup : NoDup (incomingLinks h network).
Proof.
  pose proof (dense_inputLinks_all network h Hdense) as Hall.
  assert (NoDup (concat (inputLinksOf h <$> concat network))) as Hnd.
  { rewrite Hall. apply NoDup_seq. }
  unfold incomingLinks. destruct network as [|first rest]; [constructor|].
  cbn [concat drop] in *. rewrite fmap_app, concat_app in Hnd.
  by apply NoDup_app in Hnd as (_ & _ & Hnd).
Qed.

Lemma dense_wf_heap : wf_heap h.
Proof.
  pose proof dense_wf_network as Hnet.
  pose proof (dense_inputLinks_all network h Hdense) as Hall.
  unfold wf_heap, wf_skeleton, skeleton. cbn [fst snd]. rewrite !length_fmap. split.
  - apply Forall_fmap, Forall_lookup. intros r n Hn. unfold node_refs; simpl. split.
    + apply Forall_forall. intros link Hlink.
      destruct (dense_node_in_layer network h Hdense r) as (i & cur & Hi & Hr); [by eexists|].
      assert (link ∈ concat (inputLinksOf h <$> concat network)) as Hin.
      { apply elem_of_concat. exists (inputLinksOf h r). split.
        - apply list_elem_of_fmap_2, elem_of_concat. exists cur.
          split; [by apply list_elem_of_lookup_2 in Hi | done].
        - unfold inputLinksOf. by rewrite Hn. }
      rewrite Hall in Hin. apply elem_of_seq in Hin. lia.
    + apply Forall_forall. intros o Ho.
      destruct (Houtputs r o) as (l & Hl & _).
      { unfold outputsOf. by rewrite Hn. }
      by apply lookup_lt_Some in Hl.
  - apply Forall_fmap, Forall_lookup. intros link l Hl. unfold link_refs; simpl.
    destruct (dense_link network h Hdense link l Hl)
      as (i & prev & cur & Hprev & Hcur & Hsrc & Hdst & _).
    unfold wf_network in Hnet. rewrite Forall_forall in Hnet.
    split.
    + pose proof (Hnet prev) as Hp. rewrite Forall_forall in Hp.
      apply Hp; [by apply list_elem_of_lookup_2 in Hprev | done].
    + pose proof (Hnet cur) as Hc. rewrite Forall_forall in Hc.
      apply Hc; [by apply list_elem_of_lookup_2 in Hcur | done].
Qed.
End layered_store.

(** Every network that [buildNetwork] makes from the empty store meets what
    the theorems on forward propagation, backward propagation and
    accumulation ask of a network: its references lie in the store, its
    layers share no node, the incoming links of a layer come from earlier
    layers, the outgoing links lead to later ones, and no incoming link is
    held twice. *)
Lemma buildNetwork_well_formed Math_random networkShape activation outputActivation
    regularization inputIds initZero :
  ∃ network h,
    buildNetwork Math_random networkShape activation outputActivation
      regularization inputIds initZero emptyHeap = Ok network h
    ∧ wf_heap h ∧ wf_network network h
    ∧ NoDup (concat network)
    ∧ sources_earlier network h ∧ dests_later network h
    ∧ NoDup (incomingLinks h network).
Proof.
  destruct (buildNetwork_run Math_random networkShape activation outputActivation
              regularization inputIds initZero) as (h & E & Hw).
  pose proof (wire_layers_dense networkShape [] ([], []) dense_empty) as Hd.
  pose proof (outputs_sourced_buildNetwork Math_random networkShape activation
                outputActivation regularization inputIds initZero emptyHeap
                outputs_sourced_empty) as Ho.
  rewrite E in Ho. cbn [heap_of] in Ho.
  set (network := (foldl wire_layer ([], ([], [])) networkShape).1) in *.
  rewrite <- Hw in Hd.
  exists network, h. split; [done|].
  split; [by apply (dense_wf_heap network h)|].
  split; [by apply (dense_wf_network network h)|].
  split; [by apply (dense_NoDup_nodes network h)|].
  split; [by apply (dense_sources_earlier network h)|].
  split; [by apply (dense_dests_later network h)|].
  by apply (dense_incomingLinks_NoDup network h).
Qed.

(** ** The configuration reader *)

Section deserialize_facts.
Variable ToNumber : string → number.
Variable map : gmap string (option string).

Lemma forEachProp_cons state p ps :
  State.forEachProp ToNumber map state (p :: ps)
  = match State.deserializeProp ToNumber map state p with
    | inl e => inl e
    | inr state' => State.forEachProp ToNumber map state' ps
    end.
Proof.
  unfold State.forEachProp. cbn [foldl].
  destruct (State.deserializeProp ToNumber map state p) as [e|state']; [|reflexivity].
  induction ps as [|q ps IH]; [reflexivity|exact IH].
Qed.

(** A property's case writes at most the property of its name. *)
Lemma deserializeProp_other state p state' k :
  State.deserializeProp ToNumber map state p = inr state' →
  Property.name p ≠ k →
  state' !! k = state !! k.
Proof.
  intros E Hk. unfold State.deserializeProp in E.
  repeat case_match; simplify_eq; try reflexivity;
    rewrite lookup_insert_ne; done.
Qed.

Lemma deserializeProp_ok state p :
  prop_ok map p → ∃ state', State.deserializeProp ToNumber map state p = inr state'.
Proof.
  unfold prop_ok, State.deserializeProp. intros H.
  repeat case_match; try done; eauto.
Qed.

Lemma deserializeProp_boolean state p :
  Property.type p = BOOLEAN →
  ∃ state', State.deserializeProp ToNumber map state p = inr state'
    ∧ state' !! Property.name p
      = boolean_result map (Property.name p) (state !! Property.name p).
Proof.
  intros Ht. unfold State.deserializeProp, boolean_result, State.hasKey. rewrite Ht.
  destruct (map !! Property.name p) as [[value|]|]; eauto.
  destruct (bool_decide (trim value = "")); cbn [negb]; eauto.
  eexists. split; [reflexivity|]. apply lookup_insert_eq.
Qed.

Lemma deserializeProp_shape state p state' :
  shape_typed p →
  is_array (state !! "networkShape") →
  State.deserializeProp ToNumber map state p = inr state' →
  is_array (state' !! "networkShape").
Proof.
  intros Hp Hs E. destruct (decide (Property.name p = "networkShape")) as [Hn|Hn].
  - destruct (Hp Hn) as [Ht|Ht]; unfold State.deserializeProp in E;
      rewrite Ht, Hn in E; repeat case_match; simplify_eq; try exact Hs;
      rewrite lookup_insert_eq; exact I.
  - rewrite (deserializeProp_other _ _ _ _ E Hn). exact Hs.
Qed.

Lemma forEachProp_ok ps : ∀ state,
  Forall (prop_ok map) ps →
  ∃ state', State.forEachProp ToNumber map state ps = inr state'.
Proof.
  induction ps as [|p ps IH]; intros state Hok.
  - eexists. reflexivity.
  - apply Forall_cons in Hok as [Hp Hok]. rewrite forEachProp_cons.
    destruct (deserializeProp_ok state p Hp) as [state1 ->]. apply IH, Hok.
Qed.

Lemma forEachProp_other ps k : ∀ state state',
  State.forEachProp ToNumber map state ps = inr state' →
  k ∉ Property.name <$> ps →
  state' !! k = state !! k.
Proof.
  induction ps as [|p ps IH]; intros state state' E Hk.
  - injection E as <-. reflexivity.
  - rewrite forEachProp_cons in E. rewrite fmap_cons, not_elem_of_cons in Hk.
    destruct Hk as [Hp Hk].
    destruct (State.deserializeProp ToNumber map state p) as [e|state1] eqn:E1;
      [discriminate E|].
    rewrite (IH _ _ E Hk). apply (deserializeProp_other _ _ _ _ E1). congruence.
Qed.

Lemma forEachProp_shape ps : ∀ state state',
  Forall shape_typed ps →
  is_array (state !! "networkShape") →
  State.forEachProp ToNumber map state ps = inr state' →
  is_array (state' !! "networkShape").
Proof.
  induction ps as [|p ps IH]; intros state state' Hps Hs E.
  - injection E as <-. exact Hs.
  - rewrite forEachProp_cons in E. apply Forall_cons in Hps as [Hp Hps].
    destruct (State.deserializeProp ToNumber map state p) as [e|state1] eqn:E1;
      [discriminate E|].
    apply (IH state1); [exact Hps| |exact E].
    apply (deserializeProp_shape state p); assumption.
Qed.

(** Each property is visited once, so a boolean one ends up as its own case
    leaves it. *)
Lemma forEachProp_boolean ps p : ∀ state state',
  NoDup (Property.name <$> ps) →
  p ∈ ps →
  Property.type p = BOOLEAN →
  State.forEachProp ToNumber map state ps = inr state' →
  state' !! Property.name p
  = boolean_result map (Property.name p) (state !! Property.name p).
Proof.
  induction ps as [|q ps IH]; intros state state' Hnd Hin Ht E.
  - inversion Hin.
  - rewrite fmap_cons in Hnd. apply NoDup_cons in Hnd as [Hq Hnd].
    rewrite forEachProp_cons in E.
    destruct (State.deserializeProp ToNumber map state q) as [e|state1] eqn:E1;
      [discriminate E|].
    apply elem_of_cons in Hin as [->|Hin].
    + rewrite (forEachProp_other _ _ _ _ E Hq).
      destruct (deserializeProp_boolean state q Ht) as (state2 & E2 & H2).
      congruence.
    + rewrite (IH _ _ Hnd Hin Ht E). f_equal.
      apply (deserializeProp_other _ _ _ _ E1).
      intros Hn. apply Hq. rewrite Hn. apply list_elem_of_fmap_2, Hin.
Qed.

(** The loop over the [_hide] properties writes only those. *)
Lemma hide_loop_other (props : list string) k : ∀ state : gmap string Value,
  k ∉ props →
  foldl (λ state prop,
           <[prop := VBool (if bool_decide (map !! prop = Some (Some "true"))
                            then true else false)]> state) state props !! k
  = state !! k.
Proof.
  induction props as [|prop props IH]; intros state Hk; [reflexivity|].
  apply not_elem_of_cons in Hk as [Hp Hk]. cbn [foldl].
  rewrite (IH _ Hk). apply lookup_insert_ne. congruence.
Qed.

Lemma getHideProps_endsWith k :
  k ∈ State.getHideProps map → endsWith k HIDE_STATE_SUFFIX = true.
Proof.
  unfold State.getHideProps. rewrite list_elem_of_filter. intros [H _].
  destruct (endsWith k HIDE_STATE_SUFFIX); [reflexivity|contradiction].
Qed.
End deserialize_facts.

Lemma PROPS_NoDup : NoDup (Property.name <$> State.PROPS).
Proof. compute_done. Qed.

Lemma PROPS_shape_typed : Forall shape_typed State.PROPS.
Proof.
  unfold State.PROPS. repeat apply Forall_cons_2; try apply Forall_nil_2;
    intros H; try discriminate H; left; reflexivity.
Qed.

Lemma PROPS_not_hidden :
  Forall (λ p, endsWith (Property.name p) HIDE_STATE_SUFFIX = false
               ∧ Property.name p ≠ "numHiddenLayers"
               ∧ (Property.type p = BOOLEAN → Property.name p ≠ "seed"))
         State.PROPS.
Proof.
  unfold State.PROPS. repeat apply Forall_cons_2; try apply Forall_nil_2;
    (split; [reflexivity|split; [discriminate|]]);
    cbn; intros H; discriminate.
Qed.

Lemma PROPS_ok map :
  map !! "networkShape" ≠ Some None → Forall (prop_ok map) State.PROPS.
Proof.
  intros H. unfold State.PROPS.
  repeat apply Forall_cons_2; try apply Forall_nil_2; unfold prop_ok; cbn;
    try exact I; try discriminate; exact H.
Qed.

(** The one hash on which the reader throws: [networkShape] named without
    a value, whose [undefined] has no [trim]. *)
Lemma deserializeState_throws ToNumber fresh_seed hash :
  State.parseHash hash !! "networkShape" = Some None →
  State.deserializeState ToNumber fresh_seed hash = inl TypeError.
Proof.
  intros H. unfold State.deserializeState, State.PROPS.
  set (map := State.parseHash hash) in *.
  generalize State.new as state. intros state.
  do 8 (rewrite forEachProp_cons;
        match goal with
        | |- context [State.deserializeProp ToNumber map ?s ?p] =>
          destruct (deserializeProp_ok ToNumber map s p) as [? ->];
            [unfold prop_ok; simpl; (exact I || discriminate)|]
        end).
  rewrite forEachProp_cons.
  unfold State.deserializeProp at 1. cbn [Property.type Property.name].
  by rewrite H.
Qed.

(** A returned state, read at the names [ks]. *)
Lemma deserialized_lookups (r : exn + gmap string Value)
    (ks : list string) (vs : list (option Value)) :
  match r with
  | inr state => Some ((λ k, state !! k) <$> ks)
  | inl _ => None
  end = Some vs →
  ∃ state, r = inr state ∧ (λ k, state !! k) <$> ks = vs.
Proof.
  destruct r as [e|state]; intros H; [discriminate H|].
  injection H as <-. eauto.
Qed.

(** C10, with the blank values counted as empty: [deserializeState] returns
    a state, unless the hash names [networkShape] without a value, and in
    that state a boolean property of [PROPS] is [false] for the value
    ["false"], [true] for any other value that white space does not make up
    entirely, and keeps the default of the class when the map has no value
    for it, or an empty or blank one. *)
Theorem deserializeState_boolean ToNumber fresh_seed hash p :
  p ∈ State.PROPS →
  Property.type p = BOOLEAN →
  State.parseHash hash !! "networkShape" ≠ Some None →
  ∃ state,
    State.deserializeState ToNumber fresh_seed hash = inr state
    ∧ (∀ value,
         State.parseHash hash !! Property.name p = Some (Some value) →
         trim value ≠ "" →
         state !! Property.name p = Some (VBool (bool_decide (value ≠ "false"))))
    ∧ (∀ value,
         State.parseHash hash !! Property.name p = Some (Some value) →
         trim value = "" →
         state !! Property.name p = State.new !! Property.name p)
    ∧ (State.parseHash hash !! Property.name p = Some None →
       state !! Property.name p = State.new !! Property.name p)
    ∧ (State.parseHash hash !! Property.name p = None →
       state !! Property.name p = State.new !! Property.name p).
Proof.
  intros Hin Ht Hshape. set (map := State.parseHash hash).
  destruct (forEachProp_ok ToNumber map State.PROPS State.new (PROPS_ok map Hshape))
    as [state1 E1].
  pose proof (forEachProp_shape ToNumber map State.PROPS State.new state1
                PROPS_shape_typed I E1) as Hs.
  pose proof (forEachProp_boolean ToNumber map State.PROPS p State.new state1
                PROPS_NoDup Hin Ht E1) as Hb.
  pose proof (proj1 (Forall_forall _ _) PROPS_not_hidden p Hin) as (Hh & Hn & Hseed).
  specialize (Hseed Ht).
  set (state2 := foldl (λ state prop,
           <[prop := VBool (if bool_decide (map !! prop = Some (Some "true"))
                            then true else false)]> state) state1 (State.getHideProps map)).
  assert (∀ k, endsWith k HIDE_STATE_SUFFIX = false → state2 !! k = state1 !! k) as H2.
  { intros k Hk. apply hide_loop_other. intros Hin'.
    apply getHideProps_endsWith in Hin'. congruence. }
  assert (∃ state,
            State.deserializeState ToNumber fresh_seed hash = inr state
            ∧ state !! Property.name p
              = boolean_result map (Property.name p) (State.new !! Property.name p))
    as (state & E & H).
  { unfold State.deserializeState. fold map. rewrite E1. fold state2.
    rewrite (H2 "networkShape" eq_refl).
    destruct (state1 !! "networkShape") as [[| | | |networkShape|]|]; try contradiction.
    eexists. split; [reflexivity|].
    rewrite <- Hb, <- (H2 _ Hh).
    repeat case_match; rewrite ?lookup_insert_ne by congruence; reflexivity. }
  exists state. split; [exact E|]. rewrite H. unfold boolean_result. fold map.
  repeat split.
  - intros value -> Hv. rewrite bool_decide_eq_false_2 by exact Hv.
    do 2 f_equal. destruct (decide (value = "false")) as [->|Hf]; [reflexivity|].
    rewrite bool_decide_eq_false_2 by exact Hf.
    symmetry. apply bool_decide_eq_true_2, Hf.
  - intros value -> Hv. rewrite bool_decide_eq_true_2 by exact Hv. reflexivity.
  - intros ->. reflexivity.
  - intros ->. reflexivity.
Qed.

Lemma deserializeState_boolean_witness :
  ∃ state,
    State.deserializeState (λ _, 0%float) "0.50000" "#xTimesY=False&x=false&y=" = inr state
    ∧ state !! "xTimesY" = Some (VBool true).
Proof.
  destruct (deserializeState_boolean (λ _, 0%float) "0.50000"
              "#xTimesY=False&x=false&y=" (Property.mk "xTimesY" BOOLEAN None))
    as (state & E & Ht & _);
    [unfold State.PROPS; repeat constructor | reflexivity | vm_compute; discriminate |].
  exists state. split; [exact E|].
  apply (Ht "False"); [reflexivity | vm_compute; discriminate].
Defined.

(** C10 as it is stated fails on a value that is not empty but blank: the
    hash [#xTimesY= ] gives the map the value [" "] for [xTimesY], which is
    neither empty nor ["false"], and [xTimesY] keeps its default, [false],
    where the statement has it set to [true]. *)
Lemma deserializeState_blank_counterexample :
  State.parseHash "#xTimesY= " !! "xTimesY" = Some (Some " ")
  ∧ " " ≠ ""
  ∧ " " ≠ "false"
  ∧ ∃ state,
      State.deserializeState (λ _, 0%float) "0.50000" "#xTimesY= " = inr state
      ∧ state !! "xTimesY" = Some (VBool false).
Proof.
  split; [vm_compute; reflexivity|]. split; [discriminate|]. split; [discriminate|].
  destruct (deserialized_lookups
              (State.deserializeState (λ _, 0%float) "0.50000" "#xTimesY= ")
              ["xTimesY"] [Some (VBool false)]) as (state & E & H);
    [vm_compute; reflexivity|].
  exists state. split; [exact E|]. injection H as H. exact H.
Qed.

(** The values the claim names, and the values that leave the default. *)
Lemma deserializeState_examples :
  ∃ state,
    State.deserializeState (λ _, 0%float) "0.50000"
      "#xTimesY=0&xSquared=no&ySquared=False&x=false&y=&cosX&sinX=true" = inr state
    ∧ (λ k, state !! k) <$> ["xTimesY"; "xSquared"; "ySquared"; "x"; "y"; "cosX"; "sinX"; "cosY"]
      = Some ∘ VBool <$> [true; true; true; false; true; false; true; false].
Proof. apply deserialized_lookups. vm_compute. reflexivity. Qed.

(** * Further properties *)

(** ** A second weight update finds nothing to apply *)

Lemma foldl_alter_fixed {A} (g : A → A) (xs : list nat) (l : list A) :
  (∀ x a, x ∈ xs → l !! x = Some a → g a = a) →
  foldl (λ l x, alter g x l) l xs = l.
Proof.
  induction xs as [|x xs IH]; intros Hg; [done|]. cbn [foldl].
  assert (alter g x l = l) as ->.
  { apply list_eq. intros i. destruct (decide (x = i)) as [->|Hne].
    - rewrite list_lookup_alter_eq. destruct (l !! i) as [a|] eqn:Ha; [|done].
      simpl. f_equal. apply (Hg i); [by left | done].
    - by rewrite list_lookup_alter_ne. }
  apply IH. intros y a Hy. apply Hg. by right.
Qed.

Lemma foldl_alter_visited {A} (g : A → A) (P : A → Prop) (xs : list nat) :
  (∀ a, P (g a)) → ∀ (l : list A) i a,
  (i ∈ xs ∨ P a) → l !! i = Some a →
  ∃ a', foldl (λ l x, alter g x l) l xs !! i = Some a' ∧ P a'.
Proof.
  intros Hg. induction xs as [|x xs IH]; intros l i a Hi Hl.
  { destruct Hi as [Hi|Hp]; [by inversion Hi | by exists a]. }
  cbn [foldl]. destruct (decide (x = i)) as [->|Hne].
  - apply (IH _ i (g a)); [by right|]. by rewrite list_lookup_alter_eq, Hl.
  - apply (IH _ i a); [|by rewrite list_lookup_alter_ne].
    destruct Hi as [Hi|Hp]; [|by right]. left.
    apply elem_of_cons in Hi as [->|Hi]; [done|done].
Qed.

Lemma update_bias_settled lr n : node_settled (update_bias lr n).
Proof.
  unfold node_settled, update_bias.
  destruct (0 <? Node.numAccumulatedDers n)%float eqn:E; [done|exact E].
Qed.

Lemma update_link_settled lr rr l : link_settled (update_link lr rr l).
Proof.
  unfold link_settled, update_link.
  destruct (Link.isDead l) eqn:Hd; [by left|].
  destruct (0 <? Link.numAccumulatedDers l)%float eqn:E; [|by right].
  right. by destruct (_ && _).
Qed.

Lemma update_bias_on_settled lr n : node_settled n → update_bias lr n = n.
Proof. unfold node_settled, update_bias. by intros ->. Qed.

Lemma update_link_on_settled lr rr l : link_settled l → update_link lr rr l = l.
Proof.
  unfold link_settled, update_link. intros [->| ->]; [done|].
  by destruct (Link.isDead l).
Qed.

Lemma foldl_alter_visited_lookup {A} (g : A → A) (P : A → Prop) (xs : list nat)
    (l : list A) i a' :
  (∀ a, P (g a)) → i ∈ xs →
  foldl (λ l x, alter g x l) l xs !! i = Some a' → P a'.
Proof.
  intros Hg Hi Ha'. destruct (l !! i) as [a|] eqn:Ha.
  - destruct (foldl_alter_visited g P xs Hg l i a) as (a'' & Ha'' & HP); [by left|done|].
    congruence.
  - apply lookup_lt_Some in Ha'.
    rewrite (foldl_alter_length id (λ _, g)) in Ha'.
    apply lookup_ge_None in Ha. lia.
Qed.

Lemma update_spec_settles network lr rr h :
  wf_heap h → wf_network network h → settled network (update_spec network lr rr h).
Proof.
  intros Hwf Hnet.
  destruct (updateWeights_spec network lr rr h Hwf Hnet) as [_ Hsk].
  split.
  - intros r n' Hr Hn'. rewrite nodes_update_spec in Hn'.
    apply (foldl_alter_visited_lookup (update_bias lr) node_settled
             (concat (drop 1 network)) (nodes h) r n'); try done.
    apply update_bias_settled.
  - intros link l' Hlink Hl'.
    rewrite (incomingLinks_skeleton _ _ _ Hsk) in Hlink.
    rewrite links_update_spec in Hl'.
    apply (foldl_alter_visited_lookup (update_link lr rr) link_settled
             (incomingLinks h network) (links h) link l'); try done.
    apply update_link_settled.
Qed.

Lemma update_spec_on_settled network lr rr h :
  settled network h → update_spec network lr rr h = h.
Proof.
  intros [Hnodes Hlinks].
  pose proof (nodes_update_spec network lr rr h) as En.
  pose proof (links_update_spec network lr rr h) as El.
  rewrite foldl_alter_fixed in En.
  2: { intros r n Hr Hn. by apply update_bias_on_settled, (Hnodes r). }
  rewrite foldl_alter_fixed in El.
  2: { intros link l Hlink Hl. by apply update_link_on_settled, (Hlinks link). }
  destruct (update_spec network lr rr h), h. simpl in *. by subst.
Qed.

(** X1. A weight update leaves the store with nothing more to apply: a
    second [updateWeights], whatever its rates, returns and changes
    nothing. *)
Theorem updateWeights_twice network lr rr lr' rr' h :
  wf_heap h → wf_network network h →
  ∃ h', updateWeights network lr rr h = Ok tt h'
        ∧ updateWeights network lr' rr' h' = Ok tt h'.
Proof.
  intros Hwf Hnet.
  destruct (updateWeights_spec network lr rr h Hwf Hnet) as [E Hsk].
  exists (update_spec network lr rr h). split; [done|].
  destruct (updateWeights_spec network lr' rr' (update_spec network lr rr h)) as [E' _].
  { by apply (wf_heap_skeleton h). }
  { by apply (wf_network_skeleton network h). }
  rewrite E'. f_equal. apply update_spec_on_settled. by apply update_spec_settles.
Qed.

Lemma updateWeights_twice_witness :
  updateWeights Example.network 0.5 0.5 Example.accumulated = Ok tt Example.pruned
  ∧ updateWeights Example.network 0.25 1 Example.pruned = Ok tt Example.pruned.
Proof.
  destruct (updateWeights_twice Example.network 0.5 0.5 0.25 1 Example.accumulated)
    as (h' & E & E'); [compute_done | compute_done |].
  assert (h' = Example.pruned) as ->.
  { assert (updateWeights Example.network 0.5 0.5 Example.accumulated = Ok tt Example.pruned)
      as E0 by (vm_compute; reflexivity).
    congruence. }
  by split.
Defined.

(** ** Sessions of calls *)

(** One call. *)
Lemma run_returns network c h :
  wf_heap h → wf_network network h → is_Some (outputNodeOf network) →
  fits network c →
  ∃ h', run c h = Ok tt h' ∧ skeleton h' = skeleton h.
Proof.
  intros Hwf Hnet [outputNode Hout] [Hc Hfit].
  destruct c as [network' inputs|network' target errorFunc|network' lr rr];
    simpl in Hc; subst network'; simpl.
  - destruct (network !! 0%nat) as [inputLayer|] eqn:H0.
    2: { destruct network; [done | discriminate H0]. }
    simpl in Hfit.
    destruct (forwardProp_spec network inputs inputLayer outputNode h) as [E Hs];
      try done.
    eexists. rewrite bind_run, E. done.
  - destruct (backProp_spec network target errorFunc outputNode h) as [E Hs];
      try done.
    by eexists.
  - destruct (updateWeights_spec network lr rr h) as [E Hs]; try done.
    by eexists.
Qed.

(** X2. On a well-formed store, a session of calls on one network never
    throws, so long as the network has an output node and every forward call
    gives as many inputs as the input layer has nodes; the store it leaves
    has the nodes and links wired as before. *)
Theorem session_returns network cs h :
  wf_heap h → wf_network network h → is_Some (outputNodeOf network) →
  Forall (fits network) cs →
  ∃ h', forEach cs run h = Ok tt h' ∧ skeleton h' = skeleton h.
Proof.
  intros Hwf Hnet Hout Hcs. revert h Hwf Hnet.
  induction Hcs as [|c cs Hc Hcs IH]; intros h Hwf Hnet.
  { by exists h. }
  destruct (run_returns network c h) as (h1 & E1 & Hs1); try done.
  destruct (IH h1) as (h' & E & Hs).
  { by apply (wf_heap_skeleton h). }
  { by apply (wf_network_skeleton network h). }
  exists h'. cbn [forEach]. rewrite bind_run, E1. split; [done | congruence].
Qed.

Lemma session_returns_witness :
  ∃ h',
    forEach [Forward Example.network [1; 1]%float;
             Backward Example.network 0 Example.squareError;
             Update Example.network 0.5 0.5;
             Forward Example.network [0.5; 0.25]%float] run Example.fresh = Ok tt h'
    ∧ skeleton h' = skeleton Example.fresh.
Proof.
  apply (session_returns Example.network); [compute_done | compute_done | by eexists |].
  repeat constructor.
Defined.

(** ** The store [buildNetwork] leaves *)

Section fresh.
Context (Math_random : nat → number)
        (regularization : option RegularizationFunction.obj) (initZero : bool).

Lemma fresh_store_empty : fresh_store Math_random regularization initZero emptyHeap.
Proof. split; intros k x Hx; by destruct k. Qed.

Lemma fresh_store_allocNode id activation :
  preserves (keeps (fresh_store Math_random regularization initZero))
    (allocNode (Node.new id activation initZero)).
Proof.
  intros h [Hn Hl]. split; [|done]. intros r n Hr. simpl in Hr.
  apply lookup_app_Some in Hr as [Hr|[_ Hr]]; [by apply (Hn r)|].
  destruct (r - length (nodes h)) as [|k]; [|by destruct k].
  injection Hr as <-. by destruct initZero.
Qed.

Lemma fresh_store_newLink source dest :
  preserves (keeps (fresh_store Math_random regularization initZero))
    (newLink Math_random source dest regularization initZero).
Proof.
  intros h [Hn Hl]. unfold newLink. rewrite bind_run. unfold getNode at 1.
  destruct (nodes h !! source) as [s|]; [|done].
  rewrite bind_run. unfold getNode at 1.
  destruct (nodes h !! dest) as [d|]; [|done].
  split; [done|]. intros k l Hk. simpl in Hk.
  apply lookup_app_Some in Hk as [Hk|[Hge Hk]]; [by apply (Hl k)|].
  destruct (k - length (links h)) as [|j] eqn:Ej; [|by destruct j].
  assert (k = length (links h)) as -> by lia.
  injection Hk as <-. by destruct initZero.
Qed.

Lemma fresh_store_modifyNode r f :
  (∀ n, fresh_node initZero n → fresh_node initZero (f n)) →
  preserves (keeps (fresh_store Math_random regularization initZero)) (modifyNode r f).
Proof.
  intros Hf. apply preserves_modifyNode; [apply _|]. intros h [Hn Hl].
  split; [|done]. intros r' n' Hr'. simpl in Hr'.
  destruct (decide (r = r')) as [->|Hne].
  - rewrite list_lookup_alter_eq in Hr'.
    destruct (nodes h !! r') as [n|] eqn:E; [|done].
    injection Hr' as <-. by apply Hf, (Hn r').
  - rewrite list_lookup_alter_ne in Hr' by done. by apply (Hn r').
Qed.

Lemma fresh_store_buildNetwork networkShape activation outputActivation inputIds :
  preserves (keeps (fresh_store Math_random regularization initZero))
    (buildNetwork Math_random networkShape activation outputActivation
       regularization inputIds initZero).
Proof.
  unfold buildNetwork.
  apply preserves_bind; [apply _ | | intros [id network]; apply preserves_ret, _].
  apply preserves_forEachAcc; [apply _|]. intros [id network] numNodes.
  unfold buildLayer.
  apply preserves_bind; [apply _ | | intros [id' currentLayer]; apply preserves_ret, _].
  apply preserves_forEachAcc; [apply _|]. intros [id' currentLayer] i.
  unfold buildNode.
  apply preserves_bind; [apply _ | apply fresh_store_allocNode | intros node].
  apply preserves_bind; [apply _ | | intros _; apply preserves_ret, _].
  destruct (1 <=? length network)%nat; [|apply preserves_ret, _].
  destruct (network !! (length network - 1)%nat) as [prevLayer|];
    [|apply preserves_throw, _].
  apply preserves_forEach; [apply _|]. intros prevNode.
  apply preserves_bind; [apply _ | apply fresh_store_newLink | intros link].
  apply preserves_bind; [apply _ | | intros _]; by apply fresh_store_modifyNode.
Qed.
End fresh.

Lemma length_concat_sum {A} (ls : list (list A)) :
  length (concat ls) = sum_list (length <$> ls).
Proof.
  induction ls as [|l ls IH]; [done|]. rewrite fmap_cons. simpl.
  by rewrite length_app, IH.
Qed.

Lemma wire_nodes_links ps m (w : list (list nat) * list (nat * nat)) :
  length (Nat.iter m (wire_node ps) w).2 = length w.2 + m * length ps.
Proof.
  induction m as [|m IH]; simpl; [lia|].
  rewrite length_app, length_fmap, IH. lia.
Qed.

Lemma wire_layers_links shape : ∀ (net : list (list nat)) w,
  length (foldl wire_layer (net, w) shape).2.2
  = length w.2 + num_links (length (default [] (last net)) :: shape).
Proof.
  induction shape as [|numNodes shape IH]; intros net w.
  { simpl. lia. }
  cbn [foldl]. unfold wire_layer at 2. cbn [fst snd].
  rewrite IH, wire_nodes_links, last_snoc. cbn [default num_links].
  destruct shape as [|b shape]; [lia|].
  unfold id. rewrite length_seq. lia.
Qed.

(** X3. Whatever the shape, [buildNetwork] returns, and in the store it
    builds from the empty one: there are as many nodes as the shape adds up
    to and one link for every pair of nodes of consecutive layers; every node
    has the bias 0.1, or 0 under [initZero], and derivatives, accumulator and
    count at 0; the [k]-th link constructed has the weight
    [Math.random() - 0.5] of its draw, or 0 under [initZero], is not dead,
    has derivative, accumulator and count at 0, and holds the regularization
    it was given. *)
Theorem buildNetwork_fresh Math_random networkShape activation outputActivation
    regularization inputIds initZero :
  ∃ network h,
    buildNetwork Math_random networkShape activation outputActivation
      regularization inputIds initZero emptyHeap = Ok network h
    ∧ length (nodes h) = sum_list networkShape
    ∧ length (links h) = num_links networkShape
    ∧ (∀ r n, nodes h !! r = Some n → fresh_node initZero n)
    ∧ (∀ k l, links h !! k = Some l →
         fresh_link Math_random regularization initZero k l).
Proof.
  destruct (buildNetwork_run Math_random networkShape activation outputActivation
              regularization inputIds initZero) as (h & E & Hw).
  pose proof (wire_layers_dense networkShape [] ([], []) dense_empty) as (Hnodes & _ & _).
  pose proof (wire_layers_lengths networkShape [] ([], [])) as Hlen.
  pose proof (wire_layers_links networkShape [] ([], [])) as Hlinks.
  pose proof (fresh_store_buildNetwork Math_random regularization initZero
                networkShape activation outputActivation inputIds emptyHeap
                (fresh_store_empty _ _ _)) as [Hfn Hfl].
  rewrite E in Hfn, Hfl. cbn [heap_of] in Hfn, Hfl.
  rewrite <- Hw in Hnodes, Hlinks.
  eexists _, h. split; [exact E|]. split; [|split; [|by split]].
  - apply (f_equal length) in Hnodes.
    rewrite length_concat_sum, Hlen, length_seq in Hnodes.
    unfold wiring in Hnodes. simpl in Hnodes. by rewrite length_fmap in Hnodes.
  - unfold wiring in Hlinks. simpl in Hlinks. rewrite length_fmap in Hlinks.
    rewrite Hlinks. by destruct networkShape.
Qed.

(** X4. A weight update right after construction finds nothing to apply:
    on the store [buildNetwork] leaves, [updateWeights] returns and changes
    nothing, whatever its rates. *)
Theorem buildNetwork_then_update Math_random networkShape activation outputActivation
    regularization inputIds initZero :
  ∃ network h,
    buildNetwork Math_random networkShape activation outputActivation
      regularization inputIds initZero emptyHeap = Ok network h
    ∧ ∀ lr rr, updateWeights network lr rr h = Ok tt h.
Proof.
  destruct (buildNetwork_well_formed Math_random networkShape activation
              outputActivation regularization inputIds initZero)
    as (network & h & E & Hwf & Hnet & _).
  pose proof (fresh_store_buildNetwork Math_random regularization initZero
                networkShape activation outputActivation inputIds emptyHeap
                (fresh_store_empty _ _ _)) as [Hfn Hfl].
  rewrite E in Hfn, Hfl. cbn [heap_of] in Hfn, Hfl.
  exists network, h. split; [done|]. intros lr rr.
  destruct (updateWeights_spec network lr rr h Hwf Hnet) as [-> _]. f_equal.
  apply update_spec_on_settled. split.
  - intros r n _ Hn. destruct (Hfn r n Hn) as (_ & _ & _ & _ & Hc).
    unfold node_settled. by rewrite Hc.
  - intros link l _ Hl. destruct (Hfl link l Hl) as (_ & _ & _ & _ & Hc & _).
    right. by rewrite Hc.
Qed.

(** X5. Training from scratch never throws: for a shape whose last entry is
    positive, [buildNetwork] returns a network with the layer sizes of the
    shape, and on the store it leaves every session of forward calls with
    as many inputs as the first layer has nodes, backward calls and weight
    updates returns. *)
Theorem built_network_session Math_random networkShape activation outputActivation
    regularization inputIds initZero k :
  last networkShape = Some (S k) →
  ∃ network h,
    buildNetwork Math_random networkShape activation outputActivation
      regularization inputIds initZero emptyHeap = Ok network h
    ∧ length <$> network = networkShape
    ∧ ∀ cs, Forall (fits network) cs → ∃ h', forEach cs run h = Ok tt h'.
Proof.
  intros Hlast.
  destruct (buildNetwork_well_formed Math_random networkShape activation
              outputActivation regularization inputIds initZero)
    as (network & h & E & Hwf & Hnet & _).
  destruct (buildNetwork_run Math_random networkShape activation outputActivation
              regularization inputIds initZero) as (h0 & E0 & _).
  pose proof (wire_layers_lengths networkShape [] ([], [])) as Hlen.
  rewrite E in E0. injection E0 as Enet _. rewrite <- Enet in Hlen. simpl in Hlen.
  exists network, h. split; [done|]. split; [done|]. intros cs Hcs.
  assert (is_Some (outputNodeOf network)) as Hout.
  { unfold outputNodeOf. rewrite <- Hlen, fmap_last in Hlast.
    destruct (last network) as [layer|]; [|done]. simpl in *.
    injection Hlast as Hl. destruct layer; [done|]. by eexists. }
  clear E. revert h Hwf Hnet.
  induction Hcs as [|c cs Hc Hcs IH]; intros h Hwf Hnet.
  { by exists h. }
  destruct (run_returns network c h) as (h1 & E1 & Hs1); try done.
  destruct (IH h1) as (h' & E).
  { by apply (wf_heap_skeleton h). }
  { by apply (wf_network_skeleton network h). }
  exists h'. cbn [forEach]. by rewrite bind_run, E1.
Qed.

Lemma built_network_session_witness :
  ∃ network h,
    buildNetwork Example.random [2; 2; 1]%nat Activations.RELU Activations.LINEAR
      (Some RegularizationFunction.L1) ["x"; "y"] false emptyHeap = Ok network h
    ∧ length <$> network = [2; 2; 1]%nat
    ∧ ∀ cs, Forall (fits network) cs → ∃ h', forEach cs run h = Ok tt h'.
Proof. apply (built_network_session _ _ _ _ _ _ _ 0). reflexivity. Defined.

(** ** Forward propagation reads the parameters and the inputs only *)

Lemma parameters_node h1 h2 r n1 :
  parameters h1 = parameters h2 → nodes h1 !! r = Some n1 →
  ∃ n2, nodes h2 !! r = Some n2
    ∧ Node.bias n2 = Node.bias n1
    ∧ Node.inputLinks n2 = Node.inputLinks n1
    ∧ Node.activation n2 = Node.activation n1.
Proof.
  intros [= E _] Hn. apply (f_equal (λ l, l !! r)) in E.
  rewrite !list_lookup_fmap, Hn in E.
  destruct (nodes h2 !! r) as [n2|]; [|discriminate E].
  exists n2. split; [done|]. cbn [fmap option_fmap option_map] in E.
  injection E as E1 E2 E3. by rewrite E1, E2, E3.
Qed.

Lemma parameters_linkTerm h1 h2 h1' h2' link :
  parameters h1 = parameters h2 →
  links h1' = links h1 → links h2' = links h2 →
  (∀ l, links h1 !! link = Some l →
        outputOf h1' (Link.source l) = outputOf h2' (Link.source l)) →
  linkTerm h1' link = linkTerm h2' link.
Proof.
  intros [= _ E] E1 E2 Ho. unfold linkTerm. rewrite E1, E2.
  apply (f_equal (λ l, l !! link)) in E. rewrite !list_lookup_fmap in E.
  destruct (links h1 !! link) as [l1|] eqn:Hl1, (links h2 !! link) as [l2|];
    try done.
  cbn [fmap option_fmap option_map] in E. injection E as Ew Es.
  rewrite (Ho l1 eq_refl), Ew, Es. done.
Qed.

Lemma weightedInput_parameters h1' h2' n1 n2 :
  Node.bias n2 = Node.bias n1 → Node.inputLinks n2 = Node.inputLinks n1 →
  (∀ link, link ∈ Node.inputLinks n1 → linkTerm h1' link = linkTerm h2' link) →
  weightedInput h1' n1 = weightedInput h2' n2.
Proof.
  intros Eb Ei Ht. unfold weightedInput. rewrite Eb, Ei.
  revert Ht. generalize (Node.bias n1) as acc. generalize (Node.inputLinks n1) as ls.
  induction ls as [|link ls IH]; intros acc Ht; [done|].
  cbn [foldl]. rewrite (Ht link) by (by left). apply IH.
  intros link' Hin. apply Ht. by right.
Qed.

Lemma parameters_sources_earlier network h1 h2 :
  parameters h1 = parameters h2 → sources_earlier network h1 →
  sources_earlier network h2.
Proof.
  intros E Hs i cur r link l2 Hi Hr Hlink Hl2.
  pose proof E as [= En El].
  apply (f_equal (λ l, l !! r)) in En. rewrite !list_lookup_fmap in En.
  apply (f_equal (λ l, l !! link)) in El. rewrite !list_lookup_fmap, Hl2 in El.
  destruct (links h1 !! link) as [l1|] eqn:Hl1; [|done].
  cbn [fmap option_fmap option_map] in El. injection El as _ Es. rewrite <- Es.
  apply (Hs i cur r link l1); try done.
  unfold inputLinksOf in *.
  destruct (nodes h1 !! r) as [n1|], (nodes h2 !! r) as [n2|]; try done.
  cbn [fmap option_fmap option_map] in En. injection En as _ Ei _.
  simpl in *. by rewrite Ei.
Qed.

(** On stores with the same parameters, forward propagation leaves the
    same outputs, and the same total inputs after the first layer. *)
Lemma forward_spec_parameters network inputs inputLayer h1 h2 :
  wf_network network h1 → wf_network network h2 →
  network !! 0%nat = Some inputLayer →
  length inputs = length inputLayer →
  NoDup (concat network) → sources_earlier network h1 →
  parameters h1 = parameters h2 →
  ∀ i cur r, network !! i = Some cur → r ∈ cur →
    outputOf (forward_spec network inputs h1) r = outputOf (forward_spec network inputs h2) r
    ∧ (0 < i → totalInputOf (forward_spec network inputs h1) r
               = totalInputOf (forward_spec network inputs h2) r).
Proof.
  intros Hnet1 Hnet2 H0 Hlen Hnd Hsrc1 Epar.
  pose proof (parameters_sources_earlier network h1 h2 Epar Hsrc1) as Hsrc2.
  destruct (forward_spec_pointwise network inputs inputLayer h1) as [Hin1 Hlater1];
    try done.
  destruct (forward_spec_pointwise network inputs inputLayer h2) as [Hin2 Hlater2];
    try done.
  set (h1' := forward_spec network inputs h1) in *.
  set (h2' := forward_spec network inputs h2) in *.
  intros i. induction (lt_wf i) as [i _ IH]. intros cur r Hi Hr.
  destruct i as [|i].
  - assert (cur = inputLayer) as -> by congruence.
    split; [|lia].
    apply list_elem_of_lookup in Hr as [k Hk].
    destruct (lookup_lt_is_Some_2 inputs k) as [x Hx].
    { rewrite Hlen. by apply lookup_lt_Some in Hk. }
    destruct (Hin1 k r x Hk Hx) as (n1 & _ & Hn1).
    destruct (Hin2 k r x Hk Hx) as (n2 & _ & Hn2).
    unfold outputOf. by rewrite Hn1, Hn2.
  - assert (r ∈ concat (drop 1 network)) as Hr'.
    { apply elem_of_concat. exists cur. split; [|done].
      apply list_elem_of_lookup. exists i. by rewrite lookup_drop. }
    destruct (Hlater1 r Hr') as (n1 & Hn1 & Hn1').
    destruct (Hlater2 r Hr') as (n2 & Hn2 & Hn2').
    destruct (parameters_node h1 h2 r n1 Epar Hn1) as (n2' & Hn2'' & Eb & Ei & Ea).
    assert (n2' = n2) as -> by congruence.
    assert (weightedInput h1' n1 = weightedInput h2' n2) as Ew.
    { apply weightedInput_parameters; try done. intros link Hlink.
      apply (parameters_linkTerm h1 h2); try done; try apply forward_spec_links.
      intros l Hl.
      assert (Link.source l ∈ concat (take (S i) network)) as Hs.
      { apply (Hsrc1 (S i) cur r link l); try done.
        unfold inputLinksOf. by rewrite Hn1. }
      apply elem_of_concat in Hs as (prev & Hprev & Hs).
      apply list_elem_of_lookup in Hprev as [j Hj].
      apply lookup_take_Some in Hj as [Hj Hlt].
      by apply (IH j Hlt prev). }
    unfold outputOf, totalInputOf. rewrite Hn1', Hn2'. unfold activate. simpl.
    by rewrite Ew, Ea.
Qed.

Lemma parameters_wf_network network h1 h2 :
  parameters h1 = parameters h2 → wf_network network h1 → wf_network network h2.
Proof.
  intros [= En _] Hnet. unfold wf_network in *.
  apply (f_equal length) in En. rewrite !length_fmap in En. by rewrite <- En.
Qed.

Lemma outputNodeOf_last network outputNode :
  outputNodeOf network = Some outputNode →
  ∃ lastLayer, network !! (length network - 1) = Some lastLayer ∧ outputNode ∈ lastLayer.
Proof.
  unfold outputNodeOf. intros Hout.
  destruct (last network) as [lastLayer|] eqn:Hlast; [|done]. simpl in Hout.
  rewrite last_lookup in Hlast. exists lastLayer.
  split; [by replace (length network - 1) with (pred (length network)) by lia|].
  destruct lastLayer; [done|]. injection Hout as ->. by left.
Qed.

(** X6. Forward propagation reads nothing but the parameters and the
    inputs.  Two well-formed stores with the same biases, incoming links,
    activation functions, weights and link sources, whatever outputs,
    derivatives and accumulators earlier calls left in them: on a network
    whose layers share no node and whose links come from earlier layers,
    [forwardProp] returns the same value on both, and leaves the same
    [output] in every node of the network and the same [totalInput] in every
    node after the first layer. *)
Theorem forwardProp_reads_parameters network inputs inputLayer outputNode h1 h2 :
  wf_heap h1 → wf_heap h2 → wf_network network h1 →
  network !! 0%nat = Some inputLayer →
  length inputs = length inputLayer →
  outputNodeOf network = Some outputNode →
  NoDup (concat network) → sources_earlier network h1 →
  parameters h1 = parameters h2 →
  ∃ y h1' h2',
    forwardProp network inputs h1 = Ok y h1'
    ∧ forwardProp network inputs h2 = Ok y h2'
    ∧ (∀ r, r ∈ concat network → outputOf h1' r = outputOf h2' r)
    ∧ (∀ r, r ∈ concat (drop 1 network) → totalInputOf h1' r = totalInputOf h2' r).
Proof.
  intros Hwf1 Hwf2 Hnet1 H0 Hlen Hout Hnd Hsrc1 Epar.
  pose proof (parameters_wf_network network h1 h2 Epar Hnet1) as Hnet2.
  destruct (forwardProp_spec network inputs inputLayer outputNode h1) as [E1 _]; try done.
  destruct (forwardProp_spec network inputs inputLayer outputNode h2) as [E2 _]; try done.
  pose proof (forward_spec_parameters network inputs inputLayer h1 h2
                Hnet1 Hnet2 H0 Hlen Hnd Hsrc1 Epar) as Hall.
  set (h1' := forward_spec network inputs h1) in *.
  set (h2' := forward_spec network inputs h2) in *.
  exists (outputOf h1' outputNode), h1', h2'. split; [done|]. split.
  - rewrite E2. f_equal.
    destruct (outputNodeOf_last network outputNode Hout) as (lastLayer & Hlast & Hin).
    symmetry. by apply (Hall _ lastLayer outputNode Hlast).
  - split.
    + intros r (cur & Hcur & Hr)%elem_of_concat.
      apply list_elem_of_lookup in Hcur as [i Hi]. by apply (Hall i cur r).
    + intros r (cur & Hcur & Hr)%elem_of_concat.
      apply list_elem_of_lookup in Hcur as [i Hi]. rewrite lookup_drop in Hi.
      apply (Hall (1 + i) cur r); [done | done | lia].
Qed.

Lemma forwardProp_reads_parameters_witness :
  ∃ h1' h2',
    forwardProp Example.network [1; 1]%float Example.fresh = Ok 0.1375%float h1'
    ∧ forwardProp Example.network [1; 1]%float Example.accumulated = Ok 0.1375%float h2'.
Proof.
  destruct (forwardProp_reads_parameters Example.network [1; 1]%float [0; 1]%nat 4
              Example.fresh Example.accumulated)
    as (y & h1' & h2' & E1 & E2 & _);
    [compute_done | compute_done | compute_done | reflexivity | reflexivity
    | reflexivity | compute_done
    | apply sources_earlier_check; vm_compute; exact I
    | vm_compute; reflexivity |].
  assert (y = 0.1375%float) as ->.
  { assert (forwardProp Example.network [1; 1]%float Example.fresh
            = Ok 0.1375%float Example.propagated) as E0 by (vm_compute; reflexivity).
    congruence. }
  by exists h1', h2'.
Defined.

(** ** Iterating over a network *)

Lemma forEach_app {A} (xs ys : list A) (body : A → M unit) h :
  forEach (xs ++ ys) body h = (forEach xs body ;; forEach ys body) h.
Proof.
  revert h. induction xs as [|x xs IH]; intros h; [done|].
  cbn [app forEach]. rewrite !bind_run. destruct (body x h) as [[] h1|e h1]; [|done].
  rewrite IH. by rewrite bind_run.
Qed.

Lemma forEach_concat {A} (xss : list (list A)) (body : A → M unit) h :
  forEach xss (λ xs, forEach xs body) h = forEach (concat xss) body h.
Proof.
  revert h. induction xss as [|xs xss IH]; intros h; [done|].
  cbn [concat forEach]. rewrite forEach_app, !bind_run.
  destruct (forEach xs body h) as [[] h1|e h1]; [|done]. apply IH.
Qed.

(** X7. On a network that [buildNetwork] made, [forEachNode] calls the
    accessor on the nodes in the order of their construction, once each: on
    all of them, or on all but those of the first layer when the inputs are
    to be ignored. *)
Theorem forEachNode_built Math_random networkShape activation outputActivation
    regularization inputIds initZero :
  ∃ network h0,
    buildNetwork Math_random networkShape activation outputActivation
      regularization inputIds initZero emptyHeap = Ok network h0
    ∧ ∀ accessor h,
        forEachNode network false accessor h
        = forEach (seq 0 (sum_list networkShape)) accessor h
        ∧ forEachNode network true accessor h
          = forEach (seq (default 0 (head networkShape)) (sum_list (drop 1 networkShape)))
              accessor h.
Proof.
  destruct (buildNetwork_run Math_random networkShape activation outputActivation
              regularization inputIds initZero) as (h0 & E & Hw).
  pose proof (wire_layers_dense networkShape [] ([], []) dense_empty) as (Hnodes & _ & _).
  pose proof (wire_layers_lengths networkShape [] ([], [])) as Hlen.
  set (network := (foldl wire_layer ([], ([], [])) networkShape).1) in *.
  simpl in Hlen.
  assert (concat network = seq 0 (sum_list networkShape)) as Hall.
  { rewrite Hnodes. f_equal. apply (f_equal length) in Hnodes.
    by rewrite length_concat_sum, Hlen, length_seq in Hnodes. }
  exists network, h0. split; [done|]. intros accessor h.
  unfold forEachNode. rewrite !forEach_concat. split.
  - by rewrite drop_0, Hall.
  - f_equal. destruct network as [|first rest]; destruct networkShape as [|n shape];
      try done.
    injection Hlen as Hn Hrest. cbn [drop concat head default sum_list] in *.
    apply (f_equal (drop (length first))) in Hall.
    rewrite drop_app_length in Hall. unfold id in *. rewrite !drop_0, Hall, Hn.
    rewrite drop_seq. f_equal; lia.
Qed.

(** X8. Whenever [forwardProp] returns, the value is the [output], in the
    store the call leaves, of the node [getOutputNode] gives. *)
Theorem forwardProp_getOutputNode network inputs h y h' :
  forwardProp network inputs h = Ok y h' →
  ∃ outputNode n,
    getOutputNode network h' = Ok (Some outputNode) h'
    ∧ nodes h' !! outputNode = Some n
    ∧ Node.output n = y.
Proof.
  unfold forwardProp, getOutputNode, outputNodeOf.
  destruct (network !! 0%nat) as [inputLayer|]; [|done].
  destruct (negb _); [done|].
  rewrite !bind_run.
  destruct (forEach (zip inputLayer inputs) _ h) as [[] h1|e h1]; [|done].
  rewrite bind_run.
  destruct (forEach (drop 1 network) _ h1) as [[] h2|e h2]; [|done].
  destruct (last network) as [lastLayer|]; [|done]. simpl.
  destruct (head lastLayer) as [outputNode|]; [|done].
  rewrite bind_run. unfold getNode.
  destruct (nodes h2 !! outputNode) as [n|] eqn:Hn; [|done].
  intros [= <- <-]. by exists outputNode, n.
Qed.

Lemma forwardProp_getOutputNode_witness :
  ∃ n,
    getOutputNode Example.network Example.propagated = Ok (Some 4%nat) Example.propagated
    ∧ nodes Example.propagated !! 4%nat = Some n
    ∧ Node.output n = 0.1375%float.
Proof.
  destruct (forwardProp_getOutputNode Example.network [1; 1]%float Example.fresh
              0.1375%float Example.propagated) as (r & n & E & Hn & Ho);
    [vm_compute; reflexivity|].
  assert (r = 4%nat) as -> by (vm_compute in E; congruence).
  by exists n.
Defined.

(** ** The configuration reader, property by property *)

Section reader.
Context (ToNumber : string → number) (fresh_seed : string).

(** What a property's case leaves under the property's name depends on the
    state through that name only, and whether it throws does not depend on
    the state at all. *)
Lemma deserializeProp_own map s s' p s1 :
  State.deserializeProp ToNumber map s p = inr s1 →
  ∃ s1', State.deserializeProp ToNumber map s' p = inr s1'
    ∧ (s !! Property.name p = s' !! Property.name p →
       s1 !! Property.name p = s1' !! Property.name p).
Proof.
  unfold State.deserializeProp. intros E.
  repeat case_match; simplify_eq; eexists; (split; [reflexivity|]); intros Hs;
    rewrite ?lookup_insert_eq; done.
Qed.

Lemma forEachProp_own map ps p : ∀ state state',
  NoDup (Property.name <$> ps) → p ∈ ps →
  State.forEachProp ToNumber map state ps = inr state' →
  ∃ s1, State.deserializeProp ToNumber map state p = inr s1
    ∧ state' !! Property.name p = s1 !! Property.name p.
Proof.
  induction ps as [|q ps IH]; intros state state' Hnd Hin E.
  - inversion Hin.
  - rewrite fmap_cons in Hnd. apply NoDup_cons in Hnd as [Hq Hnd].
    rewrite forEachProp_cons in E.
    destruct (State.deserializeProp ToNumber map state q) as [e|state1] eqn:E1;
      [discriminate E|].
    apply elem_of_cons in Hin as [->|Hin].
    + exists state1. split; [done|]. by apply (forEachProp_other ToNumber map ps).
    + destruct (IH _ _ Hnd Hin E) as (s1' & E' & H').
      destruct (deserializeProp_own map state1 state p s1' E') as (s1 & Es1 & Hs1).
      exists s1. split; [done|]. rewrite H'. apply Hs1.
      apply (deserializeProp_other ToNumber map state q state1); [done|].
      intros Hn. apply Hq. rewrite Hn. by apply list_elem_of_fmap_2.
Qed.

(** What the [STRING] and the [ARRAY_NUMBER] case leave under the name. *)
Lemma deserializeProp_string map s name s1 :
  State.deserializeProp ToNumber map s (Property.mk name STRING None) = inr s1 →
  s1 !! name
  = match map !! name with
    | Some (Some value) =>
      if bool_decide (trim value = "") then s !! name else Some (VString value)
    | _ => s !! name
    end.
Proof.
  unfold State.deserializeProp, State.hasKey. cbn [Property.type Property.name].
  intros E. repeat case_match; simplify_eq; rewrite ?lookup_insert_eq; done.
Qed.

Lemma deserializeProp_array_number map s name s1 :
  State.deserializeProp ToNumber map s (Property.mk name ARRAY_NUMBER None) = inr s1 →
  s1 !! name
  = match map !! name with
    | Some (Some value) => Some (VArray (VNumber ∘ ToNumber <$> State.parseArray value))
    | _ => s !! name
    end.
Proof.
  unfold State.deserializeProp. cbn [Property.type Property.name].
  intros E. repeat case_match; simplify_eq; rewrite ?lookup_insert_eq; done.
Qed.

(** The steps of [deserializeState] after the loop over [PROPS]. *)
Lemma deserializeState_steps hash state :
  State.deserializeState ToNumber fresh_seed hash = inr state →
  ∃ state1 state2 shape,
    State.forEachProp ToNumber (State.parseHash hash) State.new State.PROPS = inr state1
    ∧ state2 = foldl (λ state prop,
                 <[prop := VBool (if bool_decide (State.parseHash hash !! prop = Some (Some "true"))
                                  then true else false)]> state)
               state1 (State.getHideProps (State.parseHash hash))
    ∧ state2 !! "networkShape" = Some (VArray shape)
    ∧ state !! "numHiddenLayers" = Some (VNumber (number_of_nat (length shape)))
    ∧ state !! "seed"
      = match state2 !! "seed" with
        | None | Some VNull => Some (VString fresh_seed)
        | Some v => Some v
        end
    ∧ ∀ k, k ≠ "numHiddenLayers" → k ≠ "seed" → state !! k = state2 !! k.
Proof.
  unfold State.deserializeState. intros E.
  destruct (State.forEachProp _ _ _ _) as [e|state1]; [done|].
  set (state2 := foldl _ state1 _) in *.
  destruct (state2 !! "networkShape") as [[| | | |shape|]|] eqn:Hshape; try done.
  exists state1, state2, shape. split; [done|]. split; [done|]. split; [done|].
  injection E as <-.
  assert ((<["numHiddenLayers":=VNumber (number_of_nat (length shape))]> state2 : gmap string Value) !! "seed"
          = state2 !! "seed") as Hseed by (by rewrite lookup_insert_ne).
  rewrite Hseed.
  split; [|split].
  - repeat case_match; rewrite ?lookup_insert_ne by done; by rewrite lookup_insert_eq.
  - repeat case_match; rewrite ?lookup_insert_eq; try done;
      rewrite lookup_insert_ne by done; congruence.
  - intros k Hk1 Hk2. repeat case_match; by rewrite ?lookup_insert_ne by done.
Qed.

(** A property of [PROPS] other than the seed ends up as its own case,
    applied to a new state, leaves it. *)
Lemma deserializeState_prop hash state p :
  State.deserializeState ToNumber fresh_seed hash = inr state →
  p ∈ State.PROPS → Property.name p ≠ "seed" →
  ∃ s1, State.deserializeProp ToNumber (State.parseHash hash) State.new p = inr s1
    ∧ state !! Property.name p = s1 !! Property.name p.
Proof.
  intros E Hp Hseed.
  destruct (deserializeState_steps hash state E)
    as (state1 & state2 & shape & E1 & -> & _ & _ & _ & Hother).
  destruct (forEachProp_own _ _ p _ _ PROPS_NoDup Hp E1) as (s1 & Es1 & H1).
  exists s1. split; [done|].
  pose proof (proj1 (Forall_forall _ _) PROPS_not_hidden p Hp) as (Hh & Hn & _).
  rewrite Hother by done. rewrite hide_loop_other; [done|].
  intros Hin. apply getHideProps_endsWith in Hin. congruence.
Qed.
End reader.

Lemma deserializeState_returns ToNumber fresh_seed hash :
  State.parseHash hash !! "networkShape" ≠ Some None →
  ∃ state, State.deserializeState ToNumber fresh_seed hash = inr state.
Proof.
  intros Hshape. set (map := State.parseHash hash).
  destruct (forEachProp_ok ToNumber map State.PROPS State.new (PROPS_ok map Hshape))
    as [state1 E1].
  pose proof (forEachProp_shape ToNumber map State.PROPS State.new state1
                PROPS_shape_typed I E1) as Hs.
  unfold State.deserializeState. fold map. rewrite E1.
  rewrite hide_loop_other.
  - destruct (state1 !! "networkShape") as [[| | | |shape|]|]; try contradiction.
    by eexists.
  - intros Hin. by apply getHideProps_endsWith in Hin.
Qed.

(** X9. [deserializeState] throws on one kind of hash only: when the map
    built from the hash holds [undefined] for [networkShape], that is, when
    the last part named [networkShape] has no ["="]; the exception is the
    [TypeError] of [undefined.trim()].  On every other hash it returns a
    state. *)
Theorem deserializeState_throws_iff ToNumber fresh_seed hash :
  (State.parseHash hash !! "networkShape" = Some None →
   State.deserializeState ToNumber fresh_seed hash = inl TypeError)
  ∧ (State.parseHash hash !! "networkShape" ≠ Some None →
     ∃ state, State.deserializeState ToNumber fresh_seed hash = inr state).
Proof.
  split.
  - apply deserializeState_throws.
  - apply deserializeState_returns.
Qed.

(** X10. A [NUMBER] property of [PROPS]: when the map holds for it a value
    that is not blank, the state gets that value converted by unary [+];
    when the map has no value for it, or a blank one, it keeps the default
    of the class. *)
Theorem deserializeState_number ToNumber fresh_seed hash state p :
  State.deserializeState ToNumber fresh_seed hash = inr state →
  p ∈ State.PROPS → Property.type p = NUMBER →
  (∀ value, State.parseHash hash !! Property.name p = Some (Some value) →
     trim value ≠ "" →
     state !! Property.name p = Some (VNumber (ToNumber value)))
  ∧ (∀ value, State.parseHash hash !! Property.name p = Some (Some value) →
       trim value = "" →
       state !! Property.name p = State.new !! Property.name p)
  ∧ (State.parseHash hash !! Property.name p = Some None →
     state !! Property.name p = State.new !! Property.name p)
  ∧ (State.parseHash hash !! Property.name p = None →
     state !! Property.name p = State.new !! Property.name p).
Proof.
  intros E Hp Ht.
  destruct (deserializeState_prop ToNumber fresh_seed hash state p E Hp) as (s1 & E1 & ->).
  { intros Hn. revert Ht. clear -Hp Hn.
    unfold State.PROPS in Hp. set_unfold. by destruct_or!; subst. }
  unfold State.deserializeProp, State.hasKey in E1. rewrite Ht in E1.
  repeat split.
  - intros value Hv Hb. rewrite Hv in E1.
    rewrite bool_decide_eq_false_2 in E1 by done. injection E1 as <-.
    by rewrite lookup_insert_eq.
  - intros value Hv Hb. rewrite Hv in E1.
    rewrite bool_decide_eq_true_2 in E1 by done. by injection E1 as <-.
  - intros Hv. rewrite Hv in E1. by injection E1 as <-.
  - intros Hv. rewrite Hv in E1. by injection E1 as <-.
Qed.

Lemma deserializeState_number_witness :
  ∃ state,
    State.deserializeState (λ _, 0.5%float) "0.50000" "#noise=0.5&batchSize=" = inr state
    ∧ state !! "noise" = Some (VNumber 0.5)
    ∧ state !! "batchSize" = Some (VNumber 10).
Proof.
  destruct (deserializeState_returns (λ _, 0.5%float) "0.50000" "#noise=0.5&batchSize=")
    as [state E]; [vm_compute; discriminate|].
  exists state. split; [done|]. split.
  - destruct (deserializeState_number (λ _, 0.5%float) "0.50000" "#noise=0.5&batchSize="
                state (Property.mk "noise" NUMBER None) E) as (H & _);
      [unfold State.PROPS; repeat constructor | reflexivity |].
    apply (H "0.5"); [vm_compute; reflexivity | vm_compute; discriminate].
  - destruct (deserializeState_number (λ _, 0.5%float) "0.50000" "#noise=0.5&batchSize="
                state (Property.mk "batchSize" NUMBER None) E) as (_ & H & _);
      [unfold State.PROPS; repeat constructor | reflexivity |].
    etrans; [apply (H ""); vm_compute; reflexivity | vm_compute; reflexivity].
Defined.

(** X11. The [STRING] properties.  [tutorial] is the value of the map when
    that is not blank, and stays [null] otherwise.  [seed], which the class
    gives no default, is the value of the map when that is not blank, and a
    fresh random seed otherwise: also when the hash names it with a blank
    value or without ["="]. *)
Theorem deserializeState_string ToNumber fresh_seed hash state name :
  State.deserializeState ToNumber fresh_seed hash = inr state →
  name = "tutorial" ∨ name = "seed" →
  (∀ value, State.parseHash hash !! name = Some (Some value) →
     trim value ≠ "" → state !! name = Some (VString value))
  ∧ ((∀ value, State.parseHash hash !! name = Some (Some value) → trim value = "") →
     state !! name
     = Some (if bool_decide (name = "seed") then VString fresh_seed else VNull)).
Proof.
  intros E Hname.
  destruct (deserializeState_steps ToNumber fresh_seed hash state E)
    as (state1 & state2 & shape & E1 & -> & _ & _ & Hseed & Hother).
  assert (Property.mk name STRING None ∈ State.PROPS) as Hp.
  { unfold State.PROPS. destruct Hname as [-> | ->]; set_solver. }
  destruct (forEachProp_own ToNumber _ _ _ _ _ PROPS_NoDup Hp E1) as (s1 & Es1 & H1).
  cbn [Property.name] in H1.
  apply deserializeProp_string in Es1.
  assert (name ∉ State.getHideProps (State.parseHash hash)) as Hh.
  { intros Hin. apply getHideProps_endsWith in Hin.
    destruct Hname as [-> | ->]; discriminate Hin. }
  rewrite hide_loop_other in Hseed by (intros Hin; by apply getHideProps_endsWith in Hin).
  assert (State.new !! name = None ∨ State.new !! name = Some VNull) as Hnew.
  { destruct Hname as [-> | ->]; [right | left]; vm_compute; reflexivity. }
  assert (s1 !! name = None ∨ s1 !! name = Some VNull
          ∨ ∃ value, s1 !! name = Some (VString value)) as Hs1.
  { rewrite Es1. destruct (State.parseHash hash !! name) as [[value|]|]; [|tauto..].
    destruct (bool_decide (trim value = "")); [tauto|]. right. right. by eexists. }
  assert (state !! name
          = match s1 !! name with
            | None | Some VNull =>
                Some (if bool_decide (name = "seed") then VString fresh_seed else VNull)
            | Some v => Some v
            end) as ->.
  { destruct Hname as [-> | ->].
    - rewrite Hother by discriminate. rewrite hide_loop_other by exact Hh. rewrite H1.
      rewrite bool_decide_eq_false_2 by discriminate.
      destruct Hs1 as [Hs1 | [-> | [value ->]]]; [|reflexivity..].
      assert (State.new !! "tutorial" = Some VNull) as Hn by (vm_compute; reflexivity).
      rewrite Es1, Hn in Hs1. clear -Hs1.
      destruct (State.parseHash hash !! "tutorial") as [[value|]|];
        [destruct (bool_decide (trim value = ""))|..]; discriminate Hs1.
    - rewrite Hseed, H1. reflexivity. }
  rewrite Es1. split.
  - intros value Hv Hb. rewrite Hv. by rewrite bool_decide_eq_false_2.
  - intros Hb. destruct (State.parseHash hash !! name) as [[value|]|] eqn:Hv.
    + rewrite bool_decide_eq_true_2 by (by apply Hb). by destruct Hnew as [-> | ->].
    + by destruct Hnew as [-> | ->].
    + by destruct Hnew as [-> | ->].
Qed.

Lemma deserializeState_string_witness :
  ∃ state,
    State.deserializeState (λ _, 0.5%float) "0.50000" "#tutorial=dp&seed= " = inr state
    ∧ state !! "tutorial" = Some (VString "dp")
    ∧ state !! "seed" = Some (VString "0.50000").
Proof.
  destruct (deserializeState_returns (λ _, 0.5%float) "0.50000" "#tutorial=dp&seed= ")
    as [state E]; [vm_compute; discriminate|].
  exists state. split; [done|]. split.
  - destruct (deserializeState_string (λ _, 0.5%float) "0.50000" "#tutorial=dp&seed= "
                state "tutorial" E) as (H & _); [by left|].
    apply (H "dp"); [vm_compute; reflexivity | vm_compute; discriminate].
  - destruct (deserializeState_string (λ _, 0.5%float) "0.50000" "#tutorial=dp&seed= "
                state "seed" E) as (_ & H); [by right|].
    apply H. intros value Hv.
    assert (State.parseHash "#tutorial=dp&seed= " !! "seed" = Some (Some " ")) as Hm
      by (vm_compute; reflexivity).
    rewrite Hm in Hv. injection Hv as <-. vm_compute; reflexivity.
Defined.

Lemma PROPS_keyMaps :
  Forall (λ p, ∀ keyMap, Property.keyMap p = Some keyMap →
            NoDup keyMap.*1
            ∧ Forall (λ kv, trim kv.1 ≠ "") keyMap
            ∧ Forall (λ kv, kv.1 ∉ keyMap.*1) Object_prototype)
         State.PROPS.
Proof.
  unfold State.PROPS. repeat apply Forall_cons_2; try apply Forall_nil_2;
    intros keyMap [= <-]; (split; [compute_done|split]);
    repeat apply Forall_cons_2; try apply Forall_nil_2;
    first [by vm_compute | compute_done].
Qed.

Lemma Object_prototype_keys :
  NoDup Object_prototype.*1 ∧ Forall (λ kv, trim kv.1 ≠ "") Object_prototype.
Proof.
  split; [compute_done|].
  repeat apply Forall_cons_2; try apply Forall_nil_2; by vm_compute.
Qed.

Lemma Object_get_own obj key v :
  NoDup obj.*1 → (key, v) ∈ obj → Object_get obj key = Some v.
Proof.
  intros Hnd Hin. unfold Object_get. by rewrite (elem_of_list_to_map_1 _ _ _ Hnd Hin).
Qed.

Lemma Object_get_inherited obj key v :
  key ∉ obj.*1 → (key, v) ∈ Object_prototype → Object_get obj key = Some v.
Proof.
  intros Hown Hin. unfold Object_get.
  rewrite (not_elem_of_list_to_map_1 _ _ Hown).
  apply elem_of_list_to_map_1; [apply Object_prototype_keys|done].
Qed.

Lemma Object_get_None obj key :
  key ∉ obj.*1 → key ∉ Object_prototype.*1 → Object_get obj key = None.
Proof.
  intros Hown Hinh. unfold Object_get.
  rewrite (not_elem_of_list_to_map_1 _ _ Hown).
  by apply not_elem_of_list_to_map_1.
Qed.

(** X12. An [OBJECT] property of [PROPS], whose case tests
    [map[name] in keyMap].  When the map holds for it a key of its table,
    the state gets the table's value for that key ([null] for the
    regularization ["none"]).  When the map holds the name of a property
    that the table inherits from [Object.prototype], such as ["toString"],
    the state gets that inherited member.  When the map holds any other
    value that is not blank, or a blank one, or none, the property keeps the
    default of the class. *)
Theorem deserializeState_object ToNumber fresh_seed hash state p keyMap :
  State.deserializeState ToNumber fresh_seed hash = inr state →
  p ∈ State.PROPS → Property.type p = OBJECT → Property.keyMap p = Some keyMap →
  (∀ key v, State.parseHash hash !! Property.name p = Some (Some key) →
     (key, v) ∈ keyMap → state !! Property.name p = Some v)
  ∧ (∀ key v, State.parseHash hash !! Property.name p = Some (Some key) →
       (key, v) ∈ Object_prototype → state !! Property.name p = Some v)
  ∧ (∀ value, State.parseHash hash !! Property.name p = Some (Some value) →
       value ∉ keyMap.*1 → value ∉ Object_prototype.*1 →
       state !! Property.name p = State.new !! Property.name p)
  ∧ ((∀ value, State.parseHash hash !! Property.name p = Some (Some value) →
        trim value = "") →
     state !! Property.name p = State.new !! Property.name p).
Proof.
  intros E Hp Ht Hk.
  destruct (deserializeState_prop ToNumber fresh_seed hash state p E Hp) as (s1 & E1 & ->).
  { intros Hn. revert Ht. clear -Hp Hn.
    unfold State.PROPS in Hp. set_unfold. by destruct_or!; subst. }
  destruct (proj1 (Forall_forall _ _) PROPS_keyMaps p Hp keyMap Hk)
    as (Hnd & Hkeys & Hdisjoint).
  destruct Object_prototype_keys as [_ Hinherited].
  unfold State.deserializeProp, State.hasKey in E1. rewrite Ht, Hk in E1.
  split; [|split; [|split]].
  - intros key v Hv Hin. rewrite Hv in E1.
    pose proof (proj1 (Forall_forall _ _) Hkeys _ Hin) as Hb. cbn in Hb.
    rewrite bool_decide_eq_false_2 in E1 by done. cbn [negb] in E1.
    rewrite (Object_get_own _ _ _ Hnd Hin) in E1. injection E1 as <-.
    by rewrite lookup_insert_eq.
  - intros key v Hv Hin. rewrite Hv in E1.
    pose proof (proj1 (Forall_forall _ _) Hinherited _ Hin) as Hb. cbn in Hb.
    pose proof (proj1 (Forall_forall _ _) Hdisjoint _ Hin) as Hown. cbn in Hown.
    rewrite bool_decide_eq_false_2 in E1 by done. cbn [negb] in E1.
    rewrite (Object_get_inherited _ _ _ Hown Hin) in E1. injection E1 as <-.
    by rewrite lookup_insert_eq.
  - intros value Hv Hown Hinh. rewrite Hv in E1.
    rewrite (Object_get_None _ _ Hown Hinh) in E1.
    destruct (negb _); by injection E1 as <-.
  - intros Hb. destruct (State.parseHash hash !! Property.name p) as [[value|]|] eqn:Hv.
    + rewrite bool_decide_eq_true_2 in E1 by (by apply Hb). by injection E1 as <-.
    + by injection E1 as <-.
    + by injection E1 as <-.
Qed.

Lemma deserializeState_object_witness :
  ∃ state,
    State.deserializeState (λ _, 0.5%float) "0.50000"
      "#activation=relu&dataset=&regDataset=toString&problem=other" = inr state
    ∧ state !! "activation" = Some (VObject "nn.Activations.RELU")
    ∧ state !! "dataset" = Some (VObject "dataset.classifyCircleData")
    ∧ state !! "regDataset" = Some (VObject "Object.prototype.toString")
    ∧ state !! "problem" = Some (VNumber 0).
Proof.
  destruct (deserializeState_returns (λ _, 0.5%float) "0.50000"
              "#activation=relu&dataset=&regDataset=toString&problem=other")
    as [state E]; [vm_compute; discriminate|].
  exists state. split; [done|]. split; [|split; [|split]].
  - destruct (deserializeState_object (λ _, 0.5%float) "0.50000" _
                state (Property.mk "activation" OBJECT (Some activations)) activations E)
      as (H & _); [unfold State.PROPS; repeat constructor | reflexivity | reflexivity |].
    apply (H "relu"); [vm_compute; reflexivity | unfold activations; repeat constructor].
  - destruct (deserializeState_object (λ _, 0.5%float) "0.50000" _
                state (Property.mk "dataset" OBJECT (Some datasets)) datasets E)
      as (_ & _ & _ & H);
      [unfold State.PROPS; repeat constructor | reflexivity | reflexivity |].
    etrans; [apply H | vm_compute; reflexivity].
    intros value Hv.
    assert (State.parseHash "#activation=relu&dataset=&regDataset=toString&problem=other"
              !! "dataset" = Some (Some "")) as Hm by (vm_compute; reflexivity).
    cbn [Property.name] in Hv. rewrite Hm in Hv. injection Hv as <-. vm_compute; reflexivity.
  - destruct (deserializeState_object (λ _, 0.5%float) "0.50000" _
                state (Property.mk "regDataset" OBJECT (Some regDatasets)) regDatasets E)
      as (_ & H & _);
      [unfold State.PROPS; repeat constructor | reflexivity | reflexivity |].
    apply (H "toString"); [vm_compute; reflexivity|].
    unfold Object_prototype. repeat constructor.
  - destruct (deserializeState_object (λ _, 0.5%float) "0.50000" _
                state (Property.mk "problem" OBJECT (Some problems)) problems E)
      as (_ & _ & H & _);
      [unfold State.PROPS; repeat constructor | reflexivity | reflexivity |].
    etrans; [apply (H "other"); [vm_compute; reflexivity|compute_done|compute_done]|].
    vm_compute; reflexivity.
Defined.

(** X13. The network shape.  When the map holds a value for [networkShape],
    the state gets the numbers of its comma-separated entries (none for a
    blank value: this case does not ask [hasKey]); when the map does not
    name it, the state keeps the default [[4, 2]].  In both cases
    [numHiddenLayers] is the length of the shape, so that a state read from
    a hash without [networkShape] has 2 hidden layers, not the default 1 of
    the class. *)
Theorem deserializeState_networkShape ToNumber fresh_seed hash state :
  State.deserializeState ToNumber fresh_seed hash = inr state →
  ∃ shape,
    state !! "networkShape" = Some (VArray shape)
    ∧ state !! "numHiddenLayers" = Some (VNumber (number_of_nat (length shape)))
    ∧ (∀ value, State.parseHash hash !! "networkShape" = Some (Some value) →
         shape = VNumber ∘ ToNumber <$> State.parseArray value)
    ∧ (State.parseHash hash !! "networkShape" = None →
       shape = [VNumber 4; VNumber 2]).
Proof.
  intros E.
  destruct (deserializeState_steps ToNumber fresh_seed hash state E)
    as (state1 & state2 & shape & E1 & -> & Hshape & Hnum & _ & Hother).
  exists shape. rewrite Hother by done. split; [done|]. split; [done|].
  assert (Property.mk "networkShape" ARRAY_NUMBER None ∈ State.PROPS) as Hp.
  { unfold State.PROPS. set_solver. }
  destruct (forEachProp_own ToNumber _ _ _ _ _ PROPS_NoDup Hp E1) as (s1 & Es1 & H1).
  cbn [Property.name] in H1.
  rewrite hide_loop_other in Hshape by (intros Hin; by apply getHideProps_endsWith in Hin).
  rewrite H1 in Hshape. apply deserializeProp_array_number in Es1.
  rewrite Es1 in Hshape. clear -Hshape.
  split.
  - intros value Hv. rewrite Hv in Hshape. congruence.
  - intros Hv. rewrite Hv in Hshape.
    assert (State.new !! "networkShape" = Some (VArray [VNumber 4; VNumber 2])) as Hnew
      by (vm_compute; reflexivity).
    rewrite Hnew in Hshape. congruence.
Qed.

Lemma deserializeState_networkShape_witness :
  ∃ state shape,
    State.deserializeState (λ _, 0.5%float) "0.50000" "#networkShape=3,3,2" = inr state
    ∧ state !! "networkShape" = Some (VArray shape)
    ∧ state !! "numHiddenLayers" = Some (VNumber 3)
    ∧ length shape = 3%nat.
Proof.
  destruct (deserializeState_returns (λ _, 0.5%float) "0.50000" "#networkShape=3,3,2")
    as [state E]; [vm_compute; discriminate|].
  destruct (deserializeState_networkShape (λ _, 0.5%float) "0.50000" "#networkShape=3,3,2"
              state E) as (shape & Hs & Hn & Hv & _).
  exists state, shape. split; [done|]. split; [done|].
  rewrite Hn, (Hv "3,3,2") by (vm_compute; reflexivity).
  split; vm_compute; reflexivity.
Defined.

Section hide.
Context (map : gmap string (option string)).

Lemma hide_loop_hit (props : list string) k : ∀ state : gmap string Value,
  k ∈ props →
  foldl (λ state prop,
           <[prop := VBool (if bool_decide (map !! prop = Some (Some "true"))
                            then true else false)]> state) state props !! k
  = Some (VBool (if bool_decide (map !! k = Some (Some "true")) then true else false)).
Proof.
  induction props as [|prop props IH]; intros state Hk; [inversion Hk|].
  cbn [foldl]. destruct (decide (k ∈ props)) as [Hin|Hout].
  - by apply IH.
  - apply elem_of_cons in Hk as [->|Hk]; [|done].
    rewrite hide_loop_other by done. apply lookup_insert_eq.
Qed.

Lemma getHideProps_spec k :
  k ∈ State.getHideProps map ↔ is_Some (map !! k) ∧ endsWith k HIDE_STATE_SUFFIX = true.
Proof.
  unfold State.getHideProps. rewrite list_elem_of_filter.
  rewrite list_elem_of_fmap. split.
  - intros [He ([k' v] & -> & Hin)]. apply elem_of_map_to_list in Hin. cbn in *.
    split; [by eexists|]. by destruct (endsWith k' HIDE_STATE_SUFFIX).
  - intros [[v Hv] He]. split; [by rewrite He|].
    exists (k, v). split; [done|]. by apply elem_of_map_to_list.
Qed.
End hide.

(** X14. The properties that hide controls: every name of the hash that
    ends in [_hide] becomes a boolean of the state, [true] when its value is
    exactly ["true"] and [false] for any other value, also for a part without
    ["="]. *)
Theorem deserializeState_hide ToNumber fresh_seed hash state prop :
  State.deserializeState ToNumber fresh_seed hash = inr state →
  is_Some (State.parseHash hash !! prop) →
  endsWith prop HIDE_STATE_SUFFIX = true →
  state !! prop
  = Some (VBool (if bool_decide (State.parseHash hash !! prop = Some (Some "true"))
                 then true else false)).
Proof.
  intros E Hin He.
  destruct (deserializeState_steps ToNumber fresh_seed hash state E)
    as (state1 & state2 & shape & E1 & -> & _ & _ & _ & Hother).
  rewrite Hother by (intros ->; discriminate He).
  apply hide_loop_hit. by apply getHideProps_spec.
Qed.

Lemma deserializeState_hide_witness :
  ∃ state,
    State.deserializeState (λ _, 0.5%float) "0.50000" "#noise_hide=true&seed_hide" = inr state
    ∧ state !! "noise_hide" = Some (VBool true)
    ∧ state !! "seed_hide" = Some (VBool false).
Proof.
  destruct (deserializeState_returns (λ _, 0.5%float) "0.50000" "#noise_hide=true&seed_hide")
    as [state E]; [vm_compute; discriminate|].
  exists state. split; [done|]. split.
  - etrans; [apply (deserializeState_hide _ _ _ _ "noise_hide" E) | vm_compute; reflexivity].
    + vm_compute. by eexists.
    + vm_compute; reflexivity.
  - etrans; [apply (deserializeState_hide _ _ _ _ "seed_hide" E) | vm_compute; reflexivity].
    + vm_compute. by eexists.
    + vm_compute; reflexivity.
Defined.

(** X15. What [deserializeState] leaves alone: a property that is neither
    one of [PROPS], nor [numHiddenLayers], nor a name of the hash ending in
    [_hide], is as a new state has it; so [hiddenLayerControls] is the empty
    array, and a name of the hash that [PROPS] does not list never reaches
    the state. *)
Theorem deserializeState_other ToNumber fresh_seed hash state k :
  State.deserializeState ToNumber fresh_seed hash = inr state →
  k ∉ Property.name <$> State.PROPS →
  k ≠ "numHiddenLayers" →
  (State.parseHash hash !! k = None ∨ endsWith k HIDE_STATE_SUFFIX = false) →
  state !! k = State.new !! k.
Proof.
  intros E Hk Hn Hh.
  destruct (deserializeState_steps ToNumber fresh_seed hash state E)
    as (state1 & state2 & shape & E1 & -> & _ & _ & _ & Hother).
  rewrite Hother; [|exact Hn|].
  2:{ intros ->. apply Hk. compute_done. }
  rewrite hide_loop_other.
  - exact (forEachProp_other ToNumber _ State.PROPS k _ _ E1 Hk).
  - rewrite getHideProps_spec. intros [[v Hv] He].
    destruct Hh as [Hh|Hh]; congruence.
Qed.

Lemma deserializeState_other_witness :
  ∃ state,
    State.deserializeState (λ _, 0.5%float) "0.50000" "#hiddenLayerControls=1&foo=bar"
    = inr state
    ∧ state !! "hiddenLayerControls" = Some (VArray [])
    ∧ state !! "foo" = None.
Proof.
  destruct (deserializeState_returns (λ _, 0.5%float) "0.50000"
              "#hiddenLayerControls=1&foo=bar") as [state E]; [vm_compute; discriminate|].
  exists state. split; [done|]. split.
  - etrans; [apply (deserializeState_other _ _ _ _ "hiddenLayerControls" E)
            | vm_compute; reflexivity].
    + compute_done.
    + discriminate.
    + right. vm_compute; reflexivity.
  - etrans; [apply (deserializeState_other _ _ _ _ "foo" E) | vm_compute; reflexivity].
    + compute_done.
    + discriminate.
    + right. vm_compute; reflexivity.
Defined.

(** ** Strings: [split] and [join] *)

Lemma split_nonempty sep s : split sep s ≠ [].
Proof. destruct s as [|c s]; cbn [split]; [done|]. by repeat case_match. Qed.

Lemma split_free sep s : occurs sep s = false → split sep s = [s].
Proof.
  induction s as [|c s IH]; cbn [split occurs]; [done|].
  intros [Hc Hs]%orb_false_elim. rewrite Hc, (IH Hs). done.
Qed.

Lemma split_app sep a b :
  occurs sep a = false → split sep (a +:+ String sep b) = a :: split sep b.
Proof.
  induction a as [|c a IH].
  - intros _. change ("" +:+ String sep b) with (String sep b).
    cbn [split]. by rewrite Ascii.eqb_refl.
  - cbn [occurs]. intros [Hc Hs]%orb_false_elim.
    change (String c a +:+ String sep b) with (String c (a +:+ String sep b)).
    cbn [split]. rewrite Hc, (IH Hs). done.
Qed.

Lemma split_join sep parts :
  parts ≠ [] → Forall (λ part, occurs sep part = false) parts →
  split sep (join (String sep "") parts) = parts.
Proof.
  induction parts as [|part rest IH]; [done|]. intros _ Hfree.
  apply Forall_cons in Hfree as [Hpart Hrest]. destruct rest as [|part' rest].
  - by apply split_free.
  - change (join (String sep "") (part :: part' :: rest))
      with (part +:+ String sep (join (String sep "") (part' :: rest))).
    rewrite split_app by done. by rewrite IH.
Qed.

(** A loop of assignments to an object leaves under a name the last value
    assigned to it. *)
Lemma foldl_assign_last {A V} (key : A → string) (val : A → V) skip k xs :
  ∀ m0 : gmap string V,
  foldl (λ m x, if bool_decide (key x = skip) then m else <[key x := val x]> m) m0 xs !! k
  = if bool_decide (k = skip) then m0 !! k
    else match last (filter (λ x, key x = k) xs) with
         | Some x => Some (val x)
         | None => m0 !! k
         end.
Proof.
  induction xs as [|x xs IH] using rev_ind; intros m0; [by case_bool_decide|].
  rewrite foldl_app, filter_app. cbn [foldl].
  destruct (decide (key x = k)) as [Hk|Hk].
  - rewrite (filter_cons_True (λ x, key x = k)) by done.
    rewrite filter_nil, last_snoc, Hk.
    destruct (decide (k = skip)) as [Hs|Hs].
    + rewrite !(bool_decide_eq_true_2 (k = skip)) by done.
      rewrite IH. by rewrite bool_decide_eq_true_2.
    + rewrite !(bool_decide_eq_false_2 (k = skip)) by done. apply lookup_insert_eq.
  - rewrite (filter_cons_False (λ x, key x = k)) by done.
    rewrite filter_nil, app_nil_r.
    destruct (bool_decide (key x = skip)); [apply IH|].
    rewrite lookup_insert_ne by done. apply IH.
Qed.

Lemma split_keyvalue name value part :
  keyvalue name value part →
  split "=" part !! 0%nat = Some name ∧ split "=" part !! 1%nat = value.
Proof.
  intros [Hname Hvalue]. destruct value as [v|].
  - destruct Hvalue as [Hv [-> | [rest ->]]].
    + change ("=" +:+ v) with (String "=" v). rewrite split_app by done.
      by rewrite (split_free _ v).
    + change ("=" +:+ v +:+ "=" +:+ rest) with (String "=" (v +:+ String "=" rest)).
      rewrite !split_app by done. done.
  - subst part. by rewrite split_free.
Qed.

(** X16. The map [deserializeState] builds from the hash.  For a hash that
    is one character (the ["#"]) followed by parts joined with ["&"], where
    each part is a name, or a name, ["="] and a value, possibly followed by
    another ["="] and more text: the map gets as a property of its own, for
    every name of a part but [__proto__], the value of the last part with
    that name, [undefined] if that part has no ["="]; what follows a second
    ["="] is dropped; a part named [__proto__] is lost, its assignment being
    taken by the setter the map inherits; and the map has no property of its
    own for a name of no part. *)
Theorem parseHash_entries (c : Ascii.ascii) entries parts k :
  Forall2 (λ e part, keyvalue e.1 e.2 part ∧ occurs "&" part = false) entries parts →
  parts ≠ [] →
  State.parseHash (String c (join "&" parts)) !! k
  = if bool_decide (k = "__proto__") then None
    else snd <$> last (filter (λ e, e.1 = k) entries).
Proof.
  intros Hparts Hne. unfold State.parseHash. cbn [slice1].
  rewrite split_join; [|done|].
  2:{ clear -Hparts. induction Hparts as [|e part es ps [_ H] _ IH]; by constructor. }
  assert (∀ map : gmap string (option string),
            foldl (λ map keyvalue,
                     let parts := split "=" keyvalue in
                     let name := default "" (parts !! 0%nat) in
                     if bool_decide (name = "__proto__") then map
                     else <[name := parts !! 1%nat]> map) map parts
            = foldl (λ map e, if bool_decide (e.1 = "__proto__") then map
                              else <[e.1 := e.2]> map) map entries) as ->.
  { clear Hne. induction Hparts as [|e part es ps [H _] _ IH]; intros map; [done|].
    cbn [foldl]. cbv zeta. apply split_keyvalue in H as [-> ->]. apply IH. }
  rewrite (foldl_assign_last fst snd). by destruct (last _).
Qed.

Lemma parseHash_entries_witness :
  State.parseHash "#a=1&b&__proto__=x&a=2=3" !! "a" = Some (Some "2")
  ∧ State.parseHash "#a=1&b&__proto__=x&a=2=3" !! "b" = Some None
  ∧ State.parseHash "#a=1&b&__proto__=x&a=2=3" !! "__proto__" = None
  ∧ State.parseHash "#a=1&b&__proto__=x&a=2=3" !! "c" = None.
Proof.
  assert (Forall2 (λ e part, keyvalue e.1 e.2 part ∧ occurs "&" part = false)
            [("a", Some "1"); ("b", None); ("__proto__", Some "x"); ("a", Some "2")]
            ["a=1"; "b"; "__proto__=x"; "a=2=3"]) as H.
  { constructor; [|constructor; [|constructor; [|constructor; [|constructor]]]];
      (split; [|reflexivity]); (split; [reflexivity|]); cbn [snd fst].
    - split; [reflexivity|]. by left.
    - reflexivity.
    - split; [reflexivity|]. by left.
    - split; [reflexivity|]. right. by exists "3". }
  split; [|split; [|split]].
  - exact (parseHash_entries "#" _ _ "a" H ltac:(discriminate)).
  - exact (parseHash_entries "#" _ _ "b" H ltac:(discriminate)).
  - exact (parseHash_entries "#" _ _ "__proto__" H ltac:(discriminate)).
  - exact (parseHash_entries "#" _ _ "c" H ltac:(discriminate)).
Defined.

(** ** Strings: [substr] *)

Lemma substring_all s : ∀ m, String.length s ≤ m → String.substring 0 m s = s.
Proof.
  induction s as [|c s IH]; intros [|m] Hm; cbn in *; try done; try lia.
  by rewrite IH by lia.
Qed.

Lemma substring_app_r a b :
  String.substring (String.length a) (String.length b) (a +:+ b) = b.
Proof.
  induction a as [|c a IH].
  - change ("" +:+ b) with b. by apply substring_all.
  - change (String c a +:+ b) with (String c (a +:+ b)). cbn. apply IH.
Qed.

Lemma substring_suffix s : ∀ k n,
  String.length s ≤ k + n → ∃ pre, s = pre +:+ String.substring k n s.
Proof.
  induction s as [|c s IH]; intros k n Hlen.
  - exists "". by destruct k, n.
  - destruct k as [|k].
    + exists "". by rewrite substring_all.
    + cbn in Hlen. destruct (IH k n ltac:(lia)) as [pre Hpre].
      exists (String c pre). cbn [String.substring].
      change (String c pre +:+ String.substring k n s)
        with (String c (pre +:+ String.substring k n s)).
      by rewrite <- Hpre.
Qed.

Lemma length_app_string a b :
  String.length (a +:+ b) = String.length a + String.length b.
Proof.
  induction a as [|c a IH]; [done|].
  change (String c a +:+ b) with (String c (a +:+ b)). cbn. by rewrite IH.
Qed.

Lemma endsWith_app pre suffix :
  suffix ≠ "" → endsWith (pre +:+ suffix) suffix = true.
Proof.
  intros Hne. unfold endsWith, substr_from_end. rewrite bool_decide_eq_true.
  destruct suffix as [|c suffix]; [done|]. set (suf := String c suffix).
  assert ((String.length suf =? 0)%nat = false) as -> by done.
  rewrite length_app_string.
  replace (String.length pre + String.length suf - String.length suf)
    with (String.length pre) by lia.
  apply substring_app_r.
Qed.

Lemma endsWith_inv s suffix :
  suffix ≠ "" → endsWith s suffix = true → ∃ pre, s = pre +:+ suffix.
Proof.
  intros Hne. unfold endsWith, substr_from_end. rewrite bool_decide_eq_true.
  destruct suffix as [|c suffix]; [done|]. set (suf := String c suffix).
  assert ((String.length suf =? 0)%nat = false) as -> by done.
  intros H.
  destruct (substring_suffix s (String.length s - String.length suf)
              (String.length suf)) as [pre Hpre]; [lia|].
  exists pre. by rewrite <- H.
Qed.

(** X17. [endsWith(s, suffix)] is true exactly when [s] ends with a
    [suffix] that is not empty; for the empty suffix, [substr(-0)] is the
    whole string, so that [endsWith(s, "")] is true for the empty [s]
    only. *)
Theorem endsWith_spec s suffix :
  endsWith s suffix = true
  ↔ (suffix ≠ "" ∧ ∃ pre, s = pre +:+ suffix) ∨ (suffix = "" ∧ s = "").
Proof.
  destruct suffix as [|c suffix].
  - unfold endsWith, substr_from_end. rewrite bool_decide_eq_true. cbn.
    split; [by right|]. by intros [[? _]|[_ ->]].
  - split.
    + intros H. left. split; [done|]. by apply endsWith_inv.
    + intros [[Hne [pre ->]]|[? _]]; [|done]. by apply endsWith_app.
Qed.

(** X18. [getKeyFromValue(obj, value)] returns the first key of [obj] whose
    value is [===] to [value], and [undefined] when there is none; so it
    finds no key for [NaN], also in an object that holds [NaN]. *)
Theorem getKeyFromValue_spec obj value :
  match getKeyFromValue obj value with
  | Some key =>
    ∃ before v after,
      obj = before ++ (key, v) :: after
      ∧ strict_equals v value = true
      ∧ Forall (λ kv, strict_equals kv.2 value = false) before
  | None =>
    Forall (λ kv, strict_equals kv.2 value = false) obj
  end
  ∧ getKeyFromValue obj (VNumber nan) = None.
Proof.
  split.
  - induction obj as [|[key v] obj IH]; cbn [getKeyFromValue]; [constructor|].
    destruct (strict_equals v value) eqn:Hv.
    + exists [], v, obj. by repeat split.
    + destruct (getKeyFromValue obj value) as [key'|].
      * destruct IH as (before & v' & after & -> & Hv' & Hbefore).
        exists ((key, v) :: before), v', after. repeat split; [done|].
        by constructor.
      * by constructor.
  - induction obj as [|[key v] obj IH]; cbn [getKeyFromValue]; [done|].
    assert (strict_equals v (VNumber nan) = false) as ->; [|done].
    destruct v as [| | x | | |]; try done. cbn.
    rewrite FloatAxioms.eqb_spec. unfold SpecFloat.SFeqb.
    change (Prim2SF nan) with SpecFloat.S754_nan.
    by destruct (Prim2SF x) as [| | |[] ? ?].
Qed.

(** ** From [serialize] to [deserializeState] *)

Lemma parseHash_join (c : Ascii.ascii) parts k :
  Forall (λ part, occurs "&" part = false) parts →
  Forall (λ part, part_name part ≠ "__proto__") parts →
  k ≠ "" →
  State.parseHash (String c (join "&" parts)) !! k
  = foldl (λ map part, <[part_name part := part_value part]> map)
      (∅ : gmap string (option string)) parts !! k.
Proof.
  intros Hparts Hproto Hk. unfold State.parseHash. cbn [slice1].
  destruct parts as [|part parts].
  - cbn [join split foldl lookup list_lookup default]. cbv zeta.
    rewrite bool_decide_eq_false_2 by done. by rewrite lookup_insert_ne.
  - rewrite split_join by done. f_equal.
    generalize (∅ : gmap string (option string)) as map.
    clear Hparts. induction Hproto as [|q qs Hq _ IH]; intros map; [done|].
    cbn [foldl]. cbv zeta. fold (part_name q) (part_value q).
    rewrite bool_decide_eq_false_2 by done. apply IH.
Qed.

Section assignments.
Context {A V : Type} (key : A → string) (val : A → V).

Lemma foldl_insert_notin k xs : ∀ m0 : gmap string V,
  k ∉ key <$> xs →
  foldl (λ m x, <[key x := val x]> m) m0 xs !! k = m0 !! k.
Proof.
  induction xs as [|x xs IH]; intros m0 Hk; [done|].
  rewrite fmap_cons, not_elem_of_cons in Hk. destruct Hk as [Hx Hk].
  cbn [foldl]. rewrite IH by done. by rewrite lookup_insert_ne.
Qed.

Lemma foldl_insert_NoDup x xs : ∀ m0 : gmap string V,
  NoDup (key <$> xs) → x ∈ xs →
  foldl (λ m x, <[key x := val x]> m) m0 xs !! key x = Some (val x).
Proof.
  induction xs as [|y xs IH]; intros m0 Hnd Hx; [inversion Hx|].
  rewrite fmap_cons in Hnd. apply NoDup_cons in Hnd as [Hy Hnd].
  cbn [foldl]. apply elem_of_cons in Hx as [->|Hx].
  - rewrite foldl_insert_notin by done. apply lookup_insert_eq.
  - by apply IH.
Qed.

Lemma foldl_insert_elem k v xs : ∀ m0 : gmap string V,
  foldl (λ m x, <[key x := val x]> m) m0 xs !! k = Some v →
  m0 !! k = Some v ∨ ∃ x, x ∈ xs ∧ key x = k ∧ val x = v.
Proof.
  induction xs as [|x xs IH]; intros m0 H; [by left|].
  cbn [foldl] in H. destruct (IH _ H) as [H0|(y & Hy & Hk & Hv)].
  - destruct (decide (key x = k)) as [Hk|Hk].
    + rewrite <- Hk, lookup_insert_eq in H0. right. exists x.
      split; [by left|]. split; congruence.
    + rewrite lookup_insert_ne in H0 by done. by left.
  - right. exists y. split; [by right|done].
Qed.
End assignments.

Lemma part_name_value name raw :
  occurs "=" name = false →
  part_name (name +:+ "=" +:+ raw) = name
  ∧ ∃ v, part_value (name +:+ "=" +:+ raw) = Some v
         ∧ (occurs "=" raw = false → v = raw).
Proof.
  intros Hname. unfold part_name, part_value.
  change ("=" +:+ raw) with (String "=" raw). rewrite split_app by done.
  split; [done|]. destruct (split "=" raw) as [|v rest] eqn:Hsplit.
  - by apply split_nonempty in Hsplit.
  - exists v. split; [done|]. intros Hraw. rewrite split_free in Hsplit by done.
    congruence.
Qed.

Lemma occurs_app c a b : occurs c (a +:+ b) = occurs c a || occurs c b.
Proof.
  induction a as [|c' a IH]; [done|].
  change (String c' a +:+ b) with (String c' (a +:+ b)). cbn [occurs].
  by rewrite IH, orb_assoc.
Qed.

Lemma occurs_join c sep parts :
  occurs c sep = false → Forall (λ part, occurs c part = false) parts →
  occurs c (join sep parts) = false.
Proof.
  intros Hsep. induction 1 as [|part rest Hpart Hrest IH]; [done|].
  destruct rest as [|part' rest]; [done|].
  change (join sep (part :: part' :: rest))
    with (part +:+ sep +:+ join sep (part' :: rest)).
  by rewrite !occurs_app, Hpart, Hsep, IH.
Qed.

Section read_back.
Context (ToNumber : string → number) (fresh_seed : string).

Lemma deserializeProp_read map s p s1 value :
  State.deserializeProp ToNumber map s p = inr s1 →
  map !! Property.name p = Some (Some value) →
  trim value ≠ "" ∨ Property.type p = ARRAY_NUMBER →
  s1 !! Property.name p
  = match read_value ToNumber p value with
    | Some v => Some v
    | None => s !! Property.name p
    end.
Proof.
  unfold State.deserializeProp, State.hasKey, read_value. intros E Hv Hb. rewrite Hv in E.
  destruct (Property.type p) eqn:Ht.
  1,2,5,6: destruct Hb as [Hb|]; [|done];
    rewrite bool_decide_eq_false_2 in E by done; cbn [negb] in E.
  - injection E as <-. by rewrite lookup_insert_eq.
  - injection E as <-. by rewrite lookup_insert_eq.
  - injection E as <-. by rewrite lookup_insert_eq.
  - destruct (Property.keyMap p) as [keyMap|]; [|done]. cbn.
    destruct (Object_get keyMap value); injection E as <-;
      by rewrite ?lookup_insert_eq.
  - injection E as <-. by rewrite lookup_insert_eq.
  - injection E as <-. by rewrite lookup_insert_eq.
Qed.

Lemma deserializeProp_absent map s p s1 :
  State.deserializeProp ToNumber map s p = inr s1 →
  map !! Property.name p = None →
  s1 !! Property.name p = s !! Property.name p.
Proof.
  unfold State.deserializeProp. intros E Hv. rewrite Hv in E.
  repeat case_match; by simplify_eq.
Qed.

(** A property of [PROPS], the seed among them, for which the map has a text
    that its case reads. *)
Lemma deserializeState_read hash state p value v :
  State.deserializeState ToNumber fresh_seed hash = inr state →
  p ∈ State.PROPS →
  State.parseHash hash !! Property.name p = Some (Some value) →
  trim value ≠ "" ∨ Property.type p = ARRAY_NUMBER →
  read_value ToNumber p value = Some v → v ≠ VNull →
  state !! Property.name p = Some v.
Proof.
  intros E Hp Hvalue Hb Hread Hnull.
  destruct (deserializeState_steps ToNumber fresh_seed hash state E)
    as (state1 & state2 & shape & E1 & -> & _ & _ & Hseed & Hother).
  destruct (forEachProp_own ToNumber _ _ _ _ _ PROPS_NoDup Hp E1) as (s1 & Es1 & H1).
  rewrite (deserializeProp_read _ _ _ _ _ Es1 Hvalue Hb), Hread in H1.
  pose proof (proj1 (Forall_forall _ _) PROPS_not_hidden p Hp) as (Hh & Hn & _).
  assert (Property.name p ∉ State.getHideProps (State.parseHash hash)) as Hhide.
  { intros Hin. apply getHideProps_endsWith in Hin. congruence. }
  destruct (decide (Property.name p = "seed")) as [Hs|Hs].
  - rewrite Hs in *. rewrite hide_loop_other in Hseed by done.
    rewrite Hseed, H1. by destruct v.
  - rewrite Hother by done. by rewrite hide_loop_other.
Qed.

(** A property of [PROPS] with a default for which the map has nothing. *)
Lemma deserializeState_unread hash state p :
  State.deserializeState ToNumber fresh_seed hash = inr state →
  p ∈ State.PROPS → Property.name p ≠ "seed" →
  State.parseHash hash !! Property.name p = None →
  state !! Property.name p = State.new !! Property.name p.
Proof.
  intros E Hp Hs Hvalue.
  destruct (deserializeState_prop ToNumber fresh_seed hash state p E Hp Hs)
    as (s1 & E1 & ->).
  by apply (deserializeProp_absent _ _ _ _ E1).
Qed.
End read_back.

Lemma PROPS_names :
  Forall (λ p, occurs "=" (Property.name p) = false ∧ Property.name p ≠ "")
         State.PROPS.
Proof.
  unfold State.PROPS. repeat apply Forall_cons_2; try apply Forall_nil_2;
    (split; [reflexivity|discriminate]).
Qed.

Lemma PROPS_not_proto :
  Forall (λ p, Property.name p ≠ "__proto__") State.PROPS.
Proof.
  unfold State.PROPS. repeat apply Forall_cons_2; try apply Forall_nil_2; discriminate.
Qed.

(** The tables can be read in both directions, and the only [null] among
    their values is the default of its property. *)
Lemma PROPS_tables :
  Forall (λ p, ∀ keyMap, Property.keyMap p = Some keyMap →
            Forall (λ kv, getKeyFromValue keyMap kv.2 = Some kv.1
                          ∧ text_ok kv.1
                          ∧ Object_get keyMap kv.1 = Some kv.2
                          ∧ (kv.2 = VNull →
                             State.new !! Property.name p = Some VNull))
                   keyMap)
         State.PROPS.
Proof.
  unfold State.PROPS. repeat apply Forall_cons_2; try apply Forall_nil_2;
    intros keyMap [= <-];
    repeat apply Forall_cons_2; try apply Forall_nil_2;
    (split; [vm_compute; reflexivity|]);
    (split; [split; [vm_compute; discriminate|reflexivity]|]);
    (split; [vm_compute; reflexivity|]);
    first [discriminate | intros _; vm_compute; reflexivity].
Qed.

Lemma PROPS_typed p :
  p ∈ State.PROPS →
  (Property.type p = STRING → Property.name p = "tutorial" ∨ Property.name p = "seed")
  ∧ Property.type p ≠ ARRAY_STRING
  ∧ (Property.name p = "seed" → Property.type p = STRING).
Proof.
  intros Hp. unfold State.PROPS in Hp. set_unfold.
  destruct_or!; subst; cbn; (split; [|split]); auto; discriminate.
Qed.

Section serialize_facts.
Context (NumberToString : number → string) (ObjectToString : string → string).
Context (this : gmap string Value).

Lemma foldl_push {X} (f : X → string) xs : ∀ props,
  foldl (λ props x, props ++ [f x]) props xs = props ++ (f <$> xs).
Proof.
  induction xs as [|x xs IH]; intros props; cbn [foldl fmap list_fmap].
  - by rewrite app_nil_r.
  - rewrite IH. by rewrite <- app_assoc.
Qed.

Lemma serializeProps_pushed ps : ∀ props parts,
  serializeProps NumberToString ObjectToString this ps props = inr parts →
  parts = props ++ (ps ≫= pushed NumberToString ObjectToString this).
Proof.
  induction ps as [|p ps IH]; intros props parts E; cbn [serializeProps] in E.
  - injection E as <-. by rewrite app_nil_r.
  - rewrite bind_cons. unfold pushed at 1.
    destruct (serializeProp NumberToString ObjectToString this p) as [e|[part|]];
      [done| |].
    + rewrite (IH _ _ E). by rewrite <- app_assoc.
    + by rewrite (IH _ _ E).
Qed.

Lemma serializeParts_spec hidden parts :
  serializeParts NumberToString ObjectToString this hidden = inr parts →
  parts = (State.PROPS ≫= pushed NumberToString ObjectToString this)
          ++ ((λ prop, prop +:+ "=" +:+ ToString_opt NumberToString ObjectToString (this !! prop))
                <$> hidden).
Proof.
  unfold serializeParts. intros E.
  destruct (serializeProps _ _ _ _ _) as [e|props] eqn:Eprops; [done|].
  injection E as <-. apply serializeProps_pushed in Eprops as ->.
  by rewrite foldl_push.
Qed.

Lemma pushed_part p part :
  part ∈ pushed NumberToString ObjectToString this p ↔
  ∃ raw, serializeValue NumberToString ObjectToString this p = inr (Some raw)
         ∧ part = Property.name p +:+ "=" +:+ raw.
Proof.
  unfold pushed, serializeProp.
  destruct (serializeValue _ _ _ _) as [e|[raw|]].
  - split; [by intros ?%elem_of_nil|by intros (? & ? & _)].
  - rewrite list_elem_of_singleton. split.
    + intros ->. by exists raw.
    + by intros (? & [= <-] & ->).
  - split; [by intros ?%elem_of_nil|by intros (? & ? & _)].
Qed.

(** The names of the parts pushed for properties with different names. *)
Lemma pushed_names ps :
  Forall (λ p, occurs "=" (Property.name p) = false) ps →
  NoDup (Property.name <$> ps) →
  NoDup (part_name <$> (ps ≫= pushed NumberToString ObjectToString this))
  ∧ ∀ k, k ∈ part_name <$> (ps ≫= pushed NumberToString ObjectToString this) →
         ∃ p raw, p ∈ ps ∧ Property.name p = k
                  ∧ serializeValue NumberToString ObjectToString this p = inr (Some raw).
Proof.
  induction ps as [|p ps IH]; intros Hfree Hnd.
  - split; [constructor|]. by intros k ?%elem_of_nil.
  - apply Forall_cons in Hfree as [Hp Hfree]. rewrite fmap_cons in Hnd.
    apply NoDup_cons in Hnd as [Hnp Hnd]. destruct (IH Hfree Hnd) as [IH1 IH2].
    rewrite bind_cons, fmap_app.
    assert (∀ k, k ∈ part_name <$> pushed NumberToString ObjectToString this p →
                 k = Property.name p
                 ∧ ∃ raw, serializeValue NumberToString ObjectToString this p
                          = inr (Some raw)) as Hhead.
    { intros k (part & -> & (raw & Hraw & ->)%pushed_part)%list_elem_of_fmap.
      split; [by apply part_name_value|by exists raw]. }
    split.
    + apply NoDup_app. split; [|split; [|done]].
      * unfold pushed. destruct (serializeProp _ _ _ _) as [e|[part|]]; cbn;
          try constructor; [by intros ?%elem_of_nil|constructor].
      * intros k [-> _]%Hhead (p' & raw & Hp' & Hk & _)%IH2.
        apply Hnp. rewrite <- Hk. by apply list_elem_of_fmap_2.
    + intros k [[-> [raw Hraw]]%Hhead|(p' & raw & Hp' & Hk & Hraw)%IH2]%elem_of_app.
      * exists p, raw. by repeat split; [left|..].
      * exists p', raw. by repeat split; [right|..].
Qed.
End serialize_facts.

Lemma ToString_numbers NumberToString ObjectToString xs :
  ToString NumberToString ObjectToString (VArray (VNumber <$> xs))
  = join "," (NumberToString <$> xs).
Proof.
  cbn [ToString]. f_equal. induction xs as [|x xs IH]; [done|].
  cbn [fmap list_fmap] in *. by rewrite IH.
Qed.

Lemma hideProps_spec {A} (obj : gmap string A) :
  NoDup (hideProps obj)
  ∧ ∀ prop, prop ∈ hideProps obj
            ↔ is_Some (obj !! prop) ∧ endsWith prop HIDE_STATE_SUFFIX = true.
Proof.
  unfold hideProps. split.
  - apply NoDup_filter, NoDup_fst_map_to_list.
  - intros prop. rewrite list_elem_of_filter, list_elem_of_fmap. split.
    + intros [He ([k v] & -> & Hin)]. apply elem_of_map_to_list in Hin. cbn in *.
      split; [by eexists|]. by destruct (endsWith k HIDE_STATE_SUFFIX).
    + intros [[v Hv] He]. split; [by rewrite He|].
      exists (prop, v). split; [done|]. by apply elem_of_map_to_list.
Qed.

Section round_trip.
Context (NumberToString : number → string) (ObjectToString : string → string).
Context (ToNumber : string → number) (fresh_seed : string).

(** X19. From [serialize] to [deserializeState].  Let [serialize] build its
    parts without throwing, no part holding a ["&"] and no property ending in
    [_hide] holding a ["="] in its name.  Then [deserializeState], on the hash
    that is ["#"] and the string [serialize] made, returns a state in which
    every property of [PROPS] has the value it had, if that value is a
    boolean, a number or string whose text reads back, a value of the
    property's table, or an array of such numbers; and every boolean under a
    name ending in [_hide] has the value it had. *)
Theorem serialize_deserialize this hidden props :
  serializeParts NumberToString ObjectToString this hidden = inr props →
  hidden ≡ₚ hideProps this →
  Forall (λ part, occurs "&" part = false) props →
  Forall (λ prop, occurs "=" prop = false) hidden →
  ∃ hash state,
    serialize NumberToString ObjectToString this hidden = inr hash
    ∧ State.deserializeState ToNumber fresh_seed (String "#" hash) = inr state
    ∧ (∀ p v, p ∈ State.PROPS → this !! Property.name p = Some v →
         reads_back NumberToString ToNumber p v → state !! Property.name p = Some v)
    ∧ (∀ prop b, prop ∈ hidden → this !! prop = Some (VBool b) →
         state !! prop = Some (VBool b)).
Proof.
  intros Hser Hperm Hamp Heq.
  exists (join "&" props). unfold serialize. rewrite Hser.
  apply serializeParts_spec in Hser.
  set (hide_part := λ prop,
         prop +:+ "=" +:+ ToString_opt NumberToString ObjectToString (this !! prop)) in Hser.
  set (hash := String "#" (join "&" props)).
  (* the properties ending in [_hide] *)
  destruct (hideProps_spec this) as [Hnd_hide Hhide_spec].
  assert (NoDup hidden) as Hnd_hidden by (by rewrite Hperm).
  assert (∀ prop, prop ∈ hidden →
            is_Some (this !! prop) ∧ endsWith prop HIDE_STATE_SUFFIX = true) as Hhidden.
  { intros prop Hin. apply Hhide_spec. by rewrite <- Hperm. }
  (* the names of the parts *)
  destruct (pushed_names NumberToString ObjectToString this State.PROPS) as [Hnd_props Hprops].
  { eapply Forall_impl; [apply PROPS_names|]. by intros p [? _]. }
  { apply PROPS_NoDup. }
  assert (part_name <$> (hide_part <$> hidden) = hidden) as Hnames_hidden.
  { clear -Heq. induction Heq as [|prop hidden Hprop _ IH]; [done|].
    rewrite !fmap_cons, IH. f_equal. by apply part_name_value. }
  assert (NoDup (part_name <$> props)) as Hnd.
  { rewrite Hser, fmap_app, Hnames_hidden. apply NoDup_app. split; [done|]. split; [|done].
    intros k (p & raw & Hp & <- & _)%Hprops [_ He]%Hhidden.
    pose proof (proj1 (Forall_forall _ _) PROPS_not_hidden p Hp) as (Hh & _). congruence. }
  assert (Forall (λ part, part_name part ≠ "__proto__") props) as Hproto.
  { apply Forall_forall. intros part Hin Hname.
    assert (part_name part ∈ part_name <$> props) as Hk by (by apply list_elem_of_fmap_2).
    rewrite Hser, fmap_app, Hnames_hidden, elem_of_app, Hname in Hk.
    destruct Hk as [(p & raw & Hp & Hk & _)%Hprops|[_ He]%Hhidden]; [|discriminate He].
    by apply (proj1 (Forall_forall _ _) PROPS_not_proto p Hp). }
  (* every part has a value *)
  assert (∀ part, part ∈ props → ∃ name raw,
            part = name +:+ "=" +:+ raw ∧ occurs "=" name = false) as Hparts.
  { intros part. rewrite Hser, elem_of_app, list_elem_of_bind, list_elem_of_fmap.
    intros [(p & (raw & _ & ->)%pushed_part & Hp)|(prop & -> & Hin)].
    - exists (Property.name p), raw. split; [done|].
      by apply (proj1 (Forall_forall _ _) PROPS_names p Hp).
    - eexists prop, _. split; [done|]. by apply (proj1 (Forall_forall _ _) Heq). }
  (* the map *)
  assert (∀ name raw, name ≠ "" → occurs "=" name = false →
            name +:+ "=" +:+ raw ∈ props →
            ∃ value, State.parseHash hash !! name = Some (Some value)
                     ∧ (occurs "=" raw = false → value = raw)) as Hmap.
  { intros name raw Hne Hname Hin.
    destruct (part_name_value name raw Hname) as [Hn (value & Hv & Hraw)].
    exists value. split; [|done]. unfold hash.
    rewrite parseHash_join by done. rewrite <- Hn at 1. rewrite <- Hv.
    by apply (foldl_insert_NoDup part_name part_value). }
  assert (∀ name, name ≠ "" → State.parseHash hash !! name ≠ Some None) as Hsome.
  { intros name Hne. unfold hash. rewrite parseHash_join by done.
    intros [H|(part & Hin & _ & Hv)]%foldl_insert_elem; [done|].
    destruct (Hparts part Hin) as (name' & raw & -> & Hname').
    destruct (part_name_value name' raw Hname') as [_ (value & Hvalue & _)]. congruence. }
  assert (∀ p, p ∈ State.PROPS →
            serializeValue NumberToString ObjectToString this p = inr None →
            State.parseHash hash !! Property.name p = None) as Hnone.
  { intros p Hp Hvalue.
    pose proof (proj1 (Forall_forall _ _) PROPS_names p Hp) as [_ Hne].
    unfold hash. rewrite parseHash_join by done.
    rewrite foldl_insert_notin; [done|].
    rewrite Hser, fmap_app, Hnames_hidden, elem_of_app.
    intros [(p' & raw & Hp' & Hk & Hraw)%Hprops|[_ He]%Hhidden].
    - assert (p' = p) as ->; [|congruence].
      clear -Hp Hp' Hk. pose proof PROPS_NoDup as Hnd.
      apply list_elem_of_lookup in Hp as [i Hi]. apply list_elem_of_lookup in Hp' as [j Hj].
      assert (i = j) as ->; [|congruence].
      apply (NoDup_lookup _ _ _ (Property.name p) Hnd); rewrite list_lookup_fmap.
      + by rewrite Hi.
      + by rewrite Hj, <- Hk.
    - pose proof (proj1 (Forall_forall _ _) PROPS_not_hidden p Hp) as (Hh & _). congruence. }
  assert (∀ p raw, p ∈ State.PROPS →
            serializeValue NumberToString ObjectToString this p = inr (Some raw) →
            occurs "=" raw = false →
            State.parseHash hash !! Property.name p = Some (Some raw)) as Hprop.
  { intros p raw Hp Hvalue Hraw.
    pose proof (proj1 (Forall_forall _ _) PROPS_names p Hp) as [Hname Hne].
    destruct (Hmap (Property.name p) raw Hne Hname) as (value & Hv & Hr).
    - rewrite Hser, elem_of_app, list_elem_of_bind. left. exists p. split; [|done].
      apply pushed_part. by exists raw.
    - by rewrite Hv, (Hr Hraw). }
  (* the state *)
  destruct (deserializeState_returns ToNumber fresh_seed hash) as [state E].
  { by apply Hsome. }
  exists state. split; [done|]. split; [done|]. split.
  - intros p v Hp Hv Hback.
    destruct (PROPS_typed p Hp) as (Hstring & Harray & Hseed).
    unfold reads_back in Hback.
    assert (∀ raw, serializeValue NumberToString ObjectToString this p = inr (Some raw) →
              text_ok raw ∨ (Property.type p = ARRAY_NUMBER ∧ occurs "=" raw = false) →
              read_value ToNumber p raw = Some v → v ≠ VNull →
              state !! Property.name p = Some v) as Hread.
    { intros raw Hraw Hok Hrv Hnull.
      apply (deserializeState_read ToNumber fresh_seed hash state p raw v E Hp);
        [|destruct Hok as [[? _]|[? _]]; [by left|by right]|done..].
      apply Hprop; [done..|]. by destruct Hok as [[_ ?]|[_ ?]]. }
    unfold serializeValue, read_value in Hread. rewrite Hv in Hread.
    destruct (Property.type p) eqn:Ht.
    + destruct Hback as (s & -> & Hs). apply (Hread s); [done|by left|done..].
    + destruct Hback as (x & -> & Hx & Hback).
      apply (Hread (NumberToString x)); [done|by left|by rewrite Hback|done].
    + destruct Hback as (xs & -> & Hxs & Hblank).
      assert (occurs "=" (join "," (NumberToString <$> xs)) = false) as Hfree.
      { apply occurs_join; [done|]. apply Forall_fmap.
        eapply Forall_impl; [exact Hxs|]. by intros x (_ & ? & _). }
      apply (Hread (join "," (NumberToString <$> xs)));
        [by rewrite ToString_numbers|by right| |done].
      do 2 f_equal. unfold State.parseArray.
      destruct xs as [|x xs]; [done|].
      destruct Hblank as [|Hblank]; [done|].
      rewrite bool_decide_eq_false_2 by done.
      rewrite split_join; [| done |].
      2:{ apply Forall_fmap. eapply Forall_impl; [exact Hxs|]. by intros ? (? & _). }
      rewrite <- list_fmap_compose. clear -Hxs.
      induction Hxs as [|y ys (_ & _ & Hy) _ IH]; [done|].
      rewrite !fmap_cons, IH. cbn. by rewrite Hy.
    + done.
    + destruct Hback as (b & ->).
      apply (Hread (if b then "true" else "false")); [by destruct b| |by destruct b|done].
      left. destruct b; split; first [reflexivity | vm_compute; discriminate].
    + destruct Hback as (keyMap & key & Hk & Hin).
      pose proof (proj1 (Forall_forall _ _)
                    (proj1 (Forall_forall _ _) PROPS_tables p Hp keyMap Hk) _ Hin)
        as (Hkey & Hok & Hlook & Hdefault).
      cbn [fst snd] in *. rewrite Hk in Hread. cbn in Hread.
      assert (v = VNull ∨ v ≠ VNull) as [->|Hnull]
        by (destruct v; [by left|by right..]).
      * rewrite (deserializeState_unread ToNumber fresh_seed hash state p E Hp); [by auto| |].
        -- intros Hn. apply Hseed in Hn. congruence.
        -- apply Hnone; [done|]. unfold serializeValue. by rewrite Hv.
      * apply (Hread key); [|by left|done..].
        rewrite Hkey. by destruct v.
  - intros prop b Hin Hb.
    destruct (Hhidden prop Hin) as [_ He].
    destruct (Hmap prop (if b then "true" else "false")) as (value & Hvalue & Hraw).
    { intros ->. discriminate He. }
    { by apply (proj1 (Forall_forall _ _) Heq). }
    { rewrite Hser, elem_of_app, list_elem_of_fmap. right. exists prop. split; [|done].
      unfold hide_part. rewrite Hb. by destruct b. }
    rewrite Hraw in Hvalue by (by destruct b).
    destruct (deserializeState_steps ToNumber fresh_seed hash state E)
      as (state1 & state2 & shape & E1 & -> & _ & _ & _ & Hother).
    rewrite Hother by (intros ->; discriminate He).
    rewrite hide_loop_hit by (apply getHideProps_spec; by rewrite Hvalue).
    rewrite Hvalue. by destruct b.
Qed.
End round_trip.

Lemma serialize_deserialize_witness :
  ∃ state,
    State.deserializeState RoundTrip.ToNumber "0.50000"
      "#activation=relu&noise=0.5&networkShape=3,2&x=false&noise_hide=true" = inr state
    ∧ state !! "x" = Some (VBool false)
    ∧ state !! "noise" = Some (VNumber 0.5)
    ∧ state !! "activation" = Some (VObject "nn.Activations.RELU")
    ∧ state !! "regularization" = Some VNull
    ∧ state !! "networkShape" = Some (VArray [VNumber 3; VNumber 2])
    ∧ state !! "noise_hide" = Some (VBool true).
Proof.
  assert (hideProps RoundTrip.this = ["noise_hide"]) as Hhide by (vm_compute; reflexivity).
  destruct (serialize_deserialize RoundTrip.NumberToString RoundTrip.ObjectToString
              RoundTrip.ToNumber "0.50000" RoundTrip.this ["noise_hide"] RoundTrip.props)
    as (hash & state & Hhash & E & Hprops & Hhidden).
  { vm_compute; reflexivity. }
  { by rewrite Hhide. }
  { repeat constructor. }
  { repeat constructor. }
  assert (serialize RoundTrip.NumberToString RoundTrip.ObjectToString RoundTrip.this
            ["noise_hide"]
          = inr "activation=relu&noise=0.5&networkShape=3,2&x=false&noise_hide=true")
    as Hs by (vm_compute; reflexivity).
  rewrite Hs in Hhash. injection Hhash as <-.
  exists state. split; [exact E|].
  split; [|split; [|split; [|split; [|split]]]].
  - apply (Hprops (Property.mk "x" BOOLEAN None));
      [unfold State.PROPS; repeat constructor | vm_compute; reflexivity | by exists false].
  - apply (Hprops (Property.mk "noise" NUMBER None));
      [unfold State.PROPS; repeat constructor | vm_compute; reflexivity |].
    exists 0.5%float. split; [reflexivity|]. split; [|vm_compute; reflexivity].
    split; [vm_compute; discriminate|vm_compute; reflexivity].
  - apply (Hprops (Property.mk "activation" OBJECT (Some activations)));
      [unfold State.PROPS; repeat constructor | vm_compute; reflexivity |].
    exists activations, "relu". split; [reflexivity|]. unfold activations. repeat constructor.
  - apply (Hprops (Property.mk "regularization" OBJECT (Some regularizations)));
      [unfold State.PROPS; repeat constructor | vm_compute; reflexivity |].
    exists regularizations, "none". split; [reflexivity|].
    unfold regularizations. repeat constructor.
  - apply (Hprops (Property.mk "networkShape" ARRAY_NUMBER None));
      [unfold State.PROPS; repeat constructor | vm_compute; reflexivity |].
    exists [3%float; 2%float]. split; [reflexivity|]. split.
    + repeat constructor.
    + right. vm_compute. discriminate.
  - apply (Hhidden "noise_hide" true); [repeat constructor | vm_compute; reflexivity].
Defined.

(** ** Hiding controls *)

Ltac ascii_cases :=
  repeat match goal with
         | |- context [Ascii.ascii_dec ?a ?b] =>
           destruct (Ascii.ascii_dec a b); try discriminate; try done
         | H : context [Ascii.ascii_dec ?a ?b] |- _ =>
           destruct (Ascii.ascii_dec a b); try discriminate; try done
         end.

(** An occurrence of the suffix at the start of [x + "_hide"] lies in [x],
    unless [x] is empty. *)
Lemma prefix_hide_app x :
  x ≠ "" → String.prefix HIDE_STATE_SUFFIX (x +:+ HIDE_STATE_SUFFIX) = true →
  ∃ y, x = HIDE_STATE_SUFFIX +:+ y.
Proof.
  unfold HIDE_STATE_SUFFIX.
  destruct x as [|c1 [|c2 [|c3 [|c4 [|c5 x]]]]]; [done|..]; intros _;
    lazy [String.append String.prefix]; intros H; ascii_cases.
  subst. by exists x.
Qed.

Lemma prefix_app p y : String.prefix p (p +:+ y) = true.
Proof.
  induction p as [|a p IH].
  - by destruct y.
  - change (String a p +:+ y) with (String a (p +:+ y)). cbn [String.prefix].
    by destruct (Ascii.ascii_dec a a).
Qed.

Lemma remove_first_app name :
  includes HIDE_STATE_SUFFIX name = false →
  remove_first HIDE_STATE_SUFFIX (name +:+ HIDE_STATE_SUFFIX) = name.
Proof.
  induction name as [|c name IH]; [done|].
  cbn [includes]. intros [Hp Hi]%orb_false_elim.
  change (String c name +:+ HIDE_STATE_SUFFIX) with (String c (name +:+ HIDE_STATE_SUFFIX)).
  cbn [remove_first].
  destruct (String.prefix HIDE_STATE_SUFFIX (String c (name +:+ HIDE_STATE_SUFFIX)))
    eqn:Hprefix.
  - destruct (prefix_hide_app (String c name)) as [y Hy]; [done|done|].
    rewrite Hy, prefix_app in Hp. discriminate Hp.
  - by rewrite IH.
Qed.

Lemma includes_app_r pat y : includes pat (y +:+ pat) = true.
Proof.
  induction y as [|c y IH].
  - change ("" +:+ pat) with pat. destruct pat as [|c pat]; [done|].
    cbn [includes]. apply orb_true_iff. left.
    assert (∀ s, s +:+ "" = s) as Happ.
    { clear. induction s as [|a s IH]; [done|].
      change (String a s +:+ "") with (String a (s +:+ "")). by rewrite IH. }
    rewrite <- (Happ (String c pat)) at 2. apply prefix_app.
  - change (String c y +:+ pat) with (String c (y +:+ pat)). cbn [includes].
    rewrite IH. apply orb_true_r.
Qed.

Lemma app_string_assoc a b c : (a +:+ b) +:+ c = a +:+ (b +:+ c).
Proof.
  induction a as [|x a IH]; [done|].
  change (String x a +:+ b) with (String x (a +:+ b)).
  change (String x (a +:+ b) +:+ c) with (String x ((a +:+ b) +:+ c)).
  by rewrite IH.
Qed.

Lemma substring_drop_prefix p s m :
  String.length s ≤ m → String.substring (String.length p) m (p +:+ s) = s.
Proof.
  intros Hm. induction p as [|a p IH].
  - by apply substring_all.
  - change (String a p +:+ s) with (String a (p +:+ s)). cbn. apply IH.
Qed.

Lemma remove_first_inv x : ∀ name,
  remove_first HIDE_STATE_SUFFIX (x +:+ HIDE_STATE_SUFFIX) = name →
  includes HIDE_STATE_SUFFIX name = false →
  x = name.
Proof.
  induction x as [|c x IH]; intros name Hremove Hname.
  - by rewrite <- Hremove.
  - change (String c x +:+ HIDE_STATE_SUFFIX) with (String c (x +:+ HIDE_STATE_SUFFIX))
      in Hremove.
    cbn [remove_first] in Hremove.
    destruct (String.prefix HIDE_STATE_SUFFIX (String c (x +:+ HIDE_STATE_SUFFIX)))
      eqn:Hprefix.
    + destruct (prefix_hide_app (String c x)) as [y Hy]; [done|done|].
      exfalso. revert Hname. rewrite <- Hremove.
      change (String c (x +:+ HIDE_STATE_SUFFIX)) with (String c x +:+ HIDE_STATE_SUFFIX).
      rewrite Hy, app_string_assoc.
      rewrite substring_drop_prefix by (rewrite !length_app_string; lia).
      by rewrite includes_app_r.
    + subst name. cbn [includes] in Hname. apply orb_false_elim in Hname as [_ Hname].
      f_equal. by apply IH.
Qed.

Section hidden.
Context (NumberToString : number → string) (ObjectToString : string → string).

(** A name without [_hide] in it is listed by [getHiddenProps] exactly when
    the property of that name followed by [_hide] holds a value whose text
    is ["true"]. *)
Lemma getHiddenProps_elem (this : gmap string Value) props name :
  includes HIDE_STATE_SUFFIX name = false →
  props ≡ₚ (map_to_list this).*1 →
  name ∈ getHiddenProps NumberToString ObjectToString this props
  ↔ ∃ v, this !! (name +:+ HIDE_STATE_SUFFIX) = Some v
         ∧ ToString NumberToString ObjectToString v = "true".
Proof.
  intros Hname Hprops. unfold getHiddenProps.
  rewrite list_elem_of_fmap. setoid_rewrite list_elem_of_filter.
  assert (∀ prop, prop ∈ props ↔ is_Some (this !! prop)) as Hkeys.
  { intros prop. rewrite Hprops, list_elem_of_fmap. split.
    - intros ([k v] & -> & Hin%elem_of_map_to_list). by eexists.
    - intros [v Hv]. exists (prop, v). split; [done|]. by apply elem_of_map_to_list. }
  split.
  - intros (prop & Hremove & [He Htrue] & [v Hv]%Hkeys).
    apply endsWith_inv in He as [x ->]; [|done].
    symmetry in Hremove. apply remove_first_inv in Hremove as ->; [|done].
    exists v. split; [done|]. by rewrite Hv in Htrue.
  - intros (v & Hv & Htrue). exists (name +:+ HIDE_STATE_SUFFIX).
    split; [by rewrite remove_first_app|]. split.
    + split; [by apply endsWith_app|]. by rewrite Hv.
    + apply Hkeys. by eexists.
Qed.

(** X20. Hiding a control and asking which are hidden.  For a name without
    [_hide] in it, after [setHideProperty(name, hidden)] the list of
    [getHiddenProps()] holds [name] exactly when [hidden] is [true]; and any
    other such name is in the list exactly when it was before. *)
Theorem setHideProperty_getHiddenProps this name hidden props :
  includes HIDE_STATE_SUFFIX name = false →
  props ≡ₚ (map_to_list (setHideProperty name hidden this)).*1 →
  (name ∈ getHiddenProps NumberToString ObjectToString
            (setHideProperty name hidden this) props
   ↔ hidden = true)
  ∧ ∀ other props0,
      other ≠ name → includes HIDE_STATE_SUFFIX other = false →
      props0 ≡ₚ (map_to_list this).*1 →
      other ∈ getHiddenProps NumberToString ObjectToString
                (setHideProperty name hidden this) props
      ↔ other ∈ getHiddenProps NumberToString ObjectToString this props0.
Proof.
  intros Hname Hprops. split.
  - rewrite getHiddenProps_elem by done. unfold setHideProperty.
    rewrite lookup_insert_eq. split.
    + intros (v & [= <-] & Htrue). by destruct hidden.
    + intros ->. by exists (VBool true).
  - intros other props0 Hother Hname' Hprops0.
    rewrite !getHiddenProps_elem by done. unfold setHideProperty.
    rewrite lookup_insert_ne; [done|].
    intros Heq. apply Hother.
    rewrite <- (remove_first_app other), <- (remove_first_app name) by done.
    by rewrite Heq.
Qed.
End hidden.

Lemma setHideProperty_getHiddenProps_witness :
  "noise" ∈ getHiddenProps RoundTrip.NumberToString RoundTrip.ObjectToString
              (setHideProperty "noise" true ∅)
              (map_to_list (setHideProperty "noise" true ∅)).*1
  ∧ "noise" ∉ getHiddenProps RoundTrip.NumberToString RoundTrip.ObjectToString
                (setHideProperty "noise" false RoundTrip.this)
                (map_to_list (setHideProperty "noise" false RoundTrip.this)).*1.
Proof.
  assert (includes HIDE_STATE_SUFFIX "noise" = false) as Hname by reflexivity.
  split.
  - destruct (setHideProperty_getHiddenProps RoundTrip.NumberToString
                RoundTrip.ObjectToString ∅ "noise" true
                (map_to_list (setHideProperty "noise" true ∅)).*1 Hname) as [H _];
      [reflexivity|].
    by apply H.
  - destruct (setHideProperty_getHiddenProps RoundTrip.NumberToString
                RoundTrip.ObjectToString RoundTrip.this "noise" false
                (map_to_list (setHideProperty "noise" false RoundTrip.this)).*1 Hname)
      as [H _]; [reflexivity|].
    intros Hin. apply H in Hin. discriminate Hin.
Defined.

(** * heatmap.ts *)

(** A loop that counts in steps, with an invariant: enough fuel lets it
    finish. *)
Lemma for_loop_inv {S} (I : nat → S → Prop) step count
    (body : nat → S → option (exn + S)) :
  0 < step →
  (∀ a s, a < count → I a s → ∃ s', body (a * step) s = Some (inr s') ∧ I (a + 1) s') →
  ∀ fuel s, count < fuel → I 0 s →
  ∃ s', for_loop fuel 0 (count * step) step body s = Some (inr s') ∧ I count s'.
Proof.
  intros Hstep Hbody.
  assert (∀ d c fuel s, c + d = count → d < fuel → I c s →
            ∃ s', for_loop fuel (c * step) (count * step) step body s = Some (inr s')
                  ∧ I count s') as H.
  { induction d as [|d IH]; intros c fuel s Hc Hfuel Hs.
    - destruct fuel as [|fuel]; [lia|]. cbn [for_loop].
      assert (c = count) as -> by lia. rewrite Nat.ltb_irrefl. by exists s.
    - destruct fuel as [|fuel]; [lia|]. cbn [for_loop].
      assert ((c * step <? count * step)%nat = true) as -> by (apply Nat.ltb_lt; nia).
      destruct (Hbody c s) as (s' & -> & Hs'); [lia|done|].
      replace (c * step + step) with ((c + 1) * step) by lia.
      apply IH; [lia|lia|done]. }
  intros fuel s Hfuel Hs. apply (H count 0); [lia|done|done].
Qed.

Lemma array_set_next {A} (xs : list (option A)) i n (x : A) :
  i = length xs →
  array_set i x (xs ++ replicate (S n) None) = (xs ++ [Some x]) ++ replicate n None.
Proof.
  intros ->. unfold array_set. rewrite length_app, length_replicate.
  assert ((length xs <? length xs + S n)%nat = true) as -> by (apply Nat.ltb_lt; lia).
  rewrite insert_app_r_alt by lia. rewrite Nat.sub_diag. cbn.
  by rewrite <- app_assoc.
Qed.

Lemma array_set_same {A} (xs : list (option A)) i n (x y : A) :
  i = length xs →
  array_set i y (xs ++ Some x :: replicate n None) = xs ++ Some y :: replicate n None.
Proof.
  intros ->. unfold array_set. rewrite length_app. cbn [length].
  assert ((length xs <? length xs + S (length (replicate n (@None A))))%nat = true) as ->
    by (apply Nat.ltb_lt; lia).
  rewrite insert_app_r_alt by lia. by rewrite Nat.sub_diag.
Qed.

Section reduce.
Context (matrix : list (list number)) (factor : nat).
Context (Hfactor : 0 < factor) (Hdiv : length matrix mod factor = 0).

Lemma reduce_size : length matrix / factor * factor = length matrix.
Proof.
  pose proof (Nat.div_mod (length matrix) factor). lia.
Qed.

(** The two inner loops sum the block. *)
Lemma reduce_block fuel a b :
  factor < fuel → a < length matrix / factor → b < length matrix / factor →
  for_loop fuel 0 factor 1 (λ k avg,
    for_loop fuel 0 factor 1 (λ l avg,
      match matrix !! (a * factor + k)%nat with
      | None => Some (inl TypeError)
      | Some row =>
        Some (inr (avg + default undefined_number (row !! (b * factor + l)%nat))%float)
      end) avg) 0%float
  = Some (inr (block_sum matrix factor a b)).
Proof.
  intros Hfuel Ha Hb. pose proof reduce_size as Hsize.
  destruct (for_loop_inv
              (λ k avg, avg = foldl (λ avg k,
                 foldl (λ avg l,
                   (avg + default undefined_number
                            (default [] (matrix !! (a * factor + k)%nat)
                               !! (b * factor + l)%nat))%float)
                   avg (seq 0 factor)) 0%float (seq 0 k))
              1 factor
              (λ k avg,
                 for_loop fuel 0 factor 1 (λ l avg,
                   match matrix !! (a * factor + k)%nat with
                   | None => Some (inl TypeError)
                   | Some row =>
                     Some (inr (avg + default undefined_number
                                        (row !! (b * factor + l)%nat))%float)
                   end) avg))
    with (fuel := fuel) (s := 0%float) as (avg & Havg & ->); [lia| |done|done|].
  - intros k avg Hk ->. rewrite Nat.mul_1_r.
    destruct (matrix !! (a * factor + k)%nat) as [row|] eqn:Hrow.
    2:{ apply lookup_ge_None in Hrow. nia. }
    destruct (for_loop_inv
                (λ l avg', avg' = foldl (λ avg l,
                   (avg + default undefined_number (row !! (b * factor + l)%nat))%float)
                   (foldl (λ avg k,
                      foldl (λ avg l,
                        (avg + default undefined_number
                                 (default [] (matrix !! (a * factor + k)%nat)
                                    !! (b * factor + l)%nat))%float)
                        avg (seq 0 factor)) 0%float (seq 0 k))
                   (seq 0 l))
                1 factor
                (λ l avg,
                   Some (inr (avg + default undefined_number
                                      (row !! (b * factor + l)%nat))%float)))
      with (fuel := fuel)
           (s := foldl (λ avg k,
                   foldl (λ avg l,
                     (avg + default undefined_number
                              (default [] (matrix !! (a * factor + k)%nat)
                                 !! (b * factor + l)%nat))%float)
                     avg (seq 0 factor)) 0%float (seq 0 k))
      as (avg' & Havg' & ->); [lia| |done|done|].
    + intros l avg' Hl ->. rewrite Nat.mul_1_r. eexists. split; [done|].
      replace (l + 1) with (S l) by lia. by rewrite seq_S, foldl_app.
    + rewrite Nat.mul_1_r in Havg'. rewrite Havg'. eexists. split; [done|].
      replace (k + 1) with (S k) by lia. rewrite seq_S, foldl_app. cbn [foldl Nat.add].
      by rewrite Hrow.
  - rewrite Nat.mul_1_r in Havg. by rewrite Havg.
Qed.
Lemma for_loop_steps {S} (I : nat → S → Prop) count fuel stop
    (body : nat → S → option (exn + S)) s :
  stop = count * factor →
  (∀ a s, a < count → I a s → ∃ s', body (a * factor) s = Some (inr s') ∧ I (a + 1) s') →
  count < fuel → I 0 s →
  ∃ s', for_loop fuel 0 stop factor body s = Some (inr s') ∧ I count s'.
Proof.
  intros -> Hbody Hfuel Hs. by apply (for_loop_inv I factor count body).
Qed.

Lemma rows_upto_during a :
  a < length matrix / factor →
  array_set a (new_Array (length matrix / factor)) (rows_upto matrix factor a)
  = rows_during matrix factor a 0.
Proof.
  intros Ha. unfold rows_upto, rows_during, row_upto, new_Array.
  set (m := length matrix / factor) in *.
  replace (m - a) with (S (m - a - 1)) by lia.
  set (prefix := _ <$> seq 0 a).
  assert (length prefix = a) as Hlen by (unfold prefix; by rewrite length_fmap, length_seq).
  rewrite array_set_next by done. rewrite <- app_assoc. cbn.
  by rewrite !Nat.sub_0_r.
Qed.

Lemma rows_during_step a b avg :
  a < length matrix / factor → b < length matrix / factor →
  avg = block_average matrix factor a b →
  rows_during matrix factor a b !! a = Some (Some (row_upto matrix factor a b))
  ∧ array_set a (array_set b avg (row_upto matrix factor a b))
      (rows_during matrix factor a b)
    = rows_during matrix factor a (b + 1).
Proof.
  intros Ha Hb ->. unfold rows_during.
  set (m := length matrix / factor) in *.
  set (prefix := _ <$> seq 0 a).
  assert (length prefix = a) as Hlen by (unfold prefix; by rewrite length_fmap, length_seq).
  split.
  - by apply list_lookup_middle.
  - rewrite array_set_same by done. do 3 f_equal.
    unfold row_upto. fold m.
    replace (m - b) with (S (m - (b + 1))) by lia.
    set (done := _ <$> seq 0 b).
    assert (length done = b) as Hdone by (unfold done; by rewrite length_fmap, length_seq).
    rewrite array_set_next by done. f_equal.
    replace (b + 1) with (S b) by lia. by rewrite seq_S, fmap_app.
Qed.

Lemma rows_during_upto a :
  a < length matrix / factor →
  rows_during matrix factor a (length matrix / factor) = rows_upto matrix factor (a + 1).
Proof.
  intros Ha. unfold rows_during, rows_upto.
  set (m := length matrix / factor) in *.
  replace (a + 1) with (S a) by lia. rewrite seq_S, fmap_app, <- app_assoc. cbn.
  do 3 f_equal. lia.
Qed.

Lemma rows_upto_reduced :
  rows_upto matrix factor (length matrix / factor)
  = (λ row : list number, Some (Some <$> row)) <$> reduced matrix factor.
Proof.
  unfold rows_upto, reduced, row_upto. rewrite Nat.sub_diag, app_nil_r.
  rewrite <- list_fmap_compose. apply list_fmap_ext. intros _ a _. cbn.
  by rewrite app_nil_r, <- list_fmap_compose.
Qed.
End reduce.

(** X21. [reduceMatrix(matrix, factor)], for a natural number [factor].
    It throws a [TypeError] on the empty matrix; the "square" error when the
    first row is not as long as the matrix is high (the other rows are not
    looked at); the "divisible" error when [factor] is 0 or does not divide
    the height.  Otherwise it returns a matrix of height/factor rows of
    height/factor numbers, none of them left unassigned, whose entry at row
    [a], column [b] is the sum of the entries of the block at
    [(a*factor, b*factor)], added row after row, divided by the square of
    the factor; an entry that a short row lacks counts as [NaN]. *)
Theorem reduceMatrix_spec fuel matrix factor :
  length matrix < fuel →
  reduceMatrix fuel matrix factor
  = Some (match matrix with
          | [] => inl TypeError
          | row0 :: _ =>
            if bool_decide (length row0 ≠ length matrix)
            then inl (Error not_square_message)
            else if bool_decide (factor = 0 ∨ length matrix mod factor ≠ 0)
            then inl (Error not_divisible_message)
            else inr ((λ row : list number, Some (Some <$> row)) <$> reduced matrix factor)
          end).
Proof.
  intros Hfuel. unfold reduceMatrix. destruct matrix as [|row0 rest]; [done|].
  remember (row0 :: rest) as matrix eqn:Hmatrix.
  assert (matrix !! 0%nat = Some row0) as -> by (by subst).
  assert (0 < length matrix) as Hpos by (subst; cbn; lia).
  clear Hmatrix.
  destruct (length matrix =? length row0)%nat eqn:Hsquare; cbn [negb].
  2:{ apply Nat.eqb_neq in Hsquare.
      rewrite (bool_decide_eq_true_2 (length row0 ≠ length matrix)); [done|].
      intros H. by apply Hsquare. }
  apply Nat.eqb_eq in Hsquare.
  rewrite (bool_decide_eq_false_2 (length row0 ≠ length matrix)) by (intros H; by apply H).
  destruct (factor =? 0)%nat eqn:Hzero; cbn [orb].
  { apply Nat.eqb_eq in Hzero. rewrite bool_decide_eq_true_2; [done|by left]. }
  apply Nat.eqb_neq in Hzero.
  destruct (length matrix mod factor =? 0)%nat eqn:Hdiv; cbn [negb].
  2:{ apply Nat.eqb_neq in Hdiv. rewrite bool_decide_eq_true_2; [done|by right]. }
  apply Nat.eqb_eq in Hdiv.
  rewrite (bool_decide_eq_false_2 (factor = 0 ∨ _)) by (by intros [?|?]).
  assert (0 < factor) as Hfactor by lia.
  pose proof (reduce_size matrix factor Hfactor Hdiv) as Hsize.
  assert (∀ m, m * factor = length matrix → m < fuel ∧ factor < fuel) as Hbound.
  { intros m0 Hm0. split.
    - destruct factor as [|f]; [lia|]. rewrite Nat.mul_succ_r in Hm0. lia.
    - destruct m0 as [|m0]; cbn in Hm0; lia. }
  destruct (Hbound _ Hsize) as [Hm Hf]. clear Hbound.
  lazymatch goal with
  | |- for_loop _ 0 ?stop _ ?body ?s = _ =>
    destruct (for_loop_steps factor Hfactor
                (λ a result, result = rows_upto matrix factor a)
                (length matrix / factor) fuel stop body s)
      as (result & -> & ->)
  end; [done| |done|..].
  - intros a result Ha ->. cbv beta zeta. rewrite Nat.div_mul by lia.
    rewrite rows_upto_during by done.
    lazymatch goal with
    | |- ∃ s', for_loop _ 0 ?stop _ ?body ?s = _ ∧ _ =>
      destruct (for_loop_steps factor Hfactor
                  (λ b result, result = rows_during matrix factor a b)
                  (length matrix / factor) fuel stop body s)
        as (result & -> & ->)
    end; [done| |done|done|].
    + intros b result Hb ->. cbv beta zeta.
      rewrite (reduce_block matrix factor Hfactor Hdiv fuel a b) by done.
      rewrite !Nat.div_mul by lia.
      destruct (rows_during_step matrix factor Hfactor Hdiv a b _ Ha Hb eq_refl)
        as [-> Hset].
      eexists. split; [done|]. exact Hset.
    + eexists. split; [done|]. by apply rows_during_upto.
  - unfold rows_upto, new_Array. cbn. by rewrite Nat.sub_0_r.
  - f_equal. f_equal. apply rows_upto_reduced.
Qed.

Lemma reduceMatrix_spec_witness :
  reduceMatrix 3 [[1; 2]; [3; 4]]%float 2 = Some (inr [Some [Some 2.5%float]])
  ∧ reduceMatrix 3 [[1; 2]; [3]]%float 1
    = Some (inr [Some [Some 1; Some 2]; Some [Some 3; Some nan]]%float).
Proof.
  split.
  - etrans; [apply reduceMatrix_spec; cbn; lia|]. vm_compute. reflexivity.
  - etrans; [apply reduceMatrix_spec; cbn; lia|]. vm_compute. reflexivity.
Defined.

(** * nn.ts: what the propagations leave alone *)

Lemma parameters_alterNode r f h :
  (∀ n, Node.bias (f n) = Node.bias n
        ∧ Node.inputLinks (f n) = Node.inputLinks n
        ∧ Node.activation (f n) = Node.activation n) →
  parameters (alterNode r f h) = parameters h.
Proof.
  intros Hf. unfold parameters; simpl. f_equal.
  rewrite (list_fmap_alter _ f id).
  - by apply list_alter_id.
  - apply Forall_forall. intros n _. cbn. by destruct (Hf n) as (-> & -> & ->).
Qed.

Lemma foldl_parameters {X} (step : Heap → X → Heap) xs :
  (∀ h x, parameters (step h x) = parameters h) →
  ∀ h, parameters (foldl step h xs) = parameters h.
Proof.
  intros Hstep. induction xs as [|x xs IH]; intros h; simpl; [done|].
  by rewrite IH.
Qed.

Lemma parameters_forward_spec network inputs h :
  parameters (forward_spec network inputs h) = parameters h.
Proof.
  unfold forward_spec, set_inputs, forward_layer, forward_node.
  rewrite foldl_parameters.
  - rewrite foldl_parameters; [done|]. intros h' [r x].
    apply parameters_alterNode. by intros [].
  - intros h' layer. rewrite foldl_parameters; [done|]. intros h'' r.
    apply parameters_alterNode. by intros [].
Qed.

Lemma parameters_frame h1 h2 : frame h1 = frame h2 → parameters h1 = parameters h2.
Proof.
  intros [= En El]. unfold parameters. f_equal.
  - trans ((λ n, (Node.bias n, Node.inputLinks n, Node.activation n))
             <$> (node_frame <$> nodes h1)).
    { rewrite <- list_fmap_compose. apply list_fmap_ext. by intros _ [] _. }
    rewrite En, <- list_fmap_compose. apply list_fmap_ext. by intros _ [] _.
  - trans ((λ l, (Link.weight l, Link.source l)) <$> (link_frame <$> links h1)).
    { rewrite <- list_fmap_compose. apply list_fmap_ext. by intros _ [] _. }
    rewrite El, <- list_fmap_compose. apply list_fmap_ext. by intros _ [] _.
Qed.

(** One propagation: the store stays well formed and keeps its
    parameters. *)
Lemma propagation_parameters network outputNode c h :
  wf_heap h → wf_network network h → outputNodeOf network = Some outputNode →
  fits network c → no_update c →
  wf_heap (call c h) ∧ wf_network network (call c h)
  ∧ parameters (call c h) = parameters h.
Proof.
  intros Hwf Hnet Hout [Hc Hfit] Hno.
  destruct c as [network' inputs|network' target errorFunc|network' lr rr];
    simpl in Hc; subst network'; [| |done]; cbn [call].
  - destruct (network !! 0%nat) as [inputLayer|] eqn:H0.
    2:{ destruct network; [done|discriminate H0]. }
    simpl in Hfit.
    destruct (forwardProp_spec network inputs inputLayer outputNode h) as [-> Hs];
      try done.
    cbn [heap_of]. split; [by apply (wf_heap_skeleton h)|].
    split; [by apply (wf_network_skeleton network h)|].
    apply parameters_forward_spec.
  - destruct (backProp_spec network target errorFunc outputNode h) as [-> Hs]; try done.
    cbn [heap_of]. split; [by apply (wf_heap_skeleton h)|].
    split; [by apply (wf_network_skeleton network h)|].
    apply parameters_frame, frame_backward_spec.
Qed.

(** X22. Propagation does not learn.  After any sequence of [forwardProp]
    and [backProp] calls on a network (with inputs of the right length, and
    no [updateWeights] among them), [forwardProp] returns for every input
    what it returned before them: only [updateWeights] changes the function
    the network computes. *)
Theorem propagation_keeps_function network cs inputs inputLayer outputNode h :
  wf_heap h → wf_network network h →
  network !! 0%nat = Some inputLayer → length inputs = length inputLayer →
  outputNodeOf network = Some outputNode →
  NoDup (concat network) → sources_earlier network h →
  Forall (λ c, fits network c ∧ no_update c) cs →
  ∃ y h1 h2,
    forwardProp network inputs h = Ok y h1
    ∧ forwardProp network inputs (calls cs h) = Ok y h2.
Proof.
  intros Hwf Hnet H0 Hlen Hout Hnd Hsrc Hcs.
  assert (wf_heap (calls cs h) ∧ wf_network network (calls cs h)
          ∧ parameters (calls cs h) = parameters h) as (Hwf' & Hnet' & Epar).
  { unfold calls. clear Hlen. revert Hcs.
    induction cs as [|c cs IH] using rev_ind; intros Hcs; [done|].
    apply Forall_app in Hcs as [Hcs [[Hfit Hno] _]%Forall_cons].
    rewrite foldl_app. cbn [foldl]. destruct (IH Hcs) as (IH1 & IH2 & IH3).
    destruct (propagation_parameters network outputNode c _ IH1 IH2 Hout Hfit Hno)
      as (? & ? & Ec).
    split; [done|]. split; [done|]. by rewrite Ec. }
  destruct (forwardProp_spec network inputs inputLayer outputNode h) as [E1 _]; try done.
  destruct (forwardProp_spec network inputs inputLayer outputNode (calls cs h))
    as [E2 _]; try done.
  eexists _, _, _. split; [exact E1|]. rewrite E2. f_equal.
  destruct (outputNodeOf_last network outputNode Hout) as (lastLayer & Hlast & Hin).
  symmetry.
  by apply (forward_spec_parameters network inputs inputLayer h (calls cs h)
              Hnet Hnet' H0 Hlen Hnd Hsrc (eq_sym Epar) _ lastLayer outputNode Hlast).
Qed.

Lemma propagation_keeps_function_witness :
  ∃ h1 h2,
    forwardProp Example.network [1; 1]%float Example.fresh = Ok 0.1375%float h1
    ∧ forwardProp Example.network [1; 1]%float
        (calls [Forward Example.network [0; 1]%float;
                Backward Example.network 0 Example.squareError] Example.fresh)
      = Ok 0.1375%float h2.
Proof.
  destruct (propagation_keeps_function Example.network
              [Forward Example.network [0; 1]%float;
               Backward Example.network 0 Example.squareError]
              [1; 1]%float [0; 1]%nat 4 Example.fresh)
    as (y & h1 & h2 & E1 & E2);
    [compute_done | compute_done | reflexivity | reflexivity | reflexivity
    | compute_done
    | apply sources_earlier_check; vm_compute; exact I
    | repeat constructor |].
  assert (y = 0.1375%float) as ->.
  { assert (forwardProp Example.network [1; 1]%float Example.fresh
            = Ok 0.1375%float Example.propagated) as E0 by (vm_compute; reflexivity).
    congruence. }
  exists h1, h2. split; [exact E1|exact E2].
Defined.

(** * state.ts: when [serialize] throws *)

Section serialize_errors.
Context (NumberToString : number → string) (ObjectToString : string → string).
Context (this : gmap string Value).

Lemma serializeProps_ok ps : ∀ props,
  Forall (λ p, ∃ o, serializeProp NumberToString ObjectToString this p = inr o) ps →
  ∃ parts, serializeProps NumberToString ObjectToString this ps props = inr parts.
Proof.
  induction ps as [|p ps IH]; intros props Hok; [by eexists|].
  apply Forall_cons in Hok as [[o Hp] Hok]. cbn [serializeProps]. rewrite Hp.
  destruct o; by apply IH.
Qed.

Lemma serializeProps_throw ps1 p ps2 e : ∀ props,
  Forall (λ p, ∃ o, serializeProp NumberToString ObjectToString this p = inr o) ps1 →
  serializeProp NumberToString ObjectToString this p = inl e →
  serializeProps NumberToString ObjectToString this (ps1 ++ p :: ps2) props = inl e.
Proof.
  induction ps1 as [|q ps1 IH]; intros props Hok Hp.
  - cbn [app serializeProps]. by rewrite Hp.
  - apply Forall_cons in Hok as [[o Hq] Hok]. cbn [app serializeProps]. rewrite Hq.
    destruct o; by apply IH.
Qed.

Lemma serializeProp_scalar p :
  Property.type p ≠ ARRAY_NUMBER → Property.type p ≠ ARRAY_STRING →
  ∃ o, serializeProp NumberToString ObjectToString this p = inr o.
Proof.
  intros H1 H2. unfold serializeProp, serializeValue.
  destruct (this !! Property.name p) as [[]|], (Property.type p); try done; by eexists.
Qed.

Lemma serializeProp_array name :
  serializeProp NumberToString ObjectToString this (Property.mk name ARRAY_NUMBER None)
  = match this !! name with
    | None | Some VNull => inr None
    | Some (VArray vs) =>
      inr (Some (name +:+ "=" +:+ ToString NumberToString ObjectToString (VArray vs)))
    | Some _ => inl TypeError
    end.
Proof.
  unfold serializeProp, serializeValue. cbn [Property.name Property.type].
  by destruct (this !! name) as [[]|].
Qed.
End serialize_errors.

(** X23. [serialize] throws in one case only: when [networkShape] holds a
    value that is neither [null] nor an array, whose [join] is then no
    function; the exception is a [TypeError].  So it returns on every state
    that [deserializeState] returned. *)
Theorem serialize_throws NumberToString ObjectToString this hidden :
  (serialize NumberToString ObjectToString this hidden = inl TypeError
   ↔ ∃ v, this !! "networkShape" = Some v ∧ v ≠ VNull ∧ ∀ vs, v ≠ VArray vs)
  ∧ (∀ e, serialize NumberToString ObjectToString this hidden = inl e → e = TypeError)
  ∧ (∀ ToNumber fresh_seed hash,
       State.deserializeState ToNumber fresh_seed hash = inr this →
       ∃ str, serialize NumberToString ObjectToString this hidden = inr str).
Proof.
  set (before := take 8 State.PROPS). set (after := drop 9 State.PROPS).
  assert (State.PROPS
          = before ++ Property.mk "networkShape" ARRAY_NUMBER None :: after) as HPROPS
    by reflexivity.
  assert (Forall (λ p, Property.type p ≠ ARRAY_NUMBER ∧ Property.type p ≠ ARRAY_STRING)
            (before ++ after)) as Hscalar.
  { repeat apply Forall_cons_2; try apply Forall_nil_2; by split. }
  apply Forall_app in Hscalar as [Hbefore Hafter].
  assert (∀ ps, Forall (λ p, Property.type p ≠ ARRAY_NUMBER
                             ∧ Property.type p ≠ ARRAY_STRING) ps →
                Forall (λ p, ∃ o, serializeProp NumberToString ObjectToString this p
                                  = inr o) ps) as Hok.
  { intros ps Hps. eapply Forall_impl; [exact Hps|].
    intros p [H1 H2]. by apply serializeProp_scalar. }
  assert (match this !! "networkShape" with
          | None | Some VNull | Some (VArray _) =>
            ∃ str, serialize NumberToString ObjectToString this hidden = inr str
          | Some _ => serialize NumberToString ObjectToString this hidden = inl TypeError
          end) as Hcases.
  { pose proof (serializeProp_array NumberToString ObjectToString this "networkShape")
      as Hshape.
    unfold serialize, serializeParts. rewrite HPROPS.
    destruct (this !! "networkShape") as [[]|];
      try (rewrite (serializeProps_throw _ _ _ before _ after TypeError);
           [done|by apply Hok|done]);
      (destruct (serializeProps_ok NumberToString ObjectToString this
                   (before ++ Property.mk "networkShape" ARRAY_NUMBER None :: after) [])
         as [parts ->]; [|by eexists]);
      (apply Forall_app; split; [by apply Hok|]);
      (apply Forall_cons; split; [by eexists|by apply Hok]). }
  split; [|split].
  - split.
    + intros Hthrow. rewrite Hthrow in Hcases.
      destruct (this !! "networkShape") as [v|]; [|by destruct Hcases].
      exists v. split; [done|].
      destruct v; try (by destruct Hcases); by split.
    + intros (v & Hv & Hnull & Harray). rewrite Hv in Hcases.
      destruct v; try done. by destruct (Harray vs).
  - intros e He. rewrite He in Hcases.
    destruct (this !! "networkShape") as [[]|];
      try (by destruct Hcases); congruence.
  - intros ToNumber fresh_seed hash E.
    destruct (deserializeState_steps ToNumber fresh_seed hash this E)
      as (state1 & state2 & shape & _ & _ & Hshape & _ & _ & Hother).
    rewrite <- Hother in Hshape by done. by rewrite Hshape in Hcases.
Qed.

(** * nn.ts: the ids and activation functions [buildNetwork] gives *)

#[local] Instance same_labels_preorder : PreOrder same_labels.
Proof.
  split; [by intros h|]. intros h1 h2 h3 H12 H23. unfold same_labels in *. congruence.
Qed.

Lemma same_labels_alterNode r f h :
  (∀ n, Node.id (f n) = Node.id n ∧ Node.activation (f n) = Node.activation n) →
  same_labels h (alterNode r f h).
Proof.
  intros Hf. unfold same_labels, labels; simpl.
  rewrite (list_fmap_alter _ f id).
  - by apply list_alter_id.
  - apply Forall_forall. intros n _. cbn. by destruct (Hf n) as [-> ->].
Qed.

Section label_facts.
Context (Math_random : nat → number).
Context (activation outputActivation : ActivationFunction.t).
Context (regularization : option RegularizationFunction.obj).
Context (inputIds : list string) (initZero : bool).

Lemma same_labels_newLink source dest :
  preserves same_labels (newLink Math_random source dest regularization initZero).
Proof.
  intros h. unfold newLink. rewrite bind_run. unfold getNode at 1.
  destruct (nodes h !! source) as [s|]; [|done].
  rewrite bind_run. unfold getNode at 1.
  by destruct (nodes h !! dest) as [d|].
Qed.

Lemma same_labels_link_loop node ps :
  preserves same_labels
    (forEach ps (λ prevNode,
       link ← newLink Math_random prevNode node regularization initZero;
       modifyNode prevNode (λ n, Node.set_outputs (Node.outputs n ++ [link]) n);;
       modifyNode node (λ n, Node.set_inputLinks (Node.inputLinks n ++ [link]) n))).
Proof.
  apply preserves_forEach; [apply _|]. intros prevNode.
  apply preserves_bind; [apply _|apply same_labels_newLink|]. intros link.
  apply preserves_bind; [apply _| |intros _].
  - apply preserves_modifyNode; [apply _|]. intros h.
    apply same_labels_alterNode. by intros [].
  - apply preserves_modifyNode; [apply _|]. intros h.
    apply same_labels_alterNode. by intros [].
Qed.

(** One node: the counter it leaves and the label it adds. *)
Lemma buildNode_labels numLayers (network : list (list nat)) id cur i h :
  wf_network network h →
  ∃ h',
    buildNode Math_random numLayers (length network) network activation
      outputActivation regularization inputIds initZero (id, cur) i h
    = Ok (if (length network =? 0)%nat then id else S id, cur ++ [length (nodes h)]) h'
    ∧ length (nodes h') = S (length (nodes h))
    ∧ labels h'
      = labels h
        ++ [(if (length network =? 0)%nat then inputIds !! i else Some (pretty id),
             if (length network =? numLayers - 1)%nat then outputActivation
             else activation)].
Proof.
  intros Hnet.
  destruct (buildNode_run Math_random numLayers network activation outputActivation
              regularization inputIds initZero id cur i h Hnet)
    as (id' & h' & E & Hlen & _).
  exists h'. revert E. unfold buildNode.
  set (isOutputLayer := (length network =? numLayers - 1)%nat).
  set (isInputLayer := (length network =? 0)%nat).
  set (new := Node.new (if isInputLayer then inputIds !! i else Some (pretty id))
                (if isOutputLayer then outputActivation else activation) initZero).
  set (h1 := mkHeap (nodes h ++ [new]) (links h)).
  assert (labels h1 = labels h ++ [(if isInputLayer then inputIds !! i else Some (pretty id),
                                    if isOutputLayer then outputActivation else activation)])
    as Hlabels1 by (unfold labels, h1; simpl; by rewrite fmap_app).
  rewrite bind_run.
  change (newNode (if isInputLayer then inputIds !! i else Some (pretty id))
            (if isOutputLayer then outputActivation else activation) initZero h)
    with (Ok (length (nodes h)) h1).
  cbv iota beta. rewrite bind_run.
  destruct (1 <=? length network)%nat.
  - destruct (network !! (length network - 1)%nat) as [prevLayer|]; [|by intros ?].
    pose proof (same_labels_link_loop (length (nodes h)) prevLayer h1) as Hloop.
    destruct (forEach prevLayer _ h1) as [[] h2|e h2]; [|by intros ?].
    cbv iota beta. intros [= <- <-]. split; [done|]. split; [done|].
    cbn [heap_of] in Hloop. by rewrite Hloop.
  - cbv iota beta. intros [= <- <-]. by rewrite Hlabels1.
Qed.

(** The nodes of one layer. *)
Lemma buildNodes_labels numLayers (network : list (list nat)) len :
  ∀ start id cur h,
  wf_network network h →
  ∃ h',
    forEachAcc (seq start len) (id, cur)
      (buildNode Math_random numLayers (length network) network activation
         outputActivation regularization inputIds initZero) h
    = Ok (if (length network =? 0)%nat then id else id + len,
          cur ++ seq (length (nodes h)) len) h'
    ∧ length (nodes h') = length (nodes h) + len
    ∧ labels h'
      = labels h
        ++ ((λ i, (if (length network =? 0)%nat then inputIds !! i
                   else Some (pretty (id + (i - start))),
                   if (length network =? numLayers - 1)%nat then outputActivation
                   else activation)) <$> seq start len).
Proof.
  induction len as [|len IH]; intros start id cur h Hnet.
  { exists h. cbn. rewrite !app_nil_r, Nat.add_0_r.
    split; [by destruct (length network =? 0)%nat|]. by split; [lia|]. }
  destruct (buildNode_labels numLayers network id cur start h Hnet)
    as (h1 & E1 & Hlen1 & Hlabels1).
  destruct (IH (S start) (if (length network =? 0)%nat then id else S id)
              (cur ++ [length (nodes h)]) h1) as (h' & E & Hlen & Hlabels).
  { eapply wf_network_grow; [|done]. lia. }
  exists h'. split; [|split].
  - cbn [seq forEachAcc]. rewrite (bind_Ok _ _ _ _ _ E1). rewrite E.
    f_equal. f_equal.
    + destruct (length network =? 0)%nat; [done|lia].
    + rewrite <- app_assoc. simpl. by rewrite Hlen1.
  - lia.
  - rewrite Hlabels, Hlabels1, <- app_assoc. f_equal. cbn [seq fmap list_fmap app].
    rewrite Nat.sub_diag, Nat.add_0_r. f_equal.
    apply list_fmap_ext. intros _ i [Hi _]%list_elem_of_lookup_2%elem_of_seq.
    destruct (length network =? 0)%nat; [done|]. do 3 f_equal. lia.
Qed.
(** One layer. *)
Lemma buildLayer_labels numLayers (network : list (list nat)) id numNodes h :
  wf_network network h →
  ∃ h',
    buildLayer Math_random numLayers activation outputActivation regularization
      inputIds initZero (id, network) numNodes h
    = Ok (if (length network =? 0)%nat then id else id + numNodes,
          network ++ [seq (length (nodes h)) numNodes]) h'
    ∧ length (nodes h') = length (nodes h) + numNodes
    ∧ wf_network (network ++ [seq (length (nodes h)) numNodes]) h'
    ∧ labels h'
      = labels h
        ++ ((λ i, (if (length network =? 0)%nat then inputIds !! i
                   else Some (pretty (id + i)),
                   if (length network =? numLayers - 1)%nat then outputActivation
                   else activation)) <$> seq 0 numNodes).
Proof.
  intros Hnet. unfold buildLayer.
  destruct (buildNodes_labels numLayers network numNodes 0 id [] h Hnet)
    as (h' & E & Hlen & Hlabels).
  exists h'. rewrite bind_run, E. cbv iota beta. simpl.
  split; [done|]. split; [done|]. split.
  - unfold wf_network. apply Forall_app. split.
    + eapply wf_network_grow; [|done]. lia.
    + apply Forall_singleton. apply Forall_forall. intros r Hr.
      apply elem_of_seq in Hr. lia.
  - rewrite Hlabels. f_equal. apply list_fmap_ext. intros _ i _.
    by rewrite Nat.sub_0_r.
Qed.
End label_facts.

Lemma sum_list_app (l k : list nat) : sum_list (l ++ k) = sum_list l + sum_list k.
Proof. induction l as [|x l IH]; cbn; [done|]. rewrite IH. lia. Qed.

(** The nodes below the last layer, seen from a layer under construction. *)
Lemma below_last_spec (built : list nat) numNodes rest :
  let shape := built ++ numNodes :: rest in
  let below_last := sum_list (take (length shape - 1) shape) in
  match rest with
  | [] => below_last = sum_list built
  | _ :: _ => sum_list built + numNodes ≤ below_last
  end.
Proof.
  cbn zeta. rewrite length_app. cbn [length].
  replace (length built + S (length rest) - 1) with (length built + length rest) by lia.
  rewrite take_app_add, sum_list_app. destruct rest as [|x rest]; cbn; lia.
Qed.

Section built_labels.
Context (Math_random : nat → number).
Context (activation outputActivation : ActivationFunction.t).
Context (regularization : option RegularizationFunction.obj).
Context (inputIds : list string) (initZero : bool).
Context (networkShape : list nat).

(** The loop over the layers, from any layer on. *)
Lemma buildLayers_labels rest : ∀ built (network : list (list nat)) id h,
  networkShape = built ++ rest →
  wf_network network h →
  length network = length built →
  length (nodes h) = sum_list built →
  id = S (sum_list built - default 0 (head networkShape)) →
  (∀ r lab, labels h !! r = Some lab →
     lab = label_of networkShape activation outputActivation inputIds r) →
  ∀ r lab,
    labels (heap_of (forEachAcc rest (id, network)
                       (buildLayer Math_random (length networkShape) activation
                          outputActivation regularization inputIds initZero) h))
      !! r = Some lab →
    lab = label_of networkShape activation outputActivation inputIds r.
Proof.
  induction rest as [|numNodes rest IH];
    intros built network id h Hshape Hnet Hlayers Hnodes Hid Hlabels; [done|].
  destruct (buildLayer_labels Math_random activation outputActivation regularization
              inputIds initZero (length networkShape) network id numNodes h Hnet)
    as (h1 & E1 & Hlen1 & Hnet1 & Hlabels1).
  cbn [forEachAcc]. rewrite (bind_Ok _ _ _ _ _ E1).
  apply (IH (built ++ [numNodes])).
  - by rewrite <- app_assoc.
  - done.
  - rewrite !length_app. cbn. lia.
  - rewrite Hlen1, sum_list_app. cbn. lia.
  - rewrite sum_list_app. cbn [sum_list sum_list_with]. rewrite Hlayers.
    destruct built as [|inputs built].
    + rewrite Hshape. cbn. subst id. cbn. f_equal. lia.
    + cbn [length Nat.eqb]. subst id. rewrite Hshape. cbn. lia.
  - intros r lab. rewrite Hlabels1. intros Hr.
    apply lookup_app_Some in Hr as [Hr|[Hge Hr]]; [by apply Hlabels|].
    rewrite list_lookup_fmap in Hr.
    destruct (seq 0 numNodes !! (r - length (labels h))) as [i|] eqn:Hi; [|done].
    assert (length (labels h) = sum_list built) as Hll
      by (unfold labels; by rewrite length_fmap).
    rewrite Hll in *.
    apply lookup_seq in Hi as [-> Hi]. injection Hr as <-.
    cbn [Nat.add] in *. rewrite Hlayers.
    pose proof (below_last_spec built numNodes rest) as Hbelow. cbn zeta in Hbelow.
    rewrite <- Hshape in Hbelow.
    unfold label_of.
    assert ((length built =? length networkShape - 1)%nat
            = (sum_list (take (length networkShape - 1) networkShape) <=? r)%nat) as ->.
    { rewrite Hshape at 1. rewrite length_app. cbn [length].
      destruct rest as [|x rest].
      - rewrite Hbelow. cbn [length].
        replace (length built + 1 - 1) with (length built) by lia.
        rewrite Nat.eqb_refl. symmetry. by apply Nat.leb_le.
      - cbn [length].
        assert ((length built =? length built + S (S (length rest)) - 1)%nat = false) as ->
          by (apply Nat.eqb_neq; lia).
        symmetry. apply Nat.leb_gt. lia. }
    f_equal. destruct built as [|inputs built].
    + cbn [length Nat.eqb]. rewrite Hshape. cbn [app head default]. unfold Datatypes.id.
      cbn in Hge, Hi. assert ((r <? numNodes)%nat = true) as -> by (apply Nat.ltb_lt; lia).
      cbn. by rewrite Nat.sub_0_r.
    + cbn [length Nat.eqb]. rewrite Hshape. cbn [app head default].
      cbn [sum_list sum_list_with] in *. unfold Datatypes.id in *.
      assert ((r <? inputs)%nat = false) as -> by (apply Nat.ltb_ge; lia).
      subst id. rewrite Hshape. cbn [app head default]. unfold Datatypes.id.
      do 2 f_equal. lia.
Qed.

(** X24. The ids and activation functions of a built network.  In the
    store [buildNetwork] leaves, the nodes being numbered in the order of
    their construction: an input node [r] has the id [inputIds[r]]
    ([undefined] when there is none), a later node the decimal count of the
    nodes after the input layer up to it, from ["1"] on; the nodes of the
    last layer have [outputActivation] and all others [activation], so that
    in a network of one layer the input nodes have [outputActivation]. *)
Theorem buildNetwork_labels r n :
  nodes (heap_of (buildNetwork Math_random networkShape activation outputActivation
                    regularization inputIds initZero emptyHeap)) !! r = Some n →
  Node.id n
  = (if (r <? default 0 (head networkShape))%nat then inputIds !! r
     else Some (pretty (r - default 0 (head networkShape) + 1)))
  ∧ Node.activation n
    = (if (sum_list (take (length networkShape - 1) networkShape) <=? r)%nat
       then outputActivation else activation).
Proof.
  intros Hn. unfold buildNetwork in Hn. rewrite bind_run in Hn.
  pose proof (buildLayers_labels networkShape [] [] 1 emptyHeap eq_refl) as Hlabels.
  destruct (forEachAcc networkShape (1, []) _ emptyHeap) as [[id network] h|e h] eqn:E;
    cbn [heap_of] in *.
  - change (nodes h !! r = Some n) in Hn.
    assert (labels h !! r = Some (Node.id n, Node.activation n)) as Hr
      by (unfold labels; by rewrite list_lookup_fmap, Hn).
    apply Hlabels in Hr; [|by constructor|done|done|done|by intros ? ? ?].
    unfold label_of in Hr. by injection Hr as -> ->.
  - assert (labels h !! r = Some (Node.id n, Node.activation n)) as Hr
      by (unfold labels; by rewrite list_lookup_fmap, Hn).
    apply Hlabels in Hr; [|by constructor|done|done|done|by intros ? ? ?].
    unfold label_of in Hr. by injection Hr as -> ->.
Qed.
End built_labels.

Lemma buildNetwork_labels_witness :
  ∃ x out,
    nodes Example.fresh !! 0%nat = Some x
    ∧ nodes Example.fresh !! 4%nat = Some out
    ∧ Node.id x = Some "x" ∧ Node.activation x = Activations.RELU
    ∧ Node.id out = Some "3" ∧ Node.activation out = Activations.LINEAR.
Proof.
  set (x := default (Node.new None Activations.RELU false) (nodes Example.fresh !! 0%nat)).
  set (out := default (Node.new None Activations.RELU false)
                (nodes Example.fresh !! 4%nat)).
  assert (nodes (heap_of (buildNetwork Example.random [2; 2; 1]%nat Activations.RELU
                            Activations.LINEAR (Some RegularizationFunction.L1)
                            ["x"; "y"] false emptyHeap)) !! 0%nat = Some x) as Hx
    by (vm_compute; reflexivity).
  assert (nodes (heap_of (buildNetwork Example.random [2; 2; 1]%nat Activations.RELU
                            Activations.LINEAR (Some RegularizationFunction.L1)
                            ["x"; "y"] false emptyHeap)) !! 4%nat = Some out) as Hout
    by (vm_compute; reflexivity).
  exists x, out.
  split; [vm_compute; reflexivity|]. split; [vm_compute; reflexivity|].
  destruct (buildNetwork_labels _ _ _ _ _ _ _ _ _ Hx) as [Hid Hact].
  destruct (buildNetwork_labels _ _ _ _ _ _ _ _ _ Hout) as [Hid' Hact'].
  split; [exact Hid|]. split; [exact Hact|]. split; [|exact Hact'].
  etrans; [exact Hid'|]. vm_compute. reflexivity.
Defined.

(** * nn.ts: what [updateWeights] leaves alone *)

Lemma fmap_foldl_alter {A B} (F : A → B) (g : A → A) (xs : list nat) :
  (∀ a, F (g a) = F a) →
  ∀ l : list A, F <$> foldl (λ l x, alter g x l) l xs = F <$> l.
Proof.
  intros Hg. induction xs as [|x xs IH]; intros l; [done|].
  cbn [foldl]. rewrite IH. rewrite (list_fmap_alter F g id).
  - by apply list_alter_id.
  - apply Forall_forall. intros a _. apply Hg.
Qed.

Lemma update_bias_frame lr n : update_node_frame (update_bias lr n) = update_node_frame n.
Proof. unfold update_bias. destruct (0 <? _)%float; by destruct n. Qed.

Lemma update_link_frame_eq lr rr l :
  update_link_frame (update_link lr rr l) = update_link_frame l.
Proof.
  unfold update_link. destruct (Link.isDead l); [done|].
  destruct (0 <? _)%float; [|done]. cbv zeta. destruct (_ && _); by destruct l.
Qed.

(** X25. [updateWeights] returns, and writes nothing but the bias of the
    nodes after the first layer and the weight and [isDead] flag of their
    incoming links, with the accumulators and counts it resets: every node
    keeps its id, links, total input, output, derivatives and activation
    function, every link its ends, error derivative and regularization; a
    node of the first layer or of no layer, and a link that comes into no
    node of the later layers, are not written at all.  So every node still
    holds the output the last [forwardProp] gave it. *)
Theorem updateWeights_frame network learningRate regularizationRate h :
  wf_heap h → wf_network network h →
  ∃ h',
    updateWeights network learningRate regularizationRate h = Ok tt h'
    ∧ update_frame h' = update_frame h
    ∧ (∀ r, r ∉ concat (drop 1 network) → nodes h' !! r = nodes h !! r)
    ∧ (∀ link, link ∉ incomingLinks h network → links h' !! link = links h !! link)
    ∧ (∀ r, outputOf h' r = outputOf h r).
Proof.
  intros Hwf Hnet.
  destruct (updateWeights_spec network learningRate regularizationRate h Hwf Hnet)
    as [E _].
  exists (update_spec network learningRate regularizationRate h). split; [done|].
  assert (update_node_frame <$> nodes (update_spec network learningRate regularizationRate h)
          = update_node_frame <$> nodes h) as Hnodes.
  { rewrite nodes_update_spec. apply fmap_foldl_alter, update_bias_frame. }
  split; [|split; [|split]].
  - unfold update_frame. rewrite Hnodes. f_equal.
    rewrite links_update_spec. apply fmap_foldl_alter, update_link_frame_eq.
  - intros r Hr. rewrite nodes_update_spec.
    apply (foldl_alter_lookup_notin id (λ _, update_bias learningRate)).
    by rewrite list_fmap_id.
  - intros link Hlink. rewrite links_update_spec.
    apply (foldl_alter_lookup_notin id (λ _, update_link learningRate regularizationRate)).
    by rewrite list_fmap_id.
  - intros r. unfold outputOf.
    apply (f_equal (λ ns, Node.output <$> ns !! r)) in Hnodes.
    rewrite !list_lookup_fmap in Hnodes.
    destruct (nodes (update_spec _ _ _ _) !! r) as [n'|], (nodes h !! r) as [n|];
      try done.
    simpl in *. injection Hnodes as Hout. by destruct n', n.
Qed.

Lemma updateWeights_frame_witness :
  updateWeights Example.network 0.5 0.5 Example.accumulated = Ok tt Example.pruned
  ∧ outputOf Example.pruned 4 = 0.1375%float.
Proof.
  destruct (updateWeights_frame Example.network 0.5 0.5 Example.accumulated)
    as (h' & E & _ & _ & _ & Hout); [compute_done|compute_done|].
  assert (updateWeights Example.network 0.5 0.5 Example.accumulated = Ok tt Example.pruned)
    as E' by (vm_compute; reflexivity).
  split; [exact E'|].
  assert (h' = Example.pruned) as -> by congruence.
  rewrite Hout. vm_compute. reflexivity.
Defined.

(** * state.ts: from the hash to the hidden controls *)

Lemma new_not_hidden k :
  is_Some (State.new !! k) → endsWith k HIDE_STATE_SUFFIX = false.
Proof.
  intros [v Hv]. apply elem_of_map_to_list in Hv.
  assert (Forall (λ kv, endsWith kv.1 HIDE_STATE_SUFFIX = false) (map_to_list State.new))
    as Hall by (vm_compute; repeat constructor).
  by apply (proj1 (Forall_forall _ _) Hall (k, v)).
Qed.

(** X26. A control is hidden by the hash.  For a name without [_hide] in
    it, [getHiddenProps()] on the state that [deserializeState] returns lists
    the name exactly when the map built from the hash gives [name + "_hide"]
    the value ["true"]. *)
Theorem deserializeState_getHiddenProps NumberToString ObjectToString ToNumber
    fresh_seed hash state props name :
  State.deserializeState ToNumber fresh_seed hash = inr state →
  includes HIDE_STATE_SUFFIX name = false →
  props ≡ₚ (map_to_list state).*1 →
  name ∈ getHiddenProps NumberToString ObjectToString state props
  ↔ State.parseHash hash !! (name +:+ HIDE_STATE_SUFFIX) = Some (Some "true").
Proof.
  intros E Hname Hprops. rewrite getHiddenProps_elem by done.
  set (key := name +:+ HIDE_STATE_SUFFIX).
  assert (endsWith key HIDE_STATE_SUFFIX = true) as He by (by apply endsWith_app).
  destruct (deserializeState_steps ToNumber fresh_seed hash state E)
    as (state1 & state2 & shape & E1 & -> & _ & _ & _ & Hother).
  rewrite Hother by (intros Hk; rewrite Hk in He; discriminate He).
  destruct (State.parseHash hash !! key) as [value|] eqn:Hvalue.
  - rewrite hide_loop_hit by (apply getHideProps_spec; by rewrite Hvalue).
    rewrite Hvalue. split.
    + intros (v & [= <-] & Htrue).
      destruct (bool_decide (Some value = Some (Some "true"))) eqn:Hd; [|done].
      by apply bool_decide_eq_true in Hd.
    + intros Hv. rewrite bool_decide_eq_true_2 by done. by exists (VBool true).
  - rewrite hide_loop_other.
    2:{ rewrite getHideProps_spec, Hvalue. by intros [[? ?] _]. }
    rewrite (forEachProp_other ToNumber _ State.PROPS key _ _ E1).
    2:{ intros (p & Hk & Hp)%list_elem_of_fmap.
        pose proof (proj1 (Forall_forall _ _) PROPS_not_hidden p Hp) as (Hh & _).
        congruence. }
    split; [|done]. intros (v & Hv & _).
    assert (endsWith key HIDE_STATE_SUFFIX = false) as Hnew
      by (apply new_not_hidden; by eexists).
    congruence.
Qed.

Lemma deserializeState_getHiddenProps_witness :
  ∃ state,
    State.deserializeState RoundTrip.ToNumber "0.50000" "#noise_hide=true&seed_hide=false"
    = inr state
    ∧ "noise" ∈ getHiddenProps RoundTrip.NumberToString RoundTrip.ObjectToString state
                  (map_to_list state).*1
    ∧ "seed" ∉ getHiddenProps RoundTrip.NumberToString RoundTrip.ObjectToString state
                 (map_to_list state).*1.
Proof.
  destruct (deserializeState_returns RoundTrip.ToNumber "0.50000"
              "#noise_hide=true&seed_hide=false") as [state E];
    [vm_compute; discriminate|].
  exists state. split; [exact E|]. split.
  - apply (deserializeState_getHiddenProps RoundTrip.NumberToString
             RoundTrip.ObjectToString RoundTrip.ToNumber "0.50000"
             "#noise_hide=true&seed_hide=false" state _ "noise" E);
      [reflexivity|reflexivity|vm_compute; reflexivity].
  - intros Hin.
    apply (deserializeState_getHiddenProps RoundTrip.NumberToString
             RoundTrip.ObjectToString RoundTrip.ToNumber "0.50000"
             "#noise_hide=true&seed_hide=false" state _ "seed" E) in Hin;
      [|reflexivity|reflexivity].
    vm_compute in Hin. discriminate Hin.
Defined.

(** * nn.ts: the ids of the links *)

Section link_id_facts.
Context (Math_random : nat → number)
        (regularization : option RegularizationFunction.obj) (initZero : bool).

Lemma link_ids_allocNode n : preserves (keeps link_ids) (allocNode n).
Proof.
  intros h Hl k l Hk. simpl in *. destruct (Hl k l Hk) as (s & d & Hs & Hd & Hid).
  exists s, d. split; [by apply lookup_app_l_Some|]. split; [by apply lookup_app_l_Some|done].
Qed.

Lemma link_ids_newLink source dest :
  preserves (keeps link_ids) (newLink Math_random source dest regularization initZero).
Proof.
  intros h Hl. unfold newLink. rewrite bind_run. unfold getNode at 1.
  destruct (nodes h !! source) as [s|] eqn:Hs; [|done].
  rewrite bind_run. unfold getNode at 1.
  destruct (nodes h !! dest) as [d|] eqn:Hd; [|done].
  intros k l Hk. simpl in Hk |- *.
  apply lookup_app_Some in Hk as [Hk|[Hge Hk]]; [by apply (Hl k)|].
  destruct (k - length (links h)) as [|j]; [|by destruct j].
  injection Hk as <-. by exists s, d.
Qed.

Lemma link_ids_modifyNode r f :
  (∀ n, Node.id (f n) = Node.id n) → preserves (keeps link_ids) (modifyNode r f).
Proof.
  intros Hf. apply preserves_modifyNode; [apply _|]. intros h Hl k l Hk.
  simpl in Hk |- *. destruct (Hl k l Hk) as (s & d & Hs & Hd & Hid).
  assert (∀ r' n, nodes h !! r' = Some n →
            ∃ n', alter f r (nodes h) !! r' = Some n' ∧ Node.id n' = Node.id n) as Halter.
  { intros r' n Hn. destruct (decide (r = r')) as [->|Hne].
    - exists (f n). by rewrite list_lookup_alter_eq, Hn.
    - exists n. by rewrite list_lookup_alter_ne. }
  destruct (Halter _ s Hs) as (s' & Hs' & Hids).
  destruct (Halter _ d Hd) as (d' & Hd' & Hidd).
  exists s', d'. split; [done|]. split; [done|]. by rewrite Hids, Hidd.
Qed.

(** X27. In the store [buildNetwork] leaves (from the empty store), the id
    of every link is the id of its source node, ["-"], and the id of its
    destination node, [undefined] ids reading ["undefined"]. *)
Theorem buildNetwork_link_ids networkShape activation outputActivation inputIds :
  link_ids (heap_of (buildNetwork Math_random networkShape activation outputActivation
                       regularization inputIds initZero emptyHeap)).
Proof.
  assert (preserves (keeps link_ids)
            (buildNetwork Math_random networkShape activation outputActivation
               regularization inputIds initZero)) as Hkeeps.
  { unfold buildNetwork.
    apply preserves_bind; [apply _ | | intros [id network]; apply preserves_ret, _].
    apply preserves_forEachAcc; [apply _|]. intros [id network] numNodes.
    unfold buildLayer.
    apply preserves_bind; [apply _ | | intros [id' currentLayer]; apply preserves_ret, _].
    apply preserves_forEachAcc; [apply _|]. intros [id' currentLayer] i.
    unfold buildNode.
    apply preserves_bind; [apply _ | apply link_ids_allocNode | intros node].
    apply preserves_bind; [apply _ | | intros _; apply preserves_ret, _].
    destruct (1 <=? length network)%nat; [|apply preserves_ret, _].
    destruct (network !! (length network - 1)%nat) as [prevLayer|];
      [|apply preserves_throw, _].
    apply preserves_forEach; [apply _|]. intros prevNode.
    apply preserves_bind; [apply _ | apply link_ids_newLink | intros link].
    apply preserves_bind; [apply _ | | intros _]; by apply link_ids_modifyNode. }
  apply Hkeeps. by intros [|k] l.
Qed.
End link_id_facts.

(** * nn.ts: a network of one layer *)

(** X28. A network of one layer, whose nodes are at once its inputs and
    its output layer: [forwardProp] returns its first input as it is, no
    activation function being applied; [backProp] writes the [outputDer] of
    the first node and nothing else; [updateWeights] writes nothing. *)
Theorem single_layer_network layer outputNode inputs x target errorFunc
    learningRate regularizationRate h :
  wf_heap h → wf_network [layer] h → NoDup layer →
  head layer = Some outputNode → head inputs = Some x →
  length inputs = length layer →
  forwardProp [layer] inputs h = Ok x (set_inputs h layer inputs)
  ∧ backProp [layer] target errorFunc h
    = Ok tt (alterNode outputNode
               (λ n, Node.set_outputDer
                       (ErrorFunction.der errorFunc (Node.output n) target) n) h)
  ∧ updateWeights [layer] learningRate regularizationRate h = Ok tt h.
Proof.
  intros Hwf Hnet Hnd Hhead Hx Hlen.
  assert (outputNodeOf [layer] = Some outputNode) as Hout by done.
  split; [|split].
  - destruct (forwardProp_spec [layer] inputs layer outputNode h) as [-> _]; try done.
    change (forward_spec [layer] inputs h) with (set_inputs h layer inputs).
    f_equal. unfold outputOf.
    destruct (wf_network_lookup [layer] h layer outputNode) as [n Hn];
      [done|by left|by apply head_Some_elem_of|].
    rewrite (set_inputs_lookup layer inputs h 0 outputNode x n); try done.
    + by destruct layer.
    + by destruct inputs.
  - destruct (backProp_spec [layer] target errorFunc outputNode h) as [-> _]; try done.
    unfold backward_spec. by rewrite Hout.
  - by destruct (updateWeights_spec [layer] learningRate regularizationRate h)
      as [-> _].
Qed.

Lemma single_layer_network_witness :
  ∃ h', forwardProp [[0; 1]]%nat [0.25; 0.75]%float Example.fresh = Ok 0.25%float h'.
Proof.
  destruct (single_layer_network [0; 1]%nat 0%nat [0.25; 0.75]%float 0.25%float 0%float
              Example.squareError 0.5%float 0.5%float Example.fresh) as [E _];
    [compute_done|compute_done|compute_done|reflexivity|reflexivity|reflexivity|].
  by eexists.
Defined.
